(** * swan-eslint-parser: a shallow embedding of the SWAN template parser

    The development follows the pipeline of the sources:
    code points -> [Tokenizer] -> [IntermediateTokenizer] -> [Parser],
    with the language layer ([processMustache], [processExpression],
    [processForExpression]) called by the parser and the script layer
    ([parseExpression]) called by the language layer.

    JavaScript strings are sequences of UTF-16 code units; here a string is
    a [list Z] of code units.  Offsets, lines and columns are [Z], as the
    sources use [-1] as a sentinel for them. *)

From Stdlib Require Import ZArith String Ascii Bool Lia Arith List.
Import ListNotations.

Set Warnings "-register-all".

Local Open Scope Z_scope.

(* ================================================================== *)
(** * JavaScript strings *)
(* ================================================================== *)

Module JS.

Definition str := list Z.

(** A string literal of the sources, as code units. *)
Definition lit (s : string) : str :=
  map (fun a => Z.of_nat (nat_of_ascii a)) (list_ascii_of_string s).

Definition len (s : str) : Z := Z.of_nat (length s).

Fixpoint eqb (a b : str) : bool :=
  match a, b with
  | [], [] => true
  | x :: a', y :: b' => Z.eqb x y && eqb a' b'
  | _, _ => false
  end.

(** [String.prototype.startsWith]. *)
Fixpoint startsWith (s p : str) : bool :=
  match p, s with
  | [], _ => true
  | c :: p', d :: s' => Z.eqb c d && startsWith s' p'
  | _ :: _, [] => false
  end.

(** [s.slice(k)] and [s.slice(a, b)] for the relative-index rules of
    ECMAScript: a negative index counts from the end, both are clamped to
    the length, and an empty string results when [from >= to]. *)
Definition clampIndex (n i : Z) : Z :=
  if i <? 0 then Z.max (n + i) 0 else Z.min i n.

Definition slice (s : str) (a b : Z) : str :=
  let n := len s in
  let from := clampIndex n a in
  let to := clampIndex n b in
  firstn (Z.to_nat (to - from)) (skipn (Z.to_nat from) s).

Definition sliceFrom (s : str) (a : Z) : str := slice s a (len s).

(** The character class [\w] of a regular expression without flags. *)
Definition isWordChar (c : Z) : bool :=
  ((48 <=? c) && (c <=? 57)) || ((65 <=? c) && (c <=? 90))
  || ((97 <=? c) && (c <=? 122)) || (c =? 95).

(** The character class [\s]: WhiteSpace and LineTerminator of ECMAScript.
    [String.prototype.trim] strips the same set. *)
Definition isSpaceChar (c : Z) : bool :=
  ((9 <=? c) && (c <=? 13)) || (c =? 32) || (c =? 160) || (c =? 5760)
  || ((8192 <=? c) && (c <=? 8202)) || (c =? 8232) || (c =? 8233)
  || (c =? 8239) || (c =? 8287) || (c =? 12288) || (c =? 65279).

(** Longest prefix whose characters satisfy [p], and the rest. *)
Fixpoint span (p : Z -> bool) (s : str) : str * str :=
  match s with
  | [] => ([], [])
  | c :: s' =>
      if p c then let '(a, b) := span p s' in (c :: a, b) else ([], s)
  end.

Definition trimStart (s : str) : str := snd (span isSpaceChar s).
Definition trim (s : str) : str := rev (trimStart (rev (trimStart s))).

(** Truthiness of a string: the empty string is falsy. *)
Definition truthy (s : str) : bool :=
  match s with [] => false | _ => true end.

End JS.

Arguments JS.lit s%_string.

(* ================================================================== *)
(** * The regular expressions of the language layer *)
(* ================================================================== *)

Module Regex.
Import JS.

(** [[\w-.]]: a word character, a hyphen or a dot. *)
Definition isNameChar (c : Z) : bool := isWordChar c || (c =? 45) || (c =? 46).

(** [^\w[\w-.]+$] on the rest of a key: the name part of DIRECTIVE_NAME. *)
Definition directiveNameRest (s : str) : bool :=
  match s with
  | c :: ((_ :: _) as tl) => isWordChar c && forallb isNameChar tl
  | _ => false
  end.

(** The alternatives of the first group of DIRECTIVE_NAME, in the order in
    which a backtracking matcher tries them ([bind:?] is greedy: with the
    colon first). *)
Definition directivePrefixes : list str :=
  [ lit "s-"; lit "bind:"; lit "bind"; lit "catch:"; lit "catch";
    lit "capture-bind:"; lit "capture-catch:" ].

Fixpoint firstPrefix (ps : list str) (s : str) : option (str * str) :=
  match ps with
  | [] => None
  | p :: ps' =>
      if startsWith s p && directiveNameRest (skipn (length p) s)
      then Some (p, skipn (length p) s)
      else firstPrefix ps' s
  end.

(** [name.match(DIRECTIVE_NAME)]: the groups [prefix] and [name], for
    [/^(s-|bind:?|catch:?|capture-bind:|capture-catch:)(\w[\w-.]+)$/]. *)
Definition DIRECTIVE_NAME_match (s : str) : option (str * str) :=
  firstPrefix directivePrefixes s.

Definition DIRECTIVE_NAME_test (s : str) : bool :=
  match DIRECTIVE_NAME_match s with Some _ => true | None => false end.

(** [identifierReg.exec(code)]: blanks (group [identifierLeft]), one or more
    word characters (group [identifierName]), blanks, end of input. *)
Definition identifierReg_exec (code : str) : option (str * str) :=
  let '(identifierLeft, r1) := span isSpaceChar code in
  let '(identifierName, r2) := span isWordChar r1 in
  match identifierName with
  | [] => None
  | _ => if forallb isSpaceChar r2
         then Some (identifierLeft, identifierName) else None
  end.

(** A quoted key at the head of [s]: a single or double quote, [[\w.-]+],
    the same quote again, blanks and a colon. *)
Definition quotedKey (s : str) : bool :=
  match s with
  | q :: r =>
      if (q =? 34) || (q =? 39) then
        let '(key, r1) := span isNameChar r in
        match key, r1 with
        | _ :: _, q' :: r2 =>
            (q' =? q) &&
            match snd (span isSpaceChar r2) with
            | c :: _ => c =? 58
            | [] => false
            end
        | _, _ => false
        end
      else false
  | [] => false
  end.

(** A bare key at the head of [s]: word characters, blanks, a colon. *)
Definition bareKey (s : str) : bool :=
  let '(key, r1) := span isWordChar s in
  match key with
  | [] => false
  | _ => match snd (span isSpaceChar r1) with
         | c :: _ => c =? 58
         | [] => false
         end
  end.

(** [memberExpression.test(code)]: after leading blanks, either a bare key
    (word characters, blanks, a colon) or a quoted key. *)
Definition memberExpression_test (code : str) : bool :=
  let r := snd (span isSpaceChar code) in
  bareKey r || quotedKey r.

(** The keywords of [keyReg]. *)
Inductive ForKeyword := KwIn | KwTrackBy.

Definition keywordText (k : ForKeyword) : str :=
  match k with KwIn => lit "in" | KwTrackBy => lit "trackBy" end.

(** One match of [/(?<ws>\s)(?<keyword>in|trackBy)\s/] anchored at the head
    of [s]: the alternative [in] is tried first. *)
Definition keyAtHead (s : str) : option ForKeyword :=
  match s with
  | w :: r =>
      if isSpaceChar w then
        if startsWith r (lit "in") &&
           match skipn 2 r with c :: _ => isSpaceChar c | [] => false end
        then Some KwIn
        else if startsWith r (lit "trackBy") &&
           match skipn 7 r with c :: _ => isSpaceChar c | [] => false end
        then Some KwTrackBy
        else None
      else None
  | [] => None
  end.

(** [keyReg.exec(code)] with [keyReg.lastIndex = i] on entry: the leftmost
    match at or after [i], as [(match.index, keyword)].  [s] is the part of
    the code from index [i] on. *)
Fixpoint keyReg_scan (s : str) (i : Z) : option (Z * ForKeyword) :=
  match keyAtHead s with
  | Some k => Some (i, k)
  | None => match s with
            | [] => None
            | _ :: s' => keyReg_scan s' (i + 1)
            end
  end.

Definition keyReg_exec (code : str) (lastIndex : Z) : option (Z * ForKeyword) :=
  if len code <? lastIndex then None
  else keyReg_scan (skipn (Z.to_nat lastIndex) code) lastIndex.

(** [match[0].length]: the blank, the keyword and the blank after it. *)
Definition keyMatchLength (k : ForKeyword) : Z := len (keywordText k) + 2.

(** [/^The keyword '\w+' is reserved/.test(message)]. *)
Definition reservedKeyword_test (message : str) : bool :=
  if startsWith message (lit "The keyword '") then
    let r := skipn 13 message in
    let '(w, r1) := span isWordChar r in
    match w with
    | [] => false
    | _ => startsWith r1 (lit "' is reserved")
    end
  else false.

End Regex.

(* ================================================================== *)
(** * Locations, tokens and parse errors (types/ast.d.ts, common.ts) *)
(* ================================================================== *)

Record Location := mkLocation { ln : Z; col : Z }.

Record LocationRange := mkLocationRange { loc_start : Location; loc_end : Location }.

Definition OffsetRange := (Z * Z)%type.

(** [Token.type] is a string; the seventeen kinds the tokenizer makes are
    constructors, every kind of the script parser ([Identifier], [Keyword],
    [Punctuator], ...) is [ScriptToken] of its name. *)
Inductive TokenType :=
| HTMLAssociation | HTMLBogusComment | HTMLComment | HTMLEndTagOpen
| HTMLIdentifier | HTMLLiteral | HTMLAttrLiteral | HTMLQuote
| HTMLRCDataText | HTMLRawText | HTMLSelfClosingTagClose | HTMLTagClose
| HTMLTagOpen | HTMLText | HTMLWhitespace | XMustacheStart | XMustacheEnd
| ScriptToken (kind : string).

Definition TokenType_eqb (a b : TokenType) : bool :=
  match a, b with
  | HTMLAssociation, HTMLAssociation | HTMLBogusComment, HTMLBogusComment
  | HTMLComment, HTMLComment | HTMLEndTagOpen, HTMLEndTagOpen
  | HTMLIdentifier, HTMLIdentifier | HTMLLiteral, HTMLLiteral
  | HTMLAttrLiteral, HTMLAttrLiteral | HTMLQuote, HTMLQuote
  | HTMLRCDataText, HTMLRCDataText | HTMLRawText, HTMLRawText
  | HTMLSelfClosingTagClose, HTMLSelfClosingTagClose
  | HTMLTagClose, HTMLTagClose | HTMLTagOpen, HTMLTagOpen
  | HTMLText, HTMLText | HTMLWhitespace, HTMLWhitespace
  | XMustacheStart, XMustacheStart | XMustacheEnd, XMustacheEnd => true
  | ScriptToken x, ScriptToken y => String.eqb x y
  | _, _ => false
  end.

(** A token object.  JavaScript objects have an identity: the same token
    object sits in [document.tokens] and in a mustache's [startToken].
    [tok_ref] is that identity; the tokenizer numbers the objects it
    creates from 1, and 0 is the identity of every token made elsewhere
    (script tokens, synthetic tokens), which nothing updates in place. *)
Record Token := mkToken {
  tok_ref : nat;
  tok_type : TokenType;
  tok_range : OffsetRange;
  tok_loc : LocationRange;
  tok_value : JS.str
}.

Abbreviation ErrorCode := string.

(** [class ParseError extends SyntaxError] of common.ts. *)
Record ParseError := mkParseError {
  pe_message : JS.str;
  pe_code : option ErrorCode;
  pe_index : Z;
  pe_lineNumber : Z;
  pe_column : Z
}.

Module ParseErrors.

(** [ParseError.fromCode(code, offset, line, column)]:
    [new ParseError(code, code, offset, line, column)]. *)
Definition fromCode (c : ErrorCode) (offset ln col : Z) : ParseError :=
  mkParseError (JS.lit c) (Some c) offset ln col.

End ParseErrors.

(** The values a [throw] can raise in these sources. *)
Inductive Exn :=
| ErrorExn (msg : string)            (* [new Error(...)] *)
| AssertionExn (msg : string)        (* a failed [assert(...)] *)
| RangeErrorExn                      (* [String.fromCodePoint] of no code point *)
| TypeErrorExn (msg : string)        (* a property of [null] or [undefined] *)
| ParseErrorExn (e : ParseError)     (* a thrown parse error *)
| ForeignExn (msg : string)          (* any other value a library throws *)
| OutOfFuel.                         (* the model's loop bound was too small *)

(* ================================================================== *)
(** * State and exceptions *)
(* ================================================================== *)

(** The outcome of a computation: a value, or a thrown exception; either
    way with the state it leaves, as a [throw] undoes no assignment. *)
Inductive Res (S A : Type) :=
| Ok (a : A) (s : S)
| Throw (e : Exn) (s : S).
Arguments Ok {S A} a s.
Arguments Throw {S A} e s.

Definition M (S A : Type) := S -> Res S A.

Definition ret {S A} (a : A) : M S A := fun s => Ok a s.

Definition bind {S A B} (m : M S A) (k : A -> M S B) : M S B :=
  fun s => match m s with
           | Ok a s' => k a s'
           | Throw e s' => Throw e s'
           end.

Definition throw {S A} (e : Exn) : M S A := fun s => Throw e s.

(** [try { m } catch (e) { h e }]. *)
Definition tryCatch {S A} (m : M S A) (h : Exn -> M S A) : M S A :=
  fun s => match m s with
           | Ok a s' => Ok a s'
           | Throw e s' => h e s'
           end.
Definition gets {S A} (f : S -> A) : M S A := fun s => Ok (f s) s.
Definition modify {S} (f : S -> S) : M S unit := fun s => Ok tt (f s).

(** [if (c) { m }] with no [else]. *)
Definition when {S} (c : bool) (m : M S unit) : M S unit :=
  if c then m else ret tt.

(** [assert(c, msg)]. *)
Definition assert {S} (c : bool) (msg : string) : M S unit :=
  if c then ret tt else throw (AssertionExn msg).

Declare Scope monad_scope.
Delimit Scope monad_scope with monad.
Notation "x <- c1 ;; c2" := (bind c1 (fun x => c2))
  (at level 61, c1 at next level, right associativity) : monad_scope.
Notation "c1 ;; c2" := (bind c1 (fun _ => c2))
  (at level 61, right associativity) : monad_scope.
Local Open Scope monad_scope.

Definition isSome {A} (o : option A) : bool :=
  match o with Some _ => true | None => false end.

(* ================================================================== *)
(** * Code points (unicode.ts) *)
(* ================================================================== *)

Module Unicode.

Definition EOF := -1.
Definition NULL := 0.
Definition TABULATION := 9.
Definition CARRIAGE_RETURN := 13.
Definition LINE_FEED := 10.
Definition FORM_FEED := 12.
Definition SPACE := 32.
Definition EXCLAMATION_MARK := 33.
Definition QUOTATION_MARK := 34.
Definition NUMBER_SIGN := 35.
Definition APOSTROPHE := 39.
Definition HYPHEN_MINUS := 45.
Definition SOLIDUS := 47.
Definition LESS_THAN_SIGN := 60.
Definition EQUALS_SIGN := 61.
Definition GREATER_THAN_SIGN := 62.
Definition QUESTION_MARK := 63.
Definition LATIN_CAPITAL_A := 65.
Definition LATIN_CAPITAL_Z := 90.
Definition GRAVE_ACCENT := 96.
Definition LATIN_SMALL_A := 97.
Definition LATIN_SMALL_Z := 122.
Definition LEFT_CURLY_BRACKET := 123.
Definition RIGHT_CURLY_BRACKET := 125.
Definition NULL_REPLACEMENT := 65533.

Definition isWhitespace (cp : Z) : bool :=
  (cp =? TABULATION) || (cp =? LINE_FEED) || (cp =? FORM_FEED)
  || (cp =? CARRIAGE_RETURN) || (cp =? SPACE).

Definition isUpperLetter (cp : Z) : bool :=
  (LATIN_CAPITAL_A <=? cp) && (cp <=? LATIN_CAPITAL_Z).

Definition isLowerLetter (cp : Z) : bool :=
  (LATIN_SMALL_A <=? cp) && (cp <=? LATIN_SMALL_Z).

Definition isLetter (cp : Z) : bool := isLowerLetter cp || isUpperLetter cp.

Definition isControl (cp : Z) : bool :=
  ((0 <=? cp) && (cp <=? 31)) || ((127 <=? cp) && (cp <=? 159)).

Definition isSurrogate (cp : Z) : bool := (55296 <=? cp) && (cp <=? 57343).

Definition isSurrogatePair (cp : Z) : bool := (56320 <=? cp) && (cp <=? 57343).

Definition isNonCharacter (cp : Z) : bool :=
  ((64976 <=? cp) && (cp <=? 65007))
  || ((Z.land cp 65534 =? 65534) && (cp <=? 1114111)).

Definition toLowerCodePoint (cp : Z) : Z := cp + 32.

(** [text.charCodeAt(i)]; [None] stands for [NaN]. *)
Definition charCodeAt (text : JS.str) (i : Z) : option Z :=
  if i <? 0 then None else nth_error text (Z.to_nat i).

(** [text.codePointAt(i)]; [None] stands for [undefined]. *)
Definition codePointAt (text : JS.str) (i : Z) : option Z :=
  match charCodeAt text i with
  | None => None
  | Some hi =>
      if (55296 <=? hi) && (hi <=? 56319) then
        match charCodeAt text (i + 1) with
        | Some lo =>
            if isSurrogatePair lo
            then Some ((hi - 55296) * 1024 + (lo - 56320) + 65536)
            else Some hi
        | None => Some hi
        end
      else Some hi
  end.

(** [String.fromCodePoint(cp)]; [None] stands for the [RangeError]. *)
Definition fromCodePoint (cp : Z) : option JS.str :=
  if (cp <? 0) || (1114111 <? cp) then None
  else if cp <? 65536 then Some [cp]
  else Some [ (cp - 65536) / 1024 + 55296; (cp - 65536) mod 1024 + 56320 ].

End Unicode.

(* ================================================================== *)
(** * The tokenizer (tokenizer.ts) *)
(* ================================================================== *)

Inductive TokenizerState :=
| DATA | TAG_OPEN | END_TAG_OPEN | TAG_NAME
| RCDATA | RCDATA_LESS_THAN_SIGN | RCDATA_END_TAG_OPEN | RCDATA_END_TAG_NAME
| RAWTEXT | RAWTEXT_LESS_THAN_SIGN | RAWTEXT_END_TAG_OPEN | RAWTEXT_END_TAG_NAME
| BEFORE_ATTRIBUTE_NAME | ATTRIBUTE_NAME | AFTER_ATTRIBUTE_NAME
| BEFORE_ATTRIBUTE_VALUE | ATTRIBUTE_VALUE_DOUBLE_QUOTED
| ATTRIBUTE_VALUE_SINGLE_QUOTED | ATTRIBUTE_VALUE_UNQUOTED
| AFTER_ATTRIBUTE_VALUE_QUOTED | SELF_CLOSING_START_TAG | BOGUS_COMMENT
| MARKUP_DECLARATION_OPEN | COMMENT_START | COMMENT_START_DASH | COMMENT
| COMMENT_LESS_THAN_SIGN | COMMENT_LESS_THAN_SIGN_BANG
| COMMENT_LESS_THAN_SIGN_BANG_DASH | COMMENT_LESS_THAN_SIGN_BANG_DASH_DASH
| COMMENT_END_DASH | COMMENT_END | COMMENT_END_BANG
| X_EXPRESSION_START | X_EXPRESSION_END.

Module Tokenizer.
Import Unicode.

Record t := mk {
  text : JS.str;
  gaps : list Z;
  lineTerminators : list Z;
  lastCodePoint : Z;
  offset : Z;
  column : Z;
  line : Z;
  returnState : TokenizerState;
  reconsuming : bool;
  buffer : list Z;
  committedToken : option Token;
  provisionalToken : option Token;
  currentToken : option Token;
  lastTagOpenToken : option Token;
  tokenStartOffset : Z;
  tokenStartLine : Z;
  tokenStartColumn : Z;
  state : TokenizerState;
  errors : list ParseError;
  expressionEnabled : bool;
  tagOpenEnabled : bool;
  nextRef : nat;  (* identity of the next token object *)
  discarded : list nat  (* identities of the tokens cancelled by a rollback *)
}.

Definition set_gaps (v : list Z) (x : t) : t :=
  mk (text x) v (lineTerminators x) (lastCodePoint x) (offset x) (column x)
    (line x) (returnState x) (reconsuming x) (buffer x) (committedToken x)
    (provisionalToken x) (currentToken x) (lastTagOpenToken x)
    (tokenStartOffset x) (tokenStartLine x) (tokenStartColumn x) (state x)
    (errors x) (expressionEnabled x) (tagOpenEnabled x) (nextRef x)
    (discarded x).
Definition set_lineTerminators (v : list Z) (x : t) : t :=
  mk (text x) (gaps x) v (lastCodePoint x) (offset x) (column x) (line x)
    (returnState x) (reconsuming x) (buffer x) (committedToken x)
    (provisionalToken x) (currentToken x) (lastTagOpenToken x)
    (tokenStartOffset x) (tokenStartLine x) (tokenStartColumn x) (state x)
    (errors x) (expressionEnabled x) (tagOpenEnabled x) (nextRef x)
    (discarded x).
Definition set_lastCodePoint (v : Z) (x : t) : t :=
  mk (text x) (gaps x) (lineTerminators x) v (offset x) (column x) (line x)
    (returnState x) (reconsuming x) (buffer x) (committedToken x)
    (provisionalToken x) (currentToken x) (lastTagOpenToken x)
    (tokenStartOffset x) (tokenStartLine x) (tokenStartColumn x) (state x)
    (errors x) (expressionEnabled x) (tagOpenEnabled x) (nextRef x)
    (discarded x).
Definition set_offset (v : Z) (x : t) : t :=
  mk (text x) (gaps x) (lineTerminators x) (lastCodePoint x) v (column x)
    (line x) (returnState x) (reconsuming x) (buffer x) (committedToken x)
    (provisionalToken x) (currentToken x) (lastTagOpenToken x)
    (tokenStartOffset x) (tokenStartLine x) (tokenStartColumn x) (state x)
    (errors x) (expressionEnabled x) (tagOpenEnabled x) (nextRef x)
    (discarded x).
Definition set_column (v : Z) (x : t) : t :=
  mk (text x) (gaps x) (lineTerminators x) (lastCodePoint x) (offset x) v
    (line x) (returnState x) (reconsuming x) (buffer x) (committedToken x)
    (provisionalToken x) (currentToken x) (lastTagOpenToken x)
    (tokenStartOffset x) (tokenStartLine x) (tokenStartColumn x) (state x)
    (errors x) (expressionEnabled x) (tagOpenEnabled x) (nextRef x)
    (discarded x).
Definition set_line (v : Z) (x : t) : t :=
  mk (text x) (gaps x) (lineTerminators x) (lastCodePoint x) (offset x)
    (column x) v (returnState x) (reconsuming x) (buffer x)
    (committedToken x) (provisionalToken x) (currentToken x)
    (lastTagOpenToken x) (tokenStartOffset x) (tokenStartLine x)
    (tokenStartColumn x) (state x) (errors x) (expressionEnabled x)
    (tagOpenEnabled x) (nextRef x) (discarded x).
Definition set_returnState (v : TokenizerState) (x : t) : t :=
  mk (text x) (gaps x) (lineTerminators x) (lastCodePoint x) (offset x)
    (column x) (line x) v (reconsuming x) (buffer x) (committedToken x)
    (provisionalToken x) (currentToken x) (lastTagOpenToken x)
    (tokenStartOffset x) (tokenStartLine x) (tokenStartColumn x) (state x)
    (errors x) (expressionEnabled x) (tagOpenEnabled x) (nextRef x)
    (discarded x).
Definition set_reconsuming (v : bool) (x : t) : t :=
  mk (text x) (gaps x) (lineTerminators x) (lastCodePoint x) (offset x)
    (column x) (line x) (returnState x) v (buffer x) (committedToken x)
    (provisionalToken x) (currentToken x) (lastTagOpenToken x)
    (tokenStartOffset x) (tokenStartLine x) (tokenStartColumn x) (state x)
    (errors x) (expressionEnabled x) (tagOpenEnabled x) (nextRef x)
    (discarded x).
Definition set_buffer (v : list Z) (x : t) : t :=
  mk (text x) (gaps x) (lineTerminators x) (lastCodePoint x) (offset x)
    (column x) (line x) (returnState x) (reconsuming x) v (committedToken x)
    (provisionalToken x) (currentToken x) (lastTagOpenToken x)
    (tokenStartOffset x) (tokenStartLine x) (tokenStartColumn x) (state x)
    (errors x) (expressionEnabled x) (tagOpenEnabled x) (nextRef x)
    (discarded x).
Definition set_committedToken (v : option Token) (x : t) : t :=
  mk (text x) (gaps x) (lineTerminators x) (lastCodePoint x) (offset x)
    (column x) (line x) (returnState x) (reconsuming x) (buffer x) v
    (provisionalToken x) (currentToken x) (lastTagOpenToken x)
    (tokenStartOffset x) (tokenStartLine x) (tokenStartColumn x) (state x)
    (errors x) (expressionEnabled x) (tagOpenEnabled x) (nextRef x)
    (discarded x).
Definition set_provisionalToken (v : option Token) (x : t) : t :=
  mk (text x) (gaps x) (lineTerminators x) (lastCodePoint x) (offset x)
    (column x) (line x) (returnState x) (reconsuming x) (buffer x)
    (committedToken x) v (currentToken x) (lastTagOpenToken x)
    (tokenStartOffset x) (tokenStartLine x) (tokenStartColumn x) (state x)
    (errors x) (expressionEnabled x) (tagOpenEnabled x) (nextRef x)
    (discarded x).
Definition set_currentToken (v : option Token) (x : t) : t :=
  mk (text x) (gaps x) (lineTerminators x) (lastCodePoint x) (offset x)
    (column x) (line x) (returnState x) (reconsuming x) (buffer x)
    (committedToken x) (provisionalToken x) v (lastTagOpenToken x)
    (tokenStartOffset x) (tokenStartLine x) (tokenStartColumn x) (state x)
    (errors x) (expressionEnabled x) (tagOpenEnabled x) (nextRef x)
    (discarded x).
Definition set_lastTagOpenToken (v : option Token) (x : t) : t :=
  mk (text x) (gaps x) (lineTerminators x) (lastCodePoint x) (offset x)
    (column x) (line x) (returnState x) (reconsuming x) (buffer x)
    (committedToken x) (provisionalToken x) (currentToken x) v
    (tokenStartOffset x) (tokenStartLine x) (tokenStartColumn x) (state x)
    (errors x) (expressionEnabled x) (tagOpenEnabled x) (nextRef x)
    (discarded x).
Definition set_tokenStartOffset (v : Z) (x : t) : t :=
  mk (text x) (gaps x) (lineTerminators x) (lastCodePoint x) (offset x)
    (column x) (line x) (returnState x) (reconsuming x) (buffer x)
    (committedToken x) (provisionalToken x) (currentToken x)
    (lastTagOpenToken x) v (tokenStartLine x) (tokenStartColumn x) (state x)
    (errors x) (expressionEnabled x) (tagOpenEnabled x) (nextRef x)
    (discarded x).
Definition set_tokenStartLine (v : Z) (x : t) : t :=
  mk (text x) (gaps x) (lineTerminators x) (lastCodePoint x) (offset x)
    (column x) (line x) (returnState x) (reconsuming x) (buffer x)
    (committedToken x) (provisionalToken x) (currentToken x)
    (lastTagOpenToken x) (tokenStartOffset x) v (tokenStartColumn x)
    (state x) (errors x) (expressionEnabled x) (tagOpenEnabled x) (nextRef x)
    (discarded x).
Definition set_tokenStartColumn (v : Z) (x : t) : t :=
  mk (text x) (gaps x) (lineTerminators x) (lastCodePoint x) (offset x)
    (column x) (line x) (returnState x) (reconsuming x) (buffer x)
    (committedToken x) (provisionalToken x) (currentToken x)
    (lastTagOpenToken x) (tokenStartOffset x) (tokenStartLine x) v (state x)
    (errors x) (expressionEnabled x) (tagOpenEnabled x) (nextRef x)
    (discarded x).
Definition set_state (v : TokenizerState) (x : t) : t :=
  mk (text x) (gaps x) (lineTerminators x) (lastCodePoint x) (offset x)
    (column x) (line x) (returnState x) (reconsuming x) (buffer x)
    (committedToken x) (provisionalToken x) (currentToken x)
    (lastTagOpenToken x) (tokenStartOffset x) (tokenStartLine x)
    (tokenStartColumn x) v (errors x) (expressionEnabled x)
    (tagOpenEnabled x) (nextRef x) (discarded x).
Definition set_errors (v : list ParseError) (x : t) : t :=
  mk (text x) (gaps x) (lineTerminators x) (lastCodePoint x) (offset x)
    (column x) (line x) (returnState x) (reconsuming x) (buffer x)
    (committedToken x) (provisionalToken x) (currentToken x)
    (lastTagOpenToken x) (tokenStartOffset x) (tokenStartLine x)
    (tokenStartColumn x) (state x) v (expressionEnabled x) (tagOpenEnabled x)
    (nextRef x) (discarded x).
Definition set_expressionEnabled (v : bool) (x : t) : t :=
  mk (text x) (gaps x) (lineTerminators x) (lastCodePoint x) (offset x)
    (column x) (line x) (returnState x) (reconsuming x) (buffer x)
    (committedToken x) (provisionalToken x) (currentToken x)
    (lastTagOpenToken x) (tokenStartOffset x) (tokenStartLine x)
    (tokenStartColumn x) (state x) (errors x) v (tagOpenEnabled x)
    (nextRef x) (discarded x).
Definition set_tagOpenEnabled (v : bool) (x : t) : t :=
  mk (text x) (gaps x) (lineTerminators x) (lastCodePoint x) (offset x)
    (column x) (line x) (returnState x) (reconsuming x) (buffer x)
    (committedToken x) (provisionalToken x) (currentToken x)
    (lastTagOpenToken x) (tokenStartOffset x) (tokenStartLine x)
    (tokenStartColumn x) (state x) (errors x) (expressionEnabled x) v
    (nextRef x) (discarded x).
Definition set_nextRef (v : nat) (x : t) : t :=
  mk (text x) (gaps x) (lineTerminators x) (lastCodePoint x) (offset x)
    (column x) (line x) (returnState x) (reconsuming x) (buffer x)
    (committedToken x) (provisionalToken x) (currentToken x)
    (lastTagOpenToken x) (tokenStartOffset x) (tokenStartLine x)
    (tokenStartColumn x) (state x) (errors x) (expressionEnabled x)
    (tagOpenEnabled x) v (discarded x).
Definition set_discarded (v : list nat) (x : t) : t :=
  mk (text x) (gaps x) (lineTerminators x) (lastCodePoint x) (offset x)
    (column x) (line x) (returnState x) (reconsuming x) (buffer x)
    (committedToken x) (provisionalToken x) (currentToken x)
    (lastTagOpenToken x) (tokenStartOffset x) (tokenStartLine x)
    (tokenStartColumn x) (state x) (errors x) (expressionEnabled x)
    (tagOpenEnabled x) (nextRef x) v.


(** [new Tokenizer(text)]. *)
Definition new (txt : JS.str) : t :=
  mk txt [] [] NULL (-1) (-1) 1 DATA false [] None None None None
     (-1) 1 (-1) DATA [] false true 1%nat [].

Definition withValue (tok : Token) (v : JS.str) : Token :=
  mkToken (tok_ref tok) (tok_type tok) (tok_range tok) (tok_loc tok) v.

(** [token.range[1] = offset; token.loc.end = {line, column}]. *)
Definition withEnd (tok : Token) (off ln' col' : Z) : Token :=
  mkToken (tok_ref tok) (tok_type tok) (fst (tok_range tok), off)
          (mkLocationRange (loc_start (tok_loc tok)) (mkLocation ln' col'))
          (tok_value tok).

Definition consumeCommittedToken : M t (option Token) :=
  token <- gets committedToken ;;
  modify (set_committedToken None) ;;
  ret token.

Definition reportParseError (c : ErrorCode) : M t unit :=
  modify (fun x =>
    set_errors (errors x ++ [ParseErrors.fromCode c (offset x) (line x) (column x)]) x).

Definition advanceLocation : M t unit :=
  modify (fun x =>
    if lastCodePoint x =? LINE_FEED then
      set_column 0 (set_line (line x + 1)
        (set_lineTerminators (lineTerminators x ++ [offset x]) x))
    else
      set_column (column x + (if 65536 <=? lastCodePoint x then 2 else 1)) x).

Definition optTest (p : Z -> bool) (o : option Z) : bool :=
  match o with Some c => p c | None => false end.

(** [consumeNextCodePoint] calls itself once, to skip the LF of a CRLF;
    [n] bounds the depth of that recursion. *)
Fixpoint consumeNextCodePoint_rec (n : nat) : M t Z :=
  match n with
  | O => throw OutOfFuel
  | S n' =>
      off <- gets offset ;;
      txt <- gets text ;;
      if JS.len txt <=? off then
        modify (set_lastCodePoint EOF) ;; ret EOF
      else
        last <- gets lastCodePoint ;;
        modify (set_offset (off + (if 65536 <=? last then 2 else 1))) ;;
        off <- gets offset ;;
        if JS.len txt <=? off then
          advanceLocation ;; modify (set_lastCodePoint EOF) ;; ret EOF
        else
          match codePointAt txt off with
          | None => throw (TypeErrorExn "codePointAt")
          | Some cp =>
              when (optTest isSurrogate (charCodeAt txt off)
                    && negb (optTest isSurrogatePair (charCodeAt txt (off + 1))))
                   (reportParseError "surrogate-in-input-stream") ;;
              when (isNonCharacter cp)
                   (reportParseError "noncharacter-in-input-stream") ;;
              when (isControl cp && negb (isWhitespace cp) && negb (cp =? NULL))
                   (reportParseError "control-character-in-input-stream") ;;
              last <- gets lastCodePoint ;;
              if (last =? CARRIAGE_RETURN) && (cp =? LINE_FEED) then
                modify (set_lastCodePoint LINE_FEED) ;;
                modify (fun x => set_gaps (gaps x ++ [offset x]) x) ;;
                consumeNextCodePoint_rec n'
              else
                advanceLocation ;;
                modify (set_lastCodePoint cp) ;;
                ret (if cp =? CARRIAGE_RETURN then LINE_FEED else cp)
          end
  end.

Definition consumeNextCodePoint : M t Z := consumeNextCodePoint_rec 2.

Definition reconsumeAs (s : TokenizerState) : M t TokenizerState :=
  modify (set_reconsuming true) ;; ret s.

Definition setStartTokenMark : M t unit :=
  modify (fun x =>
    set_tokenStartColumn (column x)
      (set_tokenStartLine (line x) (set_tokenStartOffset (offset x) x))).

Definition clearStartTokenMark : M t unit := modify (set_tokenStartOffset (-1)).

Definition isProvisionalStateOf (s : TokenizerState) : bool :=
  match s with
  | RCDATA_LESS_THAN_SIGN | RCDATA_END_TAG_OPEN | RCDATA_END_TAG_NAME
  | RAWTEXT_LESS_THAN_SIGN | RAWTEXT_END_TAG_OPEN | RAWTEXT_END_TAG_NAME => true
  | _ => false
  end.

(** [this.state.startsWith('RCDATA_') || this.state.startsWith('RAWTEXT_')]. *)
Definition isProvisionalState : M t bool :=
  gets (fun x => isProvisionalStateOf (state x)).

Definition commitToken (token : Token) : M t unit :=
  c <- gets committedToken ;;
  assert (negb (isSome c)) "Invalid state: the commited token existed already." ;;
  modify (set_committedToken (Some token)) ;;
  when (TokenType_eqb (tok_type token) HTMLTagOpen)
       (modify (set_lastTagOpenToken (Some token))).

Definition commitProvisionalToken : M t unit :=
  p <- gets provisionalToken ;;
  match p with
  | None => throw (AssertionExn "Invalid state: the provisional token was not found.")
  | Some token =>
      modify (set_provisionalToken None) ;;
      when (fst (tok_range token) <? snd (tok_range token)) (commitToken token)
  end.

(** The cancelled token is recorded in [discarded]; the sources only log it. *)
Definition rollbackProvisionalToken : M t unit :=
  c <- gets currentToken ;;
  p <- gets provisionalToken ;;
  match c, p with
  | Some token, Some prov =>
      modify (fun x => set_discarded (tok_ref token :: discarded x) x) ;;
      modify (set_currentToken (Some prov)) ;;
      modify (set_provisionalToken None)
  | _, _ => throw (AssertionExn "rollbackProvisionalToken")
  end.

Definition endToken : M t (option Token) :=
  c <- gets currentToken ;;
  match c with
  | None => throw (ErrorExn "Invalid state")
  | Some token =>
      m <- gets tokenStartOffset ;;
      when (m =? -1) setStartTokenMark ;;
      off <- gets tokenStartOffset ;;
      ln' <- gets tokenStartLine ;;
      col' <- gets tokenStartColumn ;;
      provisional <- isProvisionalState ;;
      modify (set_currentToken None) ;;
      modify (set_tokenStartOffset (-1)) ;;
      let token := withEnd token off ln' col' in
      if (fst (tok_range token) =? off) && negb provisional then ret None
      else
        (if provisional then
           p <- gets provisionalToken ;;
           when (isSome p) commitProvisionalToken ;;
           modify (set_provisionalToken (Some token))
         else commitToken token) ;;
        ret (Some token)
  end.

Definition startToken (ty : TokenType) : M t unit :=
  m <- gets tokenStartOffset ;;
  when (m =? -1) setStartTokenMark ;;
  off <- gets tokenStartOffset ;;
  ln' <- gets tokenStartLine ;;
  col' <- gets tokenStartColumn ;;
  c <- gets currentToken ;;
  when (isSome c) (endToken ;; ret tt) ;;
  modify (set_tokenStartOffset (-1)) ;;
  r <- gets nextRef ;;
  modify (set_nextRef (S r)) ;;
  modify (set_currentToken (Some
    (mkToken r ty (off, -1)
       (mkLocationRange (mkLocation ln' col') (mkLocation (-1) (-1))) []))).

Definition appendTokenValue (cp : Z) (expected : option TokenType) : M t unit :=
  c <- gets currentToken ;;
  match c with
  | None => throw (ErrorExn "Tokenizer: Invalid state.")
  | Some token =>
      if match expected with
         | Some e => negb (TokenType_eqb (tok_type token) e)
         | None => false
         end
      then throw (ErrorExn "Tokenizer: Invalid state.")
      else match fromCodePoint cp with
           | None => throw RangeErrorExn
           | Some s =>
               modify (set_currentToken (Some (withValue token (tok_value token ++ s))))
           end
  end.

(** [this.appendTokenValue(this.text.codePointAt(i), null)]. *)
Definition appendCodePointAt (i : Z) : M t unit :=
  txt <- gets text ;;
  c <- gets currentToken ;;
  match c, codePointAt txt i with
  | Some _, None => throw RangeErrorExn
  | _, Some cp => appendTokenValue cp None
  | None, None => throw (ErrorExn "Tokenizer: Invalid state.")
  end.

Definition isAppropriateEndTagOpen : M t bool :=
  c <- gets currentToken ;;
  l <- gets lastTagOpenToken ;;
  ret match c, l with
      | Some cur, Some lastOpen =>
          TokenType_eqb (tok_type cur) HTMLEndTagOpen
          && JS.eqb (tok_value cur) (tok_value lastOpen)
      | _, _ => false
      end.

Definition lower (cp : Z) : Z :=
  if isUpperLetter cp then toLowerCodePoint cp else cp.

(** [for (const cp1 of this.buffer) this.appendTokenValue(cp1, ty)]. *)
Fixpoint appendAll (cps : list Z) (ty : TokenType) : M t unit :=
  match cps with
  | [] => ret tt
  | c :: cps' => appendTokenValue c (Some ty) ;; appendAll cps' ty
  end.

Definition currentTypeIsNot (ty : TokenType) : M t bool :=
  c <- gets currentToken ;;
  ret match c with
      | Some token => negb (TokenType_eqb (tok_type token) ty)
      | None => false
      end.

Definition startTokenIfNone (ty : TokenType) : M t unit :=
  c <- gets currentToken ;;
  when (negb (isSome c)) (startToken ty).

(** ** The states

    Every [while (true)] of a state consumes one code point per turn and
    returns at [EOF]; the models of these loops take a bound [n] on the
    number of turns. *)

(** The common head of DATA, RCDATA and RAWTEXT and of the quoted
    attribute-value states: close a token of another type and reconsume,
    or make sure a token of type [ty] is open. *)
Definition retype (ty : TokenType) (k : M t TokenizerState) : M t TokenizerState :=
  other <- currentTypeIsNot ty ;;
  if other then
    endToken ;; s <- gets state ;; reconsumeAs s
  else
    startTokenIfNone ty ;; k.

Fixpoint DATA_loop (n : nat) (cp : Z) : M t TokenizerState :=
  match n with
  | O => throw OutOfFuel
  | S n' =>
      let ty := if isWhitespace cp then HTMLWhitespace else HTMLText in
      retype ty (
        tagOpen <- gets tagOpenEnabled ;;
        expr <- gets expressionEnabled ;;
        if (cp =? LESS_THAN_SIGN) && tagOpen then
          setStartTokenMark ;; ret TAG_OPEN
        else if (cp =? LEFT_CURLY_BRACKET) && expr then
          setStartTokenMark ;; modify (set_returnState DATA) ;; ret X_EXPRESSION_START
        else if (cp =? RIGHT_CURLY_BRACKET) && expr then
          setStartTokenMark ;; modify (set_returnState DATA) ;; ret X_EXPRESSION_END
        else if cp =? EOF then ret DATA
        else
          when (cp =? NULL) (reportParseError "unexpected-null-character") ;;
          appendTokenValue cp (Some ty) ;;
          cp' <- consumeNextCodePoint ;;
          DATA_loop n' cp')
  end.

Fixpoint RCDATA_loop (n : nat) (cp : Z) : M t TokenizerState :=
  match n with
  | O => throw OutOfFuel
  | S n' =>
      let ty := if isWhitespace cp then HTMLWhitespace else HTMLRCDataText in
      retype ty (
        expr <- gets expressionEnabled ;;
        if cp =? LESS_THAN_SIGN then
          setStartTokenMark ;; ret RCDATA_LESS_THAN_SIGN
        else if (cp =? LEFT_CURLY_BRACKET) && expr then
          setStartTokenMark ;; modify (set_returnState RCDATA) ;; ret X_EXPRESSION_START
        else if (cp =? RIGHT_CURLY_BRACKET) && expr then
          setStartTokenMark ;; modify (set_returnState RCDATA) ;; ret X_EXPRESSION_END
        else if cp =? EOF then ret DATA
        else
          when (cp =? NULL) (reportParseError "unexpected-null-character") ;;
          appendTokenValue (if cp =? NULL then NULL_REPLACEMENT else cp) (Some ty) ;;
          cp' <- consumeNextCodePoint ;;
          RCDATA_loop n' cp')
  end.

Fixpoint RAWTEXT_loop (n : nat) (cp : Z) : M t TokenizerState :=
  match n with
  | O => throw OutOfFuel
  | S n' =>
      let ty := if isWhitespace cp then HTMLWhitespace else HTMLRawText in
      retype ty (
        expr <- gets expressionEnabled ;;
        if (cp =? LESS_THAN_SIGN) && expr then
          setStartTokenMark ;; ret RAWTEXT_LESS_THAN_SIGN
        else if (cp =? LEFT_CURLY_BRACKET) && expr then
          setStartTokenMark ;; modify (set_returnState RAWTEXT) ;; ret X_EXPRESSION_START
        else if (cp =? RIGHT_CURLY_BRACKET) && expr then
          setStartTokenMark ;; modify (set_returnState RAWTEXT) ;; ret X_EXPRESSION_END
        else if cp =? EOF then ret DATA
        else
          when (cp =? NULL) (reportParseError "unexpected-null-character") ;;
          appendTokenValue (if cp =? NULL then NULL_REPLACEMENT else cp) (Some ty) ;;
          cp' <- consumeNextCodePoint ;;
          RAWTEXT_loop n' cp')
  end.

Definition TAG_OPEN_state (cp : Z) : M t TokenizerState :=
  if cp =? EXCLAMATION_MARK then ret MARKUP_DECLARATION_OPEN
  else if cp =? SOLIDUS then ret END_TAG_OPEN
  else if isLetter cp then startToken HTMLTagOpen ;; reconsumeAs TAG_NAME
  else if cp =? QUESTION_MARK then
    reportParseError "unexpected-question-mark-instead-of-tag-name" ;;
    startToken HTMLBogusComment ;; reconsumeAs BOGUS_COMMENT
  else if cp =? EOF then
    clearStartTokenMark ;;
    reportParseError "eof-before-tag-name" ;;
    appendTokenValue LESS_THAN_SIGN (Some HTMLText) ;;
    ret DATA
  else
    reportParseError "invalid-first-character-of-tag-name" ;;
    appendTokenValue LESS_THAN_SIGN (Some HTMLText) ;;
    reconsumeAs DATA.

Definition END_TAG_OPEN_state (cp : Z) : M t TokenizerState :=
  if isLetter cp then startToken HTMLEndTagOpen ;; reconsumeAs TAG_NAME
  else if cp =? GREATER_THAN_SIGN then
    endToken ;; reportParseError "missing-end-tag-name" ;; ret DATA
  else if cp =? EOF then
    clearStartTokenMark ;;
    reportParseError "eof-before-tag-name" ;;
    appendTokenValue LESS_THAN_SIGN (Some HTMLText) ;;
    appendTokenValue SOLIDUS (Some HTMLText) ;;
    ret DATA
  else
    reportParseError "invalid-first-character-of-tag-name" ;;
    startToken HTMLBogusComment ;; reconsumeAs BOGUS_COMMENT.

Fixpoint TAG_NAME_loop (n : nat) (cp : Z) : M t TokenizerState :=
  match n with
  | O => throw OutOfFuel
  | S n' =>
      if isWhitespace cp then endToken ;; ret BEFORE_ATTRIBUTE_NAME
      else if cp =? SOLIDUS then
        endToken ;; setStartTokenMark ;; ret SELF_CLOSING_START_TAG
      else if cp =? GREATER_THAN_SIGN then startToken HTMLTagClose ;; ret DATA
      else if cp =? EOF then reportParseError "eof-in-tag" ;; ret DATA
      else
        when (cp =? NULL) (reportParseError "unexpected-null-character") ;;
        appendTokenValue (lower (if cp =? NULL then NULL_REPLACEMENT else cp)) None ;;
        cp' <- consumeNextCodePoint ;;
        TAG_NAME_loop n' cp'
  end.

Definition RCDATA_LESS_THAN_SIGN_state (cp : Z) : M t TokenizerState :=
  if cp =? SOLIDUS then modify (set_buffer []) ;; ret RCDATA_END_TAG_OPEN
  else appendTokenValue LESS_THAN_SIGN (Some HTMLRCDataText) ;; reconsumeAs RCDATA.

Definition RCDATA_END_TAG_OPEN_state (cp : Z) : M t TokenizerState :=
  if isLetter cp then startToken HTMLEndTagOpen ;; reconsumeAs RCDATA_END_TAG_NAME
  else
    appendTokenValue LESS_THAN_SIGN (Some HTMLRCDataText) ;;
    appendTokenValue SOLIDUS (Some HTMLRCDataText) ;;
    reconsumeAs RCDATA.

(** The failure branch of the two end-tag-name states: cancel the tentative
    end tag and give its characters back to the text token. *)
Definition giveBack (ty : TokenType) (back : TokenizerState) : M t TokenizerState :=
  rollbackProvisionalToken ;;
  appendTokenValue LESS_THAN_SIGN (Some ty) ;;
  appendTokenValue SOLIDUS (Some ty) ;;
  b <- gets buffer ;;
  appendAll b ty ;;
  reconsumeAs back.

Fixpoint RCDATA_END_TAG_NAME_loop (n : nat) (cp : Z) : M t TokenizerState :=
  match n with
  | O => throw OutOfFuel
  | S n' =>
      ok <- isAppropriateEndTagOpen ;;
      if isWhitespace cp && ok then endToken ;; ret BEFORE_ATTRIBUTE_NAME
      else if (cp =? SOLIDUS) && ok then
        endToken ;; setStartTokenMark ;; ret SELF_CLOSING_START_TAG
      else if (cp =? GREATER_THAN_SIGN) && ok then
        startToken HTMLTagClose ;; ret DATA
      else if negb (isLetter cp) then giveBack HTMLRCDataText RCDATA
      else
        appendTokenValue (lower cp) (Some HTMLEndTagOpen) ;;
        modify (fun x => set_buffer (buffer x ++ [cp]) x) ;;
        cp' <- consumeNextCodePoint ;;
        RCDATA_END_TAG_NAME_loop n' cp'
  end.

Definition RAWTEXT_LESS_THAN_SIGN_state (cp : Z) : M t TokenizerState :=
  if cp =? SOLIDUS then modify (set_buffer []) ;; ret RAWTEXT_END_TAG_OPEN
  else appendTokenValue LESS_THAN_SIGN (Some HTMLRawText) ;; reconsumeAs RAWTEXT.

Definition RAWTEXT_END_TAG_OPEN_state (cp : Z) : M t TokenizerState :=
  if isLetter cp then startToken HTMLEndTagOpen ;; reconsumeAs RAWTEXT_END_TAG_NAME
  else
    appendTokenValue LESS_THAN_SIGN (Some HTMLRawText) ;;
    appendTokenValue SOLIDUS (Some HTMLRawText) ;;
    reconsumeAs RAWTEXT.

Fixpoint RAWTEXT_END_TAG_NAME_loop (n : nat) (cp : Z) : M t TokenizerState :=
  match n with
  | O => throw OutOfFuel
  | S n' =>
      ok <- isAppropriateEndTagOpen ;;
      if (cp =? SOLIDUS) && ok then
        endToken ;; setStartTokenMark ;; ret SELF_CLOSING_START_TAG
      else if (cp =? GREATER_THAN_SIGN) && ok then
        startToken HTMLTagClose ;; ret DATA
      else if isWhitespace cp && ok then endToken ;; ret BEFORE_ATTRIBUTE_NAME
      else if negb (isLetter cp) && negb (cp =? HYPHEN_MINUS) then
        giveBack HTMLRawText RAWTEXT
      else
        appendTokenValue (lower cp) (Some HTMLEndTagOpen) ;;
        modify (fun x => set_buffer (buffer x ++ [cp]) x) ;;
        cp' <- consumeNextCodePoint ;;
        RAWTEXT_END_TAG_NAME_loop n' cp'
  end.

(** [while (isWhitespace(cp)) cp = this.consumeNextCodePoint()]. *)
Fixpoint skipWhitespace (n : nat) (cp : Z) : M t Z :=
  match n with
  | O => throw OutOfFuel
  | S n' =>
      if isWhitespace cp then cp' <- consumeNextCodePoint ;; skipWhitespace n' cp'
      else ret cp
  end.

Definition BEFORE_ATTRIBUTE_NAME_state (n : nat) (cp0 : Z) : M t TokenizerState :=
  cp <- skipWhitespace n cp0 ;;
  if (cp =? SOLIDUS) || (cp =? GREATER_THAN_SIGN) || (cp =? EOF) then
    reconsumeAs AFTER_ATTRIBUTE_NAME
  else if cp =? EQUALS_SIGN then
    reportParseError "unexpected-equals-sign-before-attribute-name" ;;
    startToken HTMLIdentifier ;;
    appendTokenValue cp (Some HTMLIdentifier) ;;
    ret ATTRIBUTE_NAME
  else
    startToken HTMLIdentifier ;; reconsumeAs ATTRIBUTE_NAME.

Fixpoint ATTRIBUTE_NAME_loop (n : nat) (cp : Z) : M t TokenizerState :=
  match n with
  | O => throw OutOfFuel
  | S n' =>
      if isWhitespace cp || (cp =? SOLIDUS) || (cp =? GREATER_THAN_SIGN) || (cp =? EOF)
      then endToken ;; reconsumeAs AFTER_ATTRIBUTE_NAME
      else if cp =? EQUALS_SIGN then
        startToken HTMLAssociation ;; ret BEFORE_ATTRIBUTE_VALUE
      else
        when (cp =? NULL) (reportParseError "unexpected-null-character") ;;
        let cp1 := if cp =? NULL then NULL_REPLACEMENT else cp in
        when ((cp1 =? QUOTATION_MARK) || (cp1 =? APOSTROPHE) || (cp1 =? LESS_THAN_SIGN))
             (reportParseError "unexpected-character-in-attribute-name") ;;
        appendTokenValue (lower cp1) (Some HTMLIdentifier) ;;
        cp' <- consumeNextCodePoint ;;
        ATTRIBUTE_NAME_loop n' cp'
  end.

Definition AFTER_ATTRIBUTE_NAME_state (n : nat) (cp0 : Z) : M t TokenizerState :=
  cp <- skipWhitespace n cp0 ;;
  if cp =? SOLIDUS then setStartTokenMark ;; ret SELF_CLOSING_START_TAG
  else if cp =? EQUALS_SIGN then
    startToken HTMLAssociation ;; ret BEFORE_ATTRIBUTE_VALUE
  else if cp =? GREATER_THAN_SIGN then startToken HTMLTagClose ;; ret DATA
  else if cp =? EOF then reportParseError "eof-in-tag" ;; ret DATA
  else startToken HTMLIdentifier ;; reconsumeAs ATTRIBUTE_NAME.

Definition BEFORE_ATTRIBUTE_VALUE_state (n : nat) (cp0 : Z) : M t TokenizerState :=
  endToken ;;
  cp <- skipWhitespace n cp0 ;;
  if cp =? GREATER_THAN_SIGN then
    reportParseError "missing-attribute-value" ;;
    startToken HTMLTagClose ;; ret DATA
  else if cp =? QUOTATION_MARK then
    startToken HTMLQuote ;; appendTokenValue cp None ;;
    ret ATTRIBUTE_VALUE_DOUBLE_QUOTED
  else if cp =? APOSTROPHE then
    startToken HTMLQuote ;; appendTokenValue cp None ;;
    ret ATTRIBUTE_VALUE_SINGLE_QUOTED
  else
    startToken HTMLLiteral ;; reconsumeAs ATTRIBUTE_VALUE_UNQUOTED.

(** The two quoted attribute-value states differ in the quote that ends
    the value, in the state they name, and in the report of a line break,
    which the double-quoted state has commented out. *)
Fixpoint ATTRIBUTE_VALUE_QUOTED_loop (quote : Z) (self : TokenizerState)
    (lineBreakIsError : bool) (n : nat) (cp : Z) : M t TokenizerState :=
  match n with
  | O => throw OutOfFuel
  | S n' =>
      retype HTMLAttrLiteral (
        if cp =? LEFT_CURLY_BRACKET then
          setStartTokenMark ;; modify (set_returnState self) ;; ret X_EXPRESSION_START
        else if (cp =? RIGHT_CURLY_BRACKET) || (cp =? EQUALS_SIGN) then
          setStartTokenMark ;; modify (set_returnState self) ;; ret X_EXPRESSION_END
        else if cp =? quote then
          startToken HTMLQuote ;; appendTokenValue cp None ;;
          ret AFTER_ATTRIBUTE_VALUE_QUOTED
        else if cp =? EOF then ret DATA
        else
          when (lineBreakIsError && (cp =? LINE_FEED))
               (reportParseError "unexpected-line-break") ;;
          when (cp =? NULL) (reportParseError "unexpected-null-character") ;;
          appendTokenValue cp (Some HTMLAttrLiteral) ;;
          cp' <- consumeNextCodePoint ;;
          ATTRIBUTE_VALUE_QUOTED_loop quote self lineBreakIsError n' cp')
  end.

Fixpoint ATTRIBUTE_VALUE_UNQUOTED_loop (n : nat) (cp : Z) : M t TokenizerState :=
  match n with
  | O => throw OutOfFuel
  | S n' =>
      if isWhitespace cp then endToken ;; ret BEFORE_ATTRIBUTE_NAME
      else if cp =? GREATER_THAN_SIGN then startToken HTMLTagClose ;; ret DATA
      else
        when (cp =? NULL) (reportParseError "unexpected-null-character") ;;
        let cp1 := if cp =? NULL then NULL_REPLACEMENT else cp in
        when ((cp1 =? QUOTATION_MARK) || (cp1 =? APOSTROPHE) || (cp1 =? LESS_THAN_SIGN)
              || (cp1 =? EQUALS_SIGN) || (cp1 =? GRAVE_ACCENT))
             (reportParseError "unexpected-character-in-unquoted-attribute-value") ;;
        if cp1 =? EOF then reportParseError "eof-in-tag" ;; ret DATA
        else
          appendTokenValue cp1 (Some HTMLLiteral) ;;
          cp' <- consumeNextCodePoint ;;
          ATTRIBUTE_VALUE_UNQUOTED_loop n' cp'
  end.

Definition AFTER_ATTRIBUTE_VALUE_QUOTED_state (cp : Z) : M t TokenizerState :=
  endToken ;;
  if isWhitespace cp then ret BEFORE_ATTRIBUTE_NAME
  else if cp =? SOLIDUS then setStartTokenMark ;; ret SELF_CLOSING_START_TAG
  else if cp =? GREATER_THAN_SIGN then startToken HTMLTagClose ;; ret DATA
  else if cp =? EOF then reportParseError "eof-in-tag" ;; ret DATA
  else
    reportParseError "missing-whitespace-between-attributes" ;;
    reconsumeAs BEFORE_ATTRIBUTE_NAME.

Definition SELF_CLOSING_START_TAG_state (cp : Z) : M t TokenizerState :=
  if cp =? GREATER_THAN_SIGN then startToken HTMLSelfClosingTagClose ;; ret DATA
  else if cp =? EOF then reportParseError "eof-in-tag" ;; ret DATA
  else
    reportParseError "unexpected-solidus-in-tag" ;;
    clearStartTokenMark ;;
    reconsumeAs BEFORE_ATTRIBUTE_NAME.

Fixpoint BOGUS_COMMENT_loop (n : nat) (cp : Z) : M t TokenizerState :=
  match n with
  | O => throw OutOfFuel
  | S n' =>
      if cp =? GREATER_THAN_SIGN then ret DATA
      else if cp =? EOF then ret DATA
      else
        appendTokenValue (if cp =? NULL then NULL_REPLACEMENT else cp) None ;;
        cp' <- consumeNextCodePoint ;;
        BOGUS_COMMENT_loop n' cp'
  end.

Definition MARKUP_DECLARATION_OPEN_state (cp : Z) : M t TokenizerState :=
  txt <- gets text ;;
  off <- gets offset ;;
  if (cp =? HYPHEN_MINUS) && optTest (Z.eqb HYPHEN_MINUS) (charCodeAt txt (off + 1)) then
    modify (fun x => set_column (column x + 1) (set_offset (offset x + 1) x)) ;;
    startToken HTMLComment ;;
    ret COMMENT_START
  else
    reportParseError "incorrectly-opened-comment" ;;
    startToken HTMLBogusComment ;;
    reconsumeAs BOGUS_COMMENT.

Definition COMMENT_START_state (cp : Z) : M t TokenizerState :=
  if cp =? HYPHEN_MINUS then ret COMMENT_START_DASH
  else if cp =? GREATER_THAN_SIGN then
    reportParseError "abrupt-closing-of-empty-comment" ;; ret DATA
  else reconsumeAs COMMENT.

Definition COMMENT_START_DASH_state (cp : Z) : M t TokenizerState :=
  if cp =? HYPHEN_MINUS then ret COMMENT_END
  else if cp =? GREATER_THAN_SIGN then
    reportParseError "abrupt-closing-of-empty-comment" ;; ret DATA
  else if cp =? EOF then reportParseError "eof-in-comment" ;; ret DATA
  else appendTokenValue HYPHEN_MINUS (Some HTMLComment) ;; reconsumeAs COMMENT.

Fixpoint COMMENT_loop (n : nat) (cp : Z) : M t TokenizerState :=
  match n with
  | O => throw OutOfFuel
  | S n' =>
      if cp =? LESS_THAN_SIGN then
        appendTokenValue LESS_THAN_SIGN (Some HTMLComment) ;;
        ret COMMENT_LESS_THAN_SIGN
      else if cp =? HYPHEN_MINUS then ret COMMENT_END_DASH
      else
        when (cp =? NULL) (reportParseError "unexpected-null-character") ;;
        let cp1 := if cp =? NULL then NULL_REPLACEMENT else cp in
        if cp1 =? EOF then reportParseError "eof-in-comment" ;; ret DATA
        else
          appendTokenValue cp1 (Some HTMLComment) ;;
          cp' <- consumeNextCodePoint ;;
          COMMENT_loop n' cp'
  end.

Fixpoint COMMENT_LESS_THAN_SIGN_loop (n : nat) (cp : Z) : M t TokenizerState :=
  match n with
  | O => throw OutOfFuel
  | S n' =>
      if cp =? EXCLAMATION_MARK then
        appendTokenValue cp (Some HTMLComment) ;;
        ret COMMENT_LESS_THAN_SIGN_BANG
      else if negb (cp =? LESS_THAN_SIGN) then reconsumeAs COMMENT
      else
        appendTokenValue cp (Some HTMLComment) ;;
        cp' <- consumeNextCodePoint ;;
        COMMENT_LESS_THAN_SIGN_loop n' cp'
  end.

Definition COMMENT_LESS_THAN_SIGN_BANG_state (cp : Z) : M t TokenizerState :=
  if cp =? HYPHEN_MINUS then ret COMMENT_LESS_THAN_SIGN_BANG_DASH
  else reconsumeAs COMMENT.

Definition COMMENT_LESS_THAN_SIGN_BANG_DASH_state (cp : Z) : M t TokenizerState :=
  if cp =? HYPHEN_MINUS then ret COMMENT_LESS_THAN_SIGN_BANG_DASH_DASH
  else reconsumeAs COMMENT_END_DASH.

Definition COMMENT_LESS_THAN_SIGN_BANG_DASH_DASH_state (cp : Z) : M t TokenizerState :=
  when (negb (cp =? GREATER_THAN_SIGN) && negb (cp =? EOF))
       (reportParseError "nested-comment") ;;
  reconsumeAs COMMENT_END.

Definition COMMENT_END_DASH_state (cp : Z) : M t TokenizerState :=
  if cp =? HYPHEN_MINUS then ret COMMENT_END
  else if cp =? EOF then reportParseError "eof-in-comment" ;; ret DATA
  else appendTokenValue HYPHEN_MINUS (Some HTMLComment) ;; reconsumeAs COMMENT.

Fixpoint COMMENT_END_loop (n : nat) (cp : Z) : M t TokenizerState :=
  match n with
  | O => throw OutOfFuel
  | S n' =>
      if cp =? GREATER_THAN_SIGN then ret DATA
      else if cp =? EXCLAMATION_MARK then ret COMMENT_END_BANG
      else if cp =? EOF then reportParseError "eof-in-comment" ;; ret DATA
      else
        appendTokenValue HYPHEN_MINUS (Some HTMLComment) ;;
        if negb (cp =? HYPHEN_MINUS) then
          appendTokenValue HYPHEN_MINUS (Some HTMLComment) ;;
          reconsumeAs COMMENT
        else
          cp' <- consumeNextCodePoint ;;
          COMMENT_END_loop n' cp'
  end.

Definition COMMENT_END_BANG_state (cp : Z) : M t TokenizerState :=
  if cp =? HYPHEN_MINUS then
    appendTokenValue HYPHEN_MINUS (Some HTMLComment) ;;
    appendTokenValue EXCLAMATION_MARK (Some HTMLComment) ;;
    ret COMMENT_END_DASH
  else if cp =? GREATER_THAN_SIGN then
    reportParseError "incorrectly-closed-comment" ;; ret DATA
  else if cp =? EOF then reportParseError "eof-in-comment" ;; ret DATA
  else
    appendTokenValue HYPHEN_MINUS (Some HTMLComment) ;;
    appendTokenValue EXCLAMATION_MARK (Some HTMLComment) ;;
    reconsumeAs COMMENT.

(** Creates the token of an opening mustache.  Only the form with two
    braces switches [tagOpenEnabled] off. *)
Definition X_EXPRESSION_START_state (cp : Z) : M t TokenizerState :=
  rs <- gets returnState ;;
  if cp =? LEFT_CURLY_BRACKET then
    startToken XMustacheStart ;;
    appendTokenValue LEFT_CURLY_BRACKET None ;;
    appendTokenValue LEFT_CURLY_BRACKET None ;;
    modify (set_tagOpenEnabled false) ;;
    gets returnState
  else if (cp =? EQUALS_SIGN)
          && match rs with
             | ATTRIBUTE_VALUE_DOUBLE_QUOTED | ATTRIBUTE_VALUE_SINGLE_QUOTED => true
             | _ => false
             end
  then
    startToken XMustacheStart ;;
    appendTokenValue LEFT_CURLY_BRACKET None ;;
    appendTokenValue EQUALS_SIGN None ;;
    gets returnState
  else
    appendTokenValue LEFT_CURLY_BRACKET None ;;
    s <- gets returnState ;;
    reconsumeAs s.

(** Creates the token of a closing mustache. *)
Definition X_EXPRESSION_END_state (cp : Z) : M t TokenizerState :=
  txt <- gets text ;;
  off <- gets offset ;;
  if (cp =? RIGHT_CURLY_BRACKET)
     && negb (optTest (Z.eqb RIGHT_CURLY_BRACKET) (codePointAt txt (off + 1)))
  then
    startToken XMustacheEnd ;;
    appendCodePointAt (off - 1) ;;
    appendTokenValue RIGHT_CURLY_BRACKET None ;;
    modify (set_tagOpenEnabled true) ;;
    gets returnState
  else
    appendCodePointAt (off - 1) ;;
    s <- gets returnState ;;
    reconsumeAs s.

(** A bound on the turns of the loop of a state: the code points left to
    read, and two. *)
Definition turns (x : t) : nat := S (S (length (text x))).

(** [this[state](cp)]. *)
Definition runState (s : TokenizerState) (cp : Z) : M t TokenizerState :=
  n <- gets turns ;;
  match s with
  | DATA => clearStartTokenMark ;; DATA_loop n cp
  | TAG_OPEN => TAG_OPEN_state cp
  | END_TAG_OPEN => END_TAG_OPEN_state cp
  | TAG_NAME => TAG_NAME_loop n cp
  | RCDATA => clearStartTokenMark ;; RCDATA_loop n cp
  | RCDATA_LESS_THAN_SIGN => RCDATA_LESS_THAN_SIGN_state cp
  | RCDATA_END_TAG_OPEN => RCDATA_END_TAG_OPEN_state cp
  | RCDATA_END_TAG_NAME => RCDATA_END_TAG_NAME_loop n cp
  | RAWTEXT => clearStartTokenMark ;; RAWTEXT_loop n cp
  | RAWTEXT_LESS_THAN_SIGN => RAWTEXT_LESS_THAN_SIGN_state cp
  | RAWTEXT_END_TAG_OPEN => RAWTEXT_END_TAG_OPEN_state cp
  | RAWTEXT_END_TAG_NAME => RAWTEXT_END_TAG_NAME_loop n cp
  | BEFORE_ATTRIBUTE_NAME => BEFORE_ATTRIBUTE_NAME_state n cp
  | ATTRIBUTE_NAME => ATTRIBUTE_NAME_loop n cp
  | AFTER_ATTRIBUTE_NAME => AFTER_ATTRIBUTE_NAME_state n cp
  | BEFORE_ATTRIBUTE_VALUE => BEFORE_ATTRIBUTE_VALUE_state n cp
  | ATTRIBUTE_VALUE_DOUBLE_QUOTED =>
      clearStartTokenMark ;;
      ATTRIBUTE_VALUE_QUOTED_loop QUOTATION_MARK ATTRIBUTE_VALUE_DOUBLE_QUOTED false n cp
  | ATTRIBUTE_VALUE_SINGLE_QUOTED =>
      clearStartTokenMark ;;
      ATTRIBUTE_VALUE_QUOTED_loop APOSTROPHE ATTRIBUTE_VALUE_SINGLE_QUOTED true n cp
  | ATTRIBUTE_VALUE_UNQUOTED =>
      reportParseError "attribute-value-invalid-unquoted" ;;
      ATTRIBUTE_VALUE_UNQUOTED_loop n cp
  | AFTER_ATTRIBUTE_VALUE_QUOTED => AFTER_ATTRIBUTE_VALUE_QUOTED_state cp
  | SELF_CLOSING_START_TAG => SELF_CLOSING_START_TAG_state cp
  | BOGUS_COMMENT => BOGUS_COMMENT_loop n cp
  | MARKUP_DECLARATION_OPEN => MARKUP_DECLARATION_OPEN_state cp
  | COMMENT_START => COMMENT_START_state cp
  | COMMENT_START_DASH => COMMENT_START_DASH_state cp
  | COMMENT => COMMENT_loop n cp
  | COMMENT_LESS_THAN_SIGN => COMMENT_LESS_THAN_SIGN_loop n cp
  | COMMENT_LESS_THAN_SIGN_BANG => COMMENT_LESS_THAN_SIGN_BANG_state cp
  | COMMENT_LESS_THAN_SIGN_BANG_DASH => COMMENT_LESS_THAN_SIGN_BANG_DASH_state cp
  | COMMENT_LESS_THAN_SIGN_BANG_DASH_DASH => COMMENT_LESS_THAN_SIGN_BANG_DASH_DASH_state cp
  | COMMENT_END_DASH => COMMENT_END_DASH_state cp
  | COMMENT_END => COMMENT_END_loop n cp
  | COMMENT_END_BANG => COMMENT_END_BANG_state cp
  | X_EXPRESSION_START => X_EXPRESSION_START_state cp
  | X_EXPRESSION_END => X_EXPRESSION_END_state cp
  end.

(** ** [nextToken] *)

(** The loop of [nextToken]; it returns the local [cp].  [n] bounds the
    number of turns. *)
Fixpoint nextToken_loop (n : nat) (cp : Z) : M t Z :=
  match n with
  | O => throw OutOfFuel
  | S n' =>
      c <- gets committedToken ;;
      r <- gets reconsuming ;;
      if negb (isSome c) && (negb (cp =? EOF) || r) then
        p <- gets provisionalToken ;;
        prov <- isProvisionalState ;;
        stop <- (if isSome p && negb prov then
                   commitProvisionalToken ;;
                   c' <- gets committedToken ;;
                   ret (isSome c')
                 else ret false) ;;
        if stop then ret cp
        else
          r <- gets reconsuming ;;
          cp' <- (if r then modify (set_reconsuming false) ;; gets lastCodePoint
                  else consumeNextCodePoint) ;;
          s <- gets state ;;
          s' <- runState s cp' ;;
          modify (set_state s') ;;
          nextToken_loop n' cp'
      else ret cp
  end.

Definition nextToken_fuel (n : nat) : M t (option Token) :=
  cp0 <- gets lastCodePoint ;;
  cp <- nextToken_loop n cp0 ;;
  token <- consumeCommittedToken ;;
  match token with
  | Some _ => ret token
  | None =>
      assert (cp =? EOF) "cp === EOF" ;;
      c <- gets currentToken ;;
      if isSome c then
        endToken ;;
        token <- consumeCommittedToken ;;
        match token with
        | Some _ => ret token
        | None => gets currentToken
        end
      else gets currentToken
  end.

(** A bound on the turns of the loop of one call of [nextToken]. *)
Definition loops (x : t) : nat := (8 * (length (text x) + 2))%nat.

Definition nextToken : M t (option Token) :=
  n <- gets loops ;; nextToken_fuel n.

(** All the tokens of a tokenizer that no client steers: [nextToken] until
    it returns [null], at most [n] times. *)
Fixpoint drain (n : nat) : M t (list Token) :=
  match n with
  | O => ret []
  | S n' =>
      o <- nextToken ;;
      match o with
      | None => ret []
      | Some token => rest <- drain n' ;; ret (token :: rest)
      end
  end.

End Tokenizer.

(* ================================================================== *)
(** * Script nodes and template nodes (types/ast.d.ts) *)
(* ================================================================== *)

(** A node of the tree the script parser returns.  The sources look inside
    identifiers, array expressions, call expressions and spread elements;
    every other node is [ESOther] with its [type] and its child nodes. *)
Inductive ESNode :=
| ESIdentifier (name : JS.str) (range : OffsetRange) (loc : LocationRange)
| ESArrayExpression (elements : list (option ESNode))
    (range : OffsetRange) (loc : LocationRange)
| ESCallExpression (callee : ESNode) (arguments : list ESNode)
    (range : OffsetRange) (loc : LocationRange)
| ESSpreadElement (argument : ESNode) (range : OffsetRange) (loc : LocationRange)
| ESOther (type : string) (children : list ESNode)
    (range : OffsetRange) (loc : LocationRange).

Definition es_type (n : ESNode) : string :=
  match n with
  | ESIdentifier _ _ _ => "Identifier"
  | ESArrayExpression _ _ _ => "ArrayExpression"
  | ESCallExpression _ _ _ _ => "CallExpression"
  | ESSpreadElement _ _ _ => "SpreadElement"
  | ESOther ty _ _ _ => ty
  end.

Definition es_range (n : ESNode) : OffsetRange :=
  match n with
  | ESIdentifier _ r _ | ESArrayExpression _ r _ | ESCallExpression _ _ r _
  | ESSpreadElement _ r _ | ESOther _ _ r _ => r
  end.

Definition es_loc (n : ESNode) : LocationRange :=
  match n with
  | ESIdentifier _ _ l | ESArrayExpression _ _ l | ESCallExpression _ _ _ l
  | ESSpreadElement _ _ l | ESOther _ _ _ l => l
  end.

(** [node.name]; [None] stands for [undefined]. *)
Definition es_name (n : ESNode) : option JS.str :=
  match n with ESIdentifier nm _ _ => Some nm | _ => None end.

(** [script.Reference].  [ref_variable] is [reference.variable], given by
    the [id] of the variable the reference resolved to. *)
Record Reference := mkReference {
  ref_id : ESNode;
  ref_mode : string;
  ref_variable : option ESNode
}.

(** [script.Variable], a variable of an element. *)
Record ScriptVariable := mkVariable {
  var_id : ESNode;
  var_kind : string;
  var_references : list Reference
}.

Record SwanForExpression := mkSwanForExpression {
  for_start : Z;
  for_end : Z;
  for_range : OffsetRange;
  for_loc : LocationRange;
  for_right : option ESNode;
  for_left : option ESNode;
  for_index : option ESNode;
  for_trackBy : option ESNode
}.

(** [XExpression.expression]: a script expression or a [SwanForExpression]. *)
Inductive Expression :=
| Script (e : ESNode)
| SwanFor (e : SwanForExpression).

Record XExpression := mkXExpression {
  xe_range : OffsetRange;
  xe_loc : LocationRange;
  xe_expression : option Expression;
  xe_references : list Reference
}.

Record XLiteral := mkXLiteral {
  xl_range : OffsetRange;
  xl_loc : LocationRange;
  xl_value : JS.str
}.

(** The record the intermediate tokenizer makes of a mustache. *)
Record Mustache := mkMustache {
  mu_range : OffsetRange;
  mu_loc : LocationRange;
  mu_value : JS.str;
  mu_startToken : Token;
  mu_endToken : Token
}.

Record XMustache := mkXMustache {
  xm_range : OffsetRange;
  xm_loc : LocationRange;
  xm_startToken : Token;
  xm_endToken : Token;
  xm_value : option XExpression
}.

(** An item of [XAttributeValue]. *)
Inductive AttributeValue :=
| VLiteral (l : XLiteral)
| VMustache (m : Mustache)
| VXMustache (m : XMustache)
| VExpression (e : XExpression).

(** [XIdentifier] and [XDirectiveKey]: the key of an attribute. *)
Inductive AttributeKey :=
| XIdentifier (range : OffsetRange) (loc : LocationRange) (name rawName : JS.str)
| XDirectiveKey (range : OffsetRange) (loc : LocationRange)
    (name prefix rawPrefix rawName : JS.str).

Definition key_name (k : AttributeKey) : JS.str :=
  match k with
  | XIdentifier _ _ n _ => n
  | XDirectiveKey _ _ n _ _ _ => n
  end.

Definition key_range (k : AttributeKey) : OffsetRange :=
  match k with
  | XIdentifier r _ _ _ => r
  | XDirectiveKey r _ _ _ _ _ => r
  end.

Definition key_loc (k : AttributeKey) : LocationRange :=
  match k with
  | XIdentifier _ l _ _ => l
  | XDirectiveKey _ l _ _ _ _ => l
  end.

Inductive AttributeType := XAttributeT | XDirectiveT.

(** [XAttribute] and, once [convertToDirective] has changed its [type] and
    its [key], [XDirective]. *)
Record XAttribute := mkXAttribute {
  at_type : AttributeType;
  at_range : OffsetRange;
  at_loc : LocationRange;
  at_key : AttributeKey;
  at_value : list AttributeValue
}.

Record XStartTag := mkXStartTag {
  stag_range : OffsetRange;
  stag_loc : LocationRange;
  stag_selfClosing : bool;
  stag_attributes : list XAttribute
}.

Record XEndTag := mkXEndTag { etag_range : OffsetRange; etag_loc : LocationRange }.

Record XText := mkXText {
  xt_range : OffsetRange;
  xt_loc : LocationRange;
  xt_value : JS.str
}.

Record XModule := mkXModule {
  xmod_range : OffsetRange;
  xmod_loc : LocationRange;
  xmod_body : list ESNode;
  xmod_references : list Reference
}.

(** [XElement] and the nodes that can be a child of an element or of the
    document.  The [parent] of a node is not a field: a node is reached
    from its parent. *)
Inductive XElement :=
| mkXElement (range : OffsetRange) (loc : LocationRange)
    (name rawName : JS.str) (startTag : XStartTag) (children : list XChild)
    (variables : list ScriptVariable) (endTag : option XEndTag)
with XChild :=
| CElement (e : XElement)
| CText (x : XText)
| CMustache (m : XMustache)
| CModule (m : XModule).

Definition el_range (e : XElement) := let 'mkXElement r _ _ _ _ _ _ _ := e in r.
Definition el_loc (e : XElement) := let 'mkXElement _ l _ _ _ _ _ _ := e in l.
Definition el_name (e : XElement) := let 'mkXElement _ _ n _ _ _ _ _ := e in n.
Definition el_rawName (e : XElement) := let 'mkXElement _ _ _ n _ _ _ _ := e in n.
Definition el_startTag (e : XElement) := let 'mkXElement _ _ _ _ s _ _ _ := e in s.
Definition el_children (e : XElement) := let 'mkXElement _ _ _ _ _ c _ _ := e in c.
Definition el_variables (e : XElement) := let 'mkXElement _ _ _ _ _ _ v _ := e in v.
Definition el_endTag (e : XElement) := let 'mkXElement _ _ _ _ _ _ _ t := e in t.

Definition child_range (c : XChild) : OffsetRange :=
  match c with
  | CElement e => el_range e
  | CText x => xt_range x
  | CMustache m => xm_range m
  | CModule m => xmod_range m
  end.

Definition child_loc (c : XChild) : LocationRange :=
  match c with
  | CElement e => el_loc e
  | CText x => xt_loc x
  | CMustache m => xm_loc m
  | CModule m => xmod_loc m
  end.

Record XDocument := mkXDocument {
  doc_range : OffsetRange;
  doc_loc : LocationRange;
  doc_children : list XChild;
  doc_tokens : list Token;
  doc_comments : list Token;
  doc_errors : list ParseError;
  doc_xmlType : string
}.

(* ================================================================== *)
(** * The intermediate tokenizer (intermediate-tokenizer.ts) *)
(* ================================================================== *)

Record StartTag := mkStartTag {
  st_range : OffsetRange;
  st_loc : LocationRange;
  st_name : JS.str;
  st_rawName : JS.str;
  st_selfClosing : bool;
  st_attributes : list XAttribute
}.

Record EndTag := mkEndTag {
  et_range : OffsetRange;
  et_loc : LocationRange;
  et_name : JS.str
}.

Record Text := mkText {
  tx_range : OffsetRange;
  tx_loc : LocationRange;
  tx_value : JS.str
}.

Inductive IntermediateToken :=
| IStartTag (s : StartTag)
| IEndTag (e : EndTag)
| IText (x : Text)
| IMustache (m : Mustache).

(** [lodash.last]. *)
Definition last_opt {A} (l : list A) : option A :=
  match rev l with [] => None | x :: _ => Some x end.

Module IntermediateTokenizer.

Record t := mk {
  tokenizer : Tokenizer.t;
  currentToken : option IntermediateToken;
  currentStartTag : option StartTag;
  attribute : option XAttribute;
  attributeNames : list JS.str;
  expressionStartToken : option Token;
  expressionTokens : list Token;
  tokens : list Token;
  comments : list Token
}.

Definition set_tokenizer (v : Tokenizer.t) (x : t) : t :=
  mk v (currentToken x) (currentStartTag x) (attribute x) (attributeNames x)
    (expressionStartToken x) (expressionTokens x) (tokens x) (comments x).
Definition set_currentToken (v : option IntermediateToken) (x : t) : t :=
  mk (tokenizer x) v (currentStartTag x) (attribute x) (attributeNames x)
    (expressionStartToken x) (expressionTokens x) (tokens x) (comments x).
Definition set_currentStartTag (v : option StartTag) (x : t) : t :=
  mk (tokenizer x) (currentToken x) v (attribute x) (attributeNames x)
    (expressionStartToken x) (expressionTokens x) (tokens x) (comments x).
Definition set_attribute (v : option XAttribute) (x : t) : t :=
  mk (tokenizer x) (currentToken x) (currentStartTag x) v (attributeNames x)
    (expressionStartToken x) (expressionTokens x) (tokens x) (comments x).
Definition set_attributeNames (v : list JS.str) (x : t) : t :=
  mk (tokenizer x) (currentToken x) (currentStartTag x) (attribute x) v
    (expressionStartToken x) (expressionTokens x) (tokens x) (comments x).
Definition set_expressionStartToken (v : option Token) (x : t) : t :=
  mk (tokenizer x) (currentToken x) (currentStartTag x) (attribute x)
    (attributeNames x) v (expressionTokens x) (tokens x) (comments x).
Definition set_expressionTokens (v : list Token) (x : t) : t :=
  mk (tokenizer x) (currentToken x) (currentStartTag x) (attribute x)
    (attributeNames x) (expressionStartToken x) v (tokens x) (comments x).
Definition set_tokens (v : list Token) (x : t) : t :=
  mk (tokenizer x) (currentToken x) (currentStartTag x) (attribute x)
    (attributeNames x) (expressionStartToken x) (expressionTokens x) v
    (comments x).
Definition set_comments (v : list Token) (x : t) : t :=
  mk (tokenizer x) (currentToken x) (currentStartTag x) (attribute x)
    (attributeNames x) (expressionStartToken x) (expressionTokens x)
    (tokens x) v.

(** [new IntermediateTokenizer(tokenizer)]. *)
Definition new (tk : Tokenizer.t) : t := mk tk None None None [] None [] [] [].

(** A method of the tokenizer, called on [this.tokenizer]. *)
Definition onTokenizer {A} (m : M Tokenizer.t A) : M t A :=
  fun x => match m (tokenizer x) with
           | Ok a tk => Ok a (set_tokenizer tk x)
           | Throw e tk => Throw e (set_tokenizer tk x)
           end.

(** [concat(text, token)]. *)
Definition concat (text : JS.str) (token : Token) : JS.str := text ++ tok_value token.

Definition parseErrorAt (range : OffsetRange) (loc : LocationRange)
    (c : ErrorCode) : ParseError :=
  ParseErrors.fromCode c (fst range) (ln (loc_start loc)) (col (loc_start loc)).

(** [this.errors] is the array of the tokenizer. *)
Definition reportParseError (range : OffsetRange) (loc : LocationRange)
    (c : ErrorCode) : M t unit :=
  modify (fun x =>
    set_tokenizer
      (Tokenizer.set_errors
         (Tokenizer.errors (tokenizer x) ++ [parseErrorAt range loc c])
         (tokenizer x)) x).

Definition throwParseError {A} (range : OffsetRange) (loc : LocationRange)
    (c : ErrorCode) : M t A :=
  throw (ParseErrorExn (parseErrorAt range loc c)).

Definition pushToken (token : Token) : M t unit :=
  modify (fun x => set_tokens (tokens x ++ [token]) x).

Definition withLocEnd (l : LocationRange) (e : Location) : LocationRange :=
  mkLocationRange (loc_start l) e.

Definition replaceLast {A} (l : list A) (a : A) : list A :=
  match rev l with [] => [] | _ :: r => rev r ++ [a] end.

(** An update in place of the object [this.attribute].  While a start tag
    is open, that object is also the last item of
    [this.currentStartTag.attributes], and the update shows there. *)
Definition updateAttribute (f : XAttribute -> XAttribute) : M t unit :=
  modify (fun x =>
    match attribute x with
    | None => x
    | Some a =>
        let x1 := set_attribute (Some (f a)) x in
        match currentStartTag x with
        | None => x1
        | Some s =>
            set_currentStartTag (Some
              (mkStartTag (st_range s) (st_loc s) (st_name s) (st_rawName s)
                 (st_selfClosing s) (replaceLast (st_attributes s) (f a)))) x1
        end
    end).

(** [this.attribute.range[1] = token.range[1];
     this.attribute.loc.end = token.loc.end]. *)
Definition extendAttribute (token : Token) (a : XAttribute) : XAttribute :=
  mkXAttribute (at_type a) (fst (at_range a), snd (tok_range token))
    (withLocEnd (at_loc a) (loc_end (tok_loc token))) (at_key a) (at_value a).

(** [this.attribute.value.push(v)]. *)
Definition pushValue (v : AttributeValue) (a : XAttribute) : XAttribute :=
  mkXAttribute (at_type a) (at_range a) (at_loc a) (at_key a) (at_value a ++ [v]).

(** [this.currentStartTag.range[1] = token.range[1];
     this.currentStartTag.loc.end = token.loc.end], after the test that
    throws [unreachable] when no start tag is open. *)
Definition extendStartTag (token : Token) : M t unit :=
  s <- gets currentStartTag ;;
  match s with
  | None => throwParseError (tok_range token) (tok_loc token) "unreachable"
  | Some s =>
      modify (set_currentStartTag (Some
        (mkStartTag (fst (st_range s), snd (tok_range token))
           (withLocEnd (st_loc s) (loc_end (tok_loc token)))
           (st_name s) (st_rawName s) (st_selfClosing s) (st_attributes s))))
  end.

(** The text a pending mustache start and the tokens deferred after it
    become when no end arrives: [start], [end] and [value]. *)
Definition pendingEnd (start : Token) (deferred : list Token) : Token :=
  match last_opt deferred with Some e => e | None => start end.

Definition pendingValue (start : Token) (deferred : list Token) : JS.str :=
  fold_left concat deferred (tok_value start).

(** [commit()]. *)
Definition commit : M t IntermediateToken :=
  c <- gets currentToken ;;
  e <- gets expressionStartToken ;;
  assert (isSome c || isSome e) "commit" ;;
  modify (set_currentToken None) ;;
  modify (set_attribute None) ;;
  match e with
  | Some start =>
      reportParseError (tok_range start) (tok_loc start) "missing-expression-end-tag" ;;
      deferred <- gets expressionTokens ;;
      let end' := pendingEnd start deferred in
      let value := pendingValue start deferred in
      modify (set_expressionStartToken None) ;;
      modify (set_expressionTokens []) ;;
      match c with
      | None =>
          ret (IText (mkText (fst (tok_range start), snd (tok_range end'))
                        (mkLocationRange (loc_start (tok_loc start)) (loc_end (tok_loc end')))
                        value))
      | Some (IText x) =>
          ret (IText (mkText (fst (tx_range x), snd (tok_range end'))
                        (withLocEnd (tx_loc x) (loc_end (tok_loc end')))
                        (tx_value x ++ value)))
      | Some (IEndTag g) => throwParseError (et_range g) (et_loc g) "unreachable"
      | Some (IMustache m) => throwParseError (mu_range m) (mu_loc m) "unreachable"
      | Some (IStartTag s) => throwParseError (st_range s) (st_loc s) "unreachable"
      end
  | None =>
      match c with
      | Some token => ret token
      | None => throw (AssertionExn "commit")
      end
  end.

Definition currentIsText (c : option IntermediateToken) : bool :=
  match c with Some (IText _) => true | _ => false end.

Definition processComment (token : Token) : M t (option IntermediateToken) :=
  modify (fun x => set_comments (comments x ++ [token]) x) ;;
  c <- gets currentToken ;;
  if currentIsText c then r <- commit ;; ret (Some r) else ret None.

Definition textOf (token : Token) : IntermediateToken :=
  IText (mkText (fst (tok_range token), snd (tok_range token))
           (mkLocationRange (loc_start (tok_loc token)) (loc_end (tok_loc token)))
           (tok_value token)).

Definition processText (token : Token) : M t (option IntermediateToken) :=
  pushToken token ;;
  e <- gets expressionStartToken ;;
  c <- gets currentToken ;;
  let start_new (result : option IntermediateToken) : M t (option IntermediateToken) :=
    c' <- gets currentToken ;;
    assert (negb (isSome c')) "this.currentToken == null" ;;
    modify (set_currentToken (Some (textOf token))) ;;
    ret result in
  match e with
  | Some start =>
      deferred <- gets expressionTokens ;;
      let lastToken := pendingEnd start deferred in
      if snd (tok_range lastToken) =? fst (tok_range token) then
        modify (set_expressionTokens (deferred ++ [token])) ;; ret None
      else r <- commit ;; start_new (Some r)
  | None =>
      match c with
      | Some cur =>
          match cur with
          | IText x =>
              if snd (tx_range x) =? fst (tok_range token) then
                modify (set_currentToken (Some (IText
                  (mkText (fst (tx_range x), snd (tok_range token))
                     (withLocEnd (tx_loc x) (loc_end (tok_loc token)))
                     (tx_value x ++ tok_value token))))) ;;
                ret None
              else r <- commit ;; start_new (Some r)
          | _ => r <- commit ;; start_new (Some r)
          end
      | None => start_new None
      end
  end.

Definition HTMLAssociation_ (token : Token) : M t (option IntermediateToken) :=
  pushToken token ;;
  a <- gets attribute ;;
  when (isSome a) (updateAttribute (extendAttribute token) ;; extendStartTag token) ;;
  ret None.

Definition HTMLEndTagOpen_ (token : Token) : M t (option IntermediateToken) :=
  pushToken token ;;
  c <- gets currentToken ;;
  e <- gets expressionStartToken ;;
  result <- (if isSome c || isSome e then r <- commit ;; ret (Some r) else ret None) ;;
  modify (set_currentToken (Some (IEndTag
    (mkEndTag (fst (tok_range token), snd (tok_range token))
       (mkLocationRange (loc_start (tok_loc token)) (loc_end (tok_loc token)))
       (tok_value token))))) ;;
  ret result.

Definition HTMLIdentifier_ (token : Token) : M t (option IntermediateToken) :=
  pushToken token ;;
  s <- gets currentStartTag ;;
  match s with
  | None => reportParseError (tok_range token) (tok_loc token) "unreachable" ;; ret None
  | Some s =>
      names <- gets attributeNames ;;
      when (existsb (JS.eqb (tok_value token)) names)
           (reportParseError (tok_range token) (tok_loc token) "duplicate-attribute") ;;
      when (negb (existsb (JS.eqb (tok_value token)) names))
           (modify (set_attributeNames (names ++ [tok_value token]))) ;;
      txt <- gets (fun x => Tokenizer.text (tokenizer x)) ;;
      let r := (fst (tok_range token), snd (tok_range token)) in
      let l := mkLocationRange (loc_start (tok_loc token)) (loc_end (tok_loc token)) in
      let a := mkXAttribute XAttributeT r l
                 (XIdentifier r l (tok_value token)
                    (JS.slice txt (fst (tok_range token)) (snd (tok_range token))))
                 [] in
      modify (set_attribute (Some a)) ;;
      modify (set_currentStartTag (Some
        (mkStartTag (fst (st_range s), snd (tok_range token))
           (withLocEnd (st_loc s) (loc_end (tok_loc token)))
           (st_name s) (st_rawName s) (st_selfClosing s) (st_attributes s ++ [a])))) ;;
      ret None
  end.

Definition literalOf (range : OffsetRange) (loc : LocationRange) (v : JS.str)
    : AttributeValue :=
  VLiteral (mkXLiteral range loc v).

Definition HTMLQuote_ (token : Token) : M t (option IntermediateToken) :=
  a <- gets attribute ;;
  assert (isSome a) "this.attribute != null" ;;
  pushToken token ;;
  updateAttribute (extendAttribute token) ;;
  ts <- gets tokens ;;
  match nth_error (rev ts) 1 with
  | None => throw (TypeErrorExn "lastToken")
  | Some lastToken =>
      a <- gets attribute ;;
      when (TokenType_eqb (tok_type lastToken) HTMLQuote
            && (snd (tok_range lastToken) =? fst (tok_range token))
            && match a with Some a => (length (at_value a) =? 0)%nat | None => false end)
           (updateAttribute (pushValue
              (literalOf (fst (tok_range token), fst (tok_range token))
                 (mkLocationRange (loc_start (tok_loc token)) (loc_start (tok_loc token)))
                 []))) ;;
      e <- gets expressionStartToken ;;
      match e with
      | Some start =>
          if negb (TokenType_eqb (tok_type lastToken) HTMLAssociation) then
            reportParseError (tok_range start) (tok_loc start) "missing-expression-end-tag" ;;
            deferred <- gets expressionTokens ;;
            let end' := pendingEnd start deferred in
            let value := pendingValue start deferred in
            modify (set_expressionStartToken None) ;;
            modify (set_expressionTokens []) ;;
            updateAttribute (pushValue
              (literalOf (fst (tok_range start), snd (tok_range end'))
                 (mkLocationRange (loc_start (tok_loc start)) (loc_end (tok_loc end')))
                 value)) ;;
            ret None
          else ret None
      | None => ret None
      end
  end.

Definition HTMLLiteral_ (token : Token) : M t (option IntermediateToken) :=
  pushToken token ;;
  a <- gets attribute ;;
  when (isSome a)
    (updateAttribute (fun a =>
       pushValue (literalOf (fst (tok_range token), snd (tok_range token))
                    (mkLocationRange (loc_start (tok_loc token)) (loc_end (tok_loc token)))
                    (tok_value token))
                 (extendAttribute token a)) ;;
     extendStartTag token) ;;
  ret None.

Definition HTMLAttrLiteral_ (token : Token) : M t (option IntermediateToken) :=
  pushToken token ;;
  a <- gets attribute ;;
  match a with
  | None => throwParseError (tok_range token) (tok_loc token) "unreachable"
  | Some _ =>
      e <- gets expressionStartToken ;;
      match e with
      | Some start =>
          deferred <- gets expressionTokens ;;
          let lastToken := pendingEnd start deferred in
          when (snd (tok_range lastToken) =? fst (tok_range token))
               (modify (set_expressionTokens (deferred ++ [token]))) ;;
          ret None
      | None =>
          c <- gets currentToken ;;
          assert (negb (isSome c)) "this.currentToken == null" ;;
          updateAttribute (fun a =>
            extendAttribute token
              (pushValue (literalOf (fst (tok_range token), snd (tok_range token))
                            (mkLocationRange (loc_start (tok_loc token))
                               (loc_end (tok_loc token)))
                            (tok_value token)) a)) ;;
          extendStartTag token ;;
          ret None
      end
  end.

Definition closeStartTag (s : StartTag) (token : Token) (selfClosing : bool) : StartTag :=
  mkStartTag (fst (st_range s), snd (tok_range token))
    (withLocEnd (st_loc s) (loc_end (tok_loc token)))
    (st_name s) (st_rawName s) selfClosing (st_attributes s).

Definition HTMLSelfClosingTagClose_ (token : Token) : M t (option IntermediateToken) :=
  pushToken token ;;
  s <- gets currentStartTag ;;
  match s with
  | None => throwParseError (tok_range token) (tok_loc token) "unreachable"
  | Some startTag =>
      modify (set_currentStartTag None) ;;
      ret (Some (IStartTag (closeStartTag startTag token true)))
  end.

(** [this.currentToken.range[1] = token.range[1];
     this.currentToken.loc.end = token.loc.end]. *)
Definition extendIntermediate (c : IntermediateToken) (token : Token) : IntermediateToken :=
  let r1 := snd (tok_range token) in
  let e := loc_end (tok_loc token) in
  match c with
  | IStartTag s => IStartTag (mkStartTag (fst (st_range s), r1) (withLocEnd (st_loc s) e)
                     (st_name s) (st_rawName s) (st_selfClosing s) (st_attributes s))
  | IEndTag g => IEndTag (mkEndTag (fst (et_range g), r1) (withLocEnd (et_loc g) e) (et_name g))
  | IText x => IText (mkText (fst (tx_range x), r1) (withLocEnd (tx_loc x) e) (tx_value x))
  | IMustache m => IMustache (mkMustache (fst (mu_range m), r1) (withLocEnd (mu_loc m) e)
                     (mu_value m) (mu_startToken m) (mu_endToken m))
  end.

Definition HTMLTagClose_ (token : Token) : M t (option IntermediateToken) :=
  pushToken token ;;
  s <- gets currentStartTag ;;
  match s with
  | Some startTag =>
      modify (set_currentStartTag None) ;;
      ret (Some (IStartTag (closeStartTag startTag token (st_selfClosing startTag))))
  | None =>
      c <- gets currentToken ;;
      match c with
      | None => throwParseError (tok_range token) (tok_loc token) "unreachable"
      | Some cur =>
          modify (set_currentToken (Some (extendIntermediate cur token))) ;;
          r <- commit ;; ret (Some r)
      end
  end.

Definition HTMLTagOpen_ (token : Token) : M t (option IntermediateToken) :=
  pushToken token ;;
  c <- gets currentToken ;;
  e <- gets expressionStartToken ;;
  result <- (if isSome c || isSome e then r <- commit ;; ret (Some r) else ret None) ;;
  txt <- gets (fun x => Tokenizer.text (tokenizer x)) ;;
  modify (set_currentStartTag (Some
    (mkStartTag (fst (tok_range token), snd (tok_range token))
       (mkLocationRange (loc_start (tok_loc token)) (loc_end (tok_loc token)))
       (tok_value token)
       (JS.slice txt (fst (tok_range token) + 1) (snd (tok_range token)))
       false []))) ;;
  modify (set_attribute None) ;;
  modify (set_attributeNames []) ;;
  ret result.

Definition XMustacheStart_ (token : Token) : M t (option IntermediateToken) :=
  e <- gets expressionStartToken ;;
  if isSome e then processText token
  else
    c <- gets currentToken ;;
    let separated :=
      match c with
      | Some cur =>
          negb (snd (match cur with
                     | IStartTag s => st_range s | IEndTag g => et_range g
                     | IText x => tx_range x | IMustache m => mu_range m
                     end) =? fst (tok_range token))
      | None => false
      end in
    result <- (if separated then r <- commit ;; ret (Some r) else ret None) ;;
    pushToken token ;;
    modify (set_expressionStartToken (Some token)) ;;
    ret result.

Definition XMustacheEnd_ (token : Token) : M t (option IntermediateToken) :=
  e <- gets expressionStartToken ;;
  match e with
  | None => processText token
  | Some start =>
      deferred <- gets expressionTokens ;;
      let end' := pendingEnd start deferred in
      if negb (snd (tok_range end') =? fst (tok_range token)) then
        result <- commit ;;
        processText token ;;
        ret (Some result)
      else
        let value := fold_left concat deferred [] in
        pushToken token ;;
        modify (set_expressionStartToken None) ;;
        modify (set_expressionTokens []) ;;
        let mustache :=
          mkMustache (fst (tok_range start), snd (tok_range token))
            (mkLocationRange (loc_start (tok_loc start)) (loc_end (tok_loc token)))
            value start token in
        s <- gets currentStartTag ;;
        if isSome s then
          a <- gets attribute ;;
          match a with
          | None => throwParseError (tok_range token) (tok_loc token) "unreachable"
          | Some _ => updateAttribute (pushValue (VMustache mustache)) ;; ret None
          end
        else
          c <- gets currentToken ;;
          result <- (if isSome c then r <- commit ;; ret (Some r) else ret None) ;;
          modify (set_currentToken (Some (IMustache mustache))) ;;
          match result with
          | Some r => ret (Some r)
          | None => r <- commit ;; ret (Some r)
          end
  end.

(** [this[token.type](token)]. *)
Definition handle (token : Token) : M t (option IntermediateToken) :=
  match tok_type token with
  | HTMLAssociation => HTMLAssociation_ token
  | HTMLBogusComment | HTMLComment => processComment token
  | HTMLEndTagOpen => HTMLEndTagOpen_ token
  | HTMLIdentifier => HTMLIdentifier_ token
  | HTMLLiteral => HTMLLiteral_ token
  | HTMLAttrLiteral => HTMLAttrLiteral_ token
  | HTMLQuote => HTMLQuote_ token
  | HTMLRCDataText | HTMLRawText | HTMLText | HTMLWhitespace => processText token
  | HTMLSelfClosingTagClose => HTMLSelfClosingTagClose_ token
  | HTMLTagClose => HTMLTagClose_ token
  | HTMLTagOpen => HTMLTagOpen_ token
  | XMustacheStart => XMustacheStart_ token
  | XMustacheEnd => XMustacheEnd_ token
  | ScriptToken _ => throw (TypeErrorExn "this[token.type] is not a function")
  end.

(** The loop of [nextToken]: the result and whether the tokenizer has
    returned [null].  [n] bounds the number of turns. *)
Fixpoint nextToken_loop (n : nat) : M t (option IntermediateToken * bool) :=
  match n with
  | O => throw OutOfFuel
  | S n' =>
      o <- onTokenizer Tokenizer.nextToken ;;
      match o with
      | None => ret (None, true)
      | Some token =>
          result <- handle token ;;
          match result with
          | Some _ => ret (result, false)
          | None => nextToken_loop n'
          end
      end
  end.

Definition nextToken : M t (option IntermediateToken) :=
  n <- gets (fun x => Tokenizer.turns (tokenizer x)) ;;
  r <- nextToken_loop n ;;
  let '(result, ended) := r in
  c <- gets currentToken ;;
  if negb (isSome result) && ended && isSome c then
    r <- commit ;; ret (Some r)
  else ret result.

End IntermediateTokenizer.

(* ================================================================== *)
(** * lodash *)
(* ================================================================== *)

Module Lodash.

(** [baseSortedIndexBy(array, value, iteratee, retHighest)] for numbers:
    a binary search.  [n] bounds the number of halvings. *)
Fixpoint search {A} (key : A -> Z) (arr : list A) (v : Z) (retHighest : bool)
    (n : nat) (low high : Z) : Z :=
  match n with
  | O => high
  | S n' =>
      if low <? high then
        let mid := (low + high) / 2 in
        match nth_error arr (Z.to_nat mid) with
        | None => high
        | Some x =>
            let computed := key x in
            let setLow := if retHighest then computed <=? v else computed <? v in
            if setLow then search key arr v retHighest n' (mid + 1) high
            else search key arr v retHighest n' low mid
        end
      else high
  end.

Definition sortedIndexBy {A} (arr : list A) (v : Z) (key : A -> Z) : Z :=
  search key arr v false (S (length arr)) 0 (Z.of_nat (length arr)).

Definition sortedLastIndexBy {A} (arr : list A) (v : Z) (key : A -> Z) : Z :=
  search key arr v true (S (length arr)) 0 (Z.of_nat (length arr)).

(** [array.splice(index, count, ...items)] for [0 <= index] and any count
    (a negative count removes nothing). *)
Definition splice {A} (arr : list A) (index count : Z) (items : list A) : list A :=
  let i := Z.to_nat (Z.min index (Z.of_nat (length arr))) in
  firstn i arr ++ items ++ skipn (i + Z.to_nat count) arr.

End Lodash.

(* ================================================================== *)
(** * The location calculator *)
(* ================================================================== *)

(** Modelled from the spec: the class [LocationCalculator] of
    location-calculator.ts, which the parser, the language layer and the
    script layer import and which is not among the sources.  The model
    follows section 4.4 of the specification. *)
Module LocationCalculator.

Record t := mk {
  gapOffsets : list Z;
  ltOffsets : list Z;
  baseOffset : Z;
  shiftOffset : Z
}.

(** [new LocationCalculator(gaps, lineTerminators)]. *)
Definition new (gaps lts : list Z) : t := mk gaps lts 0 0.

Definition countLe (l : list Z) (v : Z) : Z :=
  Z.of_nat (length (filter (fun g => g <=? v) l)).

(** [getOffsetWithGap(o)]: [baseOffset + o + k], with [k] the number of gap
    offsets up to that position. *)
Definition getOffsetWithGap (c : t) (o : Z) : Z :=
  baseOffset c + o + countLe (gapOffsets c) (baseOffset c + o).

(** The line and the column of an absolute offset. *)
Definition locate (c : t) (abs : Z) : Location :=
  let i := countLe (ltOffsets c) abs in
  if i =? 0 then mkLocation 1 abs
  else mkLocation (i + 1) (abs - nth (Z.to_nat (i - 1)) (ltOffsets c) 0 - 1).

(** [getLocation(o)]. *)
Definition getLocation (c : t) (o : Z) : Location :=
  locate c (baseOffset c + shiftOffset c + o).

(** [getSubCalculatorAfter(o)]. *)
Definition getSubCalculatorAfter (c : t) (o : Z) : t :=
  mk (gapOffsets c) (ltOffsets c) (baseOffset c + o) (shiftOffset c).

(** [getSubCalculatorShift(delta)]. *)
Definition getSubCalculatorShift (c : t) (delta : Z) : t :=
  mk (gapOffsets c) (ltOffsets c) (baseOffset c) (shiftOffset c + delta).

Definition absolute (c : t) (o : Z) : Z := getOffsetWithGap c (o + shiftOffset c).

(** [fixLocation(node)], on the range of the node: the range and the
    location in the coordinates of the template. *)
Definition fixRange (c : t) (r : OffsetRange) : OffsetRange * LocationRange :=
  let r' := (absolute c (fst r), absolute c (snd r)) in
  (r', mkLocationRange (locate c (fst r')) (locate c (snd r'))).

Definition fixToken (c : t) (k : Token) : Token :=
  let '(r, l) := fixRange c (tok_range k) in
  mkToken (tok_ref k) (tok_type k) r l (tok_value k).

(** [fixErrorLocation(error)]. *)
Definition fixErrorLocation (c : t) (e : ParseError) : ParseError :=
  let abs := absolute c (pe_index e) in
  let l := locate c abs in
  mkParseError (pe_message e) (pe_code e) abs (ln l) (col l).

End LocationCalculator.

(* ================================================================== *)
(** * The script layer (script/index.ts, script/scope-analyzer.ts) *)
(* ================================================================== *)

Record ScriptParserOptions := mkScriptParserOptions {
  sp_parser : string;
  sp_ecmaVersion : Z;
  sp_sourceType : string;
  sp_allowReserved : bool;
  sp_range : bool;
  sp_loc : bool;
  sp_tokens : bool
}.

(** [script.ExtendedProgram]: the [ast] the script parser returns. *)
Record ESProgram := mkESProgram {
  prog_body : list ESNode;
  prog_tokens : option (list Token);
  prog_comments : option (list Token);
  prog_range : OffsetRange;
  prog_loc : LocationRange
}.

(** What the script parser can throw: an object with [message], [index],
    [lineNumber] and [column] (as espree throws), an object with [message],
    [pos] and [loc] (as acorn throws), or anything else. *)
Inductive Thrown :=
| ThrownParseError (e : ParseError)
| ThrownAcornStyle (msg : JS.str) (pos ln' col' : Z)
| ThrownOther (msg : string).

(** A reference of [scope.through], of eslint-scope. *)
Record ScopeReference := mkScopeReference {
  sr_identifier : ESNode;
  sr_isReadOnly : bool;
  sr_isWriteOnly : bool
}.

(** The external collaborators: the script parser that [parseScript] loads
    with [require], and the scope analysis of eslint-scope. *)
Record ScriptBackend := mkScriptBackend {
  backend_parse : JS.str -> ScriptParserOptions -> ESProgram + Thrown;
  backend_through : ESProgram -> ScriptParserOptions -> list ScopeReference
}.

(** What the language layer and the script layer read and change while
    they work on one expression: the token, comment and error arrays of
    the owner document, the elements around the expression (nearest first,
    the chain of [parent]s), and the codes handed to the script parser so
    far (latest last; the sources keep no such list). *)
Record Env := mkEnv {
  env_tokens : list Token;
  env_comments : list Token;
  env_errors : list ParseError;
  env_chain : list XElement;
  env_scriptCalls : list JS.str
}.

Definition set_env_tokens (v : list Token) (x : Env) : Env :=
  mkEnv v (env_comments x) (env_errors x) (env_chain x) (env_scriptCalls x).
Definition set_env_comments (v : list Token) (x : Env) : Env :=
  mkEnv (env_tokens x) v (env_errors x) (env_chain x) (env_scriptCalls x).
Definition set_env_errors (v : list ParseError) (x : Env) : Env :=
  mkEnv (env_tokens x) (env_comments x) v (env_chain x) (env_scriptCalls x).
Definition set_env_chain (v : list XElement) (x : Env) : Env :=
  mkEnv (env_tokens x) (env_comments x) (env_errors x) v (env_scriptCalls x).
Definition set_env_scriptCalls (v : list JS.str) (x : Env) : Env :=
  mkEnv (env_tokens x) (env_comments x) (env_errors x) (env_chain x) v.

(** The result of parsing expressions, [ExpressionParseResult]. *)
Record ExpressionParseResult := mkExpressionParseResult {
  res_expression : option ESNode;
  res_tokens : list Token;
  res_comments : list Token;
  res_references : list Reference
}.

(** [x.offset] for a parse error [x].  [ParseError] declares [code],
    [index], [lineNumber] and [column] and no [offset]; the objects
    [ParseError.normalize] lets through have [message], [index],
    [lineNumber] and [column].  Reading [offset] gives [undefined]. *)
Definition offsetOf (x : ParseError) : option Z := None.

Module Script.
Section WithBackend.
Variable backend : ScriptBackend.

Fixpoint fixNode (c : LocationCalculator.t) (n : ESNode) : ESNode :=
  match n with
  | ESIdentifier nm r _ =>
      let '(r', l') := LocationCalculator.fixRange c r in ESIdentifier nm r' l'
  | ESArrayExpression els r _ =>
      let '(r', l') := LocationCalculator.fixRange c r in
      ESArrayExpression (map (option_map (fixNode c)) els) r' l'
  | ESCallExpression f args r _ =>
      let '(r', l') := LocationCalculator.fixRange c r in
      ESCallExpression (fixNode c f) (map (fixNode c) args) r' l'
  | ESSpreadElement a r _ =>
      let '(r', l') := LocationCalculator.fixRange c r in
      ESSpreadElement (fixNode c a) r' l'
  | ESOther ty ch r _ =>
      let '(r', l') := LocationCalculator.fixRange c r in
      ESOther ty (map (fixNode c) ch) r' l'
  end.

(** [postprocess(result, locationCalculator)]. *)
Definition postprocess (p : ESProgram) (c : LocationCalculator.t) : ESProgram :=
  let '(r', l') := LocationCalculator.fixRange c (prog_range p) in
  mkESProgram (map (fixNode c) (prog_body p))
    (option_map (map (LocationCalculator.fixToken c)) (prog_tokens p))
    (option_map (map (LocationCalculator.fixToken c)) (prog_comments p))
    r' l'.

(** [ParseError.normalize(x)]. *)
Definition normalize (x : Thrown) : option ParseError :=
  match x with
  | ThrownParseError e => Some e
  | ThrownAcornStyle msg pos l c => Some (mkParseError msg None pos l c)
  | ThrownOther _ => None
  end.

(** [parseScript(code, parserOptions)]: the call of the script parser. *)
Definition parseScript (code : JS.str) (opts : ScriptParserOptions)
    : M Env (ESProgram + Thrown) :=
  modify (fun x => set_env_scriptCalls (env_scriptCalls x ++ [code]) x) ;;
  ret (backend_parse backend code opts).

Definition parseScriptFragment (code : JS.str) (c : LocationCalculator.t)
    (opts : ScriptParserOptions) : M Env ESProgram :=
  r <- parseScript code opts ;;
  match r with
  | inl result => ret (postprocess result c)
  | inr e =>
      match normalize e with
      | Some perr => throw (ParseErrorExn (LocationCalculator.fixErrorLocation c perr))
      | None => throw (ForeignExn match e with ThrownOther m => m | _ => "" end)
      end
  end.

(** Two nodes are the same object; the model compares what tells the
    nodes of one tree apart, the type and the range. *)
Definition sameNode (a b : ESNode) : bool :=
  String.eqb (es_type a) (es_type b)
  && (fst (es_range a) =? fst (es_range b))
  && (snd (es_range a) =? snd (es_range b)).

(** [references.filter(isUnique)]. *)
Fixpoint uniques (prev : option ScopeReference) (l : list ScopeReference)
    : list ScopeReference :=
  match l with
  | [] => []
  | r :: l' =>
      let keep := match prev with
                  | None => true
                  | Some p => negb (sameNode (sr_identifier r) (sr_identifier p))
                  end in
      (if keep then [r] else []) ++ uniques (Some r) l'
  end.

Definition transformReference (r : ScopeReference) : Reference :=
  mkReference (sr_identifier r)
    (if sr_isReadOnly r then "r" else if sr_isWriteOnly r then "w" else "rw")
    None.

Definition analyzeExternalReferences (p : ESProgram) (opts : ScriptParserOptions)
    : list Reference :=
  map transformReference (uniques None (backend_through backend p opts)).

Definition isComma (k : Token) : bool :=
  TokenType_eqb (tok_type k) (ScriptToken "Punctuator")
  && JS.eqb (tok_value k) (JS.lit ",").

(** The loop of [getCommaTokenBeforeNode]: from [tokens[i]] down to
    [tokens[0]]; [rev_prefix] is [tokens[i], ..., tokens[0]]. *)
Definition getCommaTokenBeforeNode (tokens : list Token) (range : OffsetRange)
    : M Env (option Token) :=
  let i := Lodash.sortedIndexBy tokens (fst range) (fun k => fst (tok_range k)) in
  match nth_error tokens (Z.to_nat i) with
  | None => throw (TypeErrorExn "token.type")
  | Some _ => ret (find isComma (rev (firstn (S (Z.to_nat i)) tokens)))
  end.

Definition throwEmptyError {A} (c : LocationCalculator.t) (expected : string) : M Env A :=
  let l := LocationCalculator.getLocation c 0 in
  throw (ParseErrorExn
    (LocationCalculator.fixErrorLocation c
       (mkParseError (JS.lit "Expected to be " ++ JS.lit expected ++ JS.lit ", but got empty.")
          None 0 (ln l) (col l)))).

Definition throwUnexpectedTokenError {A} (name : string) (range : OffsetRange)
    (loc : LocationRange) : M Env A :=
  throw (ParseErrorExn
    (mkParseError (JS.lit "Unexpected token '" ++ JS.lit name ++ JS.lit "'.")
       None (fst range) (ln (loc_start loc)) (col (loc_start loc)))).

Definition isParseError (e : Exn) : option ParseError :=
  match e with ParseErrorExn p => Some p | _ => None end.

(** [throwErrorAsAdjustingOutsideOfCode(e, code, locationCalculator)]. *)
Definition throwErrorAsAdjustingOutsideOfCode {A} (e : Exn) (code : JS.str)
    (c : LocationCalculator.t) : M Env A :=
  match isParseError e with
  | Some p =>
      let endOffset := LocationCalculator.getOffsetWithGap c (JS.len code) in
      match offsetOf p with
      | Some o =>
          if endOffset <=? o then
            throw (ParseErrorExn
              (mkParseError (JS.lit "Unexpected end of expression.")
                 (pe_code p) (pe_index p) (pe_lineNumber p) (pe_column p)))
          else throw e
      | None => throw e
      end
  | None => throw e
  end.

(** [statement.expression]; [None] stands for [undefined]. *)
Definition statementExpression (statement : ESNode) : option ESNode :=
  match statement with
  | ESOther "ExpressionStatement" (e :: _) _ _ => Some e
  | _ => None
  end.

(** [callExpression.arguments]; [None] stands for [undefined]. *)
Definition callArguments (e : ESNode) : option (list ESNode) :=
  match e with
  | ESCallExpression _ args _ _ => Some args
  | _ => None
  end.

(** [tokens.shift(); tokens.shift(); tokens.pop()]. *)
Definition removeParens (tokens : list Token) : list Token :=
  removelast (skipn 2 tokens).

Definition orEmpty {A} (o : option (list A)) : list A :=
  match o with Some l => l | None => [] end.

(** The body of the [try] of [parseExpressionBody]. *)
Definition parseExpressionBody_try (code : JS.str) (c : LocationCalculator.t)
    (opts : ScriptParserOptions) (allowEmpty : bool) : M Env ExpressionParseResult :=
  ast <- parseScriptFragment (JS.lit "0(" ++ code ++ JS.lit ")")
           (LocationCalculator.getSubCalculatorShift c (-2)) opts ;;
  let tokens := orEmpty (prog_tokens ast) in
  let comments := orEmpty (prog_comments ast) in
  let references := analyzeExternalReferences ast opts in
  match prog_body ast with
  | [] => throw (TypeErrorExn "statement.expression")
  | statement :: _ =>
      match statementExpression statement with
      | None => throw (TypeErrorExn "callExpression.arguments")
      | Some callExpression =>
          match callArguments callExpression with
          | None => throw (TypeErrorExn "callExpression.arguments[0]")
          | Some args =>
              match nth_error args 0 with
              | None =>
                  if negb allowEmpty then throwEmptyError c "an expression"
                  else throw (TypeErrorExn "expression.type")
              | Some expression =>
                  if String.eqb (es_type expression) "SpreadElement" then
                    throwUnexpectedTokenError "..." (es_range expression) (es_loc expression)
                  else
                    match nth_error args 1 with
                    | Some node =>
                        comma <- getCommaTokenBeforeNode tokens (es_range node) ;;
                        match comma with
                        | Some k => throwUnexpectedTokenError "," (tok_range k) (tok_loc k)
                        | None => throwUnexpectedTokenError "," (es_range node) (es_loc node)
                        end
                    | None =>
                        ret (mkExpressionParseResult (Some expression)
                               (removeParens tokens) comments references)
                    end
              end
          end
      end
  end.

(** [parseExpressionBody(code, locationCalculator, parserOptions, allowEmpty)]:
    the code is parsed wrapped in a call of [0]. *)
Definition parseExpressionBody (code : JS.str) (c : LocationCalculator.t)
    (opts : ScriptParserOptions) (allowEmpty : bool) : M Env ExpressionParseResult :=
  tryCatch (parseExpressionBody_try code c opts allowEmpty)
           (fun e => throwErrorAsAdjustingOutsideOfCode e code c).

(** [parseExpression(code, locationCalculator, parserOptions)]; the language
    layer never passes the fourth argument, so [allowEmpty] is [false]. *)
Definition parseExpression (code : JS.str) (c : LocationCalculator.t)
    (opts : ScriptParserOptions) : M Env ExpressionParseResult :=
  parseExpressionBody code c opts false.

(** [parseScriptElement(node, globalLocationCalculator, parserOptions)]. *)
Definition parseScriptElement (node : XElement) (c : LocationCalculator.t)
    (opts : ScriptParserOptions) : M Env ESProgram :=
  let textNode := nth_error (el_children node) 0 in
  let offset := match textNode with
                | Some (CText x) => fst (xt_range x)
                | _ => snd (stag_range (el_startTag node))
                end in
  let code := match textNode with Some (CText x) => xt_value x | _ => [] end in
  result <- parseScriptFragment code (LocationCalculator.getSubCalculatorAfter c offset) opts ;;
  match textNode with
  | None => throw (TypeErrorExn "textNode.loc")
  | Some n =>
      ret (mkESProgram (prog_body result) (prog_tokens result) (prog_comments result)
             (child_range n) (child_loc n))
  end.

End WithBackend.
End Script.

(* ================================================================== *)
(** * The language layer (the file of the language-related definitions) *)
(* ================================================================== *)

Module Lang.

Definition SWAN_CAN_BE_LEFT_OPEN_TAGS : list JS.str := [JS.lit "_"].
Definition SWAN_VOID_ELEMENT_TAGS : list JS.str := [JS.lit "include"].
Definition SWAN_RAWTEXT_TAGS : list JS.str := [JS.lit "filter"; JS.lit "import-sjs"].
Definition SWAN_RCDATA_TAGS : list JS.str := [JS.lit "textarea"].

(** [set.has(name)]. *)
Definition has (set : list JS.str) (name : JS.str) : bool := existsb (JS.eqb name) set.

(** [prefix.replace(/:$/, '')]. *)
Definition dropFinalColon (prefix : JS.str) : JS.str :=
  match rev prefix with
  | 58 :: r => rev r
  | _ => prefix
  end.

(** [createDirectiveKey(node, parent)]; [None] when the key does not match
    DIRECTIVE_NAME, where the sources destructure [null]. *)
Definition createDirectiveKey (node : AttributeKey) : option AttributeKey :=
  match Regex.DIRECTIVE_NAME_match (key_name node) with
  | None => None
  | Some (prefix, name) =>
      Some (XDirectiveKey (key_range node) (key_loc node) name
              (if JS.eqb prefix (JS.lit "s-") then prefix else dropFinalColon prefix)
              prefix
              match node with
              | XIdentifier _ _ _ raw => raw
              | XDirectiveKey _ _ _ _ _ raw => raw
              end)
  end.

(** [convertToDirective(node)]. *)
Definition convertToDirective {S} (node : XAttribute) : M S XAttribute :=
  match createDirectiveKey (at_key node) with
  | None => throw (TypeErrorExn "node.name.match(DIRECTIVE_NAME)")
  | Some key =>
      ret (mkXAttribute XDirectiveT (at_range node) (at_loc node) key (at_value node))
  end.

Definition byRange0 (x : Token) : Z := fst (tok_range x).
Definition byRange1 (x : Token) : Z := snd (tok_range x).
Definition byIndex (x : ParseError) : Z := pe_index x.

(** [replaceTokens(document, node, newTokens)], on the token array of the
    document; [range] is [node.range]. *)
Definition replaceTokensIn (tokens : list Token) (range : OffsetRange)
    (newTokens : list Token) : list Token :=
  let index := Lodash.sortedIndexBy tokens (fst range) byRange0 in
  let count := Lodash.sortedLastIndexBy tokens (snd range) byRange1 - index in
  Lodash.splice tokens index count newTokens.

Definition replaceTokens (range : OffsetRange) (newTokens : list Token) : M Env unit :=
  modify (fun x => set_env_tokens (replaceTokensIn (env_tokens x) range newTokens) x).

(** [insertComments(document, newComments)]. *)
Definition insertComments (newComments : list Token) : M Env unit :=
  match newComments with
  | [] => ret tt
  | first :: _ =>
      modify (fun x =>
        let index := Lodash.sortedIndexBy (env_comments x) (byRange0 first) byRange0 in
        set_env_comments (Lodash.splice (env_comments x) index 0 newComments) x)
  end.

(** [insertError(document, error)]. *)
Definition insertError (error : ParseError) : M Env unit :=
  let error :=
    match pe_code error with
    | Some c => if String.eqb c "" then
                  mkParseError (pe_message error) (Some "x-expression-error"%string)
                    (pe_index error) (pe_lineNumber error) (pe_column error)
                else error
    | None => mkParseError (pe_message error) (Some "x-expression-error"%string)
                (pe_index error) (pe_lineNumber error) (pe_column error)
    end in
  modify (fun x =>
    let index := Lodash.sortedIndexBy (env_errors x) (byIndex error) byIndex in
    set_env_errors (Lodash.splice (env_errors x) index 0 [error]) x).

(** [variable.id.name === referene.id.name]; two [undefined] are equal. *)
Definition sameName (a b : ESNode) : bool :=
  match es_name a, es_name b with
  | Some x, Some y => JS.eqb x y
  | None, None => true
  | _, _ => false
  end.

(** The loop over [node.variables]: the first variable of the name of the
    reference gets the reference pushed. *)
Fixpoint bindIn (r : Reference) (vars : list ScriptVariable)
    : option (Reference * list ScriptVariable) :=
  match vars with
  | [] => None
  | variable :: rest =>
      if sameName (var_id variable) (ref_id r) then
        let r' := mkReference (ref_id r) (ref_mode r) (Some (var_id variable)) in
        Some (r', mkVariable (var_id variable) (var_kind variable)
                    (var_references variable ++ [r']) :: rest)
      else
        match bindIn r rest with
        | Some (r', rest') => Some (r', variable :: rest')
        | None => None
        end
  end.

Definition withVariables (e : XElement) (vars : list ScriptVariable) : XElement :=
  mkXElement (el_range e) (el_loc e) (el_name e) (el_rawName e) (el_startTag e)
    (el_children e) vars (el_endTag e).

(** [resolveReference(referene, element)]: [chain] is [element] and the
    elements above it. *)
Fixpoint resolveReference (r : Reference) (chain : list XElement)
    : Reference * list XElement :=
  match chain with
  | [] => (r, [])
  | node :: up =>
      match bindIn r (el_variables node) with
      | Some (r', vars') => (r', withVariables node vars' :: up)
      | None => let '(r', up') := resolveReference r up in (r', node :: up')
      end
  end.

Fixpoint resolveAll (rs : list Reference) (chain : list XElement)
    : list Reference * list XElement :=
  match rs with
  | [] => ([], chain)
  | r :: rs' =>
      let '(r', chain') := resolveReference r chain in
      let '(rs'', chain'') := resolveAll rs' chain' in
      (r' :: rs'', chain'')
  end.

(** [resolveReferences(expression)]. *)
Definition resolveReferences (node : XExpression) : M Env XExpression :=
  chain <- gets env_chain ;;
  let '(rs, chain') := resolveAll (xe_references node) chain in
  modify (set_env_chain chain') ;;
  ret (mkXExpression (xe_range node) (xe_loc node) (xe_expression node) rs).

(** A token made by the language layer: an object of its own. *)
Definition syntheticToken (ty : string) (range : OffsetRange) (loc : LocationRange)
    (v : JS.str) : Token :=
  mkToken 0 (ScriptToken ty) range loc v.

Section WithBackend.
Variable backend : ScriptBackend.

(** The statements of a [try] of [processExpression], after the call of
    [parseExpression]. *)
Definition adopt (node : XExpression) (range : OffsetRange)
    (r : ExpressionParseResult) : M Env XExpression :=
  let node := mkXExpression (xe_range node) (xe_loc node)
                (option_map Script (res_expression r)) (res_references r) in
  when (negb (length (res_tokens r) =? 0)%nat) (replaceTokens range (res_tokens r)) ;;
  resolveReferences node.

Definition retryOptions (opts : ScriptParserOptions) : ScriptParserOptions :=
  mkScriptParserOptions (sp_parser opts) 3 "script" true
    (sp_range opts) (sp_loc opts) (sp_tokens opts).

(** [processExpression(parserOptions, globalLocationCalculator, node, code)]. *)
Definition processExpression (opts : ScriptParserOptions)
    (calc : LocationCalculator.t) (node : XExpression) (code : JS.str)
    : M Env XExpression :=
  match Regex.identifierReg_exec code with
  | Some (identifierLeft, identifierName) =>
      let range := (fst (xe_range node) + JS.len identifierLeft,
                    fst (xe_range node) + JS.len identifierLeft + JS.len identifierName) in
      let loc := mkLocationRange (LocationCalculator.getLocation calc (fst range))
                   (LocationCalculator.getLocation calc (snd range)) in
      let identifier := ESIdentifier identifierName range loc in
      let token := syntheticToken "Identifier" range loc identifierName in
      let node := mkXExpression (xe_range node) (xe_loc node) (Some (Script identifier))
                    [mkReference identifier "r" None] in
      replaceTokens (xe_range node) [token] ;;
      resolveReferences node
  | None =>
      let range := xe_range node in
      let locationCalculator := LocationCalculator.getSubCalculatorAfter calc (fst range) in
      tryCatch
        (r <- Script.parseExpression backend code locationCalculator opts ;;
         adopt node range r)
        (fun e =>
           match Script.isParseError e with
           | Some p =>
               if Regex.reservedKeyword_test (pe_message p) then
                 tryCatch
                   (r <- Script.parseExpression backend code locationCalculator
                           (retryOptions opts) ;;
                    adopt node range r)
                   (fun _ => insertError p ;; ret node)
               else insertError p ;; ret node
           | None => throw e
           end)
  end.

(** [ForBlock]. *)
Record ForBlock := mkForBlock { fb_code : JS.str; fb_range : OffsetRange }.

(** The variables the loop over the matches of [keyReg] assigns. *)
Record ForScan := mkForScan {
  forLeft : option ForBlock;
  forTrackBy : option ForBlock;
  forLeftEndIndex : Z;
  forTrackByStartOffset : Z;
  inToken : option Token;
  trackByToken : option Token
}.

Definition keywordToken (calc : LocationCalculator.t) (k : Regex.ForKeyword) (offset : Z)
    : Token :=
  let n := JS.len (Regex.keywordText k) in
  mkToken 0 (ScriptToken "Keyword") (offset, offset + n)
    (mkLocationRange (LocationCalculator.getLocation calc offset)
       (LocationCalculator.getLocation calc (offset + n)))
    (Regex.keywordText k).

(** One turn of [while (match = keyReg.exec(code))]. *)
Definition forStep (calc : LocationCalculator.t) (node : XExpression) (code : JS.str)
    (index : Z) (k : Regex.ForKeyword) (s : ForScan) : ForScan :=
  let r0 := fst (xe_range node) in
  let n := Regex.keyMatchLength k in
  match k with
  | Regex.KwIn =>
      mkForScan (Some (mkForBlock (JS.slice code 0 index) (r0, r0 + index)))
        (forTrackBy s) (index + n) (forTrackByStartOffset s)
        (Some (keywordToken calc k (r0 + index + 1))) (trackByToken s)
  | Regex.KwTrackBy =>
      mkForScan (forLeft s)
        (Some (mkForBlock (JS.sliceFrom code (index + n))
                 (r0 + index + n, snd (xe_range node))))
        (forLeftEndIndex s) index
        (inToken s) (Some (keywordToken calc k (r0 + index + 1)))
  end.

(** The loop over the matches; [n] bounds the number of matches. *)
Fixpoint forScanFrom (calc : LocationCalculator.t) (node : XExpression) (code : JS.str)
    (n : nat) (lastIndex : Z) (s : ForScan) : ForScan :=
  match n with
  | O => s
  | S n' =>
      match Regex.keyReg_exec code lastIndex with
      | None => s
      | Some (index, k) =>
          forScanFrom calc node code n' (index + Regex.keyMatchLength k)
            (forStep calc node code index k s)
      end
  end.

Definition forScan (calc : LocationCalculator.t) (node : XExpression) (code : JS.str)
    : ForScan :=
  forScanFrom calc node code (S (length code)) 0
    (mkForScan None None 0 (JS.len code) None None).

(** [ret.expression.elements]; [None] stands for [undefined]. *)
Definition arrayElements (e : option ESNode) : option (list (option ESNode)) :=
  match e with
  | Some (ESArrayExpression els _ _) => Some els
  | _ => None
  end.

Definition optList {A} (o : option A) : list A :=
  match o with Some a => [a] | None => [] end.

(** The body of the [try] of [processForExpression]. *)
Definition processForExpression_try (opts : ScriptParserOptions)
    (calc : LocationCalculator.t) (node : XExpression) (code : JS.str) (s : ForScan)
    : M Env XExpression :=
  let r0 := fst (xe_range node) in
  let forRight := mkForBlock (JS.slice code (forLeftEndIndex s) (forTrackByStartOffset s))
                    (r0 + forLeftEndIndex s, r0 + forTrackByStartOffset s) in
  left <- match forLeft s with
          | None => ret (None, None, [], [])
          | Some fl =>
              r <- Script.parseExpression backend
                     (JS.lit "[" ++ fb_code fl ++ JS.lit "]")
                     (LocationCalculator.getSubCalculatorAfter calc (fst (fb_range fl)))
                     opts ;;
              match arrayElements (res_expression r) with
              | None => throw (TypeErrorExn "ret.expression.elements.length")
              | Some els =>
                  let l := match nth_error els 0 with Some e => e | None => None end in
                  let i := match els with
                           | _ :: Some e :: _ => Some e
                           | _ => None
                           end in
                  let toks := match res_tokens r with
                              | [] => []
                              | _ :: _ => removelast (skipn 1 (res_tokens r))
                                          ++ optList (inToken s)
                              end in
                  ret (l, i, res_references r, toks)
              end
          end ;;
  let '(forLeftExpr, forIndexExpr, refsL, toksL) := left in
  right <- Script.parseExpression backend (fb_code forRight)
             (LocationCalculator.getSubCalculatorAfter calc (fst (fb_range forRight)))
             opts ;;
  trackBy <- match forTrackBy s with
             | None => ret (None, [], [])
             | Some ft =>
                 r <- Script.parseExpression backend (fb_code ft)
                        (LocationCalculator.getSubCalculatorAfter calc (fst (fb_range ft)))
                        opts ;;
                 ret (res_expression r, res_references r,
                      match res_tokens r with
                      | [] => []
                      | _ :: _ => optList (trackByToken s) ++ res_tokens r
                      end)
             end ;;
  let '(trackByExpr, refsT, toksT) := trackBy in
  let swanForExpression :=
    mkSwanForExpression (fst (xe_range node)) (snd (xe_range node))
      (xe_range node) (xe_loc node)
      (res_expression right) forLeftExpr forIndexExpr trackByExpr in
  let references := refsL ++ res_references right ++ refsT in
  let tokens := toksL ++ res_tokens right ++ toksT in
  let node := mkXExpression (xe_range node) (xe_loc node)
                (Some (SwanFor swanForExpression)) references in
  when (negb (length tokens =? 0)%nat) (replaceTokens (xe_range node) tokens) ;;
  resolveReferences node.

(** [processForExpression(rawParserOptions, globalLocationCalculator, node, code)]. *)
Definition processForExpression (opts : ScriptParserOptions)
    (calc : LocationCalculator.t) (node : XExpression) (code : JS.str)
    : M Env XExpression :=
  tryCatch
    (processForExpression_try opts calc node code (forScan calc node code))
    (fun e =>
       match Script.isParseError e with
       | Some p => insertError p ;; ret node
       | None => throw e
       end).

(** An update in place of a token object: every place that holds the
    object sees it.  The token array of the document is such a place. *)
Definition updateTokenObject (k : Token) : M Env unit :=
  modify (fun x =>
    set_env_tokens
      (map (fun old => if (tok_ref old =? tok_ref k)%nat && negb (tok_ref k =? 0)%nat
                       then k else old)
           (env_tokens x)) x).

(** [mustache.startToken.range[1] -= 1; loc.end.column -= 1; value = '{']. *)
Definition trimStartToken (k : Token) : Token :=
  mkToken (tok_ref k) (tok_type k) (fst (tok_range k), snd (tok_range k) - 1)
    (mkLocationRange (loc_start (tok_loc k))
       (mkLocation (ln (loc_end (tok_loc k))) (col (loc_end (tok_loc k)) - 1)))
    (JS.lit "{").

(** [mustache.endToken.range[0] += 1; loc.start.column += 1; value = '}']. *)
Definition trimEndToken (k : Token) : Token :=
  mkToken (tok_ref k) (tok_type k) (fst (tok_range k) + 1, snd (tok_range k))
    (mkLocationRange
       (mkLocation (ln (loc_start (tok_loc k))) (col (loc_start (tok_loc k)) + 1))
       (loc_end (tok_loc k)))
    (JS.lit "}").

(** [node.parent.type === 'XDirective' && node.parent.key.name === 'for'];
    [parent] is the attribute the mustache is a value of, if any. *)
Definition parentIsFor (parent : option XAttribute) : bool :=
  match parent with
  | Some a =>
      match at_type a with
      | XDirectiveT => JS.eqb (key_name (at_key a)) (JS.lit "for")
      | XAttributeT => false
      end
  | None => false
  end.

(** [processMustache(parserOptions, globalLocationCalculator, node, mustache)].
    [node.parent] is [parent]. *)
Definition processMustache (opts : ScriptParserOptions) (calc : LocationCalculator.t)
    (parent : option XAttribute) (node : XMustache) (mustache : Mustache)
    : M Env XMustache :=
  let code := mu_value mustache in
  let startToken := mu_startToken mustache in
  let endToken := mu_endToken mustache in
  let value :=
    mkXExpression (snd (tok_range startToken), fst (tok_range endToken))
      (mkLocationRange
         (mkLocation (ln (loc_end (tok_loc startToken)))
                     (col (loc_end (tok_loc startToken)) + 1))
         (mkLocation (ln (loc_start (tok_loc endToken)))
                     (col (loc_start (tok_loc endToken)))))
      None [] in
  let done (st en : Token) (v : XExpression) : XMustache :=
    mkXMustache (xm_range node) (xm_loc node) st en (Some v) in
  if negb (JS.truthy (JS.trim code)) then ret (done startToken endToken value)
  else if parentIsFor parent then
    v <- processForExpression opts calc value code ;;
    ret (done startToken endToken v)
  else if Regex.memberExpression_test code
          && JS.eqb (tok_value startToken) (JS.lit "{{") then
    let st := trimStartToken startToken in
    let en := trimEndToken endToken in
    updateTokenObject st ;;
    updateTokenObject en ;;
    v <- processExpression opts calc value (JS.lit "{" ++ code ++ JS.lit "}") ;;
    ret (done st en v)
  else
    v <- processExpression opts calc value code ;;
    ret (done startToken endToken v).

Definition withChildren (e : XElement) (ch : list XChild) : XElement :=
  mkXElement (el_range e) (el_loc e) (el_name e) (el_rawName e) (el_startTag e)
    ch (el_variables e) (el_endTag e).

(** [processScriptModule(rawParserOptions, globalLocationCalculator, node)]. *)
Definition processScriptModule (opts : ScriptParserOptions)
    (calc : LocationCalculator.t) (node : XElement) : M Env XElement :=
  let parserOptions :=
    mkScriptParserOptions (sp_parser opts) (sp_ecmaVersion opts) (sp_sourceType opts)
      (sp_allowReserved opts) (sp_range opts) (sp_loc opts) (sp_tokens opts) in
  tryCatch
    (ast <- Script.parseScriptElement backend node calc parserOptions ;;
     let references := Script.analyzeExternalReferences backend ast parserOptions in
     let moduleContainer :=
       mkXModule (prog_range ast) (prog_loc ast) (prog_body ast) references in
     let node := withChildren node
                   (Lodash.splice (el_children node) 0 1 [CModule moduleContainer]) in
     match prog_tokens ast with
     | Some (k :: ks) => replaceTokens (prog_range ast) (k :: ks)
     | _ => ret tt
     end ;;
     insertComments (Script.orEmpty (prog_comments ast)) ;;
     ret node)
    (fun e =>
       match Script.isParseError e with
       | Some p => insertError p ;; ret node
       | None => throw e
       end).

End WithBackend.
End Lang.

(* ================================================================== *)
(** * The parser (parser.ts) and the entry point (index.ts) *)
(* ================================================================== *)

(** [ParserOptions], resolved.  [parseExpression] is declared by the type
    and has no default: [None] stands for an option left out. *)
Record ParserOptions := mkParserOptions {
  noOpenTag : bool;
  parseExpression : option bool;
  script : ScriptParserOptions
}.

Module Parser.

Record t := mk {
  tokenizer : IntermediateTokenizer.t;
  parserOptions : ParserOptions;
  document : XDocument;
  elementStack : list XElement;  (* the open elements, the last pushed first *)
  scriptCalls : list JS.str  (* the codes handed to the script parser *)
}.

Definition set_tokenizer (v : IntermediateTokenizer.t) (x : t) : t :=
  mk v (parserOptions x) (document x) (elementStack x) (scriptCalls x).
Definition set_parserOptions (v : ParserOptions) (x : t) : t :=
  mk (tokenizer x) v (document x) (elementStack x) (scriptCalls x).
Definition set_document (v : XDocument) (x : t) : t :=
  mk (tokenizer x) (parserOptions x) v (elementStack x) (scriptCalls x).
Definition set_elementStack (v : list XElement) (x : t) : t :=
  mk (tokenizer x) (parserOptions x) (document x) v (scriptCalls x).
Definition set_scriptCalls (v : list JS.str) (x : t) : t :=
  mk (tokenizer x) (parserOptions x) (document x) (elementStack x) v.

Section WithBackend.
Variable backend : ScriptBackend.
(** [String.prototype.toLowerCase], of the JavaScript engine. *)
Variable toLowerCase : JS.str -> JS.str.

Definition emptyLoc : LocationRange :=
  mkLocationRange (mkLocation 1 0) (mkLocation 1 0).

(** [new Parser(tokenizer, parserOptions)].  The token, comment and error
    arrays of the document are those of the tokenizers; [parse] reads them
    when it returns the document. *)
Definition new (tk : Tokenizer.t) (opts : ParserOptions) : t :=
  mk (IntermediateTokenizer.new (Tokenizer.set_expressionEnabled true tk))
     opts
     (mkXDocument (0, 0) emptyLoc [] [] [] [] "swan")
     [] [].

Definition rawTokenizer (x : t) : Tokenizer.t :=
  IntermediateTokenizer.tokenizer (tokenizer x).

Definition onRawTokenizer (f : Tokenizer.t -> Tokenizer.t) : M t unit :=
  modify (fun x =>
    set_tokenizer (IntermediateTokenizer.set_tokenizer (f (rawTokenizer x)) (tokenizer x)) x).

(** [this.expressionEnabled = value]. *)
Definition setExpressionEnabled (v : bool) : M t unit :=
  onRawTokenizer (Tokenizer.set_expressionEnabled v).

(** [this.tokenizer.state = value]. *)
Definition setState (s : TokenizerState) : M t unit :=
  onRawTokenizer (Tokenizer.set_state s).

(** [this.locationCalculator]: it holds the arrays [gaps] and
    [lineTerminators] of the tokenizer, as they are when it is used. *)
Definition locationCalculator (x : t) : LocationCalculator.t :=
  LocationCalculator.new (Tokenizer.gaps (rawTokenizer x))
                         (Tokenizer.lineTerminators (rawTokenizer x)).

Definition reportParseError (range : OffsetRange) (loc : LocationRange)
    (c : ErrorCode) : M t unit :=
  onRawTokenizer (fun tk =>
    Tokenizer.set_errors
      (Tokenizer.errors tk ++ [IntermediateTokenizer.parseErrorAt range loc c]) tk).

Definition envOf (x : t) (chain : list XElement) : Env :=
  mkEnv (IntermediateTokenizer.tokens (tokenizer x))
        (IntermediateTokenizer.comments (tokenizer x))
        (Tokenizer.errors (rawTokenizer x))
        chain (scriptCalls x).

Definition storeEnv (e : Env) (x : t) : t :=
  let tk := Tokenizer.set_errors (env_errors e) (rawTokenizer x) in
  let itk := IntermediateTokenizer.set_comments (env_comments e)
               (IntermediateTokenizer.set_tokens (env_tokens e)
                  (IntermediateTokenizer.set_tokenizer tk (tokenizer x))) in
  set_scriptCalls (env_scriptCalls e) (set_tokenizer itk x).

(** A call into the language layer for a node whose surrounding elements
    are [chain]; the call returns its value and the elements as it leaves
    them. *)
Definition inEnv {A} (chain : list XElement) (m : M Env A) : M t (A * list XElement) :=
  fun x => match m (envOf x chain) with
           | Ok a e => Ok (a, env_chain e) (storeEnv e x)
           | Throw ex e => Throw ex (storeEnv e x)
           end.

(** [propagateEndLocation(node)] for an element. *)
Definition propagateEndLocation (e : XElement) : XElement :=
  let lastChild :=
    match el_endTag e with
    | Some g => Some (etag_range g, etag_loc g)
    | None => option_map (fun c => (child_range c, child_loc c)) (last_opt (el_children e))
    end in
  match lastChild with
  | Some (r, l) =>
      mkXElement (fst (el_range e), snd r)
        (IntermediateTokenizer.withLocEnd (el_loc e) (loc_end l))
        (el_name e) (el_rawName e) (el_startTag e) (el_children e)
        (el_variables e) (el_endTag e)
  | None => e
  end.

(** [propagateEndLocation(node)] for the document. *)
Definition propagateEndLocationDoc (d : XDocument) : XDocument :=
  match last_opt (doc_children d) with
  | Some c =>
      mkXDocument (fst (doc_range d), snd (child_range c))
        (IntermediateTokenizer.withLocEnd (doc_loc d) (loc_end (child_loc c)))
        (doc_children d) (doc_tokens d) (doc_comments d) (doc_errors d) (doc_xmlType d)
  | None => d
  end.

(** [parent.children.push(c)] for [parent = this.currentNode]. *)
Definition pushChild (c : XChild) : M t unit :=
  modify (fun x =>
    match elementStack x with
    | top :: rest =>
        set_elementStack (Lang.withChildren top (el_children top ++ [c]) :: rest) x
    | [] =>
        let d := document x in
        set_document
          (mkXDocument (doc_range d) (doc_loc d) (doc_children d ++ [c])
             (doc_tokens d) (doc_comments d) (doc_errors d) (doc_xmlType d)) x
    end).

(** [popElementStack()].  The element is a child of its parent since its
    start tag; the model puts it there now, with all it has become. *)
Definition popElementStack : M t unit :=
  st <- gets elementStack ;;
  match st with
  | [] => throw (AssertionExn "this.elementStack.length >= 1")
  | element :: rest =>
      modify (set_elementStack rest) ;;
      let element := propagateEndLocation element in
      pushChild (CElement element) ;;
      opts <- gets parserOptions ;;
      when (negb (isSome (el_endTag element)) && noOpenTag opts)
           (reportParseError (stag_range (el_startTag element))
              (stag_loc (el_startTag element)) "missing-end-tag") ;;
      when (length rest =? 0)%nat (setExpressionEnabled false)
  end.

(** [popElementStackUntil(index)]; [n] bounds the number of pops. *)
Fixpoint popElementStackUntil (n : nat) (index : nat) : M t unit :=
  match n with
  | O => ret tt
  | S n' =>
      st <- gets elementStack ;;
      if (index <? length st)%nat then popElementStack ;; popElementStackUntil n' index
      else ret tt
  end.

Definition closeCurrentElementIfNecessary (name : JS.str) : M t unit :=
  st <- gets elementStack ;;
  match st with
  | element :: _ =>
      when (JS.eqb (el_name element) name && Lang.has Lang.SWAN_CAN_BE_LEFT_OPEN_TAGS name)
           popElementStack
  | [] => ret tt
  end.

Definition isMustacheValue (v : AttributeValue) : bool :=
  match v with VMustache _ => true | _ => false end.

(** [node.value.map(token => ...)]: every [Mustache] of the value becomes
    an [XMustache], processed in turn. *)
Fixpoint promoteMustaches (opts : ScriptParserOptions) (calc : LocationCalculator.t)
    (parent : XAttribute) (vs : list AttributeValue) (chain : list XElement)
    : M t (list AttributeValue * list XElement) :=
  match vs with
  | [] => ret ([], chain)
  | VMustache token :: vs' =>
      let mustacheNode :=
        mkXMustache (mu_range token) (mu_loc token)
          (mu_startToken token) (mu_endToken token) None in
      r <- inEnv chain (Lang.processMustache backend opts calc (Some parent) mustacheNode token) ;;
      let '(m, chain1) := r in
      r' <- promoteMustaches opts calc parent vs' chain1 ;;
      let '(rest, chain2) := r' in
      ret (VXMustache m :: rest, chain2)
  | v :: vs' =>
      r' <- promoteMustaches opts calc parent vs' chain ;;
      let '(rest, chain2) := r' in
      ret (v :: rest, chain2)
  end.

Definition withValue (a : XAttribute) (vs : list AttributeValue) : XAttribute :=
  mkXAttribute (at_type a) (at_range a) (at_loc a) (at_key a) vs.

(** [processAttribute(node)]: the attribute as it leaves it.  [chain] is
    the element of the attribute and the elements above it. *)
Definition processAttribute (node : XAttribute) (chain : list XElement)
    : M t (XAttribute * list XElement) :=
  let attrName := key_name (at_key node) in
  opts <- gets parserOptions ;;
  calc <- gets locationCalculator ;;
  r <- (if Regex.DIRECTIVE_NAME_test attrName then
          directiveNode <- Lang.convertToDirective node ;;
          match at_value directiveNode with
          | [VLiteral token] =>
              let expressionNode := mkXExpression (xl_range token) (xl_loc token) None [] in
              r <- (if JS.truthy (JS.trim (xl_value token)) then
                      if negb (JS.eqb (key_name (at_key directiveNode)) (JS.lit "for")) then
                        inEnv chain (Lang.processExpression backend (script opts) calc
                                       expressionNode (xl_value token))
                      else
                        inEnv chain (Lang.processForExpression backend (script opts) calc
                                       expressionNode (xl_value token))
                    else ret (expressionNode, chain)) ;;
              let '(e, chain') := r in
              ret (withValue directiveNode [VExpression e], chain')
          | _ => ret (directiveNode, chain)
          end
        else
          when (JS.startsWith attrName (JS.lit "s-") || JS.startsWith attrName (JS.lit "bind:"))
               (reportParseError (key_range (at_key node)) (key_loc (at_key node))
                  "x-invalid-directive") ;;
          ret (node, chain)) ;;
  let '(node, chain) := r in
  calc <- gets locationCalculator ;;
  r <- promoteMustaches (script opts) calc node (at_value node) chain ;;
  let '(values, chain) := r in
  ret (withValue node values, chain).

Definition withAttributes (e : XElement) (attrs : list XAttribute) : XElement :=
  let s := el_startTag e in
  mkXElement (el_range e) (el_loc e) (el_name e) (el_rawName e)
    (mkXStartTag (stag_range s) (stag_loc s) (stag_selfClosing s) attrs)
    (el_children e) (el_variables e) (el_endTag e).

(** [for (const attribute of token.attributes) this.processAttribute(attribute)]:
    [done] are the attributes already processed, [todo] those to come;
    the element holds both. *)
Fixpoint processAttributes (element : XElement) (done todo : list XAttribute)
    : M t XElement :=
  match todo with
  | [] => ret (withAttributes element done)
  | attribute :: todo' =>
      st <- gets elementStack ;;
      r <- processAttribute attribute
             (withAttributes element (done ++ attribute :: todo') :: st) ;;
      let '(attribute', chain) := r in
      match chain with
      | element' :: st' =>
          modify (set_elementStack st') ;;
          processAttributes element' (done ++ [attribute']) todo'
      | [] => throw (AssertionExn "chain")
      end
  end.

(** [StartTag(token)]. *)
Definition StartTag_ (token : StartTag) : M t unit :=
  closeCurrentElementIfNecessary (st_name token) ;;
  st <- gets elementStack ;;
  let parentIsDocument := (length st =? 0)%nat in
  let element :=
    mkXElement (fst (st_range token), snd (st_range token))
      (mkLocationRange (loc_start (st_loc token)) (loc_end (st_loc token)))
      (st_name token) (st_rawName token)
      (mkXStartTag (st_range token) (st_loc token) (st_selfClosing token)
         (st_attributes token))
      [] [] None in
  element <- processAttributes element [] (st_attributes token) ;;
  let isVoid := Lang.has Lang.SWAN_VOID_ELEMENT_TAGS (el_name element) in
  when (negb (st_selfClosing token) && isVoid)
       (reportParseError (st_range token) (st_loc token)
          "non-void-html-element-start-tag-with-trailing-solidus") ;;
  if st_selfClosing token || isVoid then
    pushChild (CElement element) ;;
    setExpressionEnabled true
  else
    modify (fun x => set_elementStack (element :: elementStack x) x) ;;
    when parentIsDocument (setExpressionEnabled true) ;;
    when (Lang.has Lang.SWAN_RCDATA_TAGS (el_name element)) (setState RCDATA) ;;
    when (Lang.has Lang.SWAN_RAWTEXT_TAGS (el_name element)) (setState RAWTEXT).

(** [findLastIndex(this.elementStack, el => el.name.toLowerCase() === name)],
    as the number of elements above the one found. *)
Fixpoint findLast (st : list XElement) (name : JS.str) : option nat :=
  match st with
  | [] => None
  | el :: rest =>
      if JS.eqb (toLowerCase (el_name el)) name then Some O
      else option_map S (findLast rest name)
  end.

Definition withEndTag (e : XElement) (g : XEndTag) : XElement :=
  mkXElement (el_range e) (el_loc e) (el_name e) (el_rawName e) (el_startTag e)
    (el_children e) (el_variables e) (Some g).

Fixpoint setEndTagAt (st : list XElement) (above : nat) (g : XEndTag) : list XElement :=
  match st, above with
  | el :: rest, O => withEndTag el g :: rest
  | el :: rest, S k => el :: setEndTagAt rest k g
  | [], _ => []
  end.

(** [EndTag(token)]. *)
Definition EndTag_ (token : EndTag) : M t unit :=
  st <- gets elementStack ;;
  match findLast st (et_name token) with
  | None => reportParseError (et_range token) (et_loc token) "x-invalid-end-tag"
  | Some above =>
      modify (set_elementStack
                (setEndTagAt st above (mkXEndTag (et_range token) (et_loc token)))) ;;
      popElementStackUntil (S above) (length st - S above)
  end.

Definition hasSrc (e : XElement) : bool :=
  existsb (fun a => JS.eqb (key_name (at_key a)) (JS.lit "src"))
          (stag_attributes (el_startTag e)).

Definition firstIsText (e : XElement) : bool :=
  match el_children e with CText _ :: _ => true | _ => false end.

(** [Text(token)]. *)
Definition Text_ (token : Text) : M t unit :=
  pushChild (CText (mkXText (tx_range token) (tx_loc token) (tx_value token))) ;;
  st <- gets elementStack ;;
  match st with
  | parent :: rest =>
      if (JS.eqb (el_name parent) (JS.lit "import-sjs")
          || JS.eqb (el_name parent) (JS.lit "filter"))
         && firstIsText parent && negb (hasSrc parent)
      then
        opts <- gets parserOptions ;;
        calc <- gets locationCalculator ;;
        r <- inEnv rest (Lang.processScriptModule backend (script opts) calc parent) ;;
        let '(parent', rest') := r in
        modify (set_elementStack (parent' :: rest'))
      else ret tt
  | [] => ret tt
  end.

(** [Mustache(token)]. *)
Definition Mustache_ (token : Mustache) : M t unit :=
  let mustacheNode :=
    mkXMustache (mu_range token) (mu_loc token)
      (mu_startToken token) (mu_endToken token) None in
  opts <- gets parserOptions ;;
  calc <- gets locationCalculator ;;
  st <- gets elementStack ;;
  r <- inEnv st (Lang.processMustache backend (script opts) calc None mustacheNode token) ;;
  let '(m, st') := r in
  modify (set_elementStack st') ;;
  pushChild (CMustache m).

(** [this[token.type](token)]. *)
Definition handle (token : IntermediateToken) : M t unit :=
  match token with
  | IStartTag s => StartTag_ s
  | IEndTag e => EndTag_ e
  | IText x => Text_ x
  | IMustache m => Mustache_ m
  end.

Definition onTokenizer {A} (m : M IntermediateTokenizer.t A) : M t A :=
  fun x => match m (tokenizer x) with
           | Ok a tk => Ok a (set_tokenizer tk x)
           | Throw e tk => Throw e (set_tokenizer tk x)
           end.

(** The loop of [parse]; [n] bounds the number of turns. *)
Fixpoint parse_loop (n : nat) : M t unit :=
  match n with
  | O => throw OutOfFuel
  | S n' =>
      o <- onTokenizer IntermediateTokenizer.nextToken ;;
      match o with
      | None => ret tt
      | Some token => handle token ;; parse_loop n'
      end
  end.

(** [parse()]. *)
Definition parse : M t XDocument :=
  n <- gets (fun x => Tokenizer.turns (rawTokenizer x)) ;;
  parse_loop n ;;
  st <- gets elementStack ;;
  popElementStackUntil (length st) 0 ;;
  x <- gets (fun x => x) ;;
  let d := propagateEndLocationDoc (document x) in
  ret (mkXDocument (doc_range d) (doc_loc d) (doc_children d)
         (IntermediateTokenizer.tokens (tokenizer x))
         (IntermediateTokenizer.comments (tokenizer x))
         (Tokenizer.errors (rawTokenizer x))
         (doc_xmlType d)).

End WithBackend.
End Parser.

(** The options a caller gives to [parse]; [None] is an option left out. *)
Record Options := mkOptions {
  opt_noOpenTag : option bool;
  opt_parseExpression : option bool;
  opt_script : option ScriptParserOptions
}.

(** [resolveParserOptions(options)]. *)
Definition resolveParserOptions (o : Options) : ParserOptions :=
  mkParserOptions
    (match opt_noOpenTag o with Some b => b | None => false end)
    (opt_parseExpression o)
    (match opt_script o with
     | Some s => s
     | None => mkScriptParserOptions "espree" 2018 "module" false true true true
     end).

(** [parse(code, options)] of index.ts. *)
Definition parse (backend : ScriptBackend) (toLowerCase : JS.str -> JS.str)
    (code : JS.str) (options : Options) : Res Parser.t XDocument :=
  Parser.parse backend toLowerCase
    (Parser.new (Tokenizer.new code) (resolveParserOptions options)).

(* ================================================================== *)
(** * A script parser for the examples *)
(* ================================================================== *)

(** The theorems below hold for every script parser.  The examples need
    one: [Espree.backend] answers, for the few codes the examples hand to
    the script parser, what espree answers for them (the default parser of
    [resolveParserOptions]), and throws for every other code.  All codes
    are one line long; offsets are those in the code handed over, which
    starts with the two characters the script layer wraps around it. *)
Module Espree.

Definition at1 (a b : Z) : LocationRange :=
  mkLocationRange (mkLocation 1 a) (mkLocation 1 b).

Definition tok (ty : string) (v : string) (a : Z) : Token :=
  mkToken 0 (ScriptToken ty) (a, a + JS.len (JS.lit v))
    (at1 a (a + JS.len (JS.lit v))) (JS.lit v).

Definition id (v : string) (a : Z) : ESNode :=
  ESIdentifier (JS.lit v) (a, a + JS.len (JS.lit v)) (at1 a (a + JS.len (JS.lit v))).

Definition node (ty : string) (ch : list ESNode) (a b : Z) : ESNode :=
  ESOther ty ch (a, b) (at1 a b).

(** The program of the one statement [0(args)], [b] characters long. *)
Definition call0 (args : list ESNode) (toks : list Token) (b : Z) : ESProgram :=
  mkESProgram
    [node "ExpressionStatement"
       [ESCallExpression (node "Literal" [] 0 1) args (0, b) (at1 0 b)] 0 b]
    (Some (tok "Numeric" "0" 0 :: tok "Punctuator" "(" 1 :: toks
           ++ [tok "Punctuator" ")" (b - 1)]))
    (Some []) (0, b) (at1 0 b).

Definition unexpected (what : string) (i : Z) : Thrown :=
  ThrownParseError
    (mkParseError (JS.lit "Unexpected token " ++ JS.lit what) None i 1 (i + 1)).

(** The codes, what espree returns or throws for each, and the names of
    the references that leave its global scope. *)
Definition answers : list (string * (ESProgram + Thrown) * list string) :=
  [ ("0([item])",
     inl (call0 [ESArrayExpression [Some (id "item" 3)] (2, 8) (at1 2 8)]
            [tok "Punctuator" "[" 2; tok "Identifier" "item" 3; tok "Punctuator" "]" 7] 9),
     ["item"]);
    ("0(list)",
     inl (call0 [id "list" 2] [tok "Identifier" "list" 2] 7),
     ["list"]);
    ("0([item, idx])",
     inl (call0 [ESArrayExpression [Some (id "item" 3); Some (id "idx" 9)] (2, 13) (at1 2 13)]
            [tok "Punctuator" "[" 2; tok "Identifier" "item" 3; tok "Punctuator" "," 7;
             tok "Identifier" "idx" 9; tok "Punctuator" "]" 12] 14),
     ["item"; "idx"]);
    ("0(item.id)",
     inl (call0 [node "MemberExpression" [id "item" 2; id "id" 7] 2 9]
            [tok "Identifier" "item" 2; tok "Punctuator" "." 6; tok "Identifier" "id" 7] 10),
     ["item"]);
    ("0()", inl (call0 [] [] 3), []);
    ("0({a:1,b:2})",
     inl (call0 [node "ObjectExpression"
                   [node "Property" [id "a" 3; node "Literal" [] 5 6] 3 6;
                    node "Property" [id "b" 7; node "Literal" [] 9 10] 7 10] 2 11]
            [tok "Punctuator" "{" 2; tok "Identifier" "a" 3; tok "Punctuator" ":" 4;
             tok "Numeric" "1" 5; tok "Punctuator" "," 6; tok "Identifier" "b" 7;
             tok "Punctuator" ":" 8; tok "Numeric" "2" 9; tok "Punctuator" "}" 10] 12),
     []);
    ("0([a in b])",
     inl (call0 [ESArrayExpression
                   [Some (node "BinaryExpression" [id "a" 3; id "b" 8] 3 9)] (2, 10) (at1 2 10)]
            [tok "Punctuator" "[" 2; tok "Identifier" "a" 3; tok "Keyword" "in" 5;
             tok "Identifier" "b" 8; tok "Punctuator" "]" 9] 11),
     ["a"; "b"]);
    ("0(c)", inl (call0 [id "c" 2] [tok "Identifier" "c" 2] 4), ["c"]);
    ("0(a +)", inr (unexpected ")" 5), []);
    ("0(a: 1)", inr (unexpected ":" 3), []) ]%string.

Fixpoint lookup (l : list (string * (ESProgram + Thrown) * list string)) (code : JS.str)
    : option ((ESProgram + Thrown) * list string) :=
  match l with
  | [] => None
  | (c, r, ids) :: l' => if JS.eqb (JS.lit c) code then Some (r, ids) else lookup l' code
  end.

Definition parseCode (code : JS.str) (_ : ScriptParserOptions) : ESProgram + Thrown :=
  match lookup answers code with
  | Some (r, _) => r
  | None => inr (ThrownOther "a code outside the examples")
  end.

(** The identifiers of a node, in the order of the source. *)
Fixpoint identifiers (n : ESNode) : list ESNode :=
  match n with
  | ESIdentifier _ _ _ => [n]
  | ESArrayExpression els _ _ =>
      flat_map (fun o => match o with Some e => identifiers e | None => [] end) els
  | ESCallExpression f args _ _ => identifiers f ++ flat_map identifiers args
  | ESSpreadElement a _ _ => identifiers a
  | ESOther _ ch _ _ => flat_map identifiers ch
  end.

Definition sameTokens (a b : list Token) : bool :=
  JS.eqb (concat (map tok_value a)) (concat (map tok_value b)).

Definition named (names : list string) (n : ESNode) : bool :=
  match es_name n with
  | Some nm => existsb (fun s => JS.eqb (JS.lit s) nm) names
  | None => false
  end.

(** The references that leave the global scope of a program of [answers]:
    the table is searched for the program by the text of its tokens, and
    the references are the identifiers of the program, as [postprocess]
    left them, that have one of the names of the entry. *)
Definition through (p : ESProgram) (_ : ScriptParserOptions) : list ScopeReference :=
  match find (fun e => match snd (fst e) with
                       | inl q => sameTokens (Script.orEmpty (prog_tokens q))
                                             (Script.orEmpty (prog_tokens p))
                       | inr _ => false
                       end) answers with
  | Some (_, _, names) =>
      map (fun i => mkScopeReference i true false)
          (filter (named names) (flat_map identifiers (prog_body p)))
  | None => []
  end.

Definition backend : ScriptBackend := mkScriptBackend parseCode through.

(** [toLowerCase] on the ASCII letters, which is all the examples hold. *)
Definition toLowerCase (s : JS.str) : JS.str := map Tokenizer.lower s.

End Espree.

(* ================================================================== *)
(** * Predicates and observations of the statements *)
(* ================================================================== *)

(** [hoare P m Q E]: from a state in [P], [m] either returns a value [a]
    in a state in [Q a], or throws in a state in [E]. *)
Definition hoare {S A} (P : S -> Prop) (m : M S A) (Q : A -> S -> Prop)
    (E : S -> Prop) : Prop :=
  forall s, P s -> match m s with
                   | Ok a s' => Q a s'
                   | Throw _ s' => E s'
                   end.

(** [keeps I m]: [m] keeps the invariant [I], however it ends. *)
Definition keeps {S A} (I : S -> Prop) (m : M S A) : Prop :=
  hoare I m (fun _ => I) I.

(** The error [err] is in the list of errors of the tokenizer. *)
Definition reported (err : ParseError) (x : Parser.t) : Prop :=
  In err (Tokenizer.errors (Parser.rawTokenizer x)).

(** The test [setLow] of [baseSortedIndexBy]: the search goes on above
    the item [x]. *)
Definition setLow {A} (key : A -> Z) (v : Z) (retHighest : bool) (x : A) : bool :=
  if retHighest then key x <=? v else key x <? v.

(** The tokens that start before a range ([pre]), those inside it ([mid])
    and those that end after it ([post]). *)
Definition around (range : OffsetRange) (pre mid post : list Token) : Prop :=
  Forall (fun k => fst (tok_range k) < fst range /\ snd (tok_range k) <= snd range) pre
  /\ Forall (fun k => fst range <= fst (tok_range k) /\ snd (tok_range k) <= snd range) mid
  /\ Forall (fun k => fst range <= fst (tok_range k) /\ snd range < snd (tok_range k)) post.

(** [x.type] for an item [x] of the value of an attribute. *)
Definition kindOf (v : AttributeValue) : string :=
  match v with
  | VLiteral _ => "XLiteral"
  | VMustache _ => "Mustache"
  | VXMustache _ => "XMustache"
  | VExpression _ => "XExpression"
  end.

(** [ast.children[0].startTag.attributes]. *)
Definition firstAttributes (d : XDocument) : list XAttribute :=
  match doc_children d with
  | CElement e :: _ => stag_attributes (el_startTag e)
  | _ => []
  end.

(** The default options, and the options with [parseExpression]. *)
Definition defaults : Options := mkOptions None None None.
Definition withParseExpression (b : bool) : Options := mkOptions None (Some b) None.

(** [parse(text, o)] with the script parser of the examples. *)
Definition parseWith (o : Options) (text : JS.str) : Res Parser.t XDocument :=
  parse Espree.backend Espree.toLowerCase text o.

(** The first calls of the script parser were made with the codes [cs]. *)
Definition called (cs : list JS.str) (e : Env) : Prop :=
  exists more, env_scriptCalls e = cs ++ more.

(** The expressions of the values of the attributes of the first element:
    of an [XExpression], and of the [XExpression] of an [XMustache]. *)
Definition firstExpressions (d : XDocument) : list (option Expression) :=
  flat_map
    (fun a =>
       flat_map
         (fun v =>
            match v with
            | VExpression e => [xe_expression e]
            | VXMustache m => match xm_value m with
                              | Some e => [xe_expression e]
                              | None => []
                              end
            | _ => []
            end)
         (at_value a))
    (firstAttributes d).

(** The types of the tokens that open a tag or a comment. *)
Definition opensTagOrComment (ty : TokenType) : bool :=
  match ty with
  | HTMLTagOpen | HTMLEndTagOpen | HTMLComment | HTMLBogusComment => true
  | _ => false
  end.

(** Two tokenizers with the same tokens, the same states and the same
    flag [tagOpenEnabled]: what the reading of code points changes (the
    place in the text, the marks, the buffer, the errors) may differ. *)
Definition sameCore (x y : Tokenizer.t) : Prop :=
  Tokenizer.committedToken x = Tokenizer.committedToken y
  /\ Tokenizer.provisionalToken x = Tokenizer.provisionalToken y
  /\ Tokenizer.currentToken x = Tokenizer.currentToken y
  /\ Tokenizer.nextRef x = Tokenizer.nextRef y
  /\ Tokenizer.discarded x = Tokenizer.discarded y
  /\ Tokenizer.state x = Tokenizer.state y
  /\ Tokenizer.returnState x = Tokenizer.returnState y
  /\ Tokenizer.tagOpenEnabled x = Tokenizer.tagOpenEnabled y.

(** The states whose function starts a token that opens a tag or a
    comment. *)
Definition opening (s : TokenizerState) : bool :=
  match s with
  | TAG_OPEN | END_TAG_OPEN | MARKUP_DECLARATION_OPEN
  | RCDATA_END_TAG_OPEN | RAWTEXT_END_TAG_OPEN => true
  | _ => false
  end.

(** How often the token object [r] sits in a slot. *)
Definition cnt (r : nat) (o : option Token) : nat :=
  match o with
  | Some k => if (tok_ref k =? r)%nat then 1 else 0
  | None => 0
  end.

(** How often the token object [r] is held by the tokenizer, has been
    returned ([out] are the objects returned so far), or has been
    cancelled. *)
Definition occurrences (out : list nat) (x : Tokenizer.t) (r : nat) : nat :=
  (cnt r (Tokenizer.currentToken x) + cnt r (Tokenizer.provisionalToken x)
   + cnt r (Tokenizer.committedToken x)
   + count_occ Nat.eq_dec out r
   + count_occ Nat.eq_dec (Tokenizer.discarded x) r)%nat.

(** Every token object is in one place at most, and is older than the
    next one to be created. *)
Definition onePlace (out : list nat) (x : Tokenizer.t) : Prop :=
  forall r, (occurrences out x r <= 1)%nat
            /\ ((1 <= occurrences out x r)%nat -> (r < Tokenizer.nextRef x)%nat).

(** The tokens returned: [out], and the one [nextToken] returns now. *)
Definition returned (out : list nat) (token : option Token) : list nat :=
  match token with
  | Some k => tok_ref k :: out
  | None => out
  end.

(** What the clients of the tokenizer do between two tokens: the parser
    sets the state and the flag [expressionEnabled], the intermediate
    tokenizer adds errors. *)
Inductive Client :=
| Next
| SetState (s : TokenizerState)
| SetExpressionEnabled (b : bool)
| Report (e : ParseError).

(** A tokenizer serving a client: the tokens it returns, in order, and the
    tokenizer at the end; [None] when a call throws. *)
Fixpoint serve (cs : list Client) (x : Tokenizer.t) : option (list Token * Tokenizer.t) :=
  match cs with
  | [] => Some ([], x)
  | Next :: cs' =>
      match Tokenizer.nextToken x with
      | Ok token x' =>
          match serve cs' x' with
          | Some (tokens, y) =>
              Some (match token with Some k => k :: tokens | None => tokens end, y)
          | None => None
          end
      | Throw _ _ => None
      end
  | SetState s :: cs' => serve cs' (Tokenizer.set_state s x)
  | SetExpressionEnabled b :: cs' => serve cs' (Tokenizer.set_expressionEnabled b x)
  | Report e :: cs' =>
      serve cs' (Tokenizer.set_errors (Tokenizer.errors x ++ [e]) x)
  end.

(** The states a mustache returns to outside RCDATA and RAWTEXT. *)
Definition textual (rs : TokenizerState) : bool :=
  match rs with
  | DATA | ATTRIBUTE_VALUE_DOUBLE_QUOTED | ATTRIBUTE_VALUE_SINGLE_QUOTED => true
  | _ => false
  end.

(** The states outside RCDATA and RAWTEXT; [rs] is the state to return to. *)
Definition plain (s rs : TokenizerState) : bool :=
  match s with
  | RCDATA | RCDATA_LESS_THAN_SIGN | RCDATA_END_TAG_OPEN | RCDATA_END_TAG_NAME
  | RAWTEXT | RAWTEXT_LESS_THAN_SIGN | RAWTEXT_END_TAG_OPEN | RAWTEXT_END_TAG_NAME => false
  | X_EXPRESSION_START | X_EXPRESSION_END => textual rs
  | _ => true
  end.

(** The states of text and of the inside of a start tag, in none of which
    a tag or a comment opens. *)
Definition quiet (s rs : TokenizerState) : bool :=
  match s with
  | DATA | BEFORE_ATTRIBUTE_NAME | ATTRIBUTE_NAME | AFTER_ATTRIBUTE_NAME
  | BEFORE_ATTRIBUTE_VALUE | ATTRIBUTE_VALUE_DOUBLE_QUOTED
  | ATTRIBUTE_VALUE_SINGLE_QUOTED | ATTRIBUTE_VALUE_UNQUOTED
  | AFTER_ATTRIBUTE_VALUE_QUOTED | SELF_CLOSING_START_TAG => true
  | X_EXPRESSION_START | X_EXPRESSION_END => textual rs
  | _ => false
  end.

(** The tokenizer is outside RCDATA and RAWTEXT, and in a quiet state when
    [tagOpenEnabled] is off. *)
Definition closed (x : Tokenizer.t) : bool :=
  plain (Tokenizer.state x) (Tokenizer.returnState x)
  && (Tokenizer.tagOpenEnabled x
      || quiet (Tokenizer.state x) (Tokenizer.returnState x)).

(** [safe P m Q]: from [P], when [m] returns, [Q]. *)
Definition safe {S A} (P : S -> Prop) (m : M S A) (Q : A -> S -> Prop) : Prop :=
  hoare P m Q (fun _ => True).

(** The tokenizer is in state [s] with the flag [f], and returns to [rs]
    if [rs] is given. *)
Definition at_ (s : TokenizerState) (f : bool) (rs : option TokenizerState)
    (y : Tokenizer.t) : Prop :=
  Tokenizer.state y = s /\ Tokenizer.tagOpenEnabled y = f
  /\ match rs with Some r => Tokenizer.returnState y = r | None => True end.

(** [closed], as a predicate on the states of the tokenizer. *)
Definition isClosed (y : Tokenizer.t) : Prop := closed y = true.

(** A token of type [ty] with the value [v] is the current token. *)
Definition currentIs (ty : TokenType) (v : JS.str) (y : Tokenizer.t) : Prop :=
  exists k, Tokenizer.currentToken y = Some k /\ tok_type k = ty /\ tok_value k = v.

(** A client that leaves the state of the tokenizer alone. *)
Definition unsteered (c : Client) : bool :=
  match c with
  | SetState _ => false
  | _ => true
  end.

(** An element with no variable, here or below. *)
Fixpoint bare (e : XElement) : bool :=
  match e with
  | mkXElement _ _ _ _ _ children variables _ =>
      match variables with [] => true | _ :: _ => false end
      && forallb bareChild children
  end
with bareChild (c : XChild) : bool :=
  match c with
  | CElement e => bare e
  | _ => true
  end.

(** The element has a variable of the name of the reference. *)
Definition declares (r : Reference) (e : XElement) : bool :=
  existsb (fun v => Lang.sameName (var_id v) (ref_id r)) (el_variables e).

(** The references that the variables of the elements hold. *)
Definition heldBy (chain : list XElement) : nat :=
  list_sum (map (fun e => list_sum (map (fun v => length (var_references v))
                                        (el_variables e)))
                chain).

(** The elements of the document are bare. *)
Definition noVariables (x : Parser.t) : Prop :=
  forallb bare (Parser.elementStack x) = true
  /\ forallb bareChild (doc_children (Parser.document x)) = true.

(** The elements around an expression are bare. *)
Definition bareEnv (e : Env) : Prop := forallb bare (env_chain e) = true.

(** The result of a computation of the parser that returns a chain of
    elements: the document and the chain are bare. *)
Definition chainBare {A} (r : A * list XElement) (x : Parser.t) : Prop :=
  noVariables x /\ forallb bare (snd r) = true.

(** The first element of the document. *)
Definition firstElement (d : XDocument) : option XElement :=
  match doc_children d with
  | CElement e :: _ => Some e
  | _ => None
  end.

(** The name of [left] of a [SwanForExpression]. *)
Definition leftName (e : option Expression) : option JS.str :=
  match e with
  | Some (SwanFor f) => match for_left f with Some n => es_name n | None => None end
  | _ => None
  end.

(** The references of the expression of a mustache. *)
Definition mustacheReferences (c : XChild) : list Reference :=
  match c with
  | CMustache m => match xm_value m with Some e => xe_references e | None => [] end
  | _ => []
  end.

(** The items of [l] are in ascending order of [key]. *)
Fixpoint ascendingBy {A} (key : A -> Z) (l : list A) : Prop :=
  match l with
  | [] => True
  | a :: l' => Forall (fun b => key a <= key b) l' /\ ascendingBy key l'
  end.

(** [error.code] after [if (!error.code) error.code = 'x-expression-error']. *)
Definition codeOrDefault (e : ParseError) : ErrorCode :=
  match pe_code e with
  | Some c => if String.eqb c EmptyString then "x-expression-error"%string else c
  | None => "x-expression-error"%string
  end.

(** The error as [insertError] stores it. *)
Definition stored (e : ParseError) : ParseError :=
  mkParseError (pe_message e) (Some (codeOrDefault e))
    (pe_index e) (pe_lineNumber e) (pe_column e).

(** [m] throws no parse error: what it throws is of another kind. *)
Definition throwsNoParseError {S A} (m : M S A) : Prop :=
  forall s, match m s with
            | Ok _ _ => True
            | Throw e _ => Script.isParseError e = None
            end.

(** No reference of the list is to the identifier of the one before it. *)
Fixpoint distinctNeighbours (l : list Reference) : Prop :=
  match l with
  | a :: ((b :: _) as l') =>
      Script.sameNode (ref_id b) (ref_id a) = false /\ distinctNeighbours l'
  | _ => True
  end.

(** The tokens of the tokenizer handled one after the other, as the calls
    of [nextToken] do over the life of the intermediate tokenizer, and the
    intermediate tokens the handlers return, in order. *)
Fixpoint handleAll (ks : list Token)
    : M IntermediateTokenizer.t (list IntermediateToken) :=
  match ks with
  | [] => ret []
  | k :: ks' =>
      r <- IntermediateTokenizer.handle k ;;
      rs <- handleAll ks' ;;
      ret (match r with Some i => i :: rs | None => rs end)
  end.

(** The types of the tokens that [processText] handles. *)
Definition isTextType (ty : TokenType) : bool :=
  match ty with
  | HTMLText | HTMLWhitespace | HTMLRCDataText | HTMLRawText => true
  | _ => false
  end.

(** The types of the tokens that [processComment] handles. *)
Definition isCommentType (ty : TokenType) : bool :=
  match ty with
  | HTMLComment | HTMLBogusComment => true
  | _ => false
  end.

(** Each token starts where the one before it ends; [k] is the one before
    the first. *)
Fixpoint chained (k : Token) (ks : list Token) : Prop :=
  match ks with
  | [] => True
  | k' :: ks' => snd (tok_range k) = fst (tok_range k') /\ chained k' ks'
  end.

(** The tokens whose value is in [seen] or is the value of a token before
    them in the list. *)
Fixpoint repeated (seen : list JS.str) (ks : list Token) : list Token :=
  match ks with
  | [] => []
  | k :: ks' =>
      if existsb (JS.eqb (tok_value k)) seen then k :: repeated seen ks'
      else repeated (seen ++ [tok_value k]) ks'
  end.

(** [processText] on a token that starts where the current text ends. *)
Definition extendText (c : Text) (k : Token) : Text :=
  mkText (fst (tx_range c), snd (tok_range k))
    (IntermediateTokenizer.withLocEnd (tx_loc c) (loc_end (tok_loc k)))
    (tx_value c ++ tok_value k).

(** The tokens and the comments of the document are [ts] and [cs]. *)
Definition holds (ts cs : list Token) (x : IntermediateTokenizer.t) : Prop :=
  IntermediateTokenizer.tokens x = ts /\ IntermediateTokenizer.comments x = cs.

(** The error [missing-end-tag] of an element, at its start tag. *)
Definition missingEndTag (e : XElement) : ParseError :=
  IntermediateTokenizer.parseErrorAt (stag_range (el_startTag e))
    (stag_loc (el_startTag e)) "missing-end-tag".

(** The elements [inner :: outer], the innermost first, closed one after
    the other: the end of each is set from its end tag or its last child,
    and it is the last child of the next; the outermost is returned. *)
Fixpoint closeInto (inner : XElement) (outer : list XElement) : XElement :=
  match outer with
  | [] => Parser.propagateEndLocation inner
  | e :: outer' =>
      closeInto
        (Lang.withChildren e
           (el_children e ++ [CElement (Parser.propagateEndLocation inner)]))
        outer'
  end.

(** The node that takes the next child: the innermost open element, or the
    document. *)
Definition childrenOfCurrentNode (x : Parser.t) : list XChild :=
  match Parser.elementStack x with
  | top :: _ => el_children top
  | [] => doc_children (Parser.document x)
  end.

(** The elements [es], the innermost first, and [last] below them, closed
    one after the other. *)
Definition closeAll (es : list XElement) (last : XElement) : XElement :=
  match es with
  | [] => closeInto last []
  | inner :: outer => closeInto inner (outer ++ [last])
  end.

(** Two tokenizers at the same place of the same text: the text, the
    place in it, the last code point, the gaps, the line terminators and
    the errors are the same; the tokens and the states may differ. *)
Definition sameReading (x y : Tokenizer.t) : Prop :=
  Tokenizer.text x = Tokenizer.text y
  /\ Tokenizer.gaps x = Tokenizer.gaps y
  /\ Tokenizer.lineTerminators x = Tokenizer.lineTerminators y
  /\ Tokenizer.lastCodePoint x = Tokenizer.lastCodePoint y
  /\ Tokenizer.offset x = Tokenizer.offset y
  /\ Tokenizer.column x = Tokenizer.column y
  /\ Tokenizer.line x = Tokenizer.line y
  /\ Tokenizer.errors x = Tokenizer.errors y.

(** The list [l] goes up strictly and stays at or below [top]. *)
Fixpoint risingTo (top : Z) (l : list Z) : Prop :=
  match l with
  | [] => True
  | a :: l' => a <= top /\ Forall (fun b => a < b) l' /\ risingTo top l'
  end.

(** The books of the places of the text: the line is one more than the
    line terminators recorded, and the line terminators and the gaps go
    up strictly, to the offset at most. *)
Definition located (x : Tokenizer.t) : Prop :=
  Tokenizer.line x = 1 + Z.of_nat (length (Tokenizer.lineTerminators x))
  /\ risingTo (Tokenizer.offset x) (Tokenizer.lineTerminators x)
  /\ risingTo (Tokenizer.offset x) (Tokenizer.gaps x).

(** The errors of [x] start with the list [base]. *)
Definition errorsFrom (base : list ParseError) (x : Tokenizer.t) : Prop :=
  exists more, Tokenizer.errors x = base ++ more.

(** The code units of a string of JavaScript. *)
Definition codeUnits (s : JS.str) : Prop := Forall (fun c => 0 <= c < 65536) s.

(** The tokenizer after [advanceLocation]. *)
Definition advanced (x : Tokenizer.t) : Tokenizer.t :=
  if Tokenizer.lastCodePoint x =? Unicode.LINE_FEED then
    Tokenizer.set_column 0 (Tokenizer.set_line (Tokenizer.line x + 1)
      (Tokenizer.set_lineTerminators
         (Tokenizer.lineTerminators x ++ [Tokenizer.offset x]) x))
  else
    Tokenizer.set_column
      (Tokenizer.column x + (if 65536 <=? Tokenizer.lastCodePoint x then 2 else 1)) x.

(** The tokenizer one code point further: the offset after the last code
    point, which takes two code units above the basic plane. *)
Definition stepped (x : Tokenizer.t) : Tokenizer.t :=
  Tokenizer.set_offset
    (Tokenizer.offset x + (if 65536 <=? Tokenizer.lastCodePoint x then 2 else 1)) x.

(** The tokenizer with the errors [more] added. *)
Definition withErrors (more : list ParseError) (x : Tokenizer.t) : Tokenizer.t :=
  Tokenizer.set_errors (Tokenizer.errors x ++ more) x.

(** The element that [StartTag] makes of a start tag. *)
Definition started (token : StartTag) : XElement :=
  mkXElement (fst (st_range token), snd (st_range token))
    (mkLocationRange (loc_start (st_loc token)) (loc_end (st_loc token)))
    (st_name token) (st_rawName token)
    (mkXStartTag (st_range token) (st_loc token) (st_selfClosing token)
       (st_attributes token))
    [] [] None.

(* ================================================================== *)
(** * Facts about strings and regular expressions *)
(* ================================================================== *)

Module JSFacts.
Import JS.

Lemma eqb_eq (a b : str) : eqb a b = true <-> a = b.
Proof.
  revert b; induction a as [|x a IH]; intros [|y b]; simpl; split;
    try congruence; try reflexivity.
  - intros H. apply andb_true_iff in H as [H1 H2].
    apply Z.eqb_eq in H1. apply IH in H2. congruence.
  - intros H. inversion H; subst. rewrite Z.eqb_refl. simpl. now apply IH.
Qed.

Lemma eqb_refl (a : str) : eqb a a = true.
Proof. now apply eqb_eq. Qed.

Lemma span_app (p : Z -> bool) (s : str) :
  fst (span p s) ++ snd (span p s) = s.
Proof.
  induction s as [|c s IH]; simpl; [reflexivity|].
  destruct (p c); [|reflexivity].
  destruct (span p s) as [a b]; simpl in *. now rewrite IH.
Qed.

Lemma span_all (p : Z -> bool) (s : str) :
  forallb p (fst (span p s)) = true.
Proof.
  induction s as [|c s IH]; simpl; [reflexivity|].
  destruct (p c) eqn:E; [|reflexivity].
  destruct (span p s) as [a b]; simpl in *. now rewrite E, IH.
Qed.

Lemma span_stop (p : Z -> bool) (s : str) :
  match snd (span p s) with [] => True | c :: _ => p c = false end.
Proof.
  induction s as [|c s IH]; simpl; [exact I|].
  destruct (p c) eqn:E; [|exact E].
  destruct (span p s) as [a b]; simpl in *. exact IH.
Qed.

Lemma startsWith_app (s p : str) :
  startsWith s p = true -> s = p ++ skipn (length p) s.
Proof.
  revert s; induction p as [|c p IH]; intros s H; simpl in *; [reflexivity|].
  destruct s as [|d s]; [discriminate|].
  apply andb_true_iff in H as [H1 H2]. apply Z.eqb_eq in H1. subst.
  simpl. f_equal. now apply IH.
Qed.

End JSFacts.

Lemma TokenType_eqb_eq (a b : TokenType) : TokenType_eqb a b = true <-> a = b.
Proof.
  destruct a, b; simpl; split; intros H; try reflexivity; try discriminate.
  - apply String.eqb_eq in H. now subst.
  - inversion H. apply String.eqb_refl.
Qed.

Lemma TokenType_eqb_refl (a : TokenType) : TokenType_eqb a a = true.
Proof. now apply TokenType_eqb_eq. Qed.

(* ================================================================== *)
(** * A Hoare logic for the computations *)
(* ================================================================== *)

Section HoareRules.
Context {S : Type}.

Lemma hoare_ret {A} (P : S -> Prop) (a : A) Q E :
  (forall s, P s -> Q a s) -> hoare P (ret a) Q E.
Proof. intros H s Hs. simpl. auto. Qed.

Lemma hoare_bind {A B} (P : S -> Prop) (m : M S A) (k : A -> M S B) R Q E :
  hoare P m R E -> (forall a, hoare (R a) (k a) Q E) -> hoare P (bind m k) Q E.
Proof.
  intros Hm Hk s Hs. unfold bind. specialize (Hm s Hs).
  destruct (m s) as [a s'|e s']; [apply (Hk a s' Hm)|exact Hm].
Qed.

Lemma hoare_throw {A} (P : S -> Prop) e (Q : A -> S -> Prop) (E : S -> Prop) :
  (forall s, P s -> E s) -> hoare P (throw e) Q E.
Proof. intros H s Hs. simpl. auto. Qed.

Lemma hoare_gets {A} (P : S -> Prop) (f : S -> A) Q E :
  (forall s, P s -> Q (f s) s) -> hoare P (gets f) Q E.
Proof. intros H s Hs. simpl. auto. Qed.

Lemma hoare_modify (P : S -> Prop) (f : S -> S) Q E :
  (forall s, P s -> Q tt (f s)) -> hoare P (modify f) Q E.
Proof. intros H s Hs. simpl. auto. Qed.

Lemma hoare_conseq {A} (P P' : S -> Prop) (m : M S A) (Q Q' : A -> S -> Prop)
    (E E' : S -> Prop) :
  hoare P' m Q' E' -> (forall s, P s -> P' s) ->
  (forall a s, Q' a s -> Q a s) -> (forall s, E' s -> E s) ->
  hoare P m Q E.
Proof.
  intros H HP HQ HE s Hs. specialize (H s (HP s Hs)).
  destruct (m s); auto.
Qed.

Lemma hoare_tryCatch {A} (P : S -> Prop) (m : M S A) h Q E R :
  hoare P m Q R -> (forall e, hoare R (h e) Q E) -> hoare P (tryCatch m h) Q E.
Proof.
  intros Hm Hh s Hs. unfold tryCatch. specialize (Hm s Hs).
  destruct (m s) as [a s'|e s']; [exact Hm|apply (Hh e s' Hm)].
Qed.

Lemma keeps_ret {A} (I : S -> Prop) (a : A) : keeps I (ret a).
Proof. apply hoare_ret. auto. Qed.

Lemma keeps_bind {A B} (I : S -> Prop) (m : M S A) (k : A -> M S B) :
  keeps I m -> (forall a, keeps I (k a)) -> keeps I (bind m k).
Proof. intros. eapply hoare_bind; eauto. Qed.

Lemma keeps_throw {A} (I : S -> Prop) e : keeps I (@throw S A e).
Proof. apply hoare_throw. auto. Qed.

Lemma keeps_gets {A} (I : S -> Prop) (f : S -> A) : keeps I (gets f).
Proof. apply hoare_gets. auto. Qed.

Lemma keeps_modify (I : S -> Prop) (f : S -> S) :
  (forall s, I s -> I (f s)) -> keeps I (modify f).
Proof. intros. apply hoare_modify. auto. Qed.

Lemma keeps_when (I : S -> Prop) (c : bool) (m : M S unit) :
  keeps I m -> keeps I (when c m).
Proof. intros. destruct c; simpl; [assumption|apply keeps_ret]. Qed.

Lemma keeps_assert (I : S -> Prop) (c : bool) msg : keeps I (assert c msg).
Proof. destruct c; simpl; [apply keeps_ret|apply keeps_throw]. Qed.

Lemma keeps_tryCatch {A} (I : S -> Prop) (m : M S A) h :
  keeps I m -> (forall e, keeps I (h e)) -> keeps I (tryCatch m h).
Proof. intros. eapply hoare_tryCatch; eauto. Qed.

(** What a computation returns, when it keeps [I]. *)
Lemma hoare_keeps_value {A} (I : S -> Prop) (m : M S A) (Q : A -> Prop) :
  keeps I m -> hoare I m (fun a _ => Q a) (fun _ => True) ->
  hoare I m (fun a s => I s /\ Q a) I.
Proof.
  intros H1 H2 s Hs. specialize (H1 s Hs). specialize (H2 s Hs).
  destruct (m s); auto.
Qed.

End HoareRules.

(** The structural steps of a proof that a computation keeps an invariant:
    the rules above, and a case analysis of every [if] and [match]. *)
Ltac keeps_step :=
  match goal with
  | |- keeps _ (bind _ _) => apply keeps_bind; [|intros ?]
  | |- keeps _ (ret _) => apply keeps_ret
  | |- keeps _ (throw _) => apply keeps_throw
  | |- keeps _ (gets _) => apply keeps_gets
  | |- keeps _ (when _ _) => apply keeps_when
  | |- keeps _ (assert _ _) => apply keeps_assert
  | |- keeps _ (tryCatch _ _) => apply keeps_tryCatch; [|intros ?]
  | |- keeps _ (if ?c then _ else _) => destruct c
  | |- keeps _ (match ?x with _ => _ end) => destruct x
  | |- keeps _ (let '(_, _) := ?x in _) => destruct x
  end.

(* ================================================================== *)
(** * Invariants of the language layer *)
(* ================================================================== *)

Lemma In_splice_insert {A} (l items : list A) (i : Z) (a : A) :
  In a l -> In a (Lodash.splice l i 0 items).
Proof.
  intros H. unfold Lodash.splice. rewrite Nat.add_0_r.
  rewrite <- (firstn_skipn (Z.to_nat (Z.min i (Z.of_nat (length l)))) l) in H.
  apply in_app_or in H. apply in_or_app. destruct H; [left|right]; auto.
  apply in_or_app. now right.
Qed.

(** An invariant of the environment that only the insertion of an error,
    the call of the script parser and the resolution of references can
    touch is kept by every function of the language layer and of the
    script layer. *)
Section EnvInvariant.
Variable backend : ScriptBackend.
Variable I : Env -> Prop.
Hypothesis I_tokens : forall e v, I e -> I (set_env_tokens v e).
Hypothesis I_comments : forall e v, I e -> I (set_env_comments v e).
Hypothesis I_chain : forall e rs,
  I e -> I (set_env_chain (snd (Lang.resolveAll rs (env_chain e))) e).
Hypothesis I_calls : forall e c,
  I e -> I (set_env_scriptCalls (env_scriptCalls e ++ [c]) e).
Hypothesis I_errors : forall e i p,
  I e -> I (set_env_errors (Lodash.splice (env_errors e) i 0 [p]) e).

Ltac env_auto :=
  repeat keeps_step;
  try (apply keeps_modify; intros; auto);
  auto.

Lemma keeps_parseScript code opts : keeps I (Script.parseScript backend code opts).
Proof. unfold Script.parseScript. env_auto. Qed.

Lemma keeps_parseScriptFragment code c opts :
  keeps I (Script.parseScriptFragment backend code c opts).
Proof.
  unfold Script.parseScriptFragment. apply keeps_bind; [apply keeps_parseScript|].
  intros r. env_auto.
Qed.

Lemma keeps_getComma tokens range :
  keeps I (Script.getCommaTokenBeforeNode tokens range).
Proof. unfold Script.getCommaTokenBeforeNode. env_auto. Qed.

Lemma keeps_parseExpression code c opts :
  keeps I (Script.parseExpression backend code c opts).
Proof.
  unfold Script.parseExpression, Script.parseExpressionBody.
  apply keeps_tryCatch.
  - unfold Script.parseExpressionBody_try.
    apply keeps_bind; [apply keeps_parseScriptFragment|]. intros ast.
    repeat first
      [ apply keeps_getComma
      | progress unfold Script.throwEmptyError, Script.throwUnexpectedTokenError
      | keeps_step ].
  - intros e. unfold Script.throwErrorAsAdjustingOutsideOfCode. env_auto.
Qed.

Lemma keeps_parseScriptElement node c opts :
  keeps I (Script.parseScriptElement backend node c opts).
Proof.
  unfold Script.parseScriptElement.
  apply keeps_bind; [apply keeps_parseScriptFragment|]. intros r. env_auto.
Qed.

Lemma keeps_replaceTokens range toks : keeps I (Lang.replaceTokens range toks).
Proof. unfold Lang.replaceTokens. env_auto. Qed.

Lemma keeps_insertComments toks : keeps I (Lang.insertComments toks).
Proof. unfold Lang.insertComments. env_auto. Qed.

Lemma keeps_insertError p : keeps I (Lang.insertError p).
Proof. unfold Lang.insertError. env_auto. Qed.

Lemma keeps_resolveReferences node : keeps I (Lang.resolveReferences node).
Proof.
  intros e He. unfold Lang.resolveReferences, bind, gets, modify, ret.
  pose proof (I_chain e (xe_references node) He) as H.
  destruct (Lang.resolveAll (xe_references node) (env_chain e)) as [rs chain'].
  exact H.
Qed.

Lemma keeps_adopt node range r : keeps I (Lang.adopt node range r).
Proof.
  unfold Lang.adopt.
  apply keeps_bind; [apply keeps_when, keeps_replaceTokens|].
  intros _. apply keeps_resolveReferences.
Qed.

Lemma keeps_processExpression opts calc node code :
  keeps I (Lang.processExpression backend opts calc node code).
Proof.
  unfold Lang.processExpression.
  destruct (Regex.identifierReg_exec code) as [[l n]|].
  - apply keeps_bind; [apply keeps_replaceTokens|].
    intros _. apply keeps_resolveReferences.
  - repeat first
      [ apply keeps_parseExpression | apply keeps_adopt | apply keeps_insertError
      | keeps_step ].
Qed.

Lemma keeps_processForExpression opts calc node code :
  keeps I (Lang.processForExpression backend opts calc node code).
Proof.
  unfold Lang.processForExpression, Lang.processForExpression_try.
  repeat first
    [ apply keeps_parseExpression | apply keeps_replaceTokens
    | apply keeps_insertError | apply keeps_resolveReferences
    | keeps_step ].
Qed.

Lemma keeps_updateTokenObject k : keeps I (Lang.updateTokenObject k).
Proof. unfold Lang.updateTokenObject. env_auto. Qed.

Lemma keeps_processMustache opts calc parent node mustache :
  keeps I (Lang.processMustache backend opts calc parent node mustache).
Proof.
  unfold Lang.processMustache.
  repeat first
    [ apply keeps_processExpression | apply keeps_processForExpression
    | apply keeps_updateTokenObject | keeps_step ].
Qed.

Lemma keeps_processScriptModule opts calc node :
  keeps I (Lang.processScriptModule backend opts calc node).
Proof.
  unfold Lang.processScriptModule.
  repeat first
    [ apply keeps_parseScriptElement | apply keeps_replaceTokens
    | apply keeps_insertComments | apply keeps_insertError | keeps_step ].
Qed.

End EnvInvariant.

(* ================================================================== *)
(** * Attributes that look like directives and are none *)
(* ================================================================== *)

Lemma keeps_inEnv {A} (J : Parser.t -> Prop) (I : Env -> Prop)
    (chain : list XElement) (m : M Env A) :
  (forall x, J x -> I (Parser.envOf x chain)) ->
  (forall e x, I e -> J (Parser.storeEnv e x)) ->
  keeps I m -> keeps J (Parser.inEnv chain m).
Proof.
  intros H1 H2 Hm x Hx. unfold Parser.inEnv.
  specialize (Hm _ (H1 x Hx)).
  destruct (m (Parser.envOf x chain)); auto.
Qed.

Lemma keeps_reported_inEnv {A} err chain (m : M Env A) :
  (forall I : Env -> Prop,
     (forall e v, I e -> I (set_env_tokens v e)) ->
     (forall e v, I e -> I (set_env_comments v e)) ->
     (forall e rs, I e -> I (set_env_chain (snd (Lang.resolveAll rs (env_chain e))) e)) ->
     (forall e c, I e -> I (set_env_scriptCalls (env_scriptCalls e ++ [c]) e)) ->
     (forall e i p, I e -> I (set_env_errors (Lodash.splice (env_errors e) i 0 [p]) e)) ->
     keeps I m) ->
  keeps (reported err) (Parser.inEnv chain m).
Proof.
  intros Hm.
  apply keeps_inEnv with (I := fun e => In err (env_errors e)).
  - intros x Hx. exact Hx.
  - intros e x He. unfold reported, Parser.storeEnv, Parser.rawTokenizer.
    destruct x as [itk ? ? ? ?]; destruct itk; simpl. exact He.
  - apply Hm; intros; simpl; auto. now apply In_splice_insert.
Qed.

Lemma keeps_reported_promote backend err opts calc parent vs chain :
  keeps (reported err) (Parser.promoteMustaches backend opts calc parent vs chain).
Proof.
  revert chain; induction vs as [|v vs IH]; intros chain; simpl.
  - apply keeps_ret.
  - destruct v; try (apply keeps_bind; [apply IH|intros [rest c2]; apply keeps_ret]).
    apply keeps_bind.
    + apply keeps_reported_inEnv.
      intros I H1 H2 H3 H4 H5. now apply keeps_processMustache.
    + intros [m' c1]. apply keeps_bind; [apply IH|intros [rest c2]; apply keeps_ret].
Qed.

(** C10.  An attribute whose name begins with [s-] or [bind:] and does not
    match DIRECTIVE_NAME (a one-letter name such as [s-a] is too short for
    the pattern) gets the error [x-invalid-directive] reported at its key,
    and stays an [XAttribute] with its key: whether [processAttribute]
    returns or one of the mustaches of the value makes it throw, the error
    is in the list of errors, and the attribute it returns is no
    directive. *)
Theorem C10_invalid_directive_reported :
  forall backend (node : XAttribute) (chain : list XElement) (x : Parser.t),
    at_type node = XAttributeT ->
    Regex.DIRECTIVE_NAME_test (key_name (at_key node)) = false ->
    JS.startsWith (key_name (at_key node)) (JS.lit "s-")
      || JS.startsWith (key_name (at_key node)) (JS.lit "bind:") = true ->
    let err := IntermediateTokenizer.parseErrorAt (key_range (at_key node))
                 (key_loc (at_key node)) "x-invalid-directive" in
    match Parser.processAttribute backend node chain x with
    | Ok (node', _) x' =>
        reported err x' /\ at_type node' = XAttributeT /\ at_key node' = at_key node
    | Throw _ x' => reported err x'
    end.
Proof.
  intros backend node chain x Hty Htest Hpre err.
  unfold Parser.processAttribute.
  unfold bind at 1. unfold gets at 1.
  unfold bind at 1. unfold gets at 1.
  rewrite Htest. unfold bind at 1. unfold bind at 1.
  rewrite Hpre. unfold when.
  unfold Parser.reportParseError at 1. unfold Parser.onRawTokenizer, modify.
  cbv beta iota. unfold ret at 1. cbv beta iota.
  unfold bind at 1. unfold gets at 1.
  unfold bind at 1.
  match goal with
  | |- match match ?m ?s with _ => _ end with _ => _ end =>
      pose proof (keeps_reported_promote backend err
                    (script (Parser.parserOptions s))
                    (Parser.locationCalculator s) node (at_value node) chain s) as K;
      set (x1 := s) in *
  end.
  assert (Hx1 : reported err x1).
  { unfold reported, x1, Parser.rawTokenizer. simpl.
    apply in_or_app. right. left. reflexivity. }
  specialize (K Hx1).
  replace (Parser.parserOptions x1) with (Parser.parserOptions x) in K by reflexivity.
  destruct (Parser.promoteMustaches backend (script (Parser.parserOptions x))
              (Parser.locationCalculator x1) node (at_value node) chain x1)
    as [[values chain'] x2|e x2]; simpl.
  - split; [exact K|]. split; [exact Hty|reflexivity].
  - exact K.
Qed.

(** C10, at the attribute [s-a] of [<view s-a='1'>]. *)
Lemma C10_witness :
  let key := XIdentifier (6, 9) (mkLocationRange (mkLocation 1 6) (mkLocation 1 9))
               (JS.lit "s-a") (JS.lit "s-a") in
  let node := mkXAttribute XAttributeT (6, 13)
                (mkLocationRange (mkLocation 1 6) (mkLocation 1 13)) key
                [VLiteral (mkXLiteral (11, 12)
                   (mkLocationRange (mkLocation 1 11) (mkLocation 1 12)) (JS.lit "1"))] in
  let x := Parser.new (Tokenizer.new (JS.lit "<view s-a='1'>"))
             (resolveParserOptions (mkOptions None None None)) in
  match Parser.processAttribute Espree.backend node [] x with
  | Ok (node', _) x' =>
      reported (IntermediateTokenizer.parseErrorAt (6, 9)
                  (mkLocationRange (mkLocation 1 6) (mkLocation 1 9)) "x-invalid-directive") x'
      /\ at_type node' = XAttributeT /\ at_key node' = key
  | Throw _ x' => False
  end.
Proof.
  intros key node x.
  pose proof (C10_invalid_directive_reported Espree.backend node [] x
                eq_refl eq_refl eq_refl) as H.
  cbv zeta in H.
  destruct (Parser.processAttribute Espree.backend node [] x) as [[node' c] x'|e x'] eqn:E.
  - exact H.
  - vm_compute in E. discriminate E.
Defined.

(* ================================================================== *)
(** * The binary search of lodash, and [replaceTokens] *)
(* ================================================================== *)

Section BinarySearch.
Context {A : Type}.
Variable key : A -> Z.
Variable v : Z.
Variable retHighest : bool.

(** On an array whose items pass the test of the search up to some index
    and fail it from there on, which every array sorted by [key] is, the
    search returns that index. *)
Lemma search_boundary (pre post : list A) :
  Forall (fun x => setLow key v retHighest x = true) pre ->
  Forall (fun x => setLow key v retHighest x = false) post ->
  forall (n : nat) (low high : Z),
    0 <= low <= Z.of_nat (length pre) ->
    Z.of_nat (length pre) <= high <= Z.of_nat (length (pre ++ post)) ->
    high - low < Z.of_nat n ->
    Lodash.search key (pre ++ post) v retHighest n low high = Z.of_nat (length pre).
Proof.
  intros Hpre Hpost. induction n as [|n IH]; intros low high Hl Hh Hn; [lia|].
  simpl. destruct (low <? high) eqn:Elh.
  - apply Z.ltb_lt in Elh.
    assert (Hmid : low <= (low + high) / 2 < high).
    { split; [apply Z.div_le_lower_bound; lia|apply Z.div_lt_upper_bound; lia]. }
    set (mid := (low + high) / 2) in *.
    destruct (nth_error (pre ++ post) (Z.to_nat mid)) as [x|] eqn:Ex.
    + destruct (Z_lt_le_dec mid (Z.of_nat (length pre))) as [Hlt|Hge].
      * rewrite nth_error_app1 in Ex by lia.
        apply nth_error_In in Ex.
        rewrite Forall_forall in Hpre. specialize (Hpre x Ex).
        unfold setLow in Hpre. rewrite Hpre. apply IH; lia.
      * rewrite nth_error_app2 in Ex by lia.
        apply nth_error_In in Ex.
        rewrite Forall_forall in Hpost. specialize (Hpost x Ex).
        unfold setLow in Hpost. rewrite Hpost. apply IH; lia.
    + apply nth_error_None in Ex. lia.
  - apply Z.ltb_ge in Elh. lia.
Qed.

End BinarySearch.

Lemma sortedIndexBy_boundary {A} (key : A -> Z) (v : Z) (pre post : list A) :
  Forall (fun x => key x < v) pre ->
  Forall (fun x => v <= key x) post ->
  Lodash.sortedIndexBy (pre ++ post) v key = Z.of_nat (length pre).
Proof.
  intros H1 H2. unfold Lodash.sortedIndexBy.
  apply (search_boundary key v false).
  - eapply Forall_impl; [|exact H1]. intros x Hx. unfold setLow. now apply Z.ltb_lt.
  - eapply Forall_impl; [|exact H2]. intros x Hx. unfold setLow. now apply Z.ltb_ge.
  - lia.
  - rewrite length_app. lia.
  - lia.
Qed.

Lemma sortedLastIndexBy_boundary {A} (key : A -> Z) (v : Z) (pre post : list A) :
  Forall (fun x => key x <= v) pre ->
  Forall (fun x => v < key x) post ->
  Lodash.sortedLastIndexBy (pre ++ post) v key = Z.of_nat (length pre).
Proof.
  intros H1 H2. unfold Lodash.sortedLastIndexBy.
  apply (search_boundary key v true).
  - eapply Forall_impl; [|exact H1]. intros x Hx. unfold setLow. now apply Z.leb_le.
  - eapply Forall_impl; [|exact H2]. intros x Hx. unfold setLow. now apply Z.leb_gt.
  - lia.
  - rewrite length_app. lia.
  - lia.
Qed.

(** [replaceTokens] puts the new tokens in the place of those inside the
    range. *)
Lemma replaceTokensIn_around (range : OffsetRange) (pre mid post new : list Token) :
  around range pre mid post ->
  Lang.replaceTokensIn (pre ++ mid ++ post) range new = pre ++ new ++ post.
Proof.
  intros (Hpre & Hmid & Hpost). unfold Lang.replaceTokensIn.
  rewrite sortedIndexBy_boundary.
  2:{ eapply Forall_impl; [|exact Hpre]. intros k Hk. apply Hk. }
  2:{ apply Forall_app. split; (eapply Forall_impl; [|eassumption]);
      intros k Hk; apply Hk. }
  rewrite app_assoc. rewrite sortedLastIndexBy_boundary.
  2:{ apply Forall_app. split; (eapply Forall_impl; [|eassumption]);
      intros k Hk; apply Hk. }
  2:{ eapply Forall_impl; [|exact Hpost]. intros k Hk. apply Hk. }
  unfold Lodash.splice. rewrite !length_app.
  replace (Z.min _ _) with (Z.of_nat (length pre)) by lia.
  rewrite Nat2Z.id.
  replace (Z.to_nat (Z.of_nat (length pre + length mid) - Z.of_nat (length pre)))
    with (length mid) by lia.
  rewrite <- app_assoc.
  rewrite firstn_app, firstn_all, Nat.sub_diag. simpl. rewrite app_nil_r.
  f_equal. f_equal.
  rewrite skipn_app. rewrite skipn_all2 by lia. simpl.
  replace (length pre + length mid - length pre)%nat with (length mid) by lia.
  rewrite skipn_app, skipn_all, Nat.sub_diag. reflexivity.
Qed.

(* ================================================================== *)
(** * The payload that is one identifier *)
(* ================================================================== *)

Lemma word_not_space (c : Z) : JS.isWordChar c = true -> JS.isSpaceChar c = false.
Proof.
  unfold JS.isWordChar, JS.isSpaceChar. intros H.
  repeat rewrite orb_true_iff in H. repeat rewrite andb_true_iff in H.
  repeat rewrite Z.leb_le in H. rewrite Z.eqb_eq in H.
  repeat (apply orb_false_iff; split);
    try (apply andb_false_iff);
    try (apply Z.eqb_neq; lia);
    try (destruct (9 <=? c) eqn:E1; [right; apply Z.leb_gt; apply Z.leb_le in E1; lia
                                    |left; reflexivity]);
    try (destruct (8192 <=? c) eqn:E1; [right; apply Z.leb_gt; apply Z.leb_le in E1; lia
                                       |left; reflexivity]).
Qed.

Lemma span_exact (p : Z -> bool) (a b : JS.str) :
  forallb p a = true ->
  match b with [] => True | c :: _ => p c = false end ->
  JS.span p (a ++ b) = (a, b).
Proof.
  intros Ha Hb. induction a as [|c a IH]; simpl in *.
  - destruct b as [|c b]; [reflexivity|]. simpl. now rewrite Hb.
  - apply andb_true_iff in Ha as [Hc Ha]. rewrite Hc, (IH Ha). reflexivity.
Qed.

(** [identifierReg] matches the codes that are blanks, a word and blanks,
    and [exec] returns the leading blanks and the word. *)
Lemma identifierReg_exec_spec (identifierLeft identifierName trailing : JS.str) :
  forallb JS.isSpaceChar identifierLeft = true ->
  identifierName <> [] ->
  forallb JS.isWordChar identifierName = true ->
  forallb JS.isSpaceChar trailing = true ->
  Regex.identifierReg_exec (identifierLeft ++ identifierName ++ trailing)
  = Some (identifierLeft, identifierName).
Proof.
  intros Hl Hne Hn Ht. unfold Regex.identifierReg_exec.
  rewrite (span_exact JS.isSpaceChar identifierLeft (identifierName ++ trailing) Hl).
  2:{ destruct identifierName as [|c n]; [congruence|]. simpl in *.
      apply andb_true_iff in Hn as [Hc _]. now apply word_not_space. }
  rewrite (span_exact JS.isWordChar identifierName trailing Hn).
  2:{ destruct trailing as [|c r]; [exact I|]. simpl in Ht.
      apply andb_true_iff in Ht as [Hc _].
      destruct (JS.isWordChar c) eqn:E; [|reflexivity].
      apply word_not_space in E. congruence. }
  destruct identifierName; [congruence|]. now rewrite Ht.
Qed.

Lemma bindIn_id r vars r' vars' :
  Lang.bindIn r vars = Some (r', vars') -> ref_id r' = ref_id r /\ ref_mode r' = ref_mode r.
Proof.
  revert r' vars'; induction vars as [|v vars IH]; intros r' vars' H; simpl in H.
  - discriminate.
  - destruct (Lang.sameName (var_id v) (ref_id r)).
    + inversion H; subst. simpl. auto.
    + destruct (Lang.bindIn r vars) as [[r1 v1]|]; [|discriminate].
      inversion H; subst. eapply IH. reflexivity.
Qed.

Lemma resolveReference_id r chain :
  ref_id (fst (Lang.resolveReference r chain)) = ref_id r
  /\ ref_mode (fst (Lang.resolveReference r chain)) = ref_mode r.
Proof.
  induction chain as [|node up IH]; simpl; [auto|].
  destruct (Lang.bindIn r (el_variables node)) as [[r' vars']|] eqn:E.
  - simpl. now apply (bindIn_id r (el_variables node) r' vars').
  - destruct (Lang.resolveReference r up) as [r' up']. simpl in *. exact IH.
Qed.



(* ================================================================== *)
(** * Runs of the whole parser *)
(* ================================================================== *)

(** C2, on the code.  With [parseExpression: false] the parser does what
    it does without the option: the literal of the directive of
    [<view s-if='cond'></view>] becomes an [XExpression], the mustache of
    [<view s-if='{{cond}}'></view>] an [XMustache], and for
    [<view s-for='item in list'></view>] the script parser is called
    twice. *)
Theorem C2_parseExpression_false_still_parses :
  (exists d x,
     parseWith (withParseExpression false) (JS.lit "<view s-if='cond'></view>") = Ok d x
     /\ map (fun a => map kindOf (at_value a)) (firstAttributes d) = [["XExpression"%string]])
  /\ (exists d x,
     parseWith (withParseExpression false) (JS.lit "<view s-if='{{cond}}'></view>") = Ok d x
     /\ map (fun a => map kindOf (at_value a)) (firstAttributes d) = [["XMustache"%string]])
  /\ (exists d x,
     parseWith (withParseExpression false) (JS.lit "<view s-for='item in list'></view>") = Ok d x
     /\ Parser.scriptCalls x = [JS.lit "0([item])"; JS.lit "0(list)"]).
Proof.
  repeat split; eexists _, _; (split; [vm_compute; reflexivity|vm_compute; reflexivity]).
Qed.

(** C3, on the code.  A mustache start is pending when the input
    [<view>{{cond] ends, and [nextToken] of the intermediate tokenizer has
    no current token to commit: no error is reported and the text after
    the start tag is lost.  With a text before the mustache,
    [<view>x{{cond], the same end of input is reported. *)
Theorem C3_pending_mustache_at_end_of_input :
  (exists d x,
     parseWith defaults (JS.lit "<view>{{cond") = Ok d x
     /\ doc_errors d = []
     /\ map (fun c => match c with CElement e => el_children e | _ => [] end)
            (doc_children d) = [[]])
  /\ (exists d x,
     parseWith defaults (JS.lit "<view>x{{cond") = Ok d x
     /\ map pe_code (doc_errors d) = [Some "missing-expression-end-tag"%string]
     /\ map pe_index (doc_errors d) = [7]).
Proof.
  split; eexists _, _; (split; [vm_compute; reflexivity|split; vm_compute; reflexivity]).
Qed.

(** C7, on the code.  [throwErrorAsAdjustingOutsideOfCode] reads the
    property [offset] of the parse error, which no parse error has: it
    throws the error with the message it came with.  So does
    [parseExpressionBody] what its [try] does; and the error of the
    mustache of [<view>{{a +}}</view>], which espree reports at the
    closing parenthesis of the wrapped code, at offset 11 where the
    fragment, which starts at 8 and is 3 long, ends, keeps the message of
    espree. *)
Theorem C7_message_of_error_at_end_kept :
  (forall backend code c opts allowEmpty env,
     Script.parseExpressionBody backend code c opts allowEmpty env
     = Script.parseExpressionBody_try backend code c opts allowEmpty env)
  /\ (exists d x,
     parseWith defaults (JS.lit "<view>{{a +}}</view>") = Ok d x
     /\ map pe_message (doc_errors d) = [JS.lit "Unexpected token )"]
     /\ map pe_index (doc_errors d) = [8 + JS.len (JS.lit "a +")]).
Proof.
  split.
  - intros. unfold Script.parseExpressionBody, tryCatch.
    destruct (Script.parseExpressionBody_try backend code c opts allowEmpty env)
      as [a s|e s]; [reflexivity|].
    unfold Script.throwErrorAsAdjustingOutsideOfCode.
    destruct (Script.isParseError e); reflexivity.
  - eexists _, _. split; [vm_compute; reflexivity|split; vm_compute; reflexivity].
Qed.

(* ================================================================== *)
(** * The calls of the script parser *)
(* ================================================================== *)

Ltac as_keeps :=
  match goal with
  | |- hoare ?P ?m _ _ => change (keeps P m)
  end.

(** [parseExpression] hands the code to the script parser once, wrapped in
    a call of [0], whether it returns or throws. *)
Lemma calls_parseExpression backend code c opts cs :
  hoare (fun e => env_scriptCalls e = cs)
        (Script.parseExpression backend code c opts)
        (fun _ e => env_scriptCalls e = cs ++ [JS.lit "0(" ++ code ++ JS.lit ")"])
        (fun e => env_scriptCalls e = cs ++ [JS.lit "0(" ++ code ++ JS.lit ")"]).
Proof.
  unfold Script.parseExpression, Script.parseExpressionBody.
  set (I := fun e => env_scriptCalls e = cs ++ [JS.lit "0(" ++ code ++ JS.lit ")"]).
  apply hoare_tryCatch with (R := I).
  - unfold Script.parseExpressionBody_try, Script.parseScriptFragment.
    eapply hoare_bind with (R := fun _ => I).
    + eapply hoare_bind with (R := fun _ => I).
      * unfold Script.parseScript.
        eapply hoare_bind with (R := fun _ => I).
        -- apply hoare_modify. intros s Hs. unfold I. simpl. now rewrite Hs.
        -- intros _. apply hoare_ret. auto.
      * intros r. as_keeps. repeat keeps_step.
    + intros ast. as_keeps.
      repeat first
        [ progress unfold Script.throwEmptyError, Script.throwUnexpectedTokenError,
            Script.getCommaTokenBeforeNode
        | keeps_step ].
  - intros e. as_keeps. unfold Script.throwErrorAsAdjustingOutsideOfCode.
    repeat keeps_step.
Qed.

Lemma keeps_called_processExpression backend cs opts calc node code :
  keeps (called cs) (Lang.processExpression backend opts calc node code).
Proof.
  apply keeps_processExpression; unfold called; intros e v; try (intros [m H]; exists m; exact H).
  - intros [m H]. exists (m ++ [v]). simpl. rewrite H. now rewrite app_assoc.
  - intros p [m H]. exists m. exact H.
Qed.

Lemma keeps_called_adopt cs node range r :
  keeps (called cs) (Lang.adopt node range r).
Proof.
  apply keeps_adopt; unfold called; intros e v; intros [m H]; exists m; exact H.
Qed.

Lemma keeps_called_insertError cs p : keeps (called cs) (Lang.insertError p).
Proof.
  intros e [m H]. unfold Lang.insertError. simpl.
  destruct (pe_code p) as [c|]; [destruct (String.eqb c "")|]; simpl; exists m; exact H.
Qed.

Lemma keeps_called_parseExpression backend cs code c opts :
  keeps (called cs) (Script.parseExpression backend code c opts).
Proof.
  apply keeps_parseExpression; unfold called; intros e v.
  intros [m H]. exists (m ++ [v]). simpl. rewrite H. now rewrite app_assoc.
Qed.

(** [adopt] returns: the expression of the node is the one of the result. *)
Lemma adopt_returns node range r env :
  exists v env',
    Lang.adopt node range r env = Ok v env'
    /\ xe_expression v = option_map Script (res_expression r).
Proof.
  unfold Lang.adopt, Lang.replaceTokens, Lang.resolveReferences.
  unfold bind, when, modify, gets, ret.
  destruct (negb (length (res_tokens r) =? 0)%nat);
    cbn [xe_references];
    match goal with
    | |- context [Lang.resolveAll ?a ?b] => destruct (Lang.resolveAll a b) as [rs ch]
    end; eexists _, _; split; reflexivity.
Qed.

(* ================================================================== *)
(** * Mustaches that hold the members of an object *)
(* ================================================================== *)

Lemma span_tail_stops (p : Z -> bool) (a : JS.str) (c : Z) :
  p c = false -> snd (JS.span p (a ++ [c])) <> [].
Proof.
  intros Hc. induction a as [|d a IH]; simpl.
  - rewrite Hc. discriminate.
  - destruct (p d); [|discriminate].
    destruct (JS.span p (a ++ [c])) as [x y]. exact IH.
Qed.

Lemma trim_truthy (s : JS.str) :
  JS.trimStart s <> [] -> JS.truthy (JS.trim s) = true.
Proof.
  intros H. unfold JS.trim.
  pose proof (JSFacts.span_stop JS.isSpaceChar s) as Hs.
  unfold JS.trimStart in *.
  destruct (snd (JS.span JS.isSpaceChar s)) as [|c t]; [congruence|].
  cbn [rev].
  pose proof (span_tail_stops JS.isSpaceChar (rev t) c Hs) as Hn.
  destruct (snd (JS.span JS.isSpaceChar (rev t ++ [c]))) as [|d u]; [congruence|].
  cbn [rev]. destruct (rev u); reflexivity.
Qed.

Lemma memberExpression_truthy (code : JS.str) :
  Regex.memberExpression_test code = true -> JS.truthy (JS.trim code) = true.
Proof.
  intros H. apply trim_truthy. unfold JS.trimStart.
  unfold Regex.memberExpression_test in H.
  destruct (snd (JS.span JS.isSpaceChar code)); [discriminate H|discriminate].
Qed.

(** A code in braces is no identifier for [identifierReg]. *)
Lemma identifierReg_braces (code : JS.str) :
  Regex.identifierReg_exec (JS.lit "{" ++ code ++ JS.lit "}") = None.
Proof. reflexivity. Qed.

(** C5.  A mustache that is no value of an [s-for] directive, whose
    payload matches [memberExpression] and whose start token is [{{]:
    the start token loses its second brace (its value is [{], its range
    ends one earlier) and the end token its first one (its value is [}],
    its range starts one later); the script parser gets the payload in
    braces, as [0({payload})], before anything else, whether
    [processMustache] returns or throws; and when [parseExpression]
    accepts the payload in braces, [processMustache] returns the mustache
    with the two trimmed tokens and with the expression of that parse. *)
Theorem C5_inline_object_wrapped :
  forall backend opts calc parent (node : XMustache) (mustache : Mustache) (env : Env),
    Regex.memberExpression_test (mu_value mustache) = true ->
    tok_value (mu_startToken mustache) = JS.lit "{{" ->
    Lang.parentIsFor parent = false ->
    let startToken := mu_startToken mustache in
    let endToken := mu_endToken mustache in
    let wrapped := JS.lit "{" ++ mu_value mustache ++ JS.lit "}" in
    let call := JS.lit "0(" ++ wrapped ++ JS.lit ")" in
    let st := Lang.trimStartToken startToken in
    let en := Lang.trimEndToken endToken in
    let env0 := match (Lang.updateTokenObject st ;; Lang.updateTokenObject en)%monad env with
                | Ok _ e | Throw _ e => e
                end in
    (tok_value st = JS.lit "{"
     /\ tok_range st = (fst (tok_range startToken), snd (tok_range startToken) - 1)
     /\ tok_value en = JS.lit "}"
     /\ tok_range en = (fst (tok_range endToken) + 1, snd (tok_range endToken)))
    /\ match Lang.processMustache backend opts calc parent node mustache env with
       | Ok node' env' =>
           xm_startToken node' = st /\ xm_endToken node' = en
           /\ exists more, env_scriptCalls env' = env_scriptCalls env ++ call :: more
       | Throw _ env' =>
           exists more, env_scriptCalls env' = env_scriptCalls env ++ call :: more
       end
    /\ forall r env1,
         Script.parseExpression backend wrapped
           (LocationCalculator.getSubCalculatorAfter calc (snd (tok_range startToken)))
           opts env0 = Ok r env1 ->
         exists node' env' v,
           Lang.processMustache backend opts calc parent node mustache env = Ok node' env'
           /\ xm_value node' = Some v
           /\ xe_expression v = option_map Script (res_expression r).
Proof.
  intros backend opts calc parent node mustache env Hm Hs Hp
         startToken endToken wrapped call st en env0.
  split; [repeat split|].
  unfold Lang.processMustache.
  rewrite (memberExpression_truthy _ Hm), Hp, Hm, Hs, JSFacts.eqb_refl.
  cbn [negb andb].
  fold startToken endToken st en wrapped.
  set (value := mkXExpression _ _ None []).
  assert (E0 : forall A (k : M Env A),
             (Lang.updateTokenObject st ;; Lang.updateTokenObject en ;; k)%monad env = k env0).
  { intros A k. reflexivity. }
  rewrite E0.
  assert (Hc0 : env_scriptCalls env0 = env_scriptCalls env) by reflexivity.
  set (calc' := LocationCalculator.getSubCalculatorAfter calc (snd (tok_range startToken))).
  pose (body :=
    tryCatch
      (r <- Script.parseExpression backend wrapped calc' opts ;;
       Lang.adopt value (xe_range value) r)%monad
      (fun e =>
         match Script.isParseError e with
         | Some p =>
             if Regex.reservedKeyword_test (pe_message p)
             then tryCatch
                    (r <- Script.parseExpression backend wrapped calc'
                            (Lang.retryOptions opts) ;;
                     Lang.adopt value (xe_range value) r)%monad
                    (fun _ => (Lang.insertError p ;; ret value)%monad)
             else (Lang.insertError p ;; ret value)%monad
         | None => throw e
         end)).
  assert (PE : Lang.processExpression backend opts calc value wrapped = body).
  { unfold Lang.processExpression, wrapped. rewrite identifierReg_braces. reflexivity. }
  rewrite PE. unfold bind.
  split.
  - (* the calls *)
    set (cs := env_scriptCalls env) in *.
    assert (K : hoare (fun e => env_scriptCalls e = cs) body
              (fun _ => called (cs ++ [call])) (called (cs ++ [call]))).
    { apply hoare_tryCatch with (R := called (cs ++ [call])).
      - eapply hoare_bind with (R := fun _ => called (cs ++ [call])).
        + eapply hoare_conseq;
            [apply (calls_parseExpression backend wrapped calc' opts cs)| | |].
          * auto.
          * intros a s H. exists []. rewrite app_nil_r. exact H.
          * intros s H. exists []. rewrite app_nil_r. exact H.
        + intros r. apply keeps_called_adopt.
      - intros e. as_keeps.
        repeat first
          [ apply keeps_called_parseExpression | apply keeps_called_adopt
          | apply keeps_called_insertError | keeps_step ]. }
    specialize (K env0 Hc0).
    destruct (body env0) as [v e1|x e1]; simpl.
    + split; [reflexivity|]. split; [reflexivity|].
      destruct K as [more K]. exists more. rewrite K. now rewrite <- app_assoc.
    + destruct K as [more K]. exists more. rewrite K. now rewrite <- app_assoc.
  - (* the expression *)
    intros r env1 Hr.
    unfold body, tryCatch. unfold bind at 1. rewrite Hr.
    destruct (adopt_returns value (xe_range value) r env1) as (v & env' & Ha & Hv).
    rewrite Ha.
    eexists _, env', v. repeat split. exact Hv.
Qed.

(** C5, at the mustache of [<view style='{{a:1,b:2}}'/>], with the
    answers of espree: the expression is an object literal. *)
Lemma C5_witness :
  let at1 := Espree.at1 in
  let startToken := mkToken 7 XMustacheStart (13, 15) (at1 13 15) (JS.lit "{{") in
  let raw := mkToken 8 HTMLAttrLiteral (15, 22) (at1 15 22) (JS.lit "a:1,b:2") in
  let endToken := mkToken 9 XMustacheEnd (22, 24) (at1 22 24) (JS.lit "}}") in
  let mustache := mkMustache (13, 24) (at1 13 24) (JS.lit "a:1,b:2") startToken endToken in
  let node := mkXMustache (13, 24) (at1 13 24) startToken endToken None in
  let env := mkEnv [startToken; raw; endToken] [] [] [] [] in
  Regex.memberExpression_test (mu_value mustache) = true
  /\ exists node' env' v e,
       Lang.processMustache Espree.backend
         (script (resolveParserOptions (mkOptions None None None)))
         (LocationCalculator.new [] []) None node mustache env = Ok node' env'
       /\ xm_value node' = Some v
       /\ xe_expression v = Some (Script e)
       /\ es_type e = "ObjectExpression"%string.
Proof.
  intros at1 startToken raw endToken mustache node env.
  split; [reflexivity|].
  pose proof (C5_inline_object_wrapped Espree.backend
                (script (resolveParserOptions (mkOptions None None None)))
                (LocationCalculator.new [] []) None node mustache env
                eq_refl eq_refl eq_refl) as H.
  cbv zeta in H. destruct H as (_ & _ & H).
  match type of H with
  | context [Script.parseExpression ?b ?w ?c ?o ?e] =>
      destruct (Script.parseExpression b w c o e) as [r env1|x env1] eqn:E
  end.
  - destruct (H r env1 eq_refl) as (node' & env' & v & A & B & C).
    vm_compute in E. injection E as Hr _. subst r.
    eexists node', env', v, _. repeat split; [exact A|exact B|exact C|reflexivity].
  - vm_compute in E. discriminate E.
Defined.

(** C5 as it is written fails for the value of an [s-for] directive.  The
    payload of the mustache of [<view s-for='{{a: 1}}'></view>] matches
    [memberExpression] and its start token is [{{]; the payload goes to
    the script parser as it is, and the two tokens keep their braces. *)
Lemma C5_counterexample :
  Regex.memberExpression_test (JS.lit "a: 1") = true
  /\ exists d x,
       parseWith defaults (JS.lit "<view s-for='{{a: 1}}'></view>") = Ok d x
       /\ Parser.scriptCalls x = [JS.lit "0(a: 1)"]
       /\ map tok_value
            (filter (fun k => TokenType_eqb (tok_type k) XMustacheStart
                              || TokenType_eqb (tok_type k) XMustacheEnd)
                    (doc_tokens d))
          = [JS.lit "{{"; JS.lit "}}"].
Proof.
  split; [reflexivity|].
  eexists _, _. split; [vm_compute; reflexivity|]. split; vm_compute; reflexivity.
Qed.

(* ================================================================== *)
(** * The parts of the value of [s-for] *)
(* ================================================================== *)

Lemma skipn_cons_length {A} (n : nat) (l : list A) (c : A) (t : list A) :
  skipn n l = c :: t -> (n < length l)%nat.
Proof.
  intros H. pose proof (length_skipn n l) as L. rewrite H in L. simpl in L. lia.
Qed.

Lemma keyAtHead_length (s : JS.str) (k : Regex.ForKeyword) :
  Regex.keyAtHead s = Some k -> Regex.keyMatchLength k <= JS.len s.
Proof.
  unfold Regex.keyAtHead. destruct s as [|w r]; [discriminate|].
  destruct (JS.isSpaceChar w); [|discriminate].
  destruct (JS.startsWith r (JS.lit "in") &&
            match skipn 2 r with c :: _ => JS.isSpaceChar c | [] => false end) eqn:E1.
  - intros H. inversion H; subst. apply andb_true_iff in E1 as [_ E1].
    destruct (skipn 2 r) as [|c t] eqn:Es; [discriminate|].
    apply skipn_cons_length in Es.
    unfold Regex.keyMatchLength, JS.len. simpl length. lia.
  - destruct (JS.startsWith r (JS.lit "trackBy") &&
              match skipn 7 r with c :: _ => JS.isSpaceChar c | [] => false end) eqn:E2;
      [|discriminate].
    intros H. inversion H; subst. apply andb_true_iff in E2 as [_ E2].
    destruct (skipn 7 r) as [|c t] eqn:Es; [discriminate|].
    apply skipn_cons_length in Es.
    unfold Regex.keyMatchLength, JS.len. simpl length. lia.
Qed.

Lemma keyReg_scan_bound (s : JS.str) :
  forall i j k, Regex.keyReg_scan s i = Some (j, k) ->
                i <= j /\ j + Regex.keyMatchLength k <= i + JS.len s.
Proof.
  induction s as [|c s IH]; intros i j k H.
  - simpl in H. discriminate.
  - cbn [Regex.keyReg_scan] in H.
    destruct (Regex.keyAtHead (c :: s)) as [k'|] eqn:E.
    + inversion H; subst. apply keyAtHead_length in E. lia.
    + apply IH in H. unfold JS.len in *. simpl length. lia.
Qed.

(** A match of [keyReg] lies in the code, at or after [lastIndex]. *)
Lemma keyReg_exec_bound (code : JS.str) (lastIndex j : Z) (k : Regex.ForKeyword) :
  0 <= lastIndex ->
  Regex.keyReg_exec code lastIndex = Some (j, k) ->
  lastIndex <= j /\ j + Regex.keyMatchLength k <= JS.len code.
Proof.
  intros H0 H. unfold Regex.keyReg_exec in H.
  destruct (JS.len code <? lastIndex) eqn:E; [discriminate|].
  apply Z.ltb_ge in E. apply keyReg_scan_bound in H.
  unfold JS.len in *. rewrite length_skipn in H. lia.
Qed.

(** The loop over the matches, for a code with one [in] and, after it, at
    most one [trackBy]. *)
Lemma forScan_in (calc : LocationCalculator.t) (node : XExpression) (code : JS.str)
    (i : Z) (trackByAt : option Z) :
  Regex.keyReg_exec code 0 = Some (i, Regex.KwIn) ->
  Regex.keyReg_exec code (i + 4)
    = option_map (fun j => (j, Regex.KwTrackBy)) trackByAt ->
  (forall j, trackByAt = Some j -> Regex.keyReg_exec code (j + 9) = None) ->
  let r0 := fst (xe_range node) in
  let inToken := Lang.keywordToken calc Regex.KwIn (r0 + i + 1) in
  Lang.forScan calc node code
  = match trackByAt with
    | Some j =>
        Lang.mkForScan (Some (Lang.mkForBlock (JS.slice code 0 i) (r0, r0 + i)))
          (Some (Lang.mkForBlock (JS.sliceFrom code (j + 9))
                   (r0 + j + 9, snd (xe_range node))))
          (i + 4) j (Some inToken)
          (Some (Lang.keywordToken calc Regex.KwTrackBy (r0 + j + 1)))
    | None =>
        Lang.mkForScan (Some (Lang.mkForBlock (JS.slice code 0 i) (r0, r0 + i)))
          None (i + 4) (JS.len code) (Some inToken) None
    end.
Proof.
  intros H1 H2 H3 r0 inToken.
  pose proof (keyReg_exec_bound code 0 i _ ltac:(lia) H1) as [B1 B2].
  change (Regex.keyMatchLength Regex.KwIn) with 4 in B2.
  unfold Lang.forScan.
  destruct (length code) as [|n] eqn:En; [unfold JS.len in B2; rewrite En in B2; simpl in B2; lia|].
  cbn [Lang.forScanFrom]. rewrite H1.
  change (Regex.keyMatchLength Regex.KwIn) with 4.
  cbn [Lang.forScanFrom]. rewrite H2.
  destruct trackByAt as [j|]; cbn [option_map]; [|reflexivity].
  pose proof H2 as H2'. cbn [option_map] in H2'.
  apply keyReg_exec_bound in H2' as [B3 B4]; [|lia].
  change (Regex.keyMatchLength Regex.KwTrackBy) with 9 in *.
  destruct n as [|n]; [unfold JS.len in B4; rewrite En in B4; simpl in B4; lia|].
  cbn [Lang.forScanFrom]. rewrite (H3 j eq_refl). reflexivity.
Qed.




(* ================================================================== *)
(** * Invariants of the tokenizer *)
(* ================================================================== *)

Module TokenizerFacts.
Import Tokenizer.

(** An invariant that the reading of code points cannot touch, and that
    the operations on tokens keep, is kept by the function of every
    state. *)
Section StateInvariant.
Variable I : Tokenizer.t -> Prop.
Hypothesis I_frame : forall x y, sameCore x y -> I x -> I y.
Hypothesis I_returnState : forall v x, I x -> I (set_returnState v x).
Hypothesis I_tagOpenEnabled : forall v x, I x -> I (set_tagOpenEnabled v x).
Hypothesis I_start : forall ty, opensTagOrComment ty = false -> keeps I (startToken ty).
Hypothesis I_open : forall ty, opensTagOrComment ty = true -> keeps I (startToken ty).
Hypothesis I_end : keeps I endToken.
Hypothesis I_append : forall cp e, keeps I (appendTokenValue cp e).
Hypothesis I_rollback : keeps I rollbackProvisionalToken.
Hypothesis I_commitProvisional : keeps I commitProvisionalToken.

Lemma keeps_framed (f : t -> t) :
  (forall x, sameCore x (f x)) -> keeps I (modify f).
Proof. intros H. apply keeps_modify. intros x Hx. exact (I_frame _ _ (H x) Hx). Qed.

Ltac framed :=
  match goal with
  | |- keeps _ (modify _) => apply keeps_framed; intros ?; repeat split
  end.

Lemma keeps_reportParseError c : keeps I (reportParseError c).
Proof. unfold reportParseError. framed. Qed.

Lemma keeps_advanceLocation : keeps I advanceLocation.
Proof.
  unfold advanceLocation. apply keeps_framed. intros x.
  destruct (lastCodePoint x =? Unicode.LINE_FEED); repeat split.
Qed.

Lemma keeps_consumeNextCodePoint_rec n : keeps I (consumeNextCodePoint_rec n).
Proof.
  induction n as [|n IH]; simpl; [apply keeps_throw|].
  repeat first
    [ apply keeps_reportParseError | apply keeps_advanceLocation | apply IH
    | framed | keeps_step ].
Qed.

Lemma keeps_consumeNextCodePoint : keeps I consumeNextCodePoint.
Proof. apply keeps_consumeNextCodePoint_rec. Qed.

Lemma keeps_reconsumeAs s : keeps I (reconsumeAs s).
Proof. unfold reconsumeAs. keeps_step; [framed|keeps_step]. Qed.

Lemma keeps_setStartTokenMark : keeps I setStartTokenMark.
Proof. unfold setStartTokenMark. framed. Qed.

Lemma keeps_clearStartTokenMark : keeps I clearStartTokenMark.
Proof. unfold clearStartTokenMark. framed. Qed.

Lemma keeps_set_buffer (f : t -> list Z) :
  keeps I (modify (fun x => set_buffer (f x) x)).
Proof. framed. Qed.

Lemma keeps_set_returnState v : keeps I (modify (set_returnState v)).
Proof. apply keeps_modify. intros x. apply I_returnState. Qed.

Lemma keeps_set_tagOpenEnabled v : keeps I (modify (set_tagOpenEnabled v)).
Proof. apply keeps_modify. intros x. apply I_tagOpenEnabled. Qed.

Lemma keeps_appendCodePointAt i : keeps I (appendCodePointAt i).
Proof. unfold appendCodePointAt. repeat first [apply I_append | keeps_step]. Qed.

Lemma keeps_isAppropriateEndTagOpen : keeps I isAppropriateEndTagOpen.
Proof. unfold isAppropriateEndTagOpen. repeat keeps_step. Qed.

Lemma keeps_appendAll cps ty : keeps I (appendAll cps ty).
Proof.
  induction cps as [|c cps IH]; simpl; [apply keeps_ret|].
  apply keeps_bind; [apply I_append|intros _; exact IH].
Qed.

Lemma keeps_currentTypeIsNot ty : keeps I (currentTypeIsNot ty).
Proof. unfold currentTypeIsNot. repeat keeps_step. Qed.

Lemma keeps_startTokenIfNone ty :
  opensTagOrComment ty = false -> keeps I (startTokenIfNone ty).
Proof.
  intros H. unfold startTokenIfNone.
  apply keeps_bind; [apply keeps_gets|intros c]. apply keeps_when. now apply I_start.
Qed.

Lemma keeps_retype ty k :
  opensTagOrComment ty = false -> keeps I k -> keeps I (retype ty k).
Proof.
  intros H Hk. unfold retype.
  apply keeps_bind; [apply keeps_currentTypeIsNot|intros other].
  destruct other.
  - repeat first [apply I_end | apply keeps_reconsumeAs | keeps_step].
  - apply keeps_bind; [now apply keeps_startTokenIfNone|intros _; exact Hk].
Qed.

Lemma keeps_giveBack ty back : keeps I (giveBack ty back).
Proof.
  unfold giveBack.
  repeat first
    [ apply I_rollback | apply I_append | apply keeps_appendAll
    | apply keeps_reconsumeAs | keeps_step ].
Qed.

Lemma keeps_skipWhitespace n cp : keeps I (skipWhitespace n cp).
Proof.
  revert cp; induction n as [|n IH]; intros cp; simpl; [apply keeps_throw|].
  destruct (Unicode.isWhitespace cp); [|apply keeps_ret].
  apply keeps_bind; [apply keeps_consumeNextCodePoint|intros cp'; apply IH].
Qed.

(** The steps of a proof that the function of a state keeps [I]. *)
Ltac tk :=
  repeat first
    [ apply I_end | apply I_append | apply I_rollback
    | apply I_start; reflexivity
    | apply I_open; reflexivity
    | apply keeps_reportParseError | apply keeps_consumeNextCodePoint
    | apply keeps_reconsumeAs | apply keeps_setStartTokenMark
    | apply keeps_clearStartTokenMark | apply keeps_set_buffer
    | apply keeps_set_returnState | apply keeps_set_tagOpenEnabled
    | apply keeps_appendCodePointAt | apply keeps_isAppropriateEndTagOpen
    | apply keeps_giveBack | apply keeps_skipWhitespace
    | framed
    | keeps_step ].

Ltac tk_loop IH :=
  let n := fresh "n" in
  let cp := fresh "cp" in
  intros n; induction n as [|n IH]; intros cp; simpl; [apply keeps_throw|].

Lemma keeps_DATA_loop : forall n cp, keeps I (DATA_loop n cp).
Proof.
  tk_loop IH. apply keeps_retype; [now destruct (Unicode.isWhitespace cp)|].
  tk. apply IH.
Qed.

Lemma keeps_RCDATA_loop : forall n cp, keeps I (RCDATA_loop n cp).
Proof.
  tk_loop IH. apply keeps_retype; [now destruct (Unicode.isWhitespace cp)|].
  tk. apply IH.
Qed.

Lemma keeps_RAWTEXT_loop : forall n cp, keeps I (RAWTEXT_loop n cp).
Proof.
  tk_loop IH. apply keeps_retype; [now destruct (Unicode.isWhitespace cp)|].
  tk. apply IH.
Qed.

Lemma keeps_TAG_OPEN_state cp : keeps I (TAG_OPEN_state cp).
Proof. unfold TAG_OPEN_state. tk. Qed.

Lemma keeps_END_TAG_OPEN_state cp : keeps I (END_TAG_OPEN_state cp).
Proof. unfold END_TAG_OPEN_state. tk. Qed.

Lemma keeps_TAG_NAME_loop : forall n cp, keeps I (TAG_NAME_loop n cp).
Proof. tk_loop IH. tk. apply IH. Qed.

Lemma keeps_RCDATA_LESS_THAN_SIGN_state cp : keeps I (RCDATA_LESS_THAN_SIGN_state cp).
Proof. unfold RCDATA_LESS_THAN_SIGN_state. tk. Qed.

Lemma keeps_RCDATA_END_TAG_OPEN_state cp : keeps I (RCDATA_END_TAG_OPEN_state cp).
Proof. unfold RCDATA_END_TAG_OPEN_state. tk. Qed.

Lemma keeps_RCDATA_END_TAG_NAME_loop : forall n cp, keeps I (RCDATA_END_TAG_NAME_loop n cp).
Proof. tk_loop IH. tk. apply IH. Qed.

Lemma keeps_RAWTEXT_LESS_THAN_SIGN_state cp : keeps I (RAWTEXT_LESS_THAN_SIGN_state cp).
Proof. unfold RAWTEXT_LESS_THAN_SIGN_state. tk. Qed.

Lemma keeps_RAWTEXT_END_TAG_OPEN_state cp : keeps I (RAWTEXT_END_TAG_OPEN_state cp).
Proof. unfold RAWTEXT_END_TAG_OPEN_state. tk. Qed.

Lemma keeps_RAWTEXT_END_TAG_NAME_loop : forall n cp, keeps I (RAWTEXT_END_TAG_NAME_loop n cp).
Proof. tk_loop IH. tk. apply IH. Qed.

Lemma keeps_BEFORE_ATTRIBUTE_NAME_state n cp : keeps I (BEFORE_ATTRIBUTE_NAME_state n cp).
Proof. unfold BEFORE_ATTRIBUTE_NAME_state. tk. Qed.

Lemma keeps_ATTRIBUTE_NAME_loop : forall n cp, keeps I (ATTRIBUTE_NAME_loop n cp).
Proof. tk_loop IH. tk. apply IH. Qed.

Lemma keeps_AFTER_ATTRIBUTE_NAME_state n cp : keeps I (AFTER_ATTRIBUTE_NAME_state n cp).
Proof. unfold AFTER_ATTRIBUTE_NAME_state. tk. Qed.

Lemma keeps_BEFORE_ATTRIBUTE_VALUE_state n cp : keeps I (BEFORE_ATTRIBUTE_VALUE_state n cp).
Proof. unfold BEFORE_ATTRIBUTE_VALUE_state. tk. Qed.

Lemma keeps_ATTRIBUTE_VALUE_QUOTED_loop quote self lineBreakIsError :
  forall n cp, keeps I (ATTRIBUTE_VALUE_QUOTED_loop quote self lineBreakIsError n cp).
Proof. tk_loop IH. apply keeps_retype; [reflexivity|]. tk. apply IH. Qed.

Lemma keeps_ATTRIBUTE_VALUE_UNQUOTED_loop :
  forall n cp, keeps I (ATTRIBUTE_VALUE_UNQUOTED_loop n cp).
Proof. tk_loop IH. tk. apply IH. Qed.

Lemma keeps_AFTER_ATTRIBUTE_VALUE_QUOTED_state cp :
  keeps I (AFTER_ATTRIBUTE_VALUE_QUOTED_state cp).
Proof. unfold AFTER_ATTRIBUTE_VALUE_QUOTED_state. tk. Qed.

Lemma keeps_SELF_CLOSING_START_TAG_state cp : keeps I (SELF_CLOSING_START_TAG_state cp).
Proof. unfold SELF_CLOSING_START_TAG_state. tk. Qed.

Lemma keeps_BOGUS_COMMENT_loop : forall n cp, keeps I (BOGUS_COMMENT_loop n cp).
Proof. tk_loop IH. tk. apply IH. Qed.

Lemma keeps_MARKUP_DECLARATION_OPEN_state cp : keeps I (MARKUP_DECLARATION_OPEN_state cp).
Proof. unfold MARKUP_DECLARATION_OPEN_state. tk. Qed.

Lemma keeps_COMMENT_START_state cp : keeps I (COMMENT_START_state cp).
Proof. unfold COMMENT_START_state. tk. Qed.

Lemma keeps_COMMENT_START_DASH_state cp : keeps I (COMMENT_START_DASH_state cp).
Proof. unfold COMMENT_START_DASH_state. tk. Qed.

Lemma keeps_COMMENT_loop : forall n cp, keeps I (COMMENT_loop n cp).
Proof. tk_loop IH. tk. apply IH. Qed.

Lemma keeps_COMMENT_LESS_THAN_SIGN_loop : forall n cp, keeps I (COMMENT_LESS_THAN_SIGN_loop n cp).
Proof. tk_loop IH. tk. apply IH. Qed.

Lemma keeps_COMMENT_LESS_THAN_SIGN_BANG_state cp :
  keeps I (COMMENT_LESS_THAN_SIGN_BANG_state cp).
Proof. unfold COMMENT_LESS_THAN_SIGN_BANG_state. tk. Qed.

Lemma keeps_COMMENT_LESS_THAN_SIGN_BANG_DASH_state cp :
  keeps I (COMMENT_LESS_THAN_SIGN_BANG_DASH_state cp).
Proof. unfold COMMENT_LESS_THAN_SIGN_BANG_DASH_state. tk. Qed.

Lemma keeps_COMMENT_LESS_THAN_SIGN_BANG_DASH_DASH_state cp :
  keeps I (COMMENT_LESS_THAN_SIGN_BANG_DASH_DASH_state cp).
Proof. unfold COMMENT_LESS_THAN_SIGN_BANG_DASH_DASH_state. tk. Qed.

Lemma keeps_COMMENT_END_DASH_state cp : keeps I (COMMENT_END_DASH_state cp).
Proof. unfold COMMENT_END_DASH_state. tk. Qed.

Lemma keeps_COMMENT_END_loop : forall n cp, keeps I (COMMENT_END_loop n cp).
Proof. tk_loop IH. tk. apply IH. Qed.

Lemma keeps_COMMENT_END_BANG_state cp : keeps I (COMMENT_END_BANG_state cp).
Proof. unfold COMMENT_END_BANG_state. tk. Qed.

Lemma keeps_X_EXPRESSION_START_state cp : keeps I (X_EXPRESSION_START_state cp).
Proof. unfold X_EXPRESSION_START_state. tk. Qed.

Lemma keeps_X_EXPRESSION_END_state cp : keeps I (X_EXPRESSION_END_state cp).
Proof. unfold X_EXPRESSION_END_state. tk. Qed.

Lemma keeps_runState_plain s cp : opening s = false -> keeps I (runState s cp).
Proof.
  intros Hs. unfold runState.
  apply keeps_bind; [apply keeps_gets|intros n].
  destruct s; try discriminate Hs;
    first
      [ apply keeps_bind; [first [apply keeps_clearStartTokenMark
                                 |apply keeps_reportParseError]|intros _] | idtac ];
    first
      [ apply keeps_DATA_loop | apply keeps_TAG_NAME_loop | apply keeps_RCDATA_loop
      | apply keeps_RCDATA_LESS_THAN_SIGN_state | apply keeps_RCDATA_END_TAG_NAME_loop
      | apply keeps_RAWTEXT_loop | apply keeps_RAWTEXT_LESS_THAN_SIGN_state
      | apply keeps_RAWTEXT_END_TAG_NAME_loop | apply keeps_BEFORE_ATTRIBUTE_NAME_state
      | apply keeps_ATTRIBUTE_NAME_loop | apply keeps_AFTER_ATTRIBUTE_NAME_state
      | apply keeps_BEFORE_ATTRIBUTE_VALUE_state | apply keeps_ATTRIBUTE_VALUE_QUOTED_loop
      | apply keeps_ATTRIBUTE_VALUE_UNQUOTED_loop
      | apply keeps_AFTER_ATTRIBUTE_VALUE_QUOTED_state
      | apply keeps_SELF_CLOSING_START_TAG_state | apply keeps_BOGUS_COMMENT_loop
      | apply keeps_COMMENT_START_state | apply keeps_COMMENT_START_DASH_state
      | apply keeps_COMMENT_loop | apply keeps_COMMENT_LESS_THAN_SIGN_loop
      | apply keeps_COMMENT_LESS_THAN_SIGN_BANG_state
      | apply keeps_COMMENT_LESS_THAN_SIGN_BANG_DASH_state
      | apply keeps_COMMENT_LESS_THAN_SIGN_BANG_DASH_DASH_state
      | apply keeps_COMMENT_END_DASH_state | apply keeps_COMMENT_END_loop
      | apply keeps_COMMENT_END_BANG_state | apply keeps_X_EXPRESSION_START_state
      | apply keeps_X_EXPRESSION_END_state ].
Qed.

Lemma keeps_runState s cp : keeps I (runState s cp).
Proof.
  destruct (opening s) eqn:Hs; [|now apply keeps_runState_plain].
  unfold runState. apply keeps_bind; [apply keeps_gets|intros n].
  destruct s; try discriminate Hs;
    first
      [ apply keeps_TAG_OPEN_state | apply keeps_END_TAG_OPEN_state
      | apply keeps_MARKUP_DECLARATION_OPEN_state
      | apply keeps_RCDATA_END_TAG_OPEN_state | apply keeps_RAWTEXT_END_TAG_OPEN_state ].
Qed.

End StateInvariant.
End TokenizerFacts.

(* ================================================================== *)
(** * The tokens the tokenizer holds, returns and cancels *)
(* ================================================================== *)

Module OnePlace.
Import Tokenizer.

Ltac by_cases :=
  repeat match goal with
         | |- context [(?a =? ?b)%nat] => destruct (Nat.eqb_spec a b); subst
         | H : context [(?a =? ?b)%nat] |- _ => destruct (Nat.eqb_spec a b); subst
         | |- context [Nat.eq_dec ?a ?b] => destruct (Nat.eq_dec a b); subst
         | H : context [Nat.eq_dec ?a ?b] |- _ => destruct (Nat.eq_dec a b); subst
         end; try lia.

(** The pattern of every proof: the new tokenizer holds, for every [r],
    no more than the old one. *)
Lemma fewer out (x y : t) :
  (forall r, (occurrences out y r <= occurrences out x r)%nat) ->
  (nextRef x <= nextRef y)%nat ->
  onePlace out x -> onePlace out y.
Proof.
  intros H Hn Hx r. destruct (Hx r) as [H1 H2]. specialize (H r). split; lia.
Qed.

Lemma frame out (x y : t) : sameCore x y -> onePlace out x -> onePlace out y.
Proof.
  intros (H1 & H2 & H3 & H4 & H5 & _) Hx.
  apply fewer with (x := x); [|lia|exact Hx].
  intros r. unfold occurrences. rewrite H1, H2, H3, H5. lia.
Qed.

Lemma held_appendTokenValue out cp e : keeps (onePlace out) (appendTokenValue cp e).
Proof.
  intros x Hx. unfold appendTokenValue, bind, gets, throw, modify.
  destruct (currentToken x) as [k|] eqn:Ek; [|exact Hx].
  destruct (match e with Some e0 => _ | None => false end); [exact Hx|].
  destruct (Unicode.fromCodePoint cp); [|exact Hx].
  apply fewer with (x := x); [|simpl; lia|exact Hx].
  intros r. unfold occurrences. simpl. rewrite Ek. simpl. lia.
Qed.

Lemma held_commitProvisionalToken out : keeps (onePlace out) commitProvisionalToken.
Proof.
  intros x Hx. unfold commitProvisionalToken, commitToken, bind, gets, throw, modify,
    assert, when, ret.
  destruct (provisionalToken x) as [p|] eqn:Ep; [|exact Hx]. simpl.
  destruct (fst (tok_range p) <? snd (tok_range p)); simpl.
  - destruct (committedToken x) as [c|] eqn:Ec; simpl.
    + apply fewer with (x := x); [|simpl; lia|exact Hx].
      intros r. unfold occurrences. simpl. rewrite Ep, Ec. simpl. lia.
    + destruct (TokenType_eqb (tok_type p) HTMLTagOpen); simpl;
        (apply fewer with (x := x); [|simpl; lia|exact Hx]);
        intros r; unfold occurrences; simpl; rewrite Ep, Ec; simpl; lia.
  - apply fewer with (x := x); [|simpl; lia|exact Hx].
    intros r. unfold occurrences. simpl. rewrite Ep. simpl. lia.
Qed.

Lemma held_rollbackProvisionalToken out : keeps (onePlace out) rollbackProvisionalToken.
Proof.
  intros x Hx. unfold rollbackProvisionalToken, bind, gets, throw, modify.
  destruct (currentToken x) as [c|] eqn:Ec; [|exact Hx].
  destruct (provisionalToken x) as [p|] eqn:Ep; [|exact Hx]. simpl.
  apply fewer with (x := x); [|simpl; lia|exact Hx].
  intros r. unfold occurrences. simpl. rewrite Ep, Ec. simpl. by_cases.
Qed.

Lemma held_endToken out : keeps (onePlace out) endToken.
Proof.
  intros x Hx.
  unfold endToken, isProvisionalState, commitProvisionalToken, commitToken,
    setStartTokenMark, bind, gets, throw, modify, assert, when, ret.
  destruct (currentToken x) as [c|] eqn:Ec; [|exact Hx].
  assert (G : forall y, (forall r, occurrences out y r <= occurrences out x r)%nat ->
                        nextRef y = nextRef x -> onePlace out y).
  { intros y H1 H2. apply fewer with (x := x); [exact H1|lia|exact Hx]. }
  destruct (tokenStartOffset x =? -1); simpl;
    destruct (isProvisionalStateOf (state x)); simpl;
    repeat match goal with
           | |- context [if ?c then _ else _] => destruct c eqn:?; simpl
           | |- context [match provisionalToken x with _ => _ end] =>
               destruct (provisionalToken x) eqn:?; simpl
           | |- context [match committedToken x with _ => _ end] =>
               destruct (committedToken x) eqn:?; simpl
           end;
    apply G; try reflexivity;
    intros r; unfold occurrences; simpl;
    repeat match goal with H : _ = _ |- _ => rewrite H end; simpl; by_cases.
Qed.

Lemma fresh_token out (x : t) ty rg lc v :
  onePlace out x ->
  onePlace out
    (set_currentToken (Some (mkToken (nextRef x) ty rg lc v))
       (set_nextRef (S (nextRef x)) (set_tokenStartOffset (-1) x))).
Proof.
  intros Hx r. destruct (Hx r) as [H1 H2]. revert H1 H2.
  unfold occurrences. simpl.
  destruct (currentToken x) as [c|]; simpl; by_cases.
Qed.

Lemma held_startToken out ty : keeps (onePlace out) (startToken ty).
Proof.
  unfold startToken.
  assert (F : forall f, (forall x, sameCore x (f x)) -> keeps (onePlace out) (modify f)).
  { intros f Hf. apply keeps_modify. intros x Hx. exact (frame out _ _ (Hf x) Hx). }
  apply keeps_bind; [apply keeps_gets|intros m].
  apply keeps_bind;
    [apply keeps_when; unfold setStartTokenMark; apply F; intros x; repeat split|intros _].
  apply keeps_bind; [apply keeps_gets|intros off].
  apply keeps_bind; [apply keeps_gets|intros ln'].
  apply keeps_bind; [apply keeps_gets|intros col'].
  apply keeps_bind; [apply keeps_gets|intros c].
  apply keeps_bind.
  { apply keeps_when. apply keeps_bind; [apply held_endToken|intros _; apply keeps_ret]. }
  intros _ x Hx. unfold bind, modify, gets. simpl.
  apply fresh_token with (x := x). exact Hx.
Qed.

Lemma held_set_state out s : keeps (onePlace out) (modify (set_state s)).
Proof. apply keeps_modify. intros x Hx. exact Hx. Qed.

Lemma held_runState out s cp : keeps (onePlace out) (runState s cp).
Proof.
  apply TokenizerFacts.keeps_runState;
    first
      [ apply frame | intros; apply held_startToken | apply held_endToken
      | apply held_appendTokenValue | apply held_rollbackProvisionalToken
      | intros v x Hx; exact Hx ].
Qed.

Lemma held_consumeNextCodePoint out : keeps (onePlace out) consumeNextCodePoint.
Proof. apply TokenizerFacts.keeps_consumeNextCodePoint. apply frame. Qed.

Lemma held_nextToken_loop out : forall n cp, keeps (onePlace out) (nextToken_loop n cp).
Proof.
  induction n as [|n IH]; intros cp; simpl; [apply keeps_throw|].
  repeat first
    [ apply held_commitProvisionalToken | apply held_consumeNextCodePoint
    | apply held_runState | apply held_set_state | apply IH
    | match goal with
      | |- keeps _ (modify (set_reconsuming _)) =>
          apply keeps_modify; intros x Hx; exact Hx
      end
    | progress unfold isProvisionalState
    | keeps_step ].
Qed.

Lemma consumeCommittedToken_returns out (P : option Token -> Prop) :
  hoare (fun x => onePlace out x /\ P (currentToken x))
        consumeCommittedToken
        (fun token x => onePlace (returned out token) x /\ P (currentToken x))
        (fun _ => True).
Proof.
  intros x [Hx HP]. unfold consumeCommittedToken, bind, gets, modify, ret. simpl.
  split; [|exact HP].
  intros r. destruct (Hx r) as [A B]. revert A B.
  unfold returned, occurrences. simpl.
  destruct (committedToken x) as [k|]; simpl; by_cases.
Qed.

Lemma endToken_ends out :
  hoare (onePlace out) endToken
        (fun _ x => onePlace out x /\ currentToken x = None) (fun _ => True).
Proof.
  intros x Hx.
  unfold endToken, isProvisionalState, commitProvisionalToken, commitToken,
    setStartTokenMark, bind, gets, throw, modify, assert, when, ret.
  destruct (currentToken x) as [c|] eqn:Ec; [|exact I].
  assert (G : forall y, (forall r, occurrences out y r <= occurrences out x r)%nat ->
                        nextRef y = nextRef x -> onePlace out y).
  { intros y H1 H2. apply fewer with (x := x); [exact H1|lia|exact Hx]. }
  destruct (tokenStartOffset x =? -1); simpl;
    destruct (isProvisionalStateOf (state x)); simpl;
    repeat match goal with
           | |- context [if ?c then _ else _] => destruct c eqn:?; simpl
           | |- context [match provisionalToken x with _ => _ end] =>
               destruct (provisionalToken x) eqn:?; simpl
           | |- context [match committedToken x with _ => _ end] =>
               destruct (committedToken x) eqn:?; simpl
           end;
    try exact I;
    (split; [|reflexivity]);
    apply G; try reflexivity;
    intros r; unfold occurrences; simpl;
    repeat match goal with H : _ = _ |- _ => rewrite H end; simpl; by_cases.
Qed.

(** [nextToken] hands over a token it held, and holds it no more. *)
Lemma nextToken_returns out :
  hoare (onePlace out) nextToken (fun token x => onePlace (returned out token) x)
        (fun _ => True).
Proof.
  unfold nextToken, nextToken_fuel.
  eapply hoare_bind with (R := fun _ => onePlace out);
    [apply hoare_gets; auto|intros n].
  eapply hoare_bind with (R := fun _ => onePlace out);
    [apply hoare_gets; auto|intros cp0].
  eapply hoare_bind with (R := fun _ => onePlace out).
  { eapply hoare_conseq; [apply (held_nextToken_loop out)| | |]; simpl; auto. }
  intros cp.
  eapply hoare_bind.
  { eapply hoare_conseq; [apply (consumeCommittedToken_returns out (fun _ => True))| | |];
      simpl; auto.
    intros a s H. exact H. }
  intros [k|]; [apply hoare_ret; intros s [H _]; exact H|].
  eapply hoare_bind with (R := fun _ => onePlace out).
  { destruct (cp =? Unicode.EOF); simpl.
    - apply hoare_ret. intros s [H _]. exact H.
    - apply hoare_throw. auto. }
  intros _.
  eapply hoare_bind with (R := fun c x => onePlace out x /\ currentToken x = c);
    [apply hoare_gets; auto|intros c].
  destruct c as [c|]; simpl.
  - eapply hoare_bind with (R := fun _ x => onePlace out x /\ currentToken x = None).
    { eapply hoare_conseq; [apply (endToken_ends out)| | |]; simpl; auto.
      intros s [H _]. exact H. }
    intros _.
    eapply hoare_bind;
      [apply (consumeCommittedToken_returns out (fun c => c = None))|].
    intros [k|]; [apply hoare_ret; intros s [H _]; exact H|].
    apply hoare_gets. intros s [H E]. rewrite E. exact H.
  - apply hoare_gets. intros s [H E]. rewrite E. exact H.
Qed.

End OnePlace.

Lemma onePlace_new (text : JS.str) : onePlace [] (Tokenizer.new text).
Proof. intros r. unfold occurrences. simpl. lia. Qed.

Lemma onePlace_same_counts (out out' : list nat) (x : Tokenizer.t) :
  (forall r, count_occ Nat.eq_dec out' r = count_occ Nat.eq_dec out r) ->
  onePlace out x -> onePlace out' x.
Proof.
  intros H Hx r. destruct (Hx r) as [A B]. unfold occurrences in *.
  rewrite H. split; assumption.
Qed.

(** Whatever the client does, the tokens returned and the tokens held
    stay in one place each. *)
Lemma serve_onePlace (cs : list Client) :
  forall x out tokens y,
    onePlace out x ->
    serve cs x = Some (tokens, y) ->
    onePlace (map tok_ref tokens ++ out) y.
Proof.
  induction cs as [|c cs IH]; intros x out tokens y Hx Hs; simpl in Hs.
  - inversion Hs; subst. exact Hx.
  - destruct c.
    + pose proof (OnePlace.nextToken_returns out x Hx) as Hn.
      destruct (Tokenizer.nextToken x) as [token x'|e x']; [|discriminate].
      destruct (serve cs x') as [[tokens' y']|] eqn:Es; [|discriminate].
      inversion Hs; subst. specialize (IH _ _ _ _ Hn Es).
      destruct token as [k|]; [|exact IH].
      apply onePlace_same_counts with (out := map tok_ref tokens' ++ tok_ref k :: out);
        [|exact IH].
      intros r. simpl. rewrite !count_occ_app. simpl.
      destruct (Nat.eq_dec (tok_ref k) r); lia.
    + apply (IH (Tokenizer.set_state s x)); [exact Hx|exact Hs].
    + apply (IH (Tokenizer.set_expressionEnabled b x)); [exact Hx|exact Hs].
    + apply (IH (Tokenizer.set_errors (Tokenizer.errors x ++ [e]) x)); [exact Hx|exact Hs].
Qed.

(** The characters of a cancelled end tag go to the text token. *)
Lemma appendAll_appends (cps : list Z) :
  forall (x : Tokenizer.t) (k : Token),
    Tokenizer.currentToken x = Some k ->
    Forall (fun c => 0 <= c < 65536) cps ->
    exists x',
      Tokenizer.appendAll cps (tok_type k) x = Ok tt x'
      /\ Tokenizer.currentToken x' = Some (Tokenizer.withValue k (tok_value k ++ cps))
      /\ Tokenizer.provisionalToken x' = Tokenizer.provisionalToken x
      /\ Tokenizer.committedToken x' = Tokenizer.committedToken x
      /\ Tokenizer.discarded x' = Tokenizer.discarded x
      /\ Tokenizer.reconsuming x' = Tokenizer.reconsuming x.
Proof.
  induction cps as [|c cps IH]; intros x k Hc Hr.
  - exists x. simpl. rewrite app_nil_r. repeat split.
    rewrite Hc. destruct k; reflexivity.
  - inversion Hr as [|c0 cps0 Hc0 Hr' E0]. clear E0 Hr.
    simpl. unfold bind at 1.
    unfold Tokenizer.appendTokenValue, bind, gets, modify. rewrite Hc.
    rewrite TokenType_eqb_refl. simpl.
    unfold Unicode.fromCodePoint.
    replace ((c <? 0) || (1114111 <? c)) with false
      by (symmetry; apply orb_false_iff; split; [apply Z.ltb_ge|apply Z.ltb_ge]; lia).
    replace (c <? 65536) with true by (symmetry; apply Z.ltb_lt; lia).
    specialize (IH (Tokenizer.set_currentToken
                      (Some (Tokenizer.withValue k (tok_value k ++ [c]))) x)
                   (Tokenizer.withValue k (tok_value k ++ [c])) eq_refl Hr').
    destruct IH as (x' & E & A & B & C & D & F).
    exists x'. split; [exact E|]. simpl in *.
    rewrite <- app_assoc in A. simpl in A. repeat split; assumption.
Qed.



(* ================================================================== *)
(** * Where the tokenizer goes while [tagOpenEnabled] is off *)
(* ================================================================== *)

Section SafeRules.
Context {S : Type}.

Lemma safe_keeps_bind {A B} (P : S -> Prop) (m : M S A) (k : A -> M S B) Q :
  keeps P m -> (forall a, safe P (k a) Q) -> safe P (bind m k) Q.
Proof.
  intros Hm Hk s Hs. unfold bind. specialize (Hm s Hs).
  destruct (m s) as [a s'|e s']; [exact (Hk a s' Hm)|exact I].
Qed.

Lemma safe_gets_bind {A B} (P : S -> Prop) (g : S -> A) (k : A -> M S B) Q :
  (forall a, safe P (k a) Q) -> safe P (bind (gets g) k) Q.
Proof. intros Hk s Hs. unfold bind, gets. exact (Hk (g s) s Hs). Qed.

Lemma safe_gets_known {A B} (P : S -> Prop) (g : S -> A) (v : A) (k : A -> M S B) Q :
  (forall s, P s -> g s = v) -> safe P (k v) Q -> safe P (bind (gets g) k) Q.
Proof. intros Hg Hk s Hs. unfold bind, gets. rewrite (Hg s Hs). exact (Hk s Hs). Qed.

Lemma safe_gets {A} (P : S -> Prop) (g : S -> A) (Q : A -> S -> Prop) :
  (forall s, P s -> Q (g s) s) -> safe P (gets g) Q.
Proof. intros H s Hs. exact (H s Hs). Qed.

Lemma safe_ret {A} (P : S -> Prop) (a : A) (Q : A -> S -> Prop) :
  (forall s, P s -> Q a s) -> safe P (ret a) Q.
Proof. intros H s Hs. exact (H s Hs). Qed.

Lemma safe_throw {A} (P : S -> Prop) e (Q : A -> S -> Prop) : safe P (throw e) Q.
Proof. intros s Hs. exact I. Qed.

Lemma safe_modify_bind {B} (P P' : S -> Prop) (f : S -> S) (k : unit -> M S B) Q :
  (forall s, P s -> P' (f s)) -> safe P' (k tt) Q -> safe P (bind (modify f) k) Q.
Proof. intros Hf Hk s Hs. unfold bind, modify. exact (Hk (f s) (Hf s Hs)). Qed.

Lemma safe_weaken {A} (P P' : S -> Prop) (m : M S A) Q :
  (forall s, P s -> P' s) -> safe P' m Q -> safe P m Q.
Proof. intros H Hm s Hs. exact (Hm s (H s Hs)). Qed.

End SafeRules.

Module Quiet.
Import Tokenizer.

(** What depends on the state, the state to return to and the flag only
    is kept by the operations on tokens. *)
Section FieldInvariant.
Variable I : t -> Prop.
Hypothesis I_fields : forall x y,
  state x = state y -> returnState x = returnState y ->
  tagOpenEnabled x = tagOpenEnabled y -> I x -> I y.

Ltac fields :=
  repeat first
    [ match goal with
      | |- keeps _ (modify _) =>
          apply keeps_modify; intros ? ?; eapply I_fields; [| | |eassumption]; reflexivity
      end
    | keeps_step ].

Lemma fields_frame x y : sameCore x y -> I x -> I y.
Proof. intros (_ & _ & _ & _ & _ & H1 & H2 & H3). now apply I_fields. Qed.

Lemma fields_commitToken k : keeps I (commitToken k).
Proof. unfold commitToken. fields. Qed.

Lemma fields_commitProvisionalToken : keeps I commitProvisionalToken.
Proof.
  unfold commitProvisionalToken.
  repeat first [apply fields_commitToken | progress fields].
Qed.

Lemma fields_endToken : keeps I endToken.
Proof.
  unfold endToken, isProvisionalState, setStartTokenMark.
  repeat first
    [ apply fields_commitToken | apply fields_commitProvisionalToken | progress fields ].
Qed.

Lemma fields_startToken ty : keeps I (startToken ty).
Proof.
  unfold startToken, setStartTokenMark.
  repeat first [apply fields_endToken | progress fields].
Qed.

Lemma fields_appendTokenValue cp e : keeps I (appendTokenValue cp e).
Proof. unfold appendTokenValue. fields. Qed.

Lemma fields_rollbackProvisionalToken : keeps I rollbackProvisionalToken.
Proof. unfold rollbackProvisionalToken. fields. Qed.

Lemma fields_consumeCommittedToken : keeps I consumeCommittedToken.
Proof. unfold consumeCommittedToken. fields. Qed.

Lemma fields_reportParseError c : keeps I (reportParseError c).
Proof. apply TokenizerFacts.keeps_reportParseError. exact fields_frame. Qed.

Lemma fields_consumeNextCodePoint : keeps I consumeNextCodePoint.
Proof. apply TokenizerFacts.keeps_consumeNextCodePoint. exact fields_frame. Qed.

Lemma fields_reconsumeAs s : keeps I (reconsumeAs s).
Proof. apply TokenizerFacts.keeps_reconsumeAs. exact fields_frame. Qed.

Lemma fields_setStartTokenMark : keeps I setStartTokenMark.
Proof. apply TokenizerFacts.keeps_setStartTokenMark. exact fields_frame. Qed.

Lemma fields_clearStartTokenMark : keeps I clearStartTokenMark.
Proof. apply TokenizerFacts.keeps_clearStartTokenMark. exact fields_frame. Qed.

Lemma fields_appendCodePointAt i : keeps I (appendCodePointAt i).
Proof. apply TokenizerFacts.keeps_appendCodePointAt. exact fields_appendTokenValue. Qed.

Lemma fields_currentTypeIsNot ty : keeps I (currentTypeIsNot ty).
Proof. apply TokenizerFacts.keeps_currentTypeIsNot. Qed.

Lemma fields_startTokenIfNone ty : keeps I (startTokenIfNone ty).
Proof.
  unfold startTokenIfNone.
  apply keeps_bind; [apply keeps_gets|intros c]. apply keeps_when, fields_startToken.
Qed.

Lemma fields_skipWhitespace n cp : keeps I (skipWhitespace n cp).
Proof. apply TokenizerFacts.keeps_skipWhitespace. exact fields_frame. Qed.

End FieldInvariant.

Lemma at_fields s f rs (x y : t) :
  state x = state y -> returnState x = returnState y ->
  tagOpenEnabled x = tagOpenEnabled y -> at_ s f rs x -> at_ s f rs y.
Proof.
  intros H1 H2 H3 (A & B & C). unfold at_. rewrite <- H1, <- H2, <- H3. auto.
Qed.

(** The operations that take the tokenizer nowhere. *)
Ltac stay :=
  match goal with
  | |- keeps _ (startToken _) => apply fields_startToken
  | |- keeps _ endToken => apply fields_endToken
  | |- keeps _ (appendTokenValue _ _) => apply fields_appendTokenValue
  | |- keeps _ (reportParseError _) => apply fields_reportParseError
  | |- keeps _ consumeNextCodePoint => apply fields_consumeNextCodePoint
  | |- keeps _ setStartTokenMark => apply fields_setStartTokenMark
  | |- keeps _ clearStartTokenMark => apply fields_clearStartTokenMark
  | |- keeps _ (appendCodePointAt _) => apply fields_appendCodePointAt
  | |- keeps _ (currentTypeIsNot _) => apply fields_currentTypeIsNot
  | |- keeps _ (startTokenIfNone _) => apply fields_startTokenIfNone
  | |- keeps _ (skipWhitespace _ _) => apply fields_skipWhitespace
  end;
  try apply at_fields.

Ltac at_ret :=
  let y := fresh "y" in
  intros y (? & ? & ?); unfold closed; simpl;
  repeat match goal with
         | H : tagOpenEnabled y = _ |- _ => rewrite H; clear H
         | H : returnState y = _ |- _ => rewrite H; clear H
         end;
  reflexivity.

Ltac succ :=
  repeat first
    [ match goal with
      | |- safe _ (throw _) _ => apply safe_throw
      | |- safe _ (ret _) _ => apply safe_ret; at_ret
      | |- safe _ (reconsumeAs _) _ => unfold reconsumeAs
      | |- safe _ (bind (reconsumeAs _) _) _ => unfold reconsumeAs
      | |- safe (at_ ?s ?f _) (bind (gets state) _) _ =>
          apply (safe_gets_known _ _ s); [intros ? (? & _); assumption|]
      | |- safe (at_ ?s ?f _) (bind (gets tagOpenEnabled) _) _ =>
          apply (safe_gets_known _ _ f); [intros ? (_ & ? & _); assumption|]
      | |- safe (at_ ?s ?f (Some ?r)) (bind (gets returnState) _) _ =>
          apply (safe_gets_known _ _ r); [intros ? (_ & _ & ?); assumption|]
      | |- safe _ (gets returnState) _ => apply safe_gets; at_ret
      | |- safe _ (bind (gets _) _) _ => apply safe_gets_bind; intros ?
      | |- safe (at_ ?s ?f ?r) (bind (modify (set_tagOpenEnabled ?v)) _) _ =>
          apply (safe_modify_bind _ (at_ s v r));
          [intros ? (? & ? & ?); repeat split; assumption|]
      | |- safe (at_ ?s ?f _) (bind (modify (set_returnState ?v)) _) _ =>
          apply (safe_modify_bind _ (at_ s f (Some v)));
          [intros ? (? & ? & _); repeat split; assumption|]
      | |- safe _ (bind (when _ _) _) _ =>
          apply safe_keeps_bind; [apply keeps_when; stay|intros ?]
      | |- safe _ (bind (modify (set_reconsuming _)) _) _ =>
          apply safe_keeps_bind;
          [apply keeps_modify; intros ? ?; assumption|intros ?]
      | |- safe _ (bind (modify (fun x => set_column _ _)) _) _ =>
          apply safe_keeps_bind;
          [apply keeps_modify; intros ? ?; assumption|intros ?]
      | |- safe _ (bind _ _) _ => apply safe_keeps_bind; [stay|intros ?]
      | |- safe _ (if ?c then _ else _) _ =>
          rewrite ?andb_false_r, ?andb_true_r; cbv beta iota;
          match goal with
          | |- safe _ (if ?c then _ else _) _ => destruct c
          | _ => idtac
          end
      end ].

Lemma succ_DATA_loop f : forall n cp,
  safe (at_ DATA f None) (DATA_loop n cp) (fun s' y' => closed (set_state s' y') = true).
Proof.
  destruct f; induction n as [|n IH]; intros cp; simpl; try apply safe_throw;
    unfold retype; succ; apply IH.
Qed.

Lemma succ_TAG_OPEN_state cp :
  safe (at_ TAG_OPEN true None) (TAG_OPEN_state cp) (fun s' y' => closed (set_state s' y') = true).
Proof. unfold TAG_OPEN_state; succ. Qed.

Lemma succ_END_TAG_OPEN_state cp :
  safe (at_ END_TAG_OPEN true None) (END_TAG_OPEN_state cp) (fun s' y' => closed (set_state s' y') = true).
Proof. unfold END_TAG_OPEN_state; succ. Qed.

Lemma succ_TAG_NAME_loop : forall n cp,
  safe (at_ TAG_NAME true None) (TAG_NAME_loop n cp) (fun s' y' => closed (set_state s' y') = true).
Proof.
  induction n as [|n IH]; intros cp; simpl; try apply safe_throw;
    unfold retype; succ; apply IH.
Qed.

Lemma succ_BEFORE_ATTRIBUTE_NAME_state f n cp :
  safe (at_ BEFORE_ATTRIBUTE_NAME f None) (BEFORE_ATTRIBUTE_NAME_state n cp) (fun s' y' => closed (set_state s' y') = true).
Proof. destruct f; unfold BEFORE_ATTRIBUTE_NAME_state; succ. Qed.

Lemma succ_ATTRIBUTE_NAME_loop f : forall n cp,
  safe (at_ ATTRIBUTE_NAME f None) (ATTRIBUTE_NAME_loop n cp) (fun s' y' => closed (set_state s' y') = true).
Proof.
  destruct f; induction n as [|n IH]; intros cp; simpl; try apply safe_throw;
    unfold retype; succ; apply IH.
Qed.

Lemma succ_AFTER_ATTRIBUTE_NAME_state f n cp :
  safe (at_ AFTER_ATTRIBUTE_NAME f None) (AFTER_ATTRIBUTE_NAME_state n cp) (fun s' y' => closed (set_state s' y') = true).
Proof. destruct f; unfold AFTER_ATTRIBUTE_NAME_state; succ. Qed.

Lemma succ_BEFORE_ATTRIBUTE_VALUE_state f n cp :
  safe (at_ BEFORE_ATTRIBUTE_VALUE f None) (BEFORE_ATTRIBUTE_VALUE_state n cp) (fun s' y' => closed (set_state s' y') = true).
Proof. destruct f; unfold BEFORE_ATTRIBUTE_VALUE_state; succ. Qed.

Lemma succ_double_quoted f b : forall n cp,
  safe (at_ ATTRIBUTE_VALUE_DOUBLE_QUOTED f None)
       (ATTRIBUTE_VALUE_QUOTED_loop Unicode.QUOTATION_MARK ATTRIBUTE_VALUE_DOUBLE_QUOTED b n cp)
       (fun s' y' => closed (set_state s' y') = true).
Proof.
  destruct f; induction n as [|n IH]; intros cp; simpl; try apply safe_throw;
    unfold retype; succ; apply IH.
Qed.

Lemma succ_single_quoted f b : forall n cp,
  safe (at_ ATTRIBUTE_VALUE_SINGLE_QUOTED f None)
       (ATTRIBUTE_VALUE_QUOTED_loop Unicode.APOSTROPHE ATTRIBUTE_VALUE_SINGLE_QUOTED b n cp)
       (fun s' y' => closed (set_state s' y') = true).
Proof.
  destruct f; induction n as [|n IH]; intros cp; simpl; try apply safe_throw;
    unfold retype; succ; apply IH.
Qed.

Lemma succ_ATTRIBUTE_VALUE_UNQUOTED_loop f : forall n cp,
  safe (at_ ATTRIBUTE_VALUE_UNQUOTED f None) (ATTRIBUTE_VALUE_UNQUOTED_loop n cp) (fun s' y' => closed (set_state s' y') = true).
Proof.
  destruct f; induction n as [|n IH]; intros cp; simpl; try apply safe_throw;
    unfold retype; succ; apply IH.
Qed.

Lemma succ_AFTER_ATTRIBUTE_VALUE_QUOTED_state f cp :
  safe (at_ AFTER_ATTRIBUTE_VALUE_QUOTED f None) (AFTER_ATTRIBUTE_VALUE_QUOTED_state cp) (fun s' y' => closed (set_state s' y') = true).
Proof. destruct f; unfold AFTER_ATTRIBUTE_VALUE_QUOTED_state; succ. Qed.

Lemma succ_SELF_CLOSING_START_TAG_state f cp :
  safe (at_ SELF_CLOSING_START_TAG f None) (SELF_CLOSING_START_TAG_state cp) (fun s' y' => closed (set_state s' y') = true).
Proof. destruct f; unfold SELF_CLOSING_START_TAG_state; succ. Qed.

Lemma succ_BOGUS_COMMENT_loop : forall n cp,
  safe (at_ BOGUS_COMMENT true None) (BOGUS_COMMENT_loop n cp) (fun s' y' => closed (set_state s' y') = true).
Proof.
  induction n as [|n IH]; intros cp; simpl; try apply safe_throw;
    unfold retype; succ; apply IH.
Qed.

Lemma succ_MARKUP_DECLARATION_OPEN_state cp :
  safe (at_ MARKUP_DECLARATION_OPEN true None) (MARKUP_DECLARATION_OPEN_state cp) (fun s' y' => closed (set_state s' y') = true).
Proof. unfold MARKUP_DECLARATION_OPEN_state; succ. Qed.

Lemma succ_COMMENT_START_state cp :
  safe (at_ COMMENT_START true None) (COMMENT_START_state cp) (fun s' y' => closed (set_state s' y') = true).
Proof. unfold COMMENT_START_state; succ. Qed.

Lemma succ_COMMENT_START_DASH_state cp :
  safe (at_ COMMENT_START_DASH true None) (COMMENT_START_DASH_state cp) (fun s' y' => closed (set_state s' y') = true).
Proof. unfold COMMENT_START_DASH_state; succ. Qed.

Lemma succ_COMMENT_loop : forall n cp,
  safe (at_ COMMENT true None) (COMMENT_loop n cp) (fun s' y' => closed (set_state s' y') = true).
Proof.
  induction n as [|n IH]; intros cp; simpl; try apply safe_throw;
    unfold retype; succ; apply IH.
Qed.

Lemma succ_COMMENT_LESS_THAN_SIGN_loop : forall n cp,
  safe (at_ COMMENT_LESS_THAN_SIGN true None) (COMMENT_LESS_THAN_SIGN_loop n cp) (fun s' y' => closed (set_state s' y') = true).
Proof.
  induction n as [|n IH]; intros cp; simpl; try apply safe_throw;
    unfold retype; succ; apply IH.
Qed.

Lemma succ_COMMENT_LESS_THAN_SIGN_BANG_state cp :
  safe (at_ COMMENT_LESS_THAN_SIGN_BANG true None) (COMMENT_LESS_THAN_SIGN_BANG_state cp) (fun s' y' => closed (set_state s' y') = true).
Proof. unfold COMMENT_LESS_THAN_SIGN_BANG_state; succ. Qed.

Lemma succ_COMMENT_LESS_THAN_SIGN_BANG_DASH_state cp :
  safe (at_ COMMENT_LESS_THAN_SIGN_BANG_DASH true None) (COMMENT_LESS_THAN_SIGN_BANG_DASH_state cp) (fun s' y' => closed (set_state s' y') = true).
Proof. unfold COMMENT_LESS_THAN_SIGN_BANG_DASH_state; succ. Qed.

Lemma succ_COMMENT_LESS_THAN_SIGN_BANG_DASH_DASH_state cp :
  safe (at_ COMMENT_LESS_THAN_SIGN_BANG_DASH_DASH true None) (COMMENT_LESS_THAN_SIGN_BANG_DASH_DASH_state cp) (fun s' y' => closed (set_state s' y') = true).
Proof. unfold COMMENT_LESS_THAN_SIGN_BANG_DASH_DASH_state; succ. Qed.

Lemma succ_COMMENT_END_DASH_state cp :
  safe (at_ COMMENT_END_DASH true None) (COMMENT_END_DASH_state cp) (fun s' y' => closed (set_state s' y') = true).
Proof. unfold COMMENT_END_DASH_state; succ. Qed.

Lemma succ_COMMENT_END_loop : forall n cp,
  safe (at_ COMMENT_END true None) (COMMENT_END_loop n cp) (fun s' y' => closed (set_state s' y') = true).
Proof.
  induction n as [|n IH]; intros cp; simpl; try apply safe_throw;
    unfold retype; succ; apply IH.
Qed.

Lemma succ_COMMENT_END_BANG_state cp :
  safe (at_ COMMENT_END_BANG true None) (COMMENT_END_BANG_state cp) (fun s' y' => closed (set_state s' y') = true).
Proof. unfold COMMENT_END_BANG_state; succ. Qed.

Lemma succ_X_EXPRESSION_START_state f rs cp :
  textual rs = true ->
  safe (at_ X_EXPRESSION_START f (Some rs)) (X_EXPRESSION_START_state cp) (fun s' y' => closed (set_state s' y') = true).
Proof.
  intros Ht. destruct rs; try discriminate Ht; destruct f;
    unfold X_EXPRESSION_START_state; succ.
Qed.

Lemma succ_X_EXPRESSION_END_state f rs cp :
  textual rs = true ->
  safe (at_ X_EXPRESSION_END f (Some rs)) (X_EXPRESSION_END_state cp) (fun s' y' => closed (set_state s' y') = true).
Proof.
  intros Ht. destruct rs; try discriminate Ht; destruct f;
    unfold X_EXPRESSION_END_state; succ.
Qed.

(** The function of every state outside RCDATA and RAWTEXT leads to a
    state outside RCDATA and RAWTEXT, and from a quiet state with the flag
    off to a quiet state, or to the flag on. *)
Lemma succ_runState s f rs cp :
  plain s rs = true -> (f = false -> quiet s rs = true) ->
  safe (at_ s f (Some rs)) (runState s cp)
       (fun s' y' => closed (set_state s' y') = true).
Proof.
  intros Hp Hq. unfold runState. apply safe_gets_bind. intros n.
  assert (W : forall (m : M t TokenizerState),
             safe (at_ s f None) m (fun s' y' => closed (set_state s' y') = true) ->
             safe (at_ s f (Some rs)) m (fun s' y' => closed (set_state s' y') = true)).
  { intros m. apply safe_weaken. intros y (A & B & _). repeat split; assumption. }
  destruct s; try discriminate Hp;
    try (destruct f; [|specialize (Hq eq_refl); discriminate Hq]);
    first
      [ apply succ_X_EXPRESSION_START_state; exact Hp
      | apply succ_X_EXPRESSION_END_state; exact Hp
      | apply W;
        try match goal with
            | |- safe _ (bind _ _) _ => apply safe_keeps_bind; [stay|intros _]
            end;
        first
          [ apply succ_DATA_loop | apply succ_TAG_OPEN_state
          | apply succ_END_TAG_OPEN_state | apply succ_TAG_NAME_loop
          | apply succ_BEFORE_ATTRIBUTE_NAME_state | apply succ_ATTRIBUTE_NAME_loop
          | apply succ_AFTER_ATTRIBUTE_NAME_state
          | apply succ_BEFORE_ATTRIBUTE_VALUE_state
          | apply succ_double_quoted | apply succ_single_quoted
          | apply succ_ATTRIBUTE_VALUE_UNQUOTED_loop
          | apply succ_AFTER_ATTRIBUTE_VALUE_QUOTED_state
          | apply succ_SELF_CLOSING_START_TAG_state | apply succ_BOGUS_COMMENT_loop
          | apply succ_MARKUP_DECLARATION_OPEN_state | apply succ_COMMENT_START_state
          | apply succ_COMMENT_START_DASH_state | apply succ_COMMENT_loop
          | apply succ_COMMENT_LESS_THAN_SIGN_loop
          | apply succ_COMMENT_LESS_THAN_SIGN_BANG_state
          | apply succ_COMMENT_LESS_THAN_SIGN_BANG_DASH_state
          | apply succ_COMMENT_LESS_THAN_SIGN_BANG_DASH_DASH_state
          | apply succ_COMMENT_END_DASH_state | apply succ_COMMENT_END_loop
          | apply succ_COMMENT_END_BANG_state ] ].
Qed.

Lemma closed_fields (x y : t) :
  state x = state y -> returnState x = returnState y ->
  tagOpenEnabled x = tagOpenEnabled y -> isClosed x -> isClosed y.
Proof. unfold isClosed, closed. intros H1 H2 H3. now rewrite H1, H2, H3. Qed.

(** One turn of the loop of [nextToken], and what follows it. *)
Lemma turn_closed {B} cp (k : M t B) (Q : B -> t -> Prop) :
  hoare isClosed k Q (fun _ => True) ->
  hoare isClosed
        (s <- gets state ;; s' <- runState s cp ;; modify (set_state s') ;; k)%monad
        Q (fun _ => True).
Proof.
  intros Hk x Hx. unfold bind at 1. unfold gets at 1.
  pose proof Hx as Hc. unfold isClosed, closed in Hc.
  apply andb_true_iff in Hc as [Hp Hq].
  assert (Hq' : tagOpenEnabled x = false -> quiet (state x) (returnState x) = true).
  { intros E. rewrite E in Hq. exact Hq. }
  pose proof (succ_runState (state x) (tagOpenEnabled x) (returnState x) cp Hp Hq' x
                (conj eq_refl (conj eq_refl eq_refl))) as H.
  unfold bind at 1. destruct (runState (state x) cp x) as [s' x'|e x']; [|exact I].
  unfold bind, modify. exact (Hk (set_state s' x') H).
Qed.

Lemma closed_nextToken_loop : forall n cp,
  hoare isClosed (nextToken_loop n cp) (fun _ => isClosed) (fun _ => True).
Proof.
  assert (K : forall A (m : M t A) B (k : A -> M t B),
             keeps isClosed m ->
             (forall a, hoare isClosed (k a) (fun _ => isClosed) (fun _ => True)) ->
             hoare isClosed (bind m k) (fun _ => isClosed) (fun _ => True)).
  { intros A m B k Hm Hk. apply safe_keeps_bind; assumption. }
  induction n as [|n IH]; intros cp; simpl; [apply hoare_throw; auto|].
  apply K; [apply keeps_gets|intros c].
  apply K; [apply keeps_gets|intros r].
  destruct (negb (isSome c) && (negb (cp =? Unicode.EOF) || r)); [|apply hoare_ret; auto].
  apply K; [apply keeps_gets|intros p].
  apply K; [unfold isProvisionalState; apply keeps_gets|intros prov].
  apply K.
  { destruct (isSome p && negb prov); [|apply keeps_ret].
    apply keeps_bind; [apply fields_commitProvisionalToken, closed_fields|intros _].
    apply keeps_bind; [apply keeps_gets|intros c']. apply keeps_ret. }
  intros stop. destruct stop; [apply hoare_ret; auto|].
  apply K; [apply keeps_gets|intros r0].
  apply K.
  { destruct r0.
    - apply keeps_bind; [|intros _; apply keeps_gets].
      apply keeps_modify. intros x Hx. exact Hx.
    - apply fields_consumeNextCodePoint, closed_fields. }
  intros cp'. apply turn_closed. apply IH.
Qed.

Lemma closed_nextToken :
  hoare isClosed nextToken (fun _ => isClosed) (fun _ => True).
Proof.
  unfold nextToken, nextToken_fuel.
  apply safe_gets_bind. intros n. apply safe_gets_bind. intros cp0.
  eapply hoare_bind; [apply closed_nextToken_loop|intros cp].
  assert (W : forall A (m : M t A),
             keeps isClosed m -> hoare isClosed m (fun _ => isClosed) (fun _ => True)).
  { intros A m Hm x Hx. specialize (Hm x Hx). destruct (m x); [exact Hm|exact I]. }
  apply W.
  repeat first
    [ match goal with
      | |- keeps _ consumeCommittedToken =>
          apply fields_consumeCommittedToken, closed_fields
      | |- keeps _ endToken => apply fields_endToken, closed_fields
      end
    | keeps_step ].
Qed.

End Quiet.

Module Mustache.
Import Tokenizer.

Lemma startToken_new ty r0 f0 :
  hoare (fun y => returnState y = r0 /\ tagOpenEnabled y = f0)
        (startToken ty)
        (fun _ y => (returnState y = r0 /\ tagOpenEnabled y = f0) /\ currentIs ty [] y)
        (fun _ => True).
Proof.
  set (P := fun y => returnState y = r0 /\ tagOpenEnabled y = f0).
  assert (Pf : forall x y, state x = state y -> returnState x = returnState y ->
                           tagOpenEnabled x = tagOpenEnabled y -> P x -> P y).
  { unfold P. intros x y _ H2 H3. now rewrite H2, H3. }
  unfold startToken.
  apply safe_gets_bind. intros m.
  apply safe_keeps_bind;
    [apply keeps_when; now apply Quiet.fields_setStartTokenMark|intros _].
  apply safe_gets_bind. intros off.
  apply safe_gets_bind. intros ln'.
  apply safe_gets_bind. intros col'.
  apply safe_gets_bind. intros c.
  apply safe_keeps_bind.
  { apply keeps_when. apply keeps_bind; [now apply Quiet.fields_endToken|].
    intros _. apply keeps_ret. }
  intros _ y Hy. unfold bind, modify, gets. simpl.
  split; [exact Hy|]. eexists. repeat split.
Qed.

Lemma appendTokenValue_unit (cp : Z) (y : t) (k : Token) :
  currentToken y = Some k -> 0 <= cp < 65536 ->
  appendTokenValue cp None y
  = Ok tt (set_currentToken (Some (withValue k (tok_value k ++ [cp]))) y).
Proof.
  intros Hk Hc. unfold appendTokenValue, bind, gets, modify. rewrite Hk.
  unfold Unicode.fromCodePoint.
  replace ((cp <? 0) || (1114111 <? cp)) with false
    by (symmetry; apply orb_false_iff; split; apply Z.ltb_ge; lia).
  replace (cp <? 65536) with true by (symmetry; apply Z.ltb_lt; lia).
  reflexivity.
Qed.

Lemma appendTokenValue_keeps_type cp e ty r0 :
  hoare (fun y => returnState y = r0 /\ exists k, currentToken y = Some k /\ tok_type k = ty)
        (appendTokenValue cp e)
        (fun _ y => returnState y = r0 /\ exists k, currentToken y = Some k /\ tok_type k = ty)
        (fun _ => True).
Proof.
  intros y [Hr (k & Hk & Ht)]. unfold appendTokenValue, bind, gets, modify, throw.
  rewrite Hk.
  destruct (match e with Some e0 => _ | None => false end); [exact I|].
  destruct (Unicode.fromCodePoint cp); [|exact I].
  split; [exact Hr|]. eexists. split; [reflexivity|exact Ht].
Qed.

(** The state that follows a brace, at a second brace. *)
Lemma start_with_braces (x : t) :
  match X_EXPRESSION_START_state Unicode.LEFT_CURLY_BRACKET x with
  | Ok s' x' =>
      tagOpenEnabled x' = false /\ s' = returnState x
      /\ currentIs XMustacheStart (JS.lit "{{") x'
  | Throw _ _ => True
  end.
Proof.
  unfold X_EXPRESSION_START_state. unfold bind at 1. unfold gets at 1.
  rewrite Z.eqb_refl. unfold bind at 1.
  pose proof (startToken_new XMustacheStart (returnState x) (tagOpenEnabled x) x
                (conj eq_refl eq_refl)) as K.
  destruct (startToken XMustacheStart x) as [u x1|e x1]; [|exact I].
  destruct K as ((R & F) & k & Ck & Tk & Vk).
  unfold bind at 1.
  rewrite (appendTokenValue_unit _ x1 k Ck) by (unfold Unicode.LEFT_CURLY_BRACKET; lia).
  unfold bind at 1.
  erewrite appendTokenValue_unit
    by first [reflexivity | unfold Unicode.LEFT_CURLY_BRACKET; lia].
  unfold bind, modify, gets. simpl.
  split; [reflexivity|]. split; [exact R|].
  eexists. split; [reflexivity|]. split; [exact Tk|]. simpl. rewrite Vk. reflexivity.
Qed.

(** The state that follows a brace, at an equals sign in a quoted
    attribute value. *)
Lemma start_with_equals (x : t) :
  returnState x = ATTRIBUTE_VALUE_DOUBLE_QUOTED
  \/ returnState x = ATTRIBUTE_VALUE_SINGLE_QUOTED ->
  match X_EXPRESSION_START_state Unicode.EQUALS_SIGN x with
  | Ok s' x' =>
      tagOpenEnabled x' = tagOpenEnabled x /\ s' = returnState x
      /\ currentIs XMustacheStart (JS.lit "{=") x'
  | Throw _ _ => True
  end.
Proof.
  intros Hrs.
  unfold X_EXPRESSION_START_state. unfold bind at 1. unfold gets at 1.
  replace (Unicode.EQUALS_SIGN =? Unicode.LEFT_CURLY_BRACKET) with false by reflexivity.
  rewrite Z.eqb_refl.
  replace (match returnState x with
           | ATTRIBUTE_VALUE_DOUBLE_QUOTED | ATTRIBUTE_VALUE_SINGLE_QUOTED => true
           | _ => false
           end) with true by (destruct Hrs as [E|E]; rewrite E; reflexivity).
  cbn [andb]. unfold bind at 1.
  pose proof (startToken_new XMustacheStart (returnState x) (tagOpenEnabled x) x
                (conj eq_refl eq_refl)) as K.
  destruct (startToken XMustacheStart x) as [u x1|e x1]; [|exact I].
  destruct K as ((R & F) & k & Ck & Tk & Vk).
  unfold bind at 1.
  rewrite (appendTokenValue_unit _ x1 k Ck) by (unfold Unicode.LEFT_CURLY_BRACKET; lia).
  unfold bind at 1.
  erewrite appendTokenValue_unit
    by first [reflexivity | unfold Unicode.EQUALS_SIGN; lia].
  unfold gets. simpl.
  split; [exact F|]. split; [exact R|].
  eexists. split; [reflexivity|]. split; [exact Tk|]. simpl. rewrite Vk. reflexivity.
Qed.

(** The state that follows a closing brace, at a second closing brace
    that is the last one. *)
Lemma end_with_braces (x : t) :
  Tokenizer.optTest (Z.eqb Unicode.RIGHT_CURLY_BRACKET)
    (Unicode.codePointAt (text x) (offset x + 1)) = false ->
  match X_EXPRESSION_END_state Unicode.RIGHT_CURLY_BRACKET x with
  | Ok s' x' =>
      tagOpenEnabled x' = true /\ s' = returnState x
      /\ exists k, currentToken x' = Some k /\ tok_type k = XMustacheEnd
  | Throw _ _ => True
  end.
Proof.
  intros Hn.
  unfold X_EXPRESSION_END_state. unfold bind at 1. unfold gets at 1.
  unfold bind at 1. unfold gets at 1.
  rewrite Z.eqb_refl, Hn. cbn [andb negb]. unfold bind at 1.
  pose proof (startToken_new XMustacheEnd (returnState x) (tagOpenEnabled x) x
                (conj eq_refl eq_refl)) as K.
  destruct (startToken XMustacheEnd x) as [u x1|e x1]; [|exact I].
  destruct K as ((R & F) & k & Ck & Tk & Vk).
  assert (P1 : returnState x1 = returnState x
               /\ exists k, currentToken x1 = Some k /\ tok_type k = XMustacheEnd)
    by (split; [exact R|eauto]).
  unfold bind at 1.
  assert (A : hoare (fun y => returnState y = returnState x
                       /\ exists k, currentToken y = Some k /\ tok_type k = XMustacheEnd)
                (appendCodePointAt (offset x - 1))
                (fun _ y => returnState y = returnState x
                       /\ exists k, currentToken y = Some k /\ tok_type k = XMustacheEnd)
                (fun _ => True)).
  { unfold appendCodePointAt.
    apply safe_gets_bind. intros txt. apply safe_gets_bind. intros c.
    destruct c, (Unicode.codePointAt txt (offset x - 1));
      first [apply appendTokenValue_keeps_type | apply safe_throw]. }
  specialize (A x1 P1).
  destruct (appendCodePointAt (offset x - 1) x1) as [u2 x2|e x2]; [|exact I].
  unfold bind at 1.
  pose proof (appendTokenValue_keeps_type Unicode.RIGHT_CURLY_BRACKET None
                XMustacheEnd (returnState x) x2 A) as B.
  destruct (appendTokenValue Unicode.RIGHT_CURLY_BRACKET None x2) as [u3 x3|e x3];
    [|exact I].
  unfold bind, modify, gets. simpl.
  destruct B as [R3 B]. split; [reflexivity|]. split; [exact R3|exact B].
Qed.

End Mustache.

Lemma serve_closed (cs : list Client) :
  forallb unsteered cs = true ->
  forall x tokens y,
    closed x = true -> serve cs x = Some (tokens, y) -> closed y = true.
Proof.
  induction cs as [|c cs IH]; intros Hu x tokens y Hx Hs; simpl in Hs.
  - inversion Hs; subst. exact Hx.
  - simpl in Hu. apply andb_true_iff in Hu as [Hc Hu]. specialize (IH Hu).
    destruct c; try discriminate Hc.
    + pose proof (Quiet.closed_nextToken x Hx) as Hn.
      destruct (Tokenizer.nextToken x) as [token x'|e x']; [|discriminate].
      destruct (serve cs x') as [[tokens' y']|] eqn:Es; [|discriminate].
      inversion Hs; subst. exact (IH _ _ _ Hn Es).
    + exact (IH (Tokenizer.set_expressionEnabled b x) _ _ Hx Hs).
    + exact (IH (Tokenizer.set_errors (Tokenizer.errors x ++ [e]) x) _ _ Hx Hs).
Qed.




(* ================================================================== *)
(** * The variables of an element *)
(* ================================================================== *)

Lemma bare_eq (e : XElement) :
  bare e = match el_variables e with [] => true | _ :: _ => false end
           && forallb bareChild (el_children e).
Proof. destruct e; reflexivity. Qed.

Lemma bindIn_none r vars :
  existsb (fun v => Lang.sameName (var_id v) (ref_id r)) vars = false ->
  Lang.bindIn r vars = None.
Proof.
  induction vars as [|v vars IH]; simpl; [reflexivity|].
  intros H. apply orb_false_iff in H as [H1 H2]. rewrite H1, (IH H2). reflexivity.
Qed.

Lemma bindIn_some r vars :
  existsb (fun v => Lang.sameName (var_id v) (ref_id r)) vars = true ->
  exists r' vars',
    Lang.bindIn r vars = Some (r', vars')
    /\ isSome (ref_variable r') = true
    /\ list_sum (map (fun v => length (var_references v)) vars')
       = S (list_sum (map (fun v => length (var_references v)) vars)).
Proof.
  induction vars as [|v vars IH]; simpl; [discriminate|].
  destruct (Lang.sameName (var_id v) (ref_id r)); simpl.
  - intros _. eexists _, _. split; [reflexivity|]. split; [reflexivity|].
    simpl. rewrite length_app. simpl. lia.
  - intros H. destruct (IH H) as (r' & vars' & E & A & B).
    rewrite E. eexists _, _. split; [reflexivity|]. split; [exact A|].
    simpl. rewrite B. lia.
Qed.

Lemma resolveReference_none r chain :
  existsb (declares r) chain = false -> Lang.resolveReference r chain = (r, chain).
Proof.
  induction chain as [|e chain IH]; simpl; [reflexivity|].
  intros H. apply orb_false_iff in H as [H1 H2].
  unfold declares in H1. rewrite (bindIn_none _ _ H1), (IH H2). reflexivity.
Qed.

Lemma resolveReference_some r chain :
  existsb (declares r) chain = true ->
  isSome (ref_variable (fst (Lang.resolveReference r chain))) = true
  /\ heldBy (snd (Lang.resolveReference r chain)) = S (heldBy chain).
Proof.
  induction chain as [|e chain IH]; simpl; [discriminate|].
  destruct (declares r e) eqn:E; simpl.
  - intros _. unfold declares in E.
    destruct (bindIn_some _ _ E) as (r' & vars' & Eb & A & B).
    rewrite Eb. simpl. split; [exact A|].
    unfold heldBy. simpl. destruct e; simpl in *. rewrite B. lia.
  - intros H. unfold declares in E. rewrite (bindIn_none _ _ E).
    destruct (IH H) as [A B].
    destruct (Lang.resolveReference r chain) as [r' up']. simpl in *.
    split; [exact A|]. unfold heldBy in *. simpl. rewrite B. lia.
Qed.

Lemma bare_declares r e : bare e = true -> declares r e = false.
Proof.
  rewrite bare_eq. unfold declares. destruct (el_variables e); [reflexivity|discriminate].
Qed.

Lemma bare_chain_declares r chain :
  forallb bare chain = true -> existsb (declares r) chain = false.
Proof.
  induction chain as [|e chain IH]; simpl; [reflexivity|].
  intros H. apply andb_true_iff in H as [H1 H2].
  now rewrite (bare_declares r e H1), (IH H2).
Qed.

(** With no variable around, the references stay as they are. *)
Lemma resolveAll_bare rs chain :
  forallb bare chain = true -> Lang.resolveAll rs chain = (rs, chain).
Proof.
  intros H. induction rs as [|r rs IH]; simpl; [reflexivity|].
  rewrite (resolveReference_none r chain (bare_chain_declares r chain H)), IH.
  reflexivity.
Qed.

Section BareEnv.
Variable backend : ScriptBackend.

Ltac bare_env :=
  unfold bareEnv; simpl; auto;
  intros e rs H; rewrite (resolveAll_bare rs _ H); exact H.

Lemma bare_processExpression opts calc node code :
  keeps bareEnv (Lang.processExpression backend opts calc node code).
Proof. apply keeps_processExpression; bare_env. Qed.

Lemma bare_processForExpression opts calc node code :
  keeps bareEnv (Lang.processForExpression backend opts calc node code).
Proof. apply keeps_processForExpression; bare_env. Qed.

Lemma bare_processMustache opts calc parent node mustache :
  keeps bareEnv (Lang.processMustache backend opts calc parent node mustache).
Proof. apply keeps_processMustache; bare_env. Qed.

Lemma bare_processScriptModule opts calc node :
  keeps bareEnv (Lang.processScriptModule backend opts calc node).
Proof. apply keeps_processScriptModule; bare_env. Qed.

Lemma bareChild_splice (l items : list XChild) (i n : Z) :
  forallb bareChild l = true -> forallb bareChild items = true ->
  forallb bareChild (Lodash.splice l i n items) = true.
Proof.
  intros Hl Hi. unfold Lodash.splice.
  rewrite <- (firstn_skipn (Z.to_nat (Z.min i (Z.of_nat (length l)))) l) in Hl.
  rewrite forallb_app in Hl. apply andb_true_iff in Hl as [H1 H2].
  rewrite !forallb_app, H1, Hi. simpl.
  rewrite <- (firstn_skipn (Z.to_nat n) (skipn _ l)) in H2.
  rewrite forallb_app in H2. apply andb_true_iff in H2 as [_ H2].
  rewrite skipn_skipn in H2. rewrite Nat.add_comm. exact H2.
Qed.

(** The element that [processScriptModule] returns is as bare as the one
    it got. *)
Lemma processScriptModule_value opts calc node env :
  bare node = true ->
  match Lang.processScriptModule backend opts calc node env with
  | Ok node' _ => bare node' = true
  | Throw _ _ => True
  end.
Proof.
  intros Hn. unfold Lang.processScriptModule, tryCatch.
  match goal with
  | |- match match ?m env with _ => _ end with _ => _ end =>
      assert (H : match m env with Ok node' _ => bare node' = true | Throw _ _ => True end);
      [|destruct (m env) as [a s|e s]; [exact H|]]
  end.
  - unfold bind at 1.
    destruct (Script.parseScriptElement backend node calc _ env) as [ast s|e s];
      [|exact I].
    unfold bind at 1.
    match goal with
    | |- match match ?m s with _ => _ end with _ => _ end =>
        destruct (m s) as [u s1|e s1]; [|exact I]
    end.
    unfold bind at 1.
    destruct (Lang.insertComments _ s1) as [u2 s2|e s2]; [|exact I].
    simpl. rewrite bare_eq in *. destruct node; simpl in *.
    apply andb_true_iff in Hn as [H1 H2]. rewrite H1. simpl.
    apply bareChild_splice; [exact H2|reflexivity].
  - destruct (Script.isParseError e); [|exact I].
    unfold bind. destruct (Lang.insertError p s); [exact Hn|exact I].
Qed.

End BareEnv.

Lemma hoare_pure {S A} (P : S -> Prop) (phi : Prop) (m : M S A) Q E :
  (phi -> hoare P m Q E) -> hoare (fun s => P s /\ phi) m Q E.
Proof. intros H s [Hs Hp]. exact (H Hp s Hs). Qed.

Lemma keeps_hoare {S A} (I : S -> Prop) (m : M S A) :
  keeps I m -> hoare I m (fun _ => I) I.
Proof. exact (fun H => H). Qed.

Lemma keeps_bind_hoare {S A B} (I : S -> Prop) (m : M S A) (k : A -> M S B) Q :
  keeps I m -> (forall a, hoare I (k a) Q I) -> hoare I (bind m k) Q I.
Proof. intros Hm Hk. eapply hoare_bind; [exact Hm|exact Hk]. Qed.

(** The parser makes the elements without variables, and gives them none. *)
Section NoVariables.
Variable backend : ScriptBackend.
Variable toLowerCase : JS.str -> JS.str.

Lemma noVariables_tokenizer (x : Parser.t) v :
  noVariables x -> noVariables (Parser.set_tokenizer v x).
Proof. exact (fun H => H). Qed.

Lemma noVariables_storeEnv (x : Parser.t) e :
  noVariables x -> noVariables (Parser.storeEnv e x).
Proof. exact (fun H => H). Qed.

Lemma noVariables_stack (x : Parser.t) st :
  forallb bare st = true -> noVariables x -> noVariables (Parser.set_elementStack st x).
Proof. intros H [_ H2]. split; [exact H|exact H2]. Qed.

Lemma keeps_onRawTokenizer f : keeps noVariables (Parser.onRawTokenizer f).
Proof. apply keeps_modify. intros x Hx. exact Hx. Qed.

Lemma keeps_noVariables_report range loc c :
  keeps noVariables (Parser.reportParseError range loc c).
Proof. apply keeps_onRawTokenizer. Qed.

Lemma keeps_pushChild c : bareChild c = true -> keeps noVariables (Parser.pushChild c).
Proof.
  intros Hc. apply keeps_modify. intros x [H1 H2].
  destruct (Parser.elementStack x) as [|top rest] eqn:E.
  - split; [simpl; rewrite E; reflexivity|].
    simpl. rewrite forallb_app, H2. simpl. now rewrite Hc.
  - split; [|exact H2]. simpl in *.
    apply andb_true_iff in H1 as [Ht Hr]. rewrite Hr, andb_true_r.
    rewrite bare_eq in *. destruct top; simpl in *.
    apply andb_true_iff in Ht as [A B]. rewrite A, forallb_app, B. simpl.
    now rewrite Hc.
Qed.

Lemma bare_propagateEndLocation e : bare (Parser.propagateEndLocation e) = bare e.
Proof.
  unfold Parser.propagateEndLocation.
  destruct (match el_endTag e with Some g => _ | None => _ end) as [[r l]|];
    [|reflexivity].
  destruct e; reflexivity.
Qed.

Lemma keeps_popElementStack : keeps noVariables Parser.popElementStack.
Proof.
  unfold Parser.popElementStack.
  apply hoare_bind with (R := fun st x => noVariables x /\ forallb bare st = true).
  { apply hoare_gets. intros s Hs. split; [exact Hs|exact (proj1 Hs)]. }
  intros st. apply hoare_pure. intros Hst.
  destruct st as [|element rest]; [apply keeps_throw|].
  simpl in Hst. apply andb_true_iff in Hst as [He Hr].
  apply keeps_bind.
  { apply keeps_modify. intros x Hx. now apply noVariables_stack. }
  intros _. apply keeps_bind.
  { apply keeps_pushChild. simpl. now rewrite bare_propagateEndLocation. }
  intros _. apply keeps_bind; [apply keeps_gets|intros opts].
  apply keeps_bind; [apply keeps_when, keeps_noVariables_report|intros _].
  apply keeps_when. apply keeps_onRawTokenizer.
Qed.

Lemma keeps_popElementStackUntil n index :
  keeps noVariables (Parser.popElementStackUntil n index).
Proof.
  induction n as [|n IH]; simpl; [apply keeps_ret|].
  apply keeps_bind; [apply keeps_gets|intros st].
  destruct (index <? length st)%nat; [|apply keeps_ret].
  apply keeps_bind; [apply keeps_popElementStack|intros _; exact IH].
Qed.

Lemma keeps_closeCurrentElementIfNecessary name :
  keeps noVariables (Parser.closeCurrentElementIfNecessary name).
Proof.
  unfold Parser.closeCurrentElementIfNecessary.
  apply keeps_bind; [apply keeps_gets|intros st].
  destruct st; [apply keeps_ret|]. apply keeps_when, keeps_popElementStack.
Qed.

(** A call into the language layer: the parser keeps its elements, and
    the elements around the node come back bare. *)
Lemma inEnv_bare {A} (chain : list XElement) (m : M Env A) :
  forallb bare chain = true ->
  keeps bareEnv m ->
  hoare noVariables (Parser.inEnv chain m)
        (fun r x => noVariables x /\ forallb bare (snd r) = true) noVariables.
Proof.
  intros Hc Hm x Hx. unfold Parser.inEnv.
  specialize (Hm (Parser.envOf x chain) Hc).
  destruct (m (Parser.envOf x chain)) as [a e|ex e].
  - split; [now apply noVariables_storeEnv|exact Hm].
  - now apply noVariables_storeEnv.
Qed.

Lemma chain_promoteMustaches opts calc parent vs :
  forall chain,
    forallb bare chain = true ->
    hoare noVariables (Parser.promoteMustaches backend opts calc parent vs chain)
          chainBare noVariables.
Proof.
  induction vs as [|v vs IH]; intros chain Hc; simpl.
  - apply hoare_ret. intros s Hs. split; [exact Hs|exact Hc].
  - assert (Skip : hoare noVariables
                     (r' <- Parser.promoteMustaches backend opts calc parent vs chain ;;
                      let '(rest, chain2) := r' in ret (v :: rest, chain2))%monad
                     chainBare noVariables).
    { eapply hoare_bind; [apply (IH chain Hc)|].
      intros [rest chain2]. apply hoare_ret. intros s Hs. exact Hs. }
    destruct v; try exact Skip.
    eapply hoare_bind.
    { apply inEnv_bare; [exact Hc|apply bare_processMustache]. }
    intros [m' chain1]. apply hoare_pure. intros H1. simpl in H1.
    eapply hoare_bind; [apply (IH chain1 H1)|].
    intros [rest chain2]. apply hoare_ret. intros s Hs. exact Hs.
Qed.

Lemma chain_processAttribute node chain :
  forallb bare chain = true ->
  hoare noVariables (Parser.processAttribute backend node chain) chainBare noVariables.
Proof.
  intros Hc. unfold Parser.processAttribute.
  apply keeps_bind_hoare; [apply keeps_gets|intros opts].
  apply keeps_bind_hoare; [apply keeps_gets|intros calc].
  eapply hoare_bind with (R := chainBare).
  { destruct (Regex.DIRECTIVE_NAME_test (key_name (at_key node))).
    - unfold Lang.convertToDirective.
      destruct (Lang.createDirectiveKey (at_key node)) as [key|];
        [|apply hoare_throw; auto].
      unfold bind at 1. unfold ret at 1.
      set (directiveNode := mkXAttribute XDirectiveT _ _ key _).
      destruct (at_value directiveNode) as [|[token| | |] [|]];
        try (apply hoare_ret; intros s Hs; split; [exact Hs|exact Hc]).
      eapply hoare_bind with (R := chainBare).
      + destruct (JS.truthy (JS.trim (xl_value token)));
          [|apply hoare_ret; intros s Hs; split; [exact Hs|exact Hc]].
        destruct (negb (JS.eqb (key_name (at_key directiveNode)) (JS.lit "for"))).
        * apply inEnv_bare; [exact Hc|apply bare_processExpression].
        * apply inEnv_bare; [exact Hc|apply bare_processForExpression].
      + intros [e chain']. apply hoare_ret. intros s Hs. exact Hs.
    - apply keeps_bind_hoare; [apply keeps_when, keeps_noVariables_report|intros _].
      apply hoare_ret. intros s Hs. split; [exact Hs|exact Hc]. }
  intros [node' chain']. apply hoare_pure. intros H1. simpl in H1.
  apply keeps_bind_hoare; [apply keeps_gets|intros calc'].
  eapply hoare_bind; [apply (chain_promoteMustaches _ _ _ _ chain' H1)|].
  intros [values chain2]. apply hoare_ret. intros s Hs. exact Hs.
Qed.

Lemma bare_withAttributes e attrs : bare (Parser.withAttributes e attrs) = bare e.
Proof. destruct e; reflexivity. Qed.

Lemma bare_processAttributes (todo : list XAttribute) :
  forall element done,
    bare element = true ->
    hoare noVariables (Parser.processAttributes backend element done todo)
          (fun e x => noVariables x /\ bare e = true) noVariables.
Proof.
  induction todo as [|attribute todo IH]; intros element done He; simpl.
  - apply hoare_ret. intros s Hs. split; [exact Hs|]. destruct element; exact He.
  - apply hoare_bind with (R := fun st x => noVariables x /\ forallb bare st = true).
    { apply hoare_gets. intros s Hs. split; [exact Hs|exact (proj1 Hs)]. }
    intros st. apply hoare_pure. intros Hst.
    eapply hoare_bind.
    { apply chain_processAttribute. cbn [forallb]. rewrite Hst, andb_true_r.
      destruct element; exact He. }
    intros [attribute' chain]. apply hoare_pure. intros Hc. simpl in Hc.
    destruct chain as [|element' st']; [apply hoare_throw; auto|].
    simpl in Hc. apply andb_true_iff in Hc as [He' Hst'].
    apply keeps_bind_hoare.
    { apply keeps_modify. intros x Hx. now apply noVariables_stack. }
    intros _. now apply IH.
Qed.

Lemma keeps_StartTag_ token : keeps noVariables (Parser.StartTag_ backend token).
Proof.
  unfold Parser.StartTag_.
  apply keeps_bind; [apply keeps_closeCurrentElementIfNecessary|intros _].
  apply keeps_bind; [apply keeps_gets|intros st].
  eapply hoare_bind; [apply bare_processAttributes; reflexivity|].
  intros element. apply hoare_pure. intros He.
  apply keeps_bind; [apply keeps_when, keeps_noVariables_report|intros _].
  destruct (st_selfClosing token || Lang.has Lang.SWAN_VOID_ELEMENT_TAGS (el_name element)).
  - apply keeps_bind; [now apply keeps_pushChild|intros _]. apply keeps_onRawTokenizer.
  - apply keeps_bind.
    { apply keeps_modify. intros x Hx. apply noVariables_stack; [|exact Hx].
      simpl. rewrite He. exact (proj1 Hx). }
    intros _. apply keeps_bind; [apply keeps_when, keeps_onRawTokenizer|intros _].
    apply keeps_bind; [apply keeps_when, keeps_onRawTokenizer|intros _].
    apply keeps_when, keeps_onRawTokenizer.
Qed.

Lemma bare_setEndTagAt st : forall above g,
  forallb bare st = true -> forallb bare (Parser.setEndTagAt st above g) = true.
Proof.
  induction st as [|el rest IH]; intros above g H; destruct above; simpl in *;
    try reflexivity; apply andb_true_iff in H as [H1 H2].
  - rewrite H2, andb_true_r. destruct el; exact H1.
  - now rewrite H1, IH.
Qed.

Lemma keeps_EndTag_ token : keeps noVariables (Parser.EndTag_ toLowerCase token).
Proof.
  unfold Parser.EndTag_.
  apply hoare_bind with (R := fun st x => noVariables x /\ forallb bare st = true).
  { apply hoare_gets. intros s Hs. split; [exact Hs|exact (proj1 Hs)]. }
  intros st. apply hoare_pure. intros Hst.
  destruct (Parser.findLast toLowerCase st (et_name token)) as [above|];
    [|apply keeps_noVariables_report].
  apply keeps_bind; [|intros _; apply keeps_popElementStackUntil].
  apply keeps_modify. intros x Hx. apply noVariables_stack; [|exact Hx].
  now apply bare_setEndTagAt.
Qed.

Lemma keeps_Text_ token : keeps noVariables (Parser.Text_ backend token).
Proof.
  unfold Parser.Text_.
  apply keeps_bind; [now apply keeps_pushChild|intros _].
  apply hoare_bind with (R := fun st x => noVariables x /\ forallb bare st = true).
  { apply hoare_gets. intros s Hs. split; [exact Hs|exact (proj1 Hs)]. }
  intros st. apply hoare_pure. intros Hst.
  destruct st as [|parent rest]; [apply keeps_ret|].
  simpl in Hst. apply andb_true_iff in Hst as [Hp Hr].
  match goal with |- hoare _ (if ?c then _ else _) _ _ => destruct c end; [|apply keeps_ret].
  apply keeps_bind; [apply keeps_gets|intros opts].
  apply keeps_bind; [apply keeps_gets|intros calc].
  apply hoare_bind
    with (R := fun r x => noVariables x /\ forallb bare (snd r) = true
                          /\ bare (fst r) = true).
  - intros x Hx. unfold Parser.inEnv.
    pose proof (bare_processScriptModule backend (script opts) calc parent
                  (Parser.envOf x rest) Hr) as H1.
    pose proof (processScriptModule_value backend (script opts) calc parent
                  (Parser.envOf x rest) Hp) as H2.
    destruct (Lang.processScriptModule backend (script opts) calc parent
                (Parser.envOf x rest)) as [a e|ex e].
    + split; [now apply noVariables_storeEnv|]. split; [exact H1|exact H2].
    + now apply noVariables_storeEnv.
  - intros [parent' rest']. simpl.
    intros x (Hx & H1 & H2). simpl.
    apply noVariables_stack; [|exact Hx]. simpl. now rewrite H1, H2.
Qed.

Lemma keeps_Mustache_ token : keeps noVariables (Parser.Mustache_ backend token).
Proof.
  unfold Parser.Mustache_.
  apply keeps_bind; [apply keeps_gets|intros opts].
  apply keeps_bind; [apply keeps_gets|intros calc].
  apply hoare_bind with (R := fun st x => noVariables x /\ forallb bare st = true).
  { apply hoare_gets. intros s Hs. split; [exact Hs|exact (proj1 Hs)]. }
  intros st. apply hoare_pure. intros Hst.
  eapply hoare_bind.
  { apply inEnv_bare; [exact Hst|apply bare_processMustache]. }
  intros [m st']. apply hoare_pure. intros Hst'. simpl in Hst'.
  apply keeps_bind; [|intros _; now apply keeps_pushChild].
  apply keeps_modify. intros x Hx. now apply noVariables_stack.
Qed.

Lemma keeps_handle token : keeps noVariables (Parser.handle backend toLowerCase token).
Proof.
  destruct token; simpl;
    [apply keeps_StartTag_|apply keeps_EndTag_|apply keeps_Text_|apply keeps_Mustache_].
Qed.

Lemma keeps_onTokenizer {A} (m : M IntermediateTokenizer.t A) :
  keeps noVariables (Parser.onTokenizer m).
Proof.
  intros x Hx. unfold Parser.onTokenizer.
  destruct (m (Parser.tokenizer x)); exact Hx.
Qed.

Lemma keeps_parse_loop n : keeps noVariables (Parser.parse_loop backend toLowerCase n).
Proof.
  induction n as [|n IH]; simpl; [apply keeps_throw|].
  apply keeps_bind; [apply keeps_onTokenizer|intros o].
  destruct o; [|apply keeps_ret].
  apply keeps_bind; [apply keeps_handle|intros _; exact IH].
Qed.

(** The document that [parse] returns has bare elements only. *)
Lemma parse_bare :
  hoare noVariables (Parser.parse backend toLowerCase)
        (fun d _ => forallb bareChild (doc_children d) = true) (fun _ => True).
Proof.
  unfold Parser.parse.
  apply safe_keeps_bind; [apply keeps_gets|intros n].
  apply safe_keeps_bind; [apply keeps_parse_loop|intros _].
  apply safe_keeps_bind; [apply keeps_gets|intros st].
  apply safe_keeps_bind; [apply keeps_popElementStackUntil|intros _].
  intros x [_ Hx]. unfold bind, gets, ret. simpl.
  unfold Parser.propagateEndLocationDoc.
  destruct (last_opt (doc_children (Parser.document x))); exact Hx.
Qed.

End NoVariables.

(** C1.  [resolveReference] gives a reference a variable if and only if
    an element of the chain, the element of the reference and the elements
    above it, has a variable of the name of the reference in its list
    [variables]; the variables of the chain then hold one reference more,
    and otherwise as many as before.  Nothing puts a variable into that
    list: in the document that [parse] returns, for every script parser
    and every text, no element has a variable, whatever [s-for] directives
    it has; and where no element of the chain has a variable, the
    references of an expression stay as they are. *)
Theorem C1_no_element_has_variables :
  (forall (r : Reference) (chain : list XElement),
     ref_variable r = None ->
     isSome (ref_variable (fst (Lang.resolveReference r chain)))
     = existsb (declares r) chain)
  /\ (forall (r : Reference) (chain : list XElement),
     heldBy (snd (Lang.resolveReference r chain))
     = (heldBy chain + if existsb (declares r) chain then 1 else 0)%nat)
  /\ (forall backend toLowerCase code options d x,
     parse backend toLowerCase code options = Ok d x ->
     forallb bareChild (doc_children d) = true)
  /\ (forall (rs : list Reference) (chain : list XElement),
     forallb bare chain = true -> Lang.resolveAll rs chain = (rs, chain)).
Proof.
  split; [|split; [|split]].
  - intros r chain Hr. destruct (existsb (declares r) chain) eqn:E.
    + exact (proj1 (resolveReference_some r chain E)).
    + rewrite (resolveReference_none r chain E). simpl. now rewrite Hr.
  - intros r chain. destruct (existsb (declares r) chain) eqn:E.
    + rewrite (proj2 (resolveReference_some r chain E)). lia.
    + rewrite (resolveReference_none r chain E). simpl. lia.
  - intros backend toLowerCase code options d x H. unfold parse in H.
    pose proof (parse_bare backend toLowerCase
                  (Parser.new (Tokenizer.new code) (resolveParserOptions options))
                  (conj eq_refl eq_refl)) as K.
    rewrite H in K. exact K.
  - exact resolveAll_bare.
Qed.

(** C1, for an element that has a variable [item], as nothing in the
    parser makes one, and for the document of
    [<view s-for='item in list'>{{item}}</view>]. *)
Lemma C1_witness :
  let variable := mkVariable (Espree.id "item" 13) "for" [] in
  let element := mkXElement (0, 42) (Espree.at1 0 42) (JS.lit "view") (JS.lit "view")
                   (mkXStartTag (0, 29) (Espree.at1 0 29) false []) [] [variable] None in
  let r := mkReference (Espree.id "item" 31) "r" None in
  (isSome (ref_variable (fst (Lang.resolveReference r [element]))) = true
   /\ heldBy (snd (Lang.resolveReference r [element])) = 1%nat)
  /\ (exists d x,
        parse Espree.backend Espree.toLowerCase
              (JS.lit "<view s-for='item in list'>{{item}}</view>") defaults = Ok d x
        /\ forallb bareChild (doc_children d) = true)
  /\ Lang.resolveAll [r] [Lang.withVariables element []]
     = ([r], [Lang.withVariables element []]).
Proof.
  intros variable element r.
  destruct C1_no_element_has_variables as (H1 & H2 & H3 & H4).
  split; [split|split].
  - rewrite (H1 r [element] eq_refl). reflexivity.
  - rewrite (H2 r [element]). reflexivity.
  - assert (E : exists d x,
               parse Espree.backend Espree.toLowerCase
                     (JS.lit "<view s-for='item in list'>{{item}}</view>") defaults
               = Ok d x)
      by (vm_compute; eexists _, _; reflexivity).
    destruct E as (d & x & E). exists d, x. split; [exact E|].
    exact (H3 Espree.backend Espree.toLowerCase _ defaults d x E).
  - apply H4. reflexivity.
Defined.

(** C1 as it is written fails.  In the document of
    [<view s-for='item in list'>{{item}}</view>] the expression of the
    directive has the identifier [item] as [left], the element has no
    variable, and the reference to [item] of the mustache below it has no
    variable either. *)
Lemma C1_counterexample :
  exists d x e,
    parseWith defaults (JS.lit "<view s-for='item in list'>{{item}}</view>") = Ok d x
    /\ firstElement d = Some e
    /\ map leftName (firstExpressions d) = [Some (JS.lit "item")]
    /\ el_variables e = []
    /\ map (fun c => map (fun r => (es_name (ref_id r), ref_variable r))
                         (mustacheReferences c))
           (el_children e)
       = [[(Some (JS.lit "item"), None)]].
Proof.
  eexists _, _, _. split; [vm_compute; reflexivity|].
  split; [reflexivity|]. split; [reflexivity|]. split; reflexivity.
Qed.

(* ================================================================== *)
(** * The arrays of the document: errors, comments and tokens *)
(* ================================================================== *)

Lemma ascendingBy_split {A} (key : A -> Z) (v : Z) (l : list A) :
  ascendingBy key l ->
  exists pre post,
    l = pre ++ post
    /\ Forall (fun x => key x < v) pre /\ Forall (fun x => v <= key x) post.
Proof.
  induction l as [|a l IH]; intros H.
  - exists [], []. repeat split; constructor.
  - destruct H as [Ha Hl]. destruct (Z_lt_le_dec (key a) v) as [Hlt|Hge].
    + destruct (IH Hl) as (pre & post & E & H1 & H2). exists (a :: pre), post.
      subst. repeat split; auto.
    + exists [], (a :: l). repeat split; [constructor|]. constructor; [exact Hge|].
      eapply Forall_impl; [|exact Ha]. intros b Hb. simpl in Hb. lia.
Qed.

Lemma ascendingBy_insert {A} (key : A -> Z) (pre post : list A) (e : A) :
  ascendingBy key (pre ++ post) ->
  Forall (fun x => key x < key e) pre ->
  Forall (fun x => key e <= key x) post ->
  ascendingBy key (pre ++ e :: post).
Proof.
  induction pre as [|a pre IH]; simpl; intros H H1 H2.
  - split; [exact H2|exact H].
  - destruct H as [Ha Hl]. inversion H1; subst. split.
    + apply Forall_app in Ha as [Ha1 Ha2]. apply Forall_app. split; [exact Ha1|].
      constructor; [lia|exact Ha2].
    + now apply IH.
Qed.

Lemma splice_insert_at {A} (pre post items : list A) :
  Lodash.splice (pre ++ post) (Z.of_nat (length pre)) 0 items = pre ++ items ++ post.
Proof.
  unfold Lodash.splice. rewrite length_app.
  replace (Z.min _ _) with (Z.of_nat (length pre)) by lia.
  rewrite Nat2Z.id. simpl. rewrite Nat.add_0_r.
  rewrite firstn_app, firstn_all, Nat.sub_diag. simpl. rewrite app_nil_r.
  rewrite skipn_app, skipn_all, Nat.sub_diag. reflexivity.
Qed.

(** X1.  [insertError] on errors in ascending order of [index]: the error
    goes after the errors of a smaller index and before those of the same
    or a greater one, so that the order is kept; no error is lost; the
    error inserted has the message and the place of the one given, and the
    code [x-expression-error] when that one has none or an empty one;
    tokens, comments and elements are as they were. *)
Theorem X1_insertError_keeps_order (error : ParseError) (env : Env) :
  ascendingBy Lang.byIndex (env_errors env) ->
  exists pre post inserted env',
    Lang.insertError error env = Ok tt env'
    /\ env_errors env = pre ++ post
    /\ env_errors env' = pre ++ inserted :: post
    /\ Forall (fun p => pe_index p < pe_index error) pre
    /\ Forall (fun p => pe_index error <= pe_index p) post
    /\ ascendingBy Lang.byIndex (env_errors env')
    /\ inserted = mkParseError (pe_message error) (Some (codeOrDefault error))
                    (pe_index error) (pe_lineNumber error) (pe_column error)
    /\ env_tokens env' = env_tokens env
    /\ env_comments env' = env_comments env
    /\ env_chain env' = env_chain env.
Proof.
  intros Hs.
  destruct (ascendingBy_split Lang.byIndex (pe_index error) (env_errors env) Hs)
    as (pre & post & E & H1 & H2).
  set (inserted := mkParseError (pe_message error) (Some (codeOrDefault error))
                     (pe_index error) (pe_lineNumber error) (pe_column error)).
  assert (Ei : forall x,
             Lang.insertError error x
             = Ok tt (set_env_errors
                        (Lodash.splice (env_errors x)
                           (Lodash.sortedIndexBy (env_errors x) (pe_index error) Lang.byIndex)
                           0 [inserted]) x)).
  { intros x. unfold Lang.insertError, inserted, codeOrDefault, modify.
    destruct error as [m [c|] i l k]; simpl; [|reflexivity].
    destruct c as [|a c]; reflexivity. }
  exists pre, post, inserted, (set_env_errors (pre ++ inserted :: post) env).
  split.
  { rewrite Ei, E. rewrite (sortedIndexBy_boundary Lang.byIndex _ pre post H1 H2).
    now rewrite splice_insert_at. }
  split; [exact E|]. split; [reflexivity|]. split; [exact H1|]. split; [exact H2|].
  split.
  { simpl. apply ascendingBy_insert; [now rewrite <- E|exact H1|exact H2]. }
  repeat split.
Qed.

(** X1, for the errors at the indexes 1 and 5 and an error of acorn, which
    has no code, at the index 5: it goes between the two. *)
Lemma X1_witness :
  let e1 := ParseErrors.fromCode "eof-in-tag" 1 1 1 in
  let e5 := ParseErrors.fromCode "eof-in-comment" 5 1 5 in
  let error := mkParseError (JS.lit "Unexpected token") None 5 1 5 in
  exists env',
    Lang.insertError error (mkEnv [] [] [e1; e5] [] []) = Ok tt env'
    /\ env_errors env'
       = [e1; mkParseError (JS.lit "Unexpected token") (Some "x-expression-error"%string) 5 1 5;
          e5].
Proof.
  intros e1 e5 error.
  destruct (X1_insertError_keeps_order error (mkEnv [] [] [e1; e5] [] []))
    as (pre & post & inserted & env' & H & _).
  - simpl. repeat constructor; simpl; lia.
  - exists env'. split; [exact H|].
    vm_compute in H. injection H as <-. reflexivity.
Defined.

(** X2.  [insertComments] on comments in ascending order of their start:
    the new comments go, as one block and in their order, after the
    comments that start before the first of them and before the others;
    no comment is lost; tokens and errors are as they were.  With no new
    comment nothing changes. *)
Theorem X2_insertComments_block (newComments : list Token) (env : Env) :
  ascendingBy Lang.byRange0 (env_comments env) ->
  match newComments with
  | [] => Lang.insertComments newComments env = Ok tt env
  | first :: _ =>
      exists pre post env',
        Lang.insertComments newComments env = Ok tt env'
        /\ env_comments env = pre ++ post
        /\ env_comments env' = pre ++ newComments ++ post
        /\ Forall (fun k => fst (tok_range k) < fst (tok_range first)) pre
        /\ Forall (fun k => fst (tok_range first) <= fst (tok_range k)) post
        /\ env_tokens env' = env_tokens env
        /\ env_errors env' = env_errors env
  end.
Proof.
  intros Hs. destruct newComments as [|first more]; [reflexivity|].
  destruct (ascendingBy_split Lang.byRange0 (fst (tok_range first)) (env_comments env) Hs)
    as (pre & post & E & H1 & H2).
  exists pre, post, (set_env_comments (pre ++ (first :: more) ++ post) env).
  split.
  { unfold Lang.insertComments, modify. rewrite E.
    unfold Lang.byRange0 at 1.
    rewrite (sortedIndexBy_boundary Lang.byRange0 _ pre post H1 H2).
    now rewrite splice_insert_at. }
  repeat split; assumption.
Qed.

(** X2, for the comments that start at 0 and at 20 and two new comments
    that start at 8 and at 12. *)
Lemma X2_witness :
  let comment := fun a b => mkToken 0 HTMLComment (a, b) (Espree.at1 a b) (JS.lit "c") in
  exists env',
    Lang.insertComments [comment 8 11; comment 12 15]
      (mkEnv [] [comment 0 7; comment 20 27] [] [] []) = Ok tt env'
    /\ env_comments env' = [comment 0 7; comment 8 11; comment 12 15; comment 20 27].
Proof.
  intros comment.
  destruct (X2_insertComments_block [comment 8 11; comment 12 15]
              (mkEnv [] [comment 0 7; comment 20 27] [] [] []))
    as (pre & post & env' & H & _).
  - subst comment. simpl. repeat constructor; unfold Lang.byRange0; simpl; lia.
  - exists env'. split; [exact H|].
    vm_compute in H. injection H as <-. reflexivity.
Defined.

(** X3.  [replaceTokens] on tokens of which [pre] start before the range,
    [mid] lie inside it and [post] end after it, with new tokens that lie
    inside the range: to replace a second time by the same tokens changes
    nothing, and to replace by the tokens taken out gives the tokens back;
    the tokens outside the range stay in both. *)
Theorem X3_replaceTokens_again (range : OffsetRange) (pre mid post new : list Token) :
  around range pre mid post ->
  Forall (fun k => fst range <= fst (tok_range k) /\ snd (tok_range k) <= snd range) new ->
  let tokens := pre ++ mid ++ post in
  let replaced := Lang.replaceTokensIn tokens range new in
  replaced = pre ++ new ++ post
  /\ Lang.replaceTokensIn replaced range new = replaced
  /\ Lang.replaceTokensIn replaced range mid = tokens.
Proof.
  intros Ha Hn tokens replaced.
  assert (E : replaced = pre ++ new ++ post)
    by (apply replaceTokensIn_around; exact Ha).
  assert (Ha' : around range pre new post).
  { destruct Ha as (H1 & H2 & H3). repeat split; assumption. }
  split; [exact E|]. rewrite E. split; now apply replaceTokensIn_around.
Qed.

(** X3, for the tokens of [<a b='{{x}}'>] around the payload [x], at 9,
    and an identifier token in its place. *)
Lemma X3_witness :
  let k := fun ty (v : string) a => mkToken 0 ty (a, a + JS.len (JS.lit v))
                                 (Espree.at1 a (a + JS.len (JS.lit v))) (JS.lit v) in
  let pre := [k HTMLTagOpen "a"%string 0; k HTMLIdentifier "b"%string 3; k HTMLAssociation "="%string 4;
              k HTMLQuote "'"%string 5; k XMustacheStart "{{"%string 6] in
  let mid := [k HTMLAttrLiteral "x"%string 8] in
  let post := [k XMustacheEnd "}}"%string 9; k HTMLQuote "'"%string 11; k HTMLTagClose ">"%string 12] in
  let new := [k (ScriptToken "Identifier") "x"%string 8] in
  Lang.replaceTokensIn (pre ++ mid ++ post) (8, 9) new = pre ++ new ++ post
  /\ Lang.replaceTokensIn (pre ++ new ++ post) (8, 9) mid = pre ++ mid ++ post.
Proof.
  intros k pre mid post new.
  destruct (X3_replaceTokens_again (8, 9) pre mid post new) as (H1 & H2 & H3).
  - subst k pre mid post. repeat split; repeat constructor; vm_compute;
      first [reflexivity | discriminate].
  - subst k new. repeat constructor; vm_compute; first [reflexivity | discriminate].
  - split; [exact H1|]. rewrite H1 in H3. exact H3.
Defined.

(* ================================================================== *)
(** * The key of a directive *)
(* ================================================================== *)

Lemma firstPrefix_parts (ps : list JS.str) (s p n : JS.str) :
  Regex.firstPrefix ps s = Some (p, n) ->
  In p ps /\ s = p ++ n /\ Regex.directiveNameRest n = true.
Proof.
  induction ps as [|q ps IH]; simpl; [discriminate|].
  destruct (JS.startsWith s q && Regex.directiveNameRest (skipn (length q) s)) eqn:E.
  - intros H. inversion H; subst. apply andb_true_iff in E as [E1 E2].
    split; [now left|]. split; [now apply JSFacts.startsWith_app|exact E2].
  - intros H. destruct (IH H) as (H1 & H2 & H3). split; [now right|]. now split.
Qed.

(** X4.  [convertToDirective] on an attribute whose name matches
    DIRECTIVE_NAME: it returns the attribute as a directive, with the
    range, the location and the value it had; the raw prefix and the name
    of its key, put together, are the name of the attribute; the prefix is
    one of [s-], [bind], [catch], [capture-bind] and [capture-catch], the
    raw prefix without its final colon if it has one; the name is two
    characters long or longer.  On any other attribute it throws. *)
Theorem X4_directive_key_parts {S} (node : XAttribute) (s : S) :
  if Regex.DIRECTIVE_NAME_test (key_name (at_key node)) then
    exists name prefix rawPrefix rawName,
      Lang.convertToDirective node s
      = Ok (mkXAttribute XDirectiveT (at_range node) (at_loc node)
              (XDirectiveKey (key_range (at_key node)) (key_loc (at_key node))
                 name prefix rawPrefix rawName)
              (at_value node)) s
      /\ rawPrefix ++ name = key_name (at_key node)
      /\ In prefix [JS.lit "s-"; JS.lit "bind"; JS.lit "catch"; JS.lit "capture-bind";
                    JS.lit "capture-catch"]
      /\ (rawPrefix = prefix \/ rawPrefix = prefix ++ JS.lit ":")
      /\ (2 <= length name)%nat
  else
    exists e, Lang.convertToDirective node s = Throw e s.
Proof.
  unfold Regex.DIRECTIVE_NAME_test, Lang.convertToDirective, Lang.createDirectiveKey,
    Regex.DIRECTIVE_NAME_match.
  destruct (Regex.firstPrefix Regex.directivePrefixes (key_name (at_key node)))
    as [[p n]|] eqn:E; [|eexists; reflexivity].
  apply firstPrefix_parts in E as (Hin & Hs & Hn).
  eexists _, _, _, _. split; [reflexivity|]. split; [now rewrite <- Hs|].
  assert (Hl : (2 <= length n)%nat).
  { destruct n as [|c [|d n]]; try discriminate Hn. simpl. lia. }
  simpl in Hin.
  repeat (destruct Hin as [<-|Hin]; [vm_compute; intuition|]).
  destruct Hin.
Qed.

(** X4, for the attributes [bind:tap] and [class]. *)
Lemma X4_witness :
  let key := fun n => XIdentifier (0, 8) (Espree.at1 0 8) (JS.lit n) (JS.lit n) in
  let node := fun n => mkXAttribute XAttributeT (0, 12) (Espree.at1 0 12) (key n) [] in
  Lang.convertToDirective (node "bind:tap"%string) tt
  = Ok (mkXAttribute XDirectiveT (0, 12) (Espree.at1 0 12)
          (XDirectiveKey (0, 8) (Espree.at1 0 8) (JS.lit "tap") (JS.lit "bind")
             (JS.lit "bind:") (JS.lit "bind:tap")) []) tt
  /\ exists e, Lang.convertToDirective (node "class"%string) tt = Throw e tt.
Proof.
  intros key node. split.
  - pose proof (X4_directive_key_parts (node "bind:tap"%string) tt) as H.
    change (Regex.DIRECTIVE_NAME_test (key_name (at_key (node "bind:tap"%string))))
      with true in H.
    destruct H as (name & prefix & rawPrefix & rawName & H & _).
    rewrite H. vm_compute in H. injection H as <- <- <- <-. reflexivity.
  - exact (X4_directive_key_parts (node "class"%string) tt).
Defined.

(* ================================================================== *)
(** * The errors of the script parser in the language layer *)
(* ================================================================== *)

Lemma insertError_runs (error : ParseError) (env : Env) :
  exists pre post,
    env_errors env = pre ++ post
    /\ Lang.insertError error env
       = Ok tt (set_env_errors (pre ++ stored error :: post) env).
Proof.
  set (i := Z.to_nat (Z.min (Lodash.sortedIndexBy (env_errors env) (pe_index error)
                               Lang.byIndex)
                            (Z.of_nat (length (env_errors env))))).
  exists (firstn i (env_errors env)), (skipn i (env_errors env)).
  split; [now rewrite firstn_skipn|].
  unfold Lang.insertError, stored, codeOrDefault, modify, Lodash.splice.
  destruct error as [m [c|] ix l k]; simpl; fold i; rewrite ?Nat.add_0_r;
    [destruct c as [|a c]|]; reflexivity.
Qed.

(** A code the script parser rejects: [parseExpression] hands it over
    once and throws the error, moved to its place in the template. *)
Lemma parseExpression_rejected backend code c opts env thrown perr :
  backend_parse backend (JS.lit "0(" ++ code ++ JS.lit ")") opts = inr thrown ->
  Script.normalize thrown = Some perr ->
  Script.parseExpression backend code c opts env
  = Throw (ParseErrorExn
             (LocationCalculator.fixErrorLocation
                (LocationCalculator.getSubCalculatorShift c (-2)) perr))
          (set_env_scriptCalls
             (env_scriptCalls env ++ [JS.lit "0(" ++ code ++ JS.lit ")"]) env).
Proof.
  intros H1 H2.
  unfold Script.parseExpression, Script.parseExpressionBody, tryCatch,
    Script.parseExpressionBody_try, Script.parseScriptFragment, Script.parseScript.
  unfold bind, modify, ret, throw. rewrite H1, H2. reflexivity.
Qed.

(** X5.  A payload that is no single word and that the script parser
    rejects with a parse error whose message tells of no reserved keyword:
    [processExpression] returns the node as it was, after one call of the
    script parser; the errors of the document gain the error, with the
    message it came with, at its place in the template and with the code
    [x-expression-error] if it had none; tokens, comments and elements are
    as they were. *)
Theorem X5_processExpression_records_the_error :
  forall backend opts calc (node : XExpression) (code : JS.str) (env : Env)
         (thrown : Thrown) (perr : ParseError),
    Regex.identifierReg_exec code = None ->
    backend_parse backend (JS.lit "0(" ++ code ++ JS.lit ")") opts = inr thrown ->
    Script.normalize thrown = Some perr ->
    Regex.reservedKeyword_test (pe_message perr) = false ->
    let p := LocationCalculator.fixErrorLocation
               (LocationCalculator.getSubCalculatorShift
                  (LocationCalculator.getSubCalculatorAfter calc (fst (xe_range node)))
                  (-2)) perr in
    exists env' pre post,
      Lang.processExpression backend opts calc node code env = Ok node env'
      /\ env_scriptCalls env' = env_scriptCalls env ++ [JS.lit "0(" ++ code ++ JS.lit ")"]
      /\ env_errors env = pre ++ post
      /\ env_errors env' = pre ++ stored p :: post
      /\ pe_message (stored p) = pe_message perr
      /\ env_tokens env' = env_tokens env
      /\ env_comments env' = env_comments env
      /\ env_chain env' = env_chain env.
Proof.
  intros backend opts calc node code env thrown perr Hid Hb Hn Hr p.
  unfold Lang.processExpression. rewrite Hid. unfold tryCatch at 1, bind at 1.
  rewrite (parseExpression_rejected _ _ _ _ _ _ _ Hb Hn). fold p.
  cbn [Script.isParseError].
  replace (pe_message p) with (pe_message perr) by reflexivity. rewrite Hr.
  set (env1 := set_env_scriptCalls _ env).
  destruct (insertError_runs p env1) as (pre & post & E & H).
  exists (set_env_errors (pre ++ stored p :: post) env1), pre, post.
  unfold bind. rewrite H. repeat split. exact E.
Qed.

(** X5, for the payload [a +], which espree rejects at the closing
    parenthesis of the wrapped code. *)
Lemma X5_witness :
  let node := mkXExpression (8, 11) (Espree.at1 8 11) None [] in
  exists env',
    Lang.processExpression Espree.backend
      (script (resolveParserOptions (mkOptions None None None)))
      (LocationCalculator.new [] []) node (JS.lit "a +") (mkEnv [] [] [] [] [])
    = Ok node env'
    /\ env_errors env'
       = [mkParseError (JS.lit "Unexpected token )") (Some "x-expression-error"%string)
            11 1 11].
Proof.
  intros node.
  destruct (X5_processExpression_records_the_error Espree.backend
              (script (resolveParserOptions (mkOptions None None None)))
              (LocationCalculator.new [] []) node (JS.lit "a +") (mkEnv [] [] [] [] [])
              (Espree.unexpected ")" 5)
              (mkParseError (JS.lit "Unexpected token )") None 5 1 6)
              eq_refl eq_refl eq_refl eq_refl)
    as (env' & pre & post & H & _).
  exists env'. split; [exact H|].
  vm_compute in H. injection H as <-. reflexivity.
Defined.

(** X6.  A payload that is no single word and that the script parser
    rejects with a parse error that tells of a reserved keyword:
    [processExpression] parses the payload a second time, with the options
    of ECMAScript 3, reserved words allowed and the source type [script],
    and returns whatever the second call does.  When the second call
    returns, its result is adopted; when it throws, anything at all, the
    error of the first call is inserted and the node is as it was. *)
Theorem X6_processExpression_retries_reserved_keyword :
  forall backend opts calc (node : XExpression) (code : JS.str) (env : Env)
         (thrown : Thrown) (perr : ParseError),
    Regex.identifierReg_exec code = None ->
    backend_parse backend (JS.lit "0(" ++ code ++ JS.lit ")") opts = inr thrown ->
    Script.normalize thrown = Some perr ->
    Regex.reservedKeyword_test (pe_message perr) = true ->
    let wrapped := JS.lit "0(" ++ code ++ JS.lit ")" in
    let calc' := LocationCalculator.getSubCalculatorAfter calc (fst (xe_range node)) in
    let p := LocationCalculator.fixErrorLocation
               (LocationCalculator.getSubCalculatorShift calc' (-2)) perr in
    let env1 := set_env_scriptCalls (env_scriptCalls env ++ [wrapped]) env in
    let retry := Script.parseExpression backend code calc' (Lang.retryOptions opts) env1 in
    (exists v env',
       Lang.processExpression backend opts calc node code env = Ok v env'
       /\ env_scriptCalls env' = env_scriptCalls env ++ [wrapped; wrapped])
    /\ Lang.processExpression backend opts calc node code env
       = match retry with
         | Ok r env2 => Lang.adopt node (xe_range node) r env2
         | Throw _ env2 => (Lang.insertError p ;; ret node)%monad env2
         end
    /\ sp_ecmaVersion (Lang.retryOptions opts) = 3
    /\ sp_allowReserved (Lang.retryOptions opts) = true
    /\ sp_sourceType (Lang.retryOptions opts) = "script"%string.
Proof.
  intros backend opts calc node code env thrown perr Hid Hb Hn Hr wrapped calc' p env1 retry.
  assert (E : Lang.processExpression backend opts calc node code env
              = match retry with
                | Ok r env2 => Lang.adopt node (xe_range node) r env2
                | Throw _ env2 => (Lang.insertError p ;; ret node)%monad env2
                end).
  { unfold Lang.processExpression. rewrite Hid. unfold tryCatch at 1, bind at 1.
    rewrite (parseExpression_rejected _ _ _ _ _ _ _ Hb Hn).
    fold wrapped calc' p env1. cbn [Script.isParseError].
    replace (pe_message p) with (pe_message perr) by reflexivity. rewrite Hr.
    unfold tryCatch, bind at 1. fold retry. destruct retry as [r env2|e env2]; [|reflexivity].
    destruct (adopt_returns node (xe_range node) r env2) as (v & env' & Ha & _).
    now rewrite Ha. }
  split; [|split; [exact E|repeat split]].
  rewrite E.
  pose proof (calls_parseExpression backend code calc' (Lang.retryOptions opts)
                (env_scriptCalls env ++ [wrapped]) env1 eq_refl) as Hc.
  fold retry in Hc.
  assert (Hw : (env_scriptCalls env ++ [wrapped]) ++ [JS.lit "0(" ++ code ++ JS.lit ")"]
               = env_scriptCalls env ++ [wrapped; wrapped])
    by (now rewrite <- app_assoc).
  rewrite Hw in Hc.
  destruct retry as [r env2|e env2].
  - destruct (adopt_returns node (xe_range node) r env2) as (v & env' & Ha & _).
    rewrite Ha. exists v, env'. split; [reflexivity|].
    unfold Lang.adopt, Lang.replaceTokens, Lang.resolveReferences in Ha.
    unfold bind, when, modify, gets, ret in Ha.
    destruct (negb (length (res_tokens r) =? 0)%nat);
      cbn [xe_references] in Ha;
      match type of Ha with
      | context [Lang.resolveAll ?a ?b] => destruct (Lang.resolveAll a b) as [rs ch]
      end; inversion Ha; subst; exact Hc.
  - destruct (insertError_runs p env2) as (pre & post & _ & H).
    unfold bind. rewrite H. eexists _, _. split; [reflexivity|exact Hc].
Qed.

(** X6, for the payload [enum.a] and a script parser that rejects the
    word [enum] unless reserved words are allowed. *)
Lemma X6_witness :
  let error := mkParseError (JS.lit "The keyword 'enum' is reserved") None 2 1 3 in
  let program :=
    Espree.call0 [Espree.node "MemberExpression" [Espree.id "enum" 2; Espree.id "a" 7] 2 8]
      [Espree.tok "Identifier" "enum" 2; Espree.tok "Punctuator" "." 6;
       Espree.tok "Identifier" "a" 7] 9 in
  let backend :=
    mkScriptBackend
      (fun _ o => if sp_allowReserved o then inl program else inr (ThrownParseError error))
      (fun _ _ => []) in
  let node := mkXExpression (8, 14) (Espree.at1 8 14) None [] in
  exists v env',
    Lang.processExpression backend
      (script (resolveParserOptions (mkOptions None None None)))
      (LocationCalculator.new [] []) node (JS.lit "enum.a") (mkEnv [] [] [] [] [])
    = Ok v env'
    /\ env_scriptCalls env' = [JS.lit "0(enum.a)"; JS.lit "0(enum.a)"]
    /\ option_map (fun e => match e with Script n => es_type n | SwanFor _ => EmptyString end)
         (xe_expression v) = Some "MemberExpression"%string
    /\ env_errors env' = [].
Proof.
  intros error program backend node.
  destruct (X6_processExpression_retries_reserved_keyword backend
              (script (resolveParserOptions (mkOptions None None None)))
              (LocationCalculator.new [] []) node (JS.lit "enum.a") (mkEnv [] [] [] [] [])
              (ThrownParseError error) error eq_refl eq_refl eq_refl eq_refl)
    as ((v & env' & H & Hc) & _).
  exists v, env'. split; [exact H|]. split; [exact Hc|].
  vm_compute in H. injection H as <- <-. split; reflexivity.
Defined.

(* ================================================================== *)
(** * Payloads with nothing in them, and [s-for] without [in] *)
(* ================================================================== *)

Lemma blank_trim (s : JS.str) : forallb JS.isSpaceChar s = true -> JS.trim s = [].
Proof.
  intros H. unfold JS.trim, JS.trimStart.
  pose proof (span_exact JS.isSpaceChar s [] H I) as E. rewrite app_nil_r in E.
  now rewrite E.
Qed.

(** X7.  A mustache whose payload is empty or blank: [processMustache]
    hands nothing to the script parser and changes nothing in the
    document; the mustache gets an [XExpression] whose expression is null
    and whose references are none, from the end of the opening token to
    the start of the closing one. *)
Theorem X7_blank_mustache_is_not_parsed :
  forall backend opts calc parent (node : XMustache) (mustache : Mustache) (env : Env),
    forallb JS.isSpaceChar (mu_value mustache) = true ->
    exists value,
      Lang.processMustache backend opts calc parent node mustache env
      = Ok (mkXMustache (xm_range node) (xm_loc node)
              (mu_startToken mustache) (mu_endToken mustache) (Some value)) env
      /\ xe_expression value = None
      /\ xe_references value = []
      /\ xe_range value = (snd (tok_range (mu_startToken mustache)),
                           fst (tok_range (mu_endToken mustache))).
Proof.
  intros backend opts calc parent node mustache env H.
  unfold Lang.processMustache. rewrite (blank_trim _ H). cbn [JS.truthy negb].
  eexists. split; [reflexivity|]. repeat split.
Qed.

(** X7, for the mustache of [<view>{{ }}</view>]. *)
Lemma X7_witness :
  let start := mkToken 3 XMustacheStart (6, 8) (Espree.at1 6 8) (JS.lit "{{") in
  let stop := mkToken 5 XMustacheEnd (9, 11) (Espree.at1 9 11) (JS.lit "}}") in
  let node := mkXMustache (6, 11) (Espree.at1 6 11) start stop None in
  let env := mkEnv [start; stop] [] [] [] [] in
  exists value,
    Lang.processMustache Espree.backend
      (script (resolveParserOptions (mkOptions None None None)))
      (LocationCalculator.new [] []) None node
      (mkMustache (6, 11) (Espree.at1 6 11) (JS.lit " ") start stop) env
    = Ok (mkXMustache (6, 11) (Espree.at1 6 11) start stop (Some value)) env
    /\ xe_expression value = None
    /\ xe_range value = (8, 9).
Proof.
  intros start stop node env.
  destruct (X7_blank_mustache_is_not_parsed Espree.backend
              (script (resolveParserOptions (mkOptions None None None)))
              (LocationCalculator.new [] []) None node
              (mkMustache (6, 11) (Espree.at1 6 11) (JS.lit " ") start stop) env eq_refl)
    as (value & H & H1 & _ & H3).
  exists value. split; [exact H|]. split; [exact H1|exact H3].
Defined.

Lemma slice_whole (s : JS.str) : JS.slice s 0 (JS.len s) = s.
Proof.
  unfold JS.slice, JS.clampIndex, JS.len.
  destruct (0 <? 0) eqn:E0; [discriminate|].
  destruct (Z.of_nat (length s) <? 0) eqn:E1; [apply Z.ltb_lt in E1; lia|].
  rewrite Z.min_id.
  replace (Z.min 0 (Z.of_nat (length s))) with 0 by lia.
  rewrite Z.sub_0_r, Nat2Z.id. simpl. apply firstn_all.
Qed.

(** X8.  A value of [s-for] in which [keyReg] finds no keyword, as in
    [s-for='list']: the whole value is handed to the script parser, once
    and as it is, for the part [right]; when the script parser accepts it,
    [processForExpression] returns, and the expression of the node is a
    [SwanForExpression] with that [right] and with null for [left],
    [index] and [trackBy]. *)
Theorem X8_for_without_in :
  forall backend opts calc (node : XExpression) (code : JS.str) (env : Env)
         (rr : ExpressionParseResult) (env1 : Env),
    Regex.keyReg_exec code 0 = None ->
    Script.parseExpression backend code
      (LocationCalculator.getSubCalculatorAfter calc (fst (xe_range node))) opts env
    = Ok rr env1 ->
    exists node' env',
      Lang.processForExpression backend opts calc node code env = Ok node' env'
      /\ xe_expression node'
         = Some (SwanFor
             (mkSwanForExpression (fst (xe_range node)) (snd (xe_range node))
                (xe_range node) (xe_loc node) (res_expression rr) None None None))
      /\ env_scriptCalls env' = env_scriptCalls env ++ [JS.lit "0(" ++ code ++ JS.lit ")"].
Proof.
  intros backend opts calc node code env rr env1 Hk Hr.
  pose proof (calls_parseExpression backend code
                (LocationCalculator.getSubCalculatorAfter calc (fst (xe_range node)))
                opts (env_scriptCalls env) env eq_refl) as Hc.
  rewrite Hr in Hc.
  unfold Lang.processForExpression, tryCatch, Lang.forScan.
  cbn [Lang.forScanFrom]. rewrite Hk.
  unfold Lang.processForExpression_try.
  cbn [Lang.forLeft Lang.forTrackBy Lang.forLeftEndIndex Lang.forTrackByStartOffset
       Lang.inToken Lang.trackByToken Lang.fb_code Lang.fb_range fst snd].
  rewrite slice_whole, Z.add_0_r.
  unfold bind at 1. unfold ret at 1. cbv beta iota.
  unfold bind at 1. rewrite Hr.
  unfold bind at 1. unfold ret at 1. cbv beta iota.
  unfold Lang.replaceTokens, Lang.resolveReferences.
  unfold bind, when, modify, gets, ret.
  destruct (negb (length _ =? 0)%nat);
    cbn [xe_references];
    match goal with
    | |- context [Lang.resolveAll ?a ?b] => destruct (Lang.resolveAll a b) as [rs ch]
    end; eexists _, _; (split; [reflexivity|split; [reflexivity|exact Hc]]).
Qed.

(** X8, for the value of [s-for='list']. *)
Lemma X8_witness :
  let node := mkXExpression (13, 17) (Espree.at1 13 17) None [] in
  exists node' env' right,
    Lang.processForExpression Espree.backend
      (script (resolveParserOptions (mkOptions None None None)))
      (LocationCalculator.new [] []) node (JS.lit "list") (mkEnv [] [] [] [] [])
    = Ok node' env'
    /\ xe_expression node'
       = Some (SwanFor (mkSwanForExpression 13 17 (13, 17) (Espree.at1 13 17)
                          (Some right) None None None))
    /\ es_name right = Some (JS.lit "list")
    /\ env_scriptCalls env' = [JS.lit "0(list)"].
Proof.
  intros node.
  destruct (Script.parseExpression Espree.backend (JS.lit "list")
              (LocationCalculator.getSubCalculatorAfter (LocationCalculator.new [] []) 13)
              (script (resolveParserOptions (mkOptions None None None)))
              (mkEnv [] [] [] [] [])) as [rr env1|e env1] eqn:E;
    [|vm_compute in E; discriminate E].
  destruct (X8_for_without_in Espree.backend
              (script (resolveParserOptions (mkOptions None None None)))
              (LocationCalculator.new [] []) node (JS.lit "list") (mkEnv [] [] [] [] [])
              rr env1 eq_refl E) as (node' & env' & H & Hx & Hc).
  vm_compute in E. injection E as <- <-.
  eexists node', env', _. split; [exact H|]. split; [exact Hx|]. split; [reflexivity|exact Hc].
Defined.

(* ================================================================== *)
(** * Parse errors do not leave the language layer *)
(* ================================================================== *)

Section ThrowsNoParseError.
Context {S : Type}.

Lemma noParseError_ret {A} (a : A) : throwsNoParseError (ret a : M S A).
Proof. intros s. exact I. Qed.

Lemma noParseError_modify (f : S -> S) : throwsNoParseError (modify f).
Proof. intros s. exact I. Qed.

Lemma noParseError_gets {A} (f : S -> A) : throwsNoParseError (gets f).
Proof. intros s. exact I. Qed.

Lemma noParseError_bind {A B} (m : M S A) (k : A -> M S B) :
  throwsNoParseError m -> (forall a, throwsNoParseError (k a)) ->
  throwsNoParseError (bind m k).
Proof.
  intros Hm Hk s. unfold bind. specialize (Hm s).
  destruct (m s) as [a s'|e s']; [apply Hk|exact Hm].
Qed.

Lemma noParseError_when (c : bool) (m : M S unit) :
  throwsNoParseError m -> throwsNoParseError (when c m).
Proof. intros H. destruct c; [exact H|apply noParseError_ret]. Qed.

(** [try { m } catch (e) { if (ParseError.isParseError(e)) h(e); else throw e }]
    with an [h] that throws no parse error. *)
Lemma noParseError_catch {A} (m : M S A) (h : ParseError -> M S A) :
  (forall p, throwsNoParseError (h p)) ->
  throwsNoParseError
    (tryCatch m (fun e => match Script.isParseError e with
                          | Some p => h p
                          | None => throw e
                          end)).
Proof.
  intros Hh s. unfold tryCatch. destruct (m s) as [a s'|e s']; [exact I|].
  destruct (Script.isParseError e) as [p|] eqn:E; [apply Hh|exact E].
Qed.

(** [try { m } catch (e) { h }] with an [h] that throws no parse error. *)
Lemma noParseError_catch_all {A} (m : M S A) (h : M S A) :
  throwsNoParseError h -> throwsNoParseError (tryCatch m (fun _ => h)).
Proof.
  intros Hh s. unfold tryCatch. destruct (m s) as [a s'|e s']; [exact I|apply Hh].
Qed.

End ThrowsNoParseError.

Lemma noParseError_insertError p : throwsNoParseError (Lang.insertError p).
Proof. intros s. exact I. Qed.

Lemma noParseError_resolveReferences node : throwsNoParseError (Lang.resolveReferences node).
Proof.
  intros s. unfold Lang.resolveReferences, bind, gets, modify, ret.
  destruct (Lang.resolveAll (xe_references node) (env_chain s)). exact I.
Qed.

Lemma noParseError_processExpression backend opts calc node code :
  throwsNoParseError (Lang.processExpression backend opts calc node code).
Proof.
  unfold Lang.processExpression.
  destruct (Regex.identifierReg_exec code) as [[l n]|].
  - apply noParseError_bind; [apply noParseError_modify|intros _; apply noParseError_resolveReferences].
  - apply noParseError_catch. intros p.
    destruct (Regex.reservedKeyword_test (pe_message p)).
    + apply noParseError_catch_all.
      apply noParseError_bind; [apply noParseError_insertError|intros _; apply noParseError_ret].
    + apply noParseError_bind; [apply noParseError_insertError|intros _; apply noParseError_ret].
Qed.

Lemma noParseError_processForExpression backend opts calc node code :
  throwsNoParseError (Lang.processForExpression backend opts calc node code).
Proof.
  unfold Lang.processForExpression. apply noParseError_catch. intros p.
  apply noParseError_bind; [apply noParseError_insertError|intros _; apply noParseError_ret].
Qed.

(** X9.  The functions of the language layer that call the script parser,
    [processExpression], [processForExpression], [processMustache] and
    [processScriptModule], throw no parse error, whatever the script
    parser does: what they throw, if they throw, is no parse error. *)
Theorem X9_no_parse_error_leaves_the_language_layer :
  forall backend opts calc,
    (forall node code,
       throwsNoParseError (Lang.processExpression backend opts calc node code))
    /\ (forall node code,
       throwsNoParseError (Lang.processForExpression backend opts calc node code))
    /\ (forall parent node mustache,
       throwsNoParseError (Lang.processMustache backend opts calc parent node mustache))
    /\ (forall node,
       throwsNoParseError (Lang.processScriptModule backend opts calc node)).
Proof.
  intros backend opts calc.
  split; [intros; apply noParseError_processExpression|].
  split; [intros; apply noParseError_processForExpression|].
  split.
  - intros parent node mustache. unfold Lang.processMustache.
    destruct (negb (JS.truthy (JS.trim (mu_value mustache)))); [apply noParseError_ret|].
    destruct (Lang.parentIsFor parent).
    + apply noParseError_bind; [apply noParseError_processForExpression|intros v; apply noParseError_ret].
    + destruct (Regex.memberExpression_test (mu_value mustache)
                && JS.eqb (tok_value (mu_startToken mustache)) (JS.lit "{{")).
      * apply noParseError_bind; [apply noParseError_modify|intros _].
        apply noParseError_bind; [apply noParseError_modify|intros _].
        apply noParseError_bind; [apply noParseError_processExpression|intros v; apply noParseError_ret].
      * apply noParseError_bind; [apply noParseError_processExpression|intros v; apply noParseError_ret].
  - intros node. unfold Lang.processScriptModule. apply noParseError_catch. intros p.
    apply noParseError_bind; [apply noParseError_insertError|intros _; apply noParseError_ret].
Qed.

(* ================================================================== *)
(** * What [parseExpression] makes of the program of the script parser *)
(* ================================================================== *)

Lemma find_after {A} (f : A -> bool) (r t : list A) (a : A) :
  f a = true -> Forall (fun x => f x = false) r -> find f (r ++ a :: t) = Some a.
Proof.
  intros Ha Hr. induction Hr as [|x r Hx Hr IH]; simpl; [now rewrite Ha|now rewrite Hx].
Qed.

Lemma find_rev_last {A} (f : A -> bool) (l : list A) (a : A) (r : list A) :
  f a = true -> Forall (fun x => f x = false) r ->
  find f (rev (l ++ a :: r)) = Some a.
Proof.
  intros Ha Hr. rewrite rev_app_distr. simpl. rewrite <- app_assoc. simpl.
  apply find_after; [exact Ha|now apply Forall_rev].
Qed.

(** X10.  What [parseExpression] does with the program the script parser
    returns for the code wrapped in a call of [0], by the arguments of the
    call.  With no argument it throws the parse error [Expected to be an
    expression, but got empty.].  With a first argument that is a spread
    element it throws [Unexpected token '...'.] at the start of that
    argument.  With a second argument it throws [Unexpected token ','.]
    at the last comma among the tokens up to the first token of the second
    argument.  With one argument that is no spread element it returns that
    argument as the expression, and the tokens of the program without the
    first two, [0] and the opening parenthesis, and without the last, the
    closing parenthesis. *)
Theorem X10_parseExpression_by_arguments :
  forall backend (code : JS.str) (c : LocationCalculator.t) opts (env env1 : Env)
         (ast : ESProgram) (statement call : ESNode) (rest args : list ESNode),
    Script.parseScriptFragment backend (JS.lit "0(" ++ code ++ JS.lit ")")
      (LocationCalculator.getSubCalculatorShift c (-2)) opts env = Ok ast env1 ->
    prog_body ast = statement :: rest ->
    Script.statementExpression statement = Some call ->
    Script.callArguments call = Some args ->
    let tokens := Script.orEmpty (prog_tokens ast) in
    let unexpected (what : string) (range : OffsetRange) (loc : LocationRange) :=
      Throw (A := ExpressionParseResult)
        (ParseErrorExn
           (mkParseError (JS.lit "Unexpected token '" ++ JS.lit what ++ JS.lit "'.") None
              (fst range) (ln (loc_start loc)) (col (loc_start loc)))) env1 in
    (args = [] ->
     Script.parseExpression backend code c opts env
     = Throw (ParseErrorExn
                (LocationCalculator.fixErrorLocation c
                   (mkParseError (JS.lit "Expected to be an expression, but got empty.")
                      None 0 (ln (LocationCalculator.getLocation c 0))
                      (col (LocationCalculator.getLocation c 0))))) env1)
    /\ (forall first more,
          args = first :: more -> es_type first = "SpreadElement"%string ->
          Script.parseExpression backend code c opts env
          = unexpected "..."%string (es_range first) (es_loc first))
    /\ (forall first second more before comma between at_ after,
          args = first :: second :: more ->
          es_type first <> "SpreadElement"%string ->
          tokens = before ++ comma :: between ++ at_ :: after ->
          Script.isComma comma = true ->
          Forall (fun k => Script.isComma k = false) (between ++ [at_]) ->
          Forall (fun k => fst (tok_range k) < fst (es_range second))
                 (before ++ comma :: between) ->
          Forall (fun k => fst (es_range second) <= fst (tok_range k)) (at_ :: after) ->
          Script.parseExpression backend code c opts env
          = unexpected ","%string (tok_range comma) (tok_loc comma))
    /\ (forall first,
          args = [first] -> es_type first <> "SpreadElement"%string ->
          exists r,
            Script.parseExpression backend code c opts env = Ok r env1
            /\ res_expression r = Some first
            /\ res_comments r = Script.orEmpty (prog_comments ast)
            /\ forall zero open inner close,
                 tokens = zero :: open :: inner ++ [close] -> res_tokens r = inner).
Proof.
  intros backend code c opts env env1 ast statement call rest args
         Hf Hb Hs Ha tokens unexpected.
  assert (E : (forall e s, Script.throwErrorAsAdjustingOutsideOfCode
                            (A := ExpressionParseResult) e code c s = Throw e s)
             /\ Script.parseExpression backend code c opts env
                = tryCatch
                    (match nth_error args 0 with
                     | None => Script.throwEmptyError c "an expression"
                     | Some expression =>
                         if String.eqb (es_type expression) "SpreadElement" then
                           Script.throwUnexpectedTokenError "..." (es_range expression)
                             (es_loc expression)
                         else
                           match nth_error args 1 with
                           | Some node =>
                               (comma <- Script.getCommaTokenBeforeNode tokens (es_range node) ;;
                                match comma with
                                | Some k => Script.throwUnexpectedTokenError ","
                                              (tok_range k) (tok_loc k)
                                | None => Script.throwUnexpectedTokenError ","
                                            (es_range node) (es_loc node)
                                end)%monad
                           | None =>
                               ret (mkExpressionParseResult (Some expression)
                                      (Script.removeParens tokens)
                                      (Script.orEmpty (prog_comments ast))
                                      (Script.analyzeExternalReferences backend ast opts))
                           end
                     end)
                    (fun e => Script.throwErrorAsAdjustingOutsideOfCode e code c) env1).
  { split.
    - intros e s. unfold Script.throwErrorAsAdjustingOutsideOfCode.
      destruct (Script.isParseError e); reflexivity.
    - unfold Script.parseExpression, Script.parseExpressionBody, tryCatch,
        Script.parseExpressionBody_try.
      unfold bind at 1. rewrite Hf, Hb, Hs, Ha. reflexivity. }
  destruct E as [Hthrow Hrun].
  split; [|split; [|split]].
  - intros ->. rewrite Hrun. unfold tryCatch. cbn [nth_error].
    unfold Script.throwEmptyError, throw. now rewrite Hthrow.
  - intros first more -> Hty. rewrite Hrun. unfold tryCatch. cbn [nth_error].
    rewrite Hty. cbn [String.eqb Ascii.eqb Bool.eqb]. simpl.
    unfold Script.throwUnexpectedTokenError, throw. now rewrite Hthrow.
  - intros first second more before comma between at_ after -> Hty Ht Hc Hn H1 H2.
    rewrite Hrun. unfold tryCatch. cbn [nth_error].
    destruct (String.eqb (es_type first) "SpreadElement") eqn:Es;
      [apply String.eqb_eq in Es; contradiction|].
    unfold Script.getCommaTokenBeforeNode. rewrite Ht.
    replace (before ++ comma :: between ++ at_ :: after)
      with ((before ++ comma :: between) ++ at_ :: after)
      by (rewrite <- app_assoc; reflexivity).
    rewrite (sortedIndexBy_boundary (fun k => fst (tok_range k)) _ _ _ H1 H2).
    rewrite Nat2Z.id. rewrite nth_error_app2 by lia. rewrite Nat.sub_diag.
    cbn [nth_error]. unfold bind, ret.
    replace (firstn (S (length (before ++ comma :: between)))
               ((before ++ comma :: between) ++ at_ :: after))
      with (before ++ comma :: (between ++ [at_])).
    2:{ replace (S (length (before ++ comma :: between)))
          with (length ((before ++ comma :: between) ++ [at_]))
          by (rewrite length_app; simpl; lia).
        replace ((before ++ comma :: between) ++ at_ :: after)
          with (((before ++ comma :: between) ++ [at_]) ++ after)
          by (rewrite <- !app_assoc; reflexivity).
        rewrite firstn_app, firstn_all, Nat.sub_diag. simpl. rewrite app_nil_r.
        rewrite <- !app_assoc. reflexivity. }
    rewrite (find_rev_last Script.isComma before comma (between ++ [at_]) Hc Hn).
    unfold Script.throwUnexpectedTokenError, throw. now rewrite Hthrow.
  - intros first -> Hty. rewrite Hrun. unfold tryCatch. cbn [nth_error].
    destruct (String.eqb (es_type first) "SpreadElement") eqn:Es;
      [apply String.eqb_eq in Es; contradiction|].
    unfold ret. eexists. split; [reflexivity|]. cbn [res_expression res_comments res_tokens].
    split; [reflexivity|]. split; [reflexivity|].
    intros zero open inner close ->. unfold Script.removeParens. cbn [skipn].
    apply removelast_last.
Qed.

(** X10, for the payload [a, b] of [<view>{{a, b}}</view>] and a script
    parser that returns the call of [0] with the two arguments: the error
    is at the comma, at 9. *)
Lemma X10_witness :
  let program :=
    Espree.call0 [Espree.id "a" 2; Espree.id "b" 5]
      [Espree.tok "Identifier" "a" 2; Espree.tok "Punctuator" "," 3;
       Espree.tok "Identifier" "b" 5] 7 in
  let backend := mkScriptBackend (fun _ _ => inl program) (fun _ _ => []) in
  let c := LocationCalculator.getSubCalculatorAfter (LocationCalculator.new [] []) 8 in
  let opts := script (resolveParserOptions (mkOptions None None None)) in
  let env := mkEnv [] [] [] [] [] in
  Script.parseExpression backend (JS.lit "a, b") c opts env
  = Throw (ParseErrorExn (mkParseError (JS.lit "Unexpected token ','.") None 9 1 9))
          (mkEnv [] [] [] [] [JS.lit "0(a, b)"]).
Proof.
  intros program backend c opts env.
  set (c' := LocationCalculator.getSubCalculatorShift c (-2)).
  set (t := fun ty v a => LocationCalculator.fixToken c' (Espree.tok ty v a)).
  destruct (X10_parseExpression_by_arguments backend (JS.lit "a, b") c opts env
              (mkEnv [] [] [] [] [JS.lit "0(a, b)"])
              (Script.postprocess program c')
              (Script.fixNode c' (Espree.node "ExpressionStatement"
                 [ESCallExpression (Espree.node "Literal" [] 0 1)
                    [Espree.id "a" 2; Espree.id "b" 5] (0, 7) (Espree.at1 0 7)] 0 7))
              (Script.fixNode c' (ESCallExpression (Espree.node "Literal" [] 0 1)
                    [Espree.id "a" 2; Espree.id "b" 5] (0, 7) (Espree.at1 0 7)))
              []
              [Script.fixNode c' (Espree.id "a" 2); Script.fixNode c' (Espree.id "b" 5)]
              eq_refl eq_refl eq_refl eq_refl) as (_ & _ & H & _).
  rewrite (H (Script.fixNode c' (Espree.id "a" 2)) (Script.fixNode c' (Espree.id "b" 5)) []
             [t "Numeric"%string "0"%string 0; t "Punctuator"%string "("%string 1;
              t "Identifier"%string "a"%string 2]
             (t "Punctuator"%string ","%string 3) []
             (t "Identifier"%string "b"%string 5)
             [t "Punctuator"%string ")"%string 6]
             eq_refl ltac:(discriminate) eq_refl eq_refl
             ltac:(repeat constructor)
             ltac:(repeat constructor; vm_compute; reflexivity)
             ltac:(repeat constructor; vm_compute; discriminate)).
  reflexivity.
Defined.

(* ================================================================== *)
(** * The references that leave a script *)
(* ================================================================== *)

Lemma sameNode_iff (a b : ESNode) :
  Script.sameNode a b = true <-> es_type a = es_type b /\ es_range a = es_range b.
Proof.
  unfold Script.sameNode. rewrite !andb_true_iff, String.eqb_eq, !Z.eqb_eq.
  destruct (es_range a) as [a0 a1], (es_range b) as [b0 b1]. simpl.
  split; [intros [[H1 H2] H3]; subst; auto|intros [H1 H2]; inversion H2; auto].
Qed.

Lemma sameNode_refl (a : ESNode) : Script.sameNode a a = true.
Proof. apply sameNode_iff. auto. Qed.

Lemma sameNode_trans (a b c : ESNode) :
  Script.sameNode a b = true -> Script.sameNode b c = true -> Script.sameNode a c = true.
Proof.
  rewrite !sameNode_iff. intros [H1 H2] [H3 H4]. split; congruence.
Qed.

Lemma sameNode_sym (a b : ESNode) : Script.sameNode a b = Script.sameNode b a.
Proof.
  destruct (Script.sameNode a b) eqn:E1, (Script.sameNode b a) eqn:E2; try reflexivity.
  - apply sameNode_iff in E1 as [H1 H2].
    assert (H : Script.sameNode b a = true) by (apply sameNode_iff; auto). congruence.
  - apply sameNode_iff in E2 as [H1 H2].
    assert (H : Script.sameNode a b = true) by (apply sameNode_iff; auto). congruence.
Qed.

(** The head of [uniques prev l] is not the identifier of [prev], and no
    neighbours in it are the same identifier. *)
Lemma uniques_distinct (l : list ScopeReference) :
  forall prev,
    distinctNeighbours (map Script.transformReference (Script.uniques prev l))
    /\ match prev, Script.uniques prev l with
       | Some p, h :: _ => Script.sameNode (sr_identifier h) (sr_identifier p) = false
       | _, _ => True
       end.
Proof.
  induction l as [|r l IH]; intros prev; simpl; [destruct prev; auto|].
  destruct (IH (Some r)) as [H1 H2].
  destruct prev as [p|]; simpl.
  - destruct (Script.sameNode (sr_identifier r) (sr_identifier p)) eqn:E; simpl.
    + split; [exact H1|].
      destruct (Script.uniques (Some r) l) as [|h t]; [exact I|].
      destruct (Script.sameNode (sr_identifier h) (sr_identifier p)) eqn:Eh; [|reflexivity].
      rewrite sameNode_sym in E.
      pose proof (sameNode_trans _ _ _ Eh E) as F. congruence.
    + split; [|exact E].
      destruct (Script.uniques (Some r) l) as [|h t]; simpl in *; [exact I|].
      split; [exact H2|exact H1].
  - split; [|exact I].
    destruct (Script.uniques (Some r) l) as [|h t]; simpl in *; [exact I|].
    split; [exact H2|exact H1].
Qed.

Lemma uniques_covers (l : list ScopeReference) :
  forall prev s,
    In s l ->
    (exists r, In r (Script.uniques prev l)
               /\ Script.sameNode (sr_identifier r) (sr_identifier s) = true)
    \/ (exists p, prev = Some p
                  /\ Script.sameNode (sr_identifier s) (sr_identifier p) = true).
Proof.
  induction l as [|r l IH]; intros prev s Hs; [destruct Hs|].
  simpl.
  assert (K : (exists p, prev = Some p
                 /\ Script.sameNode (sr_identifier r) (sr_identifier p) = true)
              \/ In r ((if match prev with
                           | Some p => negb (Script.sameNode (sr_identifier r)
                                                (sr_identifier p))
                           | None => true
                           end then [r] else []) ++ Script.uniques (Some r) l)).
  { destruct prev as [p|]; [|right; now left].
    destruct (Script.sameNode (sr_identifier r) (sr_identifier p)) eqn:E;
      [left; eauto|right; now left]. }
  destruct Hs as [<-|Hs].
  - destruct K as [K|K]; [right; exact K|left].
    exists r. split; [exact K|apply sameNode_refl].
  - destruct (IH (Some r) s Hs) as [(r' & Hr & E)|(p & Hp & E)].
    + left. exists r'. split; [apply in_or_app; now right|exact E].
    + inversion Hp; subst p.
      destruct K as [(q & Hq & Eq)|K].
      * right. exists q. split; [exact Hq|exact (sameNode_trans _ _ _ E Eq)].
      * left. exists r. split; [exact K|now rewrite sameNode_sym].
Qed.

Lemma uniques_sublist (l : list ScopeReference) :
  forall prev r, In r (Script.uniques prev l) -> In r l.
Proof.
  induction l as [|a l IH]; intros prev r H; simpl in *; [exact H|].
  apply in_app_or in H as [H|H].
  - destruct (match prev with Some p => _ | None => true end); [|destruct H].
    destruct H as [<-|[]]. now left.
  - right. exact (IH _ _ H).
Qed.

(** X11.  The references [analyzeExternalReferences] returns for the
    references [through] of the global scope: no one of them is to the
    identifier of the one before it; each is made of a reference of
    [through], with its identifier, with no variable, and with the mode
    [r] if that one only reads, [w] if it only writes and [rw] otherwise;
    and every identifier of [through] is the identifier of one of them. *)
Theorem X11_external_references :
  forall backend (p : ESProgram) (opts : ScriptParserOptions),
    let through := backend_through backend p opts in
    let references := Script.analyzeExternalReferences backend p opts in
    distinctNeighbours references
    /\ (forall r, In r references ->
          exists s, In s through
                    /\ ref_id r = sr_identifier s
                    /\ ref_variable r = None
                    /\ ref_mode r = (if sr_isReadOnly s then "r"
                                     else if sr_isWriteOnly s then "w" else "rw")%string)
    /\ (forall s, In s through ->
          exists r, In r references
                    /\ Script.sameNode (ref_id r) (sr_identifier s) = true).
Proof.
  intros backend p opts through references.
  unfold references, Script.analyzeExternalReferences. fold through.
  split; [apply (uniques_distinct through None)|]. split.
  - intros r Hr. apply in_map_iff in Hr as (s & <- & Hs).
    exists s. split; [exact (uniques_sublist _ _ _ Hs)|]. repeat split.
  - intros s Hs. destruct (uniques_covers through None s Hs) as [(r & Hr & E)|(q & Hq & _)];
      [|discriminate].
    exists (Script.transformReference r). split; [now apply in_map|exact E].
Qed.

(** X11, for a scope whose references are to [a], read, to the same [a]
    again, and to [b], written. *)
Lemma X11_witness :
  let a := mkScopeReference (Espree.id "a" 2) true false in
  let b := mkScopeReference (Espree.id "b" 6) false true in
  let backend := mkScriptBackend (fun _ _ => inr (ThrownOther "unused"))
                                 (fun _ _ => [a; a; b]) in
  let p := mkESProgram [] None None (0, 0) (Espree.at1 0 0) in
  let opts := script (resolveParserOptions (mkOptions None None None)) in
  Script.analyzeExternalReferences backend p opts
  = [mkReference (Espree.id "a" 2) "r" None; mkReference (Espree.id "b" 6) "w" None]
  /\ exists r, In r (Script.analyzeExternalReferences backend p opts)
               /\ Script.sameNode (ref_id r) (Espree.id "b" 6) = true.
Proof.
  intros a b backend p opts. split; [reflexivity|].
  destruct (X11_external_references backend p opts) as (_ & _ & H).
  apply (H b). simpl. auto.
Defined.

(* ================================================================== *)
(** * The handlers of the intermediate tokenizer *)
(* ================================================================== *)

Lemma handle_text (k : Token) :
  isTextType (tok_type k) = true ->
  IntermediateTokenizer.handle k = IntermediateTokenizer.processText k.
Proof. unfold IntermediateTokenizer.handle. destruct (tok_type k); try discriminate; reflexivity. Qed.

Lemma last_cons {A} (l : list A) : forall a d : A, last (a :: l) d = last l a.
Proof.
  induction l as [|b l IH]; intros a d; [reflexivity|].
  change (last (a :: b :: l) d) with (last (b :: l) d). now rewrite !IH.
Qed.

Lemma extendText_all (ks : list Token) :
  forall (r0 : Z) (ls : Location) (v : JS.str) (k : Token),
    fold_left extendText ks
      (mkText (r0, snd (tok_range k)) (mkLocationRange ls (loc_end (tok_loc k))) v)
    = mkText (r0, snd (tok_range (last ks k)))
        (mkLocationRange ls (loc_end (tok_loc (last ks k))))
        (v ++ concat (map tok_value ks)).
Proof.
  induction ks as [|k' ks IH]; intros r0 ls v k; simpl fold_left.
  - simpl. now rewrite app_nil_r.
  - transitivity
      (fold_left extendText ks
         (mkText (r0, snd (tok_range k')) (mkLocationRange ls (loc_end (tok_loc k')))
            (v ++ tok_value k'))); [reflexivity|].
    rewrite IH, last_cons. simpl. now rewrite <- app_assoc.
Qed.

Lemma texts_extend (ks : list Token) :
  forall (x : IntermediateTokenizer.t) (cur : Text) (end' : Token),
    Forall (fun k => isTextType (tok_type k) = true) ks ->
    chained end' ks ->
    snd (tx_range cur) = snd (tok_range end') ->
    IntermediateTokenizer.currentToken x = Some (IText cur) ->
    IntermediateTokenizer.expressionStartToken x = None ->
    handleAll ks x
    = Ok []
        (IntermediateTokenizer.mk
           (IntermediateTokenizer.tokenizer x)
           (Some (IText (fold_left extendText ks cur)))
           (IntermediateTokenizer.currentStartTag x)
           (IntermediateTokenizer.attribute x)
           (IntermediateTokenizer.attributeNames x)
           None
           (IntermediateTokenizer.expressionTokens x)
           (IntermediateTokenizer.tokens x ++ ks)
           (IntermediateTokenizer.comments x)).
Proof.
  induction ks as [|k ks IH]; intros x cur end' Hty Hch He Hc Hx.
  - simpl. unfold ret. destruct x; simpl in *. subst. now rewrite app_nil_r.
  - inversion Hty as [|? ? Hk Hks]; subst. destruct Hch as [Ha Hch].
    cbn [handleAll]. rewrite (handle_text k Hk).
    unfold bind at 1.
    unfold IntermediateTokenizer.processText.
    unfold bind at 1. unfold IntermediateTokenizer.pushToken, modify at 1.
    unfold bind at 1, gets at 1. cbn [IntermediateTokenizer.expressionStartToken
      IntermediateTokenizer.set_tokens]. rewrite Hx.
    unfold bind at 1, gets at 1. cbn [IntermediateTokenizer.currentToken
      IntermediateTokenizer.set_tokens]. rewrite Hc.
    rewrite He, Ha, Z.eqb_refl.
    unfold bind at 1, modify at 1, ret at 1.
    unfold bind at 1.
    erewrite (IH _ (extendText cur k) k Hks Hch); [|reflexivity|reflexivity|exact Hx].
    unfold ret. cbn. rewrite <- app_assoc. reflexivity.
Qed.

(** X12.  Text tokens that follow one another without a gap, handled when
    no token and no mustache is pending: no intermediate token is
    returned; the tokens are added to the tokens of the document, in
    order; and the current token is one [Text] from the start of the first
    token to the end of the last, whose value is the values of the tokens
    put together. *)
Theorem X12_adjacent_texts_merge :
  forall (k : Token) (ks : list Token) (x : IntermediateTokenizer.t),
    Forall (fun k => isTextType (tok_type k) = true) (k :: ks) ->
    chained k ks ->
    IntermediateTokenizer.currentToken x = None ->
    IntermediateTokenizer.expressionStartToken x = None ->
    handleAll (k :: ks) x
    = Ok []
        (IntermediateTokenizer.mk
           (IntermediateTokenizer.tokenizer x)
           (Some (IText (mkText (fst (tok_range k), snd (tok_range (last ks k)))
                           (mkLocationRange (loc_start (tok_loc k))
                              (loc_end (tok_loc (last ks k))))
                           (concat (map tok_value (k :: ks))))))
           (IntermediateTokenizer.currentStartTag x)
           (IntermediateTokenizer.attribute x)
           (IntermediateTokenizer.attributeNames x)
           None
           (IntermediateTokenizer.expressionTokens x)
           (IntermediateTokenizer.tokens x ++ k :: ks)
           (IntermediateTokenizer.comments x)).
Proof.
  intros k ks x Hty Hch Hc Hx.
  inversion Hty as [|? ? Hk Hks]; subst.
  cbn [handleAll]. rewrite (handle_text k Hk).
  unfold bind at 1. unfold IntermediateTokenizer.processText.
  unfold bind at 1. unfold IntermediateTokenizer.pushToken, modify at 1.
  unfold bind at 1, gets at 1. cbn [IntermediateTokenizer.expressionStartToken
    IntermediateTokenizer.set_tokens]. rewrite Hx.
  unfold bind at 1, gets at 1. cbn [IntermediateTokenizer.currentToken
    IntermediateTokenizer.set_tokens]. rewrite Hc.
  unfold bind at 1, gets at 1. cbn [IntermediateTokenizer.currentToken
    IntermediateTokenizer.set_tokens]. rewrite Hc.
  cbn [isSome negb assert]. unfold bind at 1, ret at 1.
  unfold bind at 1, modify at 1, ret at 1.
  unfold bind at 1.
  erewrite (texts_extend ks _
              (mkText (fst (tok_range k), snd (tok_range k))
                 (mkLocationRange (loc_start (tok_loc k)) (loc_end (tok_loc k)))
                 (tok_value k)) k Hks Hch); [|reflexivity|reflexivity|exact Hx].
  unfold ret. cbn. rewrite extendText_all. rewrite <- app_assoc. reflexivity.
Qed.

(** X12, for the three tokens of the text [a b] that starts at 6. *)
Lemma X12_witness :
  let k := fun ty (v : string) a => mkToken 1 ty (a, a + 1) (Espree.at1 a (a + 1)) (JS.lit v) in
  let x := IntermediateTokenizer.new (Tokenizer.new (JS.lit "<view>a b")) in
  exists x',
    handleAll [k HTMLText "a"%string 6; k HTMLWhitespace " "%string 7;
               k HTMLText "b"%string 8] x = Ok [] x'
    /\ IntermediateTokenizer.currentToken x'
       = Some (IText (mkText (6, 9) (Espree.at1 6 9) (JS.lit "a b"))).
Proof.
  intros k x. eexists. split.
  - apply (X12_adjacent_texts_merge (k HTMLText "a"%string 6)
             [k HTMLWhitespace " "%string 7; k HTMLText "b"%string 8] x).
    + repeat constructor.
    + simpl. auto.
    + reflexivity.
    + reflexivity.
  - reflexivity.
Defined.

Lemma handle_identifier (k : Token) :
  tok_type k = HTMLIdentifier ->
  IntermediateTokenizer.handle k = IntermediateTokenizer.HTMLIdentifier_ k.
Proof. intros H. unfold IntermediateTokenizer.handle. now rewrite H. Qed.

(** The attribute [HTMLIdentifier] makes of a token. *)
Lemma identifiers_add (ks : list Token) :
  forall (x : IntermediateTokenizer.t) (s : StartTag),
    Forall (fun k => tok_type k = HTMLIdentifier) ks ->
    IntermediateTokenizer.currentStartTag x = Some s ->
    exists x' s',
      handleAll ks x = Ok [] x'
      /\ Tokenizer.errors (IntermediateTokenizer.tokenizer x')
         = Tokenizer.errors (IntermediateTokenizer.tokenizer x)
           ++ map (fun k => IntermediateTokenizer.parseErrorAt (tok_range k) (tok_loc k)
                              "duplicate-attribute")
                  (repeated (IntermediateTokenizer.attributeNames x) ks)
      /\ IntermediateTokenizer.currentStartTag x' = Some s'
      /\ st_name s' = st_name s
      /\ map (fun a => key_name (at_key a)) (st_attributes s')
         = map (fun a => key_name (at_key a)) (st_attributes s) ++ map tok_value ks
      /\ IntermediateTokenizer.tokens x' = IntermediateTokenizer.tokens x ++ ks.
Proof.
  induction ks as [|k ks IH]; intros x s Hty Hs.
  - exists x, s. simpl. rewrite !app_nil_r. repeat split; auto.
  - inversion Hty as [|? ? Hk Hks]; subst.
    cbn [handleAll]. rewrite (handle_identifier k Hk).
    unfold IntermediateTokenizer.HTMLIdentifier_, IntermediateTokenizer.pushToken,
      IntermediateTokenizer.reportParseError.
    unfold bind, modify, gets.
    cbn [IntermediateTokenizer.currentStartTag IntermediateTokenizer.set_tokens
         IntermediateTokenizer.attributeNames].
    rewrite Hs. cbn [repeated].
    cbn [IntermediateTokenizer.currentStartTag IntermediateTokenizer.set_tokens
         IntermediateTokenizer.attributeNames].
    destruct (existsb (JS.eqb (tok_value k)) (IntermediateTokenizer.attributeNames x)) eqn:E;
      cbn [negb when]; unfold modify, ret; cbv beta iota;
      match goal with
      | |- context [handleAll ks ?y] =>
          destruct (IH y _ Hks eq_refl) as (x' & s' & H & He & Hs' & Hn & Ha & Ht)
      end;
      rewrite H; exists x', s'; (split; [reflexivity|]);
      cbn in He, Hn, Ha, Ht.
    + split; [rewrite He; cbn; now rewrite <- app_assoc|].
      split; [exact Hs'|]. split; [exact Hn|].
      split; [rewrite Ha, map_app; cbn; now rewrite <- app_assoc|].
      rewrite Ht. now rewrite <- app_assoc.
    + split; [exact He|].
      split; [exact Hs'|]. split; [exact Hn|].
      split; [rewrite Ha, map_app; cbn; now rewrite <- app_assoc|].
      rewrite Ht. now rewrite <- app_assoc.
Qed.

(** X13.  The token that opens a tag and the tokens of the names of its
    attributes, handled when no token and no mustache is pending: no
    intermediate token is returned; one error [duplicate-attribute] is
    reported, in order, at each name that an attribute before it in this
    tag has, and at no other; the attribute of a name so reported is among
    the attributes of the start tag all the same, which are as many as the
    names and in their order; the names of an earlier tag play no part;
    the tokens are added to the tokens of the document. *)
Theorem X13_repeated_attribute_names :
  forall (open : Token) (ks : list Token) (x : IntermediateTokenizer.t),
    tok_type open = HTMLTagOpen ->
    Forall (fun k => tok_type k = HTMLIdentifier) ks ->
    IntermediateTokenizer.currentToken x = None ->
    IntermediateTokenizer.expressionStartToken x = None ->
    exists x' s',
      handleAll (open :: ks) x = Ok [] x'
      /\ Tokenizer.errors (IntermediateTokenizer.tokenizer x')
         = Tokenizer.errors (IntermediateTokenizer.tokenizer x)
           ++ map (fun k => IntermediateTokenizer.parseErrorAt (tok_range k) (tok_loc k)
                              "duplicate-attribute")
                  (repeated [] ks)
      /\ IntermediateTokenizer.currentStartTag x' = Some s'
      /\ st_name s' = tok_value open
      /\ map (fun a => key_name (at_key a)) (st_attributes s') = map tok_value ks
      /\ IntermediateTokenizer.tokens x' = IntermediateTokenizer.tokens x ++ open :: ks.
Proof.
  intros open ks x Ho Hks Hc Hx.
  cbn [handleAll]. unfold IntermediateTokenizer.handle at 1. rewrite Ho.
  unfold IntermediateTokenizer.HTMLTagOpen_, IntermediateTokenizer.pushToken.
  unfold bind, modify, gets.
  cbn [IntermediateTokenizer.currentToken IntermediateTokenizer.expressionStartToken
       IntermediateTokenizer.set_tokens].
  rewrite Hc, Hx. cbn [isSome orb]. unfold ret at 1. cbv beta iota.
  unfold ret at 1. cbv beta iota.
  match goal with
  | |- context [handleAll ks ?y] =>
      destruct (identifiers_add ks y _ Hks eq_refl)
        as (x' & s' & H & He & Hs' & Hn & Ha & Ht)
  end.
  rewrite H. exists x', s'. split; [reflexivity|].
  cbn in He, Hn, Ha, Ht.
  split; [exact He|]. split; [exact Hs'|]. split; [exact Hn|].
  split; [exact Ha|rewrite Ht; now rewrite <- app_assoc].
Qed.

(** X13, for the tokens of [<a b c b] in a document that has a [b] in an
    earlier tag: one error, at the second [b], at 7. *)
Lemma X13_witness :
  let k := fun ty (v : string) a => mkToken 1 ty (a, a + 1) (Espree.at1 a (a + 1)) (JS.lit v) in
  let x := IntermediateTokenizer.set_attributeNames [JS.lit "b"]
             (IntermediateTokenizer.new (Tokenizer.new (JS.lit "<a b c b"))) in
  exists x',
    handleAll [mkToken 1 HTMLTagOpen (0, 2) (Espree.at1 0 2) (JS.lit "a");
               k HTMLIdentifier "b"%string 3; k HTMLIdentifier "c"%string 5;
               k HTMLIdentifier "b"%string 7] x = Ok [] x'
    /\ Tokenizer.errors (IntermediateTokenizer.tokenizer x')
       = [ParseErrors.fromCode "duplicate-attribute" 7 1 7].
Proof.
  intros k x.
  destruct (X13_repeated_attribute_names
              (mkToken 1 HTMLTagOpen (0, 2) (Espree.at1 0 2) (JS.lit "a"))
              [k HTMLIdentifier "b"%string 3; k HTMLIdentifier "c"%string 5;
               k HTMLIdentifier "b"%string 7] x eq_refl
              ltac:(repeat constructor) eq_refl eq_refl)
    as (x' & s' & H & He & _).
  exists x'. split; [exact H|]. rewrite He. reflexivity.
Defined.

(* ================================================================== *)
(** * The tokens and the comments of the document *)
(* ================================================================== *)

Module Holds.
Import IntermediateTokenizer.

Lemma safe_bind {S A B} (P : S -> Prop) (m : M S A) (k : A -> M S B) R Q :
  safe P m R -> (forall a, safe (R a) (k a) Q) -> safe P (bind m k) Q.
Proof. intros Hm Hk. unfold safe in *. eapply hoare_bind; eauto. Qed.

Section Kept.
Variables ts cs : list Token.

Lemma kept_set (f : t -> t) :
  (forall x, tokens (f x) = tokens x /\ comments (f x) = comments x) ->
  keeps (holds ts cs) (modify f).
Proof.
  intros H. apply keeps_modify. intros x [H1 H2]. destruct (H x) as [E1 E2].
  split; congruence.
Qed.

Lemma kept_reportParseError range loc c : keeps (holds ts cs) (reportParseError range loc c).
Proof. unfold reportParseError. apply kept_set. intros x. split; reflexivity. Qed.

Lemma kept_updateAttribute f : keeps (holds ts cs) (updateAttribute f).
Proof.
  unfold updateAttribute. apply kept_set. intros x.
  destruct (attribute x); [destruct (currentStartTag x)|]; split; reflexivity.
Qed.

Lemma kept_extendStartTag k : keeps (holds ts cs) (extendStartTag k).
Proof.
  unfold extendStartTag, throwParseError.
  repeat first [apply kept_set; intros ?; split; reflexivity | keeps_step].
Qed.

Ltac kept :=
  repeat first
    [ apply kept_reportParseError | apply kept_updateAttribute
    | apply kept_extendStartTag
    | match goal with
      | |- keeps _ (modify _) => apply kept_set; intros ?; split; reflexivity
      end
    | progress unfold throwParseError
    | keeps_step ].

Lemma kept_commit : keeps (holds ts cs) commit.
Proof. unfold commit. kept. Qed.

End Kept.

Ltac kept :=
  repeat first
    [ apply kept_commit | apply kept_reportParseError | apply kept_updateAttribute
    | apply kept_extendStartTag
    | match goal with
      | |- keeps _ (modify _) => apply kept_set; intros ?; split; reflexivity
      end
    | progress unfold throwParseError
    | keeps_step ].

(** The steps of a proof that a handler adds its token to the tokens. *)
Ltac pushes :=
  cbv zeta;
  repeat match goal with
    | |- safe (holds ?ts ?cs) (bind (pushToken ?k) _) _ =>
        unfold pushToken at 1;
        apply safe_modify_bind with (P' := holds (ts ++ [k]) cs);
        [intros ? [? ?]; split; [cbn; f_equal; assumption|cbn; assumption]|]
    | |- safe _ (bind (gets _) _) _ => apply safe_gets_bind; intros ?
    | |- safe _ (bind _ _) _ => apply safe_keeps_bind; [solve [kept]|intros ?]
    | |- safe _ (ret _) _ => apply safe_ret; intros ? ?; assumption
    | |- safe _ (throw _) _ => apply safe_throw
    | |- safe _ (throwParseError _ _ _) _ => apply safe_throw
    | |- safe _ (if ?c then _ else _) _ => destruct c
    | |- safe _ (match ?x with _ => _ end) _ => destruct x
    end.

Lemma pushes_processText ts cs k :
  safe (holds ts cs) (processText k) (fun _ => holds (ts ++ [k]) cs).
Proof. unfold processText. pushes. Qed.

Lemma pushes_handle ts cs k :
  safe (holds ts cs) (handle k)
       (fun _ => if isCommentType (tok_type k) then holds ts (cs ++ [k])
                 else holds (ts ++ [k]) cs).
Proof.
  unfold handle.
  destruct (tok_type k); cbn [isCommentType];
    try apply pushes_processText;
    try apply safe_throw.
  - unfold HTMLAssociation_. pushes.
  - unfold processComment.
    eapply safe_modify_bind with (P' := holds ts (cs ++ [k]));
      [intros ? [? ?]; split; [cbn; assumption|cbn; f_equal; assumption]|].
    pushes.
  - unfold processComment.
    eapply safe_modify_bind with (P' := holds ts (cs ++ [k]));
      [intros ? [? ?]; split; [cbn; assumption|cbn; f_equal; assumption]|].
    pushes.
  - unfold HTMLEndTagOpen_. pushes.
  - unfold HTMLIdentifier_. pushes.
  - unfold HTMLLiteral_. pushes.
  - unfold HTMLAttrLiteral_. pushes.
  - unfold HTMLQuote_. pushes.
  - unfold HTMLSelfClosingTagClose_. pushes.
  - unfold HTMLTagClose_. pushes.
  - unfold HTMLTagOpen_. pushes.
  - unfold XMustacheStart_. pushes. apply pushes_processText.
  - unfold XMustacheEnd_. pushes.
    + eapply safe_bind; [apply pushes_processText|intros ?]. pushes.
    + apply pushes_processText.
Qed.

End Holds.

Lemma handleAll_holds (ks : list Token) :
  forall x rs x',
    handleAll ks x = Ok rs x' ->
    IntermediateTokenizer.tokens x'
    = IntermediateTokenizer.tokens x
      ++ filter (fun k => negb (isCommentType (tok_type k))) ks
    /\ IntermediateTokenizer.comments x'
       = IntermediateTokenizer.comments x
         ++ filter (fun k => isCommentType (tok_type k)) ks.
Proof.
  induction ks as [|k ks IH]; intros x rs x' H.
  - inversion H; subst. simpl. now rewrite !app_nil_r.
  - cbn [handleAll] in H. unfold bind at 1 in H.
    pose proof (Holds.pushes_handle (IntermediateTokenizer.tokens x)
                  (IntermediateTokenizer.comments x) k x (conj eq_refl eq_refl)) as Hk.
    destruct (IntermediateTokenizer.handle k x) as [r y|e y]; [|discriminate H].
    unfold bind at 1 in H.
    destruct (handleAll ks y) as [rs' y'|e y'] eqn:E; [|discriminate H].
    inversion H; subst. destruct (IH y rs' x' E) as [H1 H2].
    cbn [filter]. destruct (isCommentType (tok_type k)); destruct Hk as [K1 K2];
      cbn [negb]; rewrite H1, H2, K1, K2; rewrite <- ?app_assoc; auto.
Qed.

Lemma nextToken_loop_holds (n : nat) :
  forall x r x',
    IntermediateTokenizer.nextToken_loop n x = Ok r x' ->
    exists ks,
      IntermediateTokenizer.tokens x'
      = IntermediateTokenizer.tokens x
        ++ filter (fun k => negb (isCommentType (tok_type k))) ks
      /\ IntermediateTokenizer.comments x'
         = IntermediateTokenizer.comments x
           ++ filter (fun k => isCommentType (tok_type k)) ks.
Proof.
  induction n as [|n IH]; intros x r x' H; [discriminate H|].
  cbn [IntermediateTokenizer.nextToken_loop] in H.
  unfold bind at 1, IntermediateTokenizer.onTokenizer at 1 in H.
  destruct (Tokenizer.nextToken (IntermediateTokenizer.tokenizer x)) as [o tk|e tk];
    [|discriminate H].
  destruct o as [k|].
  - unfold bind at 1 in H.
    set (y := IntermediateTokenizer.set_tokenizer tk x) in *.
    pose proof (Holds.pushes_handle (IntermediateTokenizer.tokens y)
                  (IntermediateTokenizer.comments y) k y (conj eq_refl eq_refl)) as Hk.
    destruct (IntermediateTokenizer.handle k y) as [res z|e z]; [|discriminate H].
    destruct res as [i|].
    + inversion H; subst. exists [k]. cbn [filter].
      destruct (isCommentType (tok_type k)); destruct Hk as [K1 K2]; cbn [negb];
        rewrite K1, K2; split; rewrite ?app_nil_r; reflexivity.
    + destruct (IH z r x' H) as (ks & H1 & H2).
      exists (k :: ks). cbn [filter].
      destruct (isCommentType (tok_type k)); destruct Hk as [K1 K2]; cbn [negb];
        rewrite H1, H2, K1, K2; rewrite <- ?app_assoc; auto.
  - inversion H; subst. exists []. simpl. now rewrite !app_nil_r.
Qed.

(** X14.  The tokens and the comments of the document.  Whatever tokens
    the handlers of the intermediate tokenizer are given, when they
    return, the tokens that are no comments have been added to the tokens
    of the document, each once and in their order, and the comments to its
    comments, each once and in their order.  [nextToken] adds to the end
    of the two arrays and takes nothing away: no comment to the tokens,
    and comments only to the comments. *)
Theorem X14_tokens_and_comments_of_the_document :
  (forall ks x rs x',
     handleAll ks x = Ok rs x' ->
     IntermediateTokenizer.tokens x'
     = IntermediateTokenizer.tokens x
       ++ filter (fun k => negb (isCommentType (tok_type k))) ks
     /\ IntermediateTokenizer.comments x'
        = IntermediateTokenizer.comments x
          ++ filter (fun k => isCommentType (tok_type k)) ks)
  /\ (forall x r x',
        IntermediateTokenizer.nextToken x = Ok r x' ->
        exists added addedComments,
          IntermediateTokenizer.tokens x' = IntermediateTokenizer.tokens x ++ added
          /\ IntermediateTokenizer.comments x'
             = IntermediateTokenizer.comments x ++ addedComments
          /\ Forall (fun k => isCommentType (tok_type k) = false) added
          /\ Forall (fun k => isCommentType (tok_type k) = true) addedComments).
Proof.
  split; [exact handleAll_holds|].
  intros x r x' H. unfold IntermediateTokenizer.nextToken in H.
  unfold bind at 1, gets at 1 in H. unfold bind at 1 in H.
  destruct (IntermediateTokenizer.nextToken_loop _ x) as [[result ended] y|e y] eqn:E;
    [|discriminate H].
  apply nextToken_loop_holds in E as (ks & H1 & H2).
  assert (K : IntermediateTokenizer.tokens x' = IntermediateTokenizer.tokens y
              /\ IntermediateTokenizer.comments x' = IntermediateTokenizer.comments y).
  { unfold bind at 1, gets at 1 in H.
    destruct (negb (isSome result) && ended
              && isSome (IntermediateTokenizer.currentToken y)).
    - pose proof (Holds.kept_commit (IntermediateTokenizer.tokens y)
                    (IntermediateTokenizer.comments y) y (conj eq_refl eq_refl)) as Hc.
      unfold bind in H.
      destruct (IntermediateTokenizer.commit y) as [c z|e z]; [|discriminate H].
      inversion H; subst. exact Hc.
    - inversion H; subst. auto. }
  destruct K as [K1 K2].
  exists (filter (fun k => negb (isCommentType (tok_type k))) ks),
         (filter (fun k => isCommentType (tok_type k)) ks).
  split; [congruence|]. split; [congruence|].
  split; apply Forall_forall; intros k Hk; apply filter_In in Hk as [_ Hk];
    [now apply negb_true_iff in Hk|exact Hk].
Qed.

(** X14, for a comment between two texts. *)
Lemma X14_witness :
  let k := fun ty (v : string) a b => mkToken 1 ty (a, b) (Espree.at1 a b) (JS.lit v) in
  let a := k HTMLText "a"%string 0 1 in
  let c := k HTMLComment "c"%string 1 9 in
  let b := k HTMLText "b"%string 9 10 in
  let x := IntermediateTokenizer.new (Tokenizer.new (JS.lit "a<!--c-->b")) in
  exists rs x',
    handleAll [a; c; b] x = Ok rs x'
    /\ IntermediateTokenizer.tokens x' = [a; b]
    /\ IntermediateTokenizer.comments x' = [c].
Proof.
  intros k a c b x.
  destruct (handleAll [a; c; b] x) as [rs x'|e x'] eqn:E; [|vm_compute in E; discriminate E].
  exists rs, x'. split; [reflexivity|].
  destruct X14_tokens_and_comments_of_the_document as [H _].
  exact (H [a; c; b] x rs x' E).
Defined.

(* ================================================================== *)
(** * End tags *)
(* ================================================================== *)

Lemma propagateEndLocation_tags (e : XElement) :
  el_endTag (Parser.propagateEndLocation e) = el_endTag e
  /\ el_startTag (Parser.propagateEndLocation e) = el_startTag e
  /\ el_name (Parser.propagateEndLocation e) = el_name e
  /\ el_children (Parser.propagateEndLocation e) = el_children e.
Proof.
  unfold Parser.propagateEndLocation.
  destruct (match el_endTag e with Some g => _ | None => _ end) as [[r l]|];
    repeat split; reflexivity.
Qed.

(** One [popElementStack]. *)
Lemma popElementStack_run (x : Parser.t) (e : XElement) (rest : list XElement) :
  Parser.elementStack x = e :: rest ->
  exists x',
    Parser.popElementStack x = Ok tt x'
    /\ Parser.parserOptions x' = Parser.parserOptions x
    /\ length (Parser.elementStack x') = length rest
    /\ childrenOfCurrentNode x'
       = childrenOfCurrentNode (Parser.set_elementStack rest x)
         ++ [CElement (Parser.propagateEndLocation e)]
    /\ match rest with
       | top :: r =>
           Parser.elementStack x'
           = Lang.withChildren top
               (el_children top ++ [CElement (Parser.propagateEndLocation e)]) :: r
           /\ Parser.document x' = Parser.document x
           /\ Tokenizer.expressionEnabled (Parser.rawTokenizer x')
              = Tokenizer.expressionEnabled (Parser.rawTokenizer x)
       | [] =>
           Parser.elementStack x' = []
           /\ Tokenizer.expressionEnabled (Parser.rawTokenizer x') = false
       end
    /\ Tokenizer.errors (Parser.rawTokenizer x')
       = Tokenizer.errors (Parser.rawTokenizer x)
         ++ (if negb (isSome (el_endTag e)) && noOpenTag (Parser.parserOptions x)
             then [missingEndTag e] else []).
Proof.
  intros H. unfold Parser.popElementStack.
  unfold bind at 1, gets at 1. rewrite H.
  destruct (propagateEndLocation_tags e) as (E1 & E2 & _).
  unfold bind, modify, gets, Parser.pushChild. cbn [Parser.elementStack Parser.set_elementStack].
  rewrite E1, E2. fold (missingEndTag e).
  cbn [Parser.parserOptions Parser.set_elementStack Parser.set_document].
  destruct rest as [|top r]; cbn;
    destruct (negb (isSome (el_endTag e)) && noOpenTag (Parser.parserOptions x));
    cbn; eexists; (split; [reflexivity|]); cbn; rewrite ?app_nil_r; repeat split.
Qed.

Lemma popElementStackUntil_done (n index : nat) (x : Parser.t) :
  (length (Parser.elementStack x) <= index)%nat ->
  Parser.popElementStackUntil n index x = Ok tt x.
Proof.
  intros H. destruct n as [|n]; [reflexivity|].
  cbn [Parser.popElementStackUntil]. unfold bind, gets.
  destruct (Nat.ltb_spec index (length (Parser.elementStack x))); [lia|reflexivity].
Qed.

(** The elements above [below] popped: [inner], the innermost, and
    [outer] above [below]. *)
Lemma popElementStackUntil_run (outer : list XElement) :
  forall (inner : XElement) (below : list XElement) (x : Parser.t) (n : nat),
    Parser.elementStack x = inner :: outer ++ below ->
    (length outer < n)%nat ->
    exists x',
      Parser.popElementStackUntil n (length below) x = Ok tt x'
      /\ Parser.parserOptions x' = Parser.parserOptions x
      /\ length (Parser.elementStack x') = length below
      /\ childrenOfCurrentNode x'
         = childrenOfCurrentNode (Parser.set_elementStack below x)
           ++ [CElement (closeInto inner outer)]
      /\ match below with
         | top :: r =>
             Parser.elementStack x'
             = Lang.withChildren top
                 (el_children top ++ [CElement (closeInto inner outer)]) :: r
             /\ Parser.document x' = Parser.document x
             /\ Tokenizer.expressionEnabled (Parser.rawTokenizer x')
                = Tokenizer.expressionEnabled (Parser.rawTokenizer x)
         | [] =>
             Parser.elementStack x' = []
             /\ Tokenizer.expressionEnabled (Parser.rawTokenizer x') = false
         end
      /\ Tokenizer.errors (Parser.rawTokenizer x')
         = Tokenizer.errors (Parser.rawTokenizer x)
           ++ (if noOpenTag (Parser.parserOptions x)
               then map missingEndTag
                      (filter (fun e => negb (isSome (el_endTag e))) (inner :: outer))
               else []).
Proof.
  induction outer as [|e outer IH]; intros inner below x n Hs Hn.
  - destruct n as [|n]; [lia|]. cbn [Parser.popElementStackUntil].
    unfold bind at 1, gets at 1. rewrite Hs. cbn [app length].
    destruct (Nat.ltb_spec (length below) (S (length below))) as [_|]; [|lia].
    destruct (popElementStack_run x inner below Hs) as (x' & Hp & Ho & Hl & Hc & Hm & He).
    unfold bind. rewrite Hp.
    rewrite (popElementStackUntil_done n (length below) x') by lia.
    exists x'. split; [reflexivity|]. split; [exact Ho|]. split; [exact Hl|].
    split; [exact Hc|]. split; [exact Hm|]. rewrite He. cbn [filter map closeInto].
    destruct (isSome (el_endTag inner)), (noOpenTag (Parser.parserOptions x)); reflexivity.
  - destruct n as [|n]; [cbn in Hn; lia|]. cbn [Parser.popElementStackUntil].
    unfold bind at 1, gets at 1. rewrite Hs.
    destruct (Nat.ltb_spec (length below) (length (inner :: (e :: outer) ++ below)))
      as [_|Hlt]; [|cbn in Hlt; rewrite length_app in Hlt; lia].
    destruct (popElementStack_run x inner ((e :: outer) ++ below) Hs)
      as (x1 & Hp & Ho & Hl & Hc & Hm & He).
    cbn [app] in Hm. destruct Hm as (Hst & Hd & Hx).
    unfold bind. rewrite Hp.
    set (inner' := Lang.withChildren e
                     (el_children e ++ [CElement (Parser.propagateEndLocation inner)])) in *.
    destruct (IH inner' below x1 n Hst ltac:(cbn in Hn; lia))
      as (x' & Hq & Ho' & Hl' & Hc' & Hm' & He').
    exists x'. split; [exact Hq|]. split; [congruence|]. split; [exact Hl'|].
    split.
    { rewrite Hc'. cbn [closeInto]. fold inner'. f_equal.
      unfold childrenOfCurrentNode. cbn [Parser.elementStack Parser.set_elementStack
        Parser.document]. destruct below; [now rewrite Hd|reflexivity]. }
    split.
    { cbn [closeInto]. fold inner'. destruct below as [|top r]; [exact Hm'|].
      destruct Hm' as (A & B & C). repeat split; congruence. }
    rewrite He', He, Ho. rewrite <- app_assoc. f_equal.
    assert (Ee : el_endTag inner' = el_endTag e) by (destruct e; reflexivity).
    assert (Em : missingEndTag inner' = missingEndTag e) by (destruct e; reflexivity).
    destruct (noOpenTag (Parser.parserOptions x)); [|now rewrite andb_false_r].
    rewrite andb_true_r. cbn [filter]. rewrite Ee.
    destruct (negb (isSome (el_endTag inner))), (negb (isSome (el_endTag e)));
      cbn [map app]; rewrite ?Em; reflexivity.
Qed.

Lemma findLast_nearest toLowerCase (above_ : list XElement) (matched : XElement)
    (below : list XElement) (name : JS.str) :
  Forall (fun e => JS.eqb (toLowerCase (el_name e)) name = false) above_ ->
  JS.eqb (toLowerCase (el_name matched)) name = true ->
  Parser.findLast toLowerCase (above_ ++ matched :: below) name = Some (length above_).
Proof.
  intros Ha Hm. induction Ha as [|e above_ He Ha IH]; simpl.
  - now rewrite Hm.
  - now rewrite He, IH.
Qed.

Lemma findLast_none toLowerCase (st : list XElement) (name : JS.str) :
  Forall (fun e => JS.eqb (toLowerCase (el_name e)) name = false) st ->
  Parser.findLast toLowerCase st name = None.
Proof.
  intros H. induction H as [|e st He H IH]; simpl; [reflexivity|]. now rewrite He, IH.
Qed.

Lemma setEndTagAt_app (above_ : list XElement) (matched : XElement)
    (below : list XElement) (g : XEndTag) :
  Parser.setEndTagAt (above_ ++ matched :: below) (length above_) g
  = above_ ++ Parser.withEndTag matched g :: below.
Proof. induction above_ as [|e above_ IH]; simpl; [reflexivity|now rewrite IH]. Qed.

Lemma closeInto_outermost (outer : list XElement) :
  forall inner,
    el_name (closeInto inner outer) = el_name (last outer inner)
    /\ el_endTag (closeInto inner outer) = el_endTag (last outer inner)
    /\ el_startTag (closeInto inner outer) = el_startTag (last outer inner).
Proof.
  induction outer as [|e outer IH]; intros inner.
  - cbn [closeInto last]. destruct (propagateEndLocation_tags inner) as (A & B & C & _).
    auto.
  - cbn [closeInto]. rewrite last_cons.
    destruct (IH (Lang.withChildren e
                    (el_children e ++ [CElement (Parser.propagateEndLocation inner)])))
      as (A & B & C).
    rewrite A, B, C.
    destruct outer as [|e' outer']; [destruct e; auto|].
    rewrite !last_cons. auto.
Qed.

(** An end tag that has its element: the innermost open element of the
    name gets the tag, and it and the elements open inside it are closed. *)
Lemma EndTag_closes toLowerCase (token : EndTag) (x : Parser.t)
    (above_ : list XElement) (matched : XElement) (below : list XElement) :
  let g := mkXEndTag (et_range token) (et_loc token) in
  Parser.elementStack x = above_ ++ matched :: below ->
  Forall (fun e => JS.eqb (toLowerCase (el_name e)) (et_name token) = false) above_ ->
  JS.eqb (toLowerCase (el_name matched)) (et_name token) = true ->
  let closed := closeAll above_ (Parser.withEndTag matched g) in
  exists x',
    Parser.EndTag_ toLowerCase token x = Ok tt x'
    /\ el_name closed = el_name matched
    /\ el_endTag closed = Some g
    /\ childrenOfCurrentNode x'
       = childrenOfCurrentNode (Parser.set_elementStack below x)
         ++ [CElement closed]
    /\ match below with
       | top :: r =>
           Parser.elementStack x'
           = Lang.withChildren top (el_children top ++ [CElement closed]) :: r
           /\ Parser.document x' = Parser.document x
           /\ Tokenizer.expressionEnabled (Parser.rawTokenizer x')
              = Tokenizer.expressionEnabled (Parser.rawTokenizer x)
       | [] =>
           Parser.elementStack x' = []
           /\ Tokenizer.expressionEnabled (Parser.rawTokenizer x') = false
       end
    /\ Tokenizer.errors (Parser.rawTokenizer x')
       = Tokenizer.errors (Parser.rawTokenizer x)
         ++ (if noOpenTag (Parser.parserOptions x)
             then map missingEndTag
                    (filter (fun e => negb (isSome (el_endTag e))) above_)
             else []).
Proof.
  intros g Hs Ha Hm closed.
  unfold Parser.EndTag_. unfold bind at 1, gets at 1. rewrite Hs.
  rewrite (findLast_nearest toLowerCase above_ matched below _ Ha Hm).
  fold g. rewrite setEndTagAt_app.
  unfold bind at 1, modify at 1.
  replace (length (above_ ++ matched :: below) - S (length above_))%nat
    with (length below) by (rewrite length_app; simpl; lia).
  set (m' := Parser.withEndTag matched g) in *.
  set (x1 := Parser.set_elementStack (above_ ++ m' :: below) x).
  assert (Hc : el_name closed = el_name matched /\ el_endTag closed = Some g).
  { unfold closed, closeAll. destruct above_ as [|inner outer].
    - destruct (closeInto_outermost [] m') as (A & B & _). cbn [last] in A, B.
      rewrite A, B. destruct matched; auto.
    - destruct (closeInto_outermost (outer ++ [m']) inner) as (A & B & _).
      rewrite last_last in A, B. rewrite A, B. destruct matched; auto. }
  destruct Hc as [Hc1 Hc2].
  destruct above_ as [|inner outer].
  + destruct (popElementStackUntil_run [] m' below x1 1 eq_refl ltac:(simpl; lia))
      as (x' & Hq & Ho & Hl & Hch & Hmm & He).
    exists x'. split; [exact Hq|]. split; [exact Hc1|]. split; [exact Hc2|].
    split; [exact Hch|]. split; [exact Hmm|].
    rewrite He. cbn. destruct (noOpenTag (Parser.parserOptions x)); reflexivity.
  + destruct (popElementStackUntil_run (outer ++ [m']) inner below x1
                (S (length (inner :: outer))))
      as (x' & Hq & Ho & Hl & Hch & Hmm & He).
    { unfold x1. cbn. now rewrite <- app_assoc. }
    { rewrite length_app. simpl. lia. }
    exists x'. split; [exact Hq|]. split; [exact Hc1|]. split; [exact Hc2|].
    split; [exact Hch|]. split; [exact Hmm|].
    rewrite He. cbn [Parser.parserOptions Parser.set_elementStack x1].
    replace (Parser.parserOptions x1) with (Parser.parserOptions x) by reflexivity.
    destruct (noOpenTag (Parser.parserOptions x)); [|reflexivity].
    f_equal. f_equal.
    change (inner :: outer ++ [m']) with ((inner :: outer) ++ [m']).
    rewrite filter_app. cbn [filter]. cbn. now rewrite app_nil_r.
Qed.


(** X15.  An end tag.  When no open element has the name of the tag, in
    lower case, the error [x-invalid-end-tag] is reported at the tag and
    nothing else changes.  Otherwise the innermost open element of that
    name gets the end tag, and it and the elements open inside it are
    closed, the innermost first: each becomes the last child of the next,
    its end set from its end tag or from its last child, and the element
    of the tag becomes the last child of the node below it, an element or
    the document.  With the option [noOpenTag] the error [missing-end-tag]
    is reported for each of the elements that were open inside it and have
    no end tag, and for no other; without the option no error is reported.
    When no element stays open, mustaches are switched off. *)
Theorem X15_end_tag_closes_the_elements_inside :
  forall toLowerCase (token : EndTag) (x : Parser.t),
    let g := mkXEndTag (et_range token) (et_loc token) in
    (Forall (fun e => JS.eqb (toLowerCase (el_name e)) (et_name token) = false)
            (Parser.elementStack x) ->
     Parser.EndTag_ toLowerCase token x
     = Parser.reportParseError (et_range token) (et_loc token) "x-invalid-end-tag" x)
    /\ (forall above_ matched below,
          Parser.elementStack x = above_ ++ matched :: below ->
          Forall (fun e => JS.eqb (toLowerCase (el_name e)) (et_name token) = false) above_ ->
          JS.eqb (toLowerCase (el_name matched)) (et_name token) = true ->
          let closed := closeAll above_ (Parser.withEndTag matched g) in
          exists x',
            Parser.EndTag_ toLowerCase token x = Ok tt x'
            /\ el_name closed = el_name matched
            /\ el_endTag closed = Some g
            /\ childrenOfCurrentNode x'
               = childrenOfCurrentNode (Parser.set_elementStack below x)
                 ++ [CElement closed]
            /\ match below with
               | top :: r =>
                   Parser.elementStack x'
                   = Lang.withChildren top (el_children top ++ [CElement closed]) :: r
                   /\ Parser.document x' = Parser.document x
                   /\ Tokenizer.expressionEnabled (Parser.rawTokenizer x')
                      = Tokenizer.expressionEnabled (Parser.rawTokenizer x)
               | [] =>
                   Parser.elementStack x' = []
                   /\ Tokenizer.expressionEnabled (Parser.rawTokenizer x') = false
               end
            /\ Tokenizer.errors (Parser.rawTokenizer x')
               = Tokenizer.errors (Parser.rawTokenizer x)
                 ++ (if noOpenTag (Parser.parserOptions x)
                     then map missingEndTag
                            (filter (fun e => negb (isSome (el_endTag e))) above_)
                     else [])).
Proof.
  intros toLowerCase token x g. split.
  - intros H. unfold Parser.EndTag_, bind, gets. now rewrite (findLast_none _ _ _ H).
  - intros above_ matched below Hs Ha Hm.
    exact (EndTag_closes toLowerCase token x above_ matched below Hs Ha Hm).
Qed.

(** X15, for [</a>] at 6 in [<a><b></a>], with the option [noOpenTag]:
    [b], which is open inside [a], is closed with it and reported. *)
Lemma X15_witness :
  let element := fun (n : string) a =>
    mkXElement (a, a + 3) (Espree.at1 a (a + 3)) (JS.lit n) (JS.lit n)
      (mkXStartTag (a, a + 3) (Espree.at1 a (a + 3)) false []) [] [] None in
  let x := Parser.set_elementStack [element "b"%string 3; element "a"%string 0]
             (Parser.new (Tokenizer.new (JS.lit "<a><b></a>"))
                (resolveParserOptions (mkOptions (Some true) None None))) in
  let token := mkEndTag (6, 10) (Espree.at1 6 10) (JS.lit "a") in
  exists x' closed,
    Parser.EndTag_ Espree.toLowerCase token x = Ok tt x'
    /\ Parser.elementStack x' = []
    /\ doc_children (Parser.document x') = [CElement closed]
    /\ el_range closed = (0, 10)
    /\ map child_range (el_children closed) = [(3, 6)]
    /\ Tokenizer.errors (Parser.rawTokenizer x')
       = [ParseErrors.fromCode "missing-end-tag" 3 1 3].
Proof.
  intros element x token.
  destruct (X15_end_tag_closes_the_elements_inside Espree.toLowerCase token x) as [_ H].
  destruct (H [element "b"%string 3] (element "a"%string 0) [] eq_refl
              ltac:(repeat constructor) eq_refl)
    as (x' & Hr & _ & _ & Hc & [Hs _] & He).
  exists x', (closeAll [element "b"%string 3]
                (Parser.withEndTag (element "a"%string 0)
                   (mkXEndTag (et_range token) (et_loc token)))).
  split; [exact Hr|]. split; [exact Hs|].
  split; [unfold childrenOfCurrentNode in Hc; rewrite Hs in Hc; exact Hc|].
  split; [reflexivity|]. split; [reflexivity|]. rewrite He. reflexivity.
Defined.

(* ================================================================== *)
(** * An element from its start tag to its end tag *)
(* ================================================================== *)

(** A start tag without attributes, which is neither closed in itself
    nor the tag of a void element nor of an element that can be left
    open, opens an element: the element is pushed on the stack, and
    nothing is reported. *)
Lemma StartTag_opens backend (token : StartTag) (x : Parser.t) :
  st_attributes token = [] ->
  st_selfClosing token = false ->
  Lang.has Lang.SWAN_VOID_ELEMENT_TAGS (st_name token) = false ->
  Lang.has Lang.SWAN_CAN_BE_LEFT_OPEN_TAGS (st_name token) = false ->
  exists x1,
    Parser.StartTag_ backend token x = Ok tt x1
    /\ Parser.elementStack x1 = started token :: Parser.elementStack x
    /\ Parser.document x1 = Parser.document x
    /\ Parser.parserOptions x1 = Parser.parserOptions x
    /\ Tokenizer.errors (Parser.rawTokenizer x1)
       = Tokenizer.errors (Parser.rawTokenizer x).
Proof.
  intros Ha Hc Hv Hl.
  unfold Parser.StartTag_, Parser.closeCurrentElementIfNecessary.
  rewrite Ha, Hc. cbn [Parser.processAttributes].
  unfold bind, gets, ret. cbn [el_name Parser.withAttributes].
  rewrite Hv, Hl.
  assert (S : Parser.withAttributes
                (mkXElement (fst (st_range token), snd (st_range token))
                   (mkLocationRange (loc_start (st_loc token)) (loc_end (st_loc token)))
                   (st_name token) (st_rawName token)
                   (mkXStartTag (st_range token) (st_loc token) false [])
                   [] [] None) []
              = started token).
  { unfold started. rewrite Ha, Hc. reflexivity. }
  rewrite S.
  destruct (Parser.elementStack x) as [|top rest] eqn:Es;
    rewrite ?andb_false_r; cbn [when negb andb orb];
    unfold modify, when, Parser.setExpressionEnabled, Parser.setState,
      Parser.onRawTokenizer, modify, ret;
    rewrite ?Es; cbn [length Nat.eqb];
    destruct (Lang.has Lang.SWAN_RCDATA_TAGS (st_name token)),
      (Lang.has Lang.SWAN_RAWTEXT_TAGS (st_name token));
    eexists; (split; [reflexivity|]); cbn; rewrite ?Es; repeat split.
Qed.

(** X16.  A start tag without attributes, which is neither closed in
    itself nor the tag of a void element nor of an element that can be
    left open, and then the end tag of its name: one element is added, as
    the last child of the node that was current, an element or the
    document.  It has the name of the start tag, the end tag, no child,
    and the range from the start of the start tag to the end of the end
    tag.  The open elements are those there were, and no error is
    reported. *)
Theorem X16_element_of_a_start_tag_and_its_end_tag :
  forall backend toLowerCase (open : StartTag) (close : EndTag) (x : Parser.t),
    st_attributes open = [] ->
    st_selfClosing open = false ->
    Lang.has Lang.SWAN_VOID_ELEMENT_TAGS (st_name open) = false ->
    Lang.has Lang.SWAN_CAN_BE_LEFT_OPEN_TAGS (st_name open) = false ->
    JS.eqb (toLowerCase (st_name open)) (et_name close) = true ->
    exists x' element,
      (Parser.StartTag_ backend open ;; Parser.EndTag_ toLowerCase close)%monad x
      = Ok tt x'
      /\ childrenOfCurrentNode x' = childrenOfCurrentNode x ++ [CElement element]
      /\ el_name element = st_name open
      /\ el_endTag element = Some (mkXEndTag (et_range close) (et_loc close))
      /\ el_children element = []
      /\ el_range element = (fst (st_range open), snd (et_range close))
      /\ match Parser.elementStack x with
         | top :: r =>
             Parser.elementStack x'
             = Lang.withChildren top (el_children top ++ [CElement element]) :: r
         | [] => Parser.elementStack x' = []
         end
      /\ Tokenizer.errors (Parser.rawTokenizer x')
         = Tokenizer.errors (Parser.rawTokenizer x).
Proof.
  intros backend toLowerCase open close x Ha Hc Hv Hl Hn.
  destruct (StartTag_opens backend open x Ha Hc Hv Hl) as (x1 & E1 & S1 & D1 & O1 & R1).
  destruct (EndTag_closes toLowerCase close x1 [] (started open) (Parser.elementStack x))
    as (x' & E2 & _ & _ & C2 & M2 & R2); [exact S1|constructor|exact Hn|].
  exists x', (closeAll [] (Parser.withEndTag (started open)
                              (mkXEndTag (et_range close) (et_loc close)))).
  split; [unfold bind; rewrite E1; exact E2|].
  split.
  { rewrite C2. unfold childrenOfCurrentNode. cbn [Parser.elementStack Parser.set_elementStack].
    destruct (Parser.elementStack x); [|reflexivity].
    cbn [Parser.document Parser.set_elementStack]. now rewrite D1. }
  split; [reflexivity|]. split; [reflexivity|]. split; [reflexivity|].
  split; [reflexivity|]. split.
  { destruct (Parser.elementStack x); [exact (proj1 M2)|exact (proj1 M2)]. }
  rewrite R2, R1. cbn [filter map].
  destruct (noOpenTag (Parser.parserOptions x1)); now rewrite app_nil_r.
Qed.

(** X16, for [<a>] at 0 and [</a>] at 3 in [<a></a>]: the document gets
    the element [a], with the range from 0 to 7. *)
Lemma X16_witness :
  let x := Parser.new (Tokenizer.new (JS.lit "<a></a>"))
             (resolveParserOptions (mkOptions None None None)) in
  let open := mkStartTag (0, 3) (Espree.at1 0 3) (JS.lit "a") (JS.lit "a") false [] in
  let close := mkEndTag (3, 7) (Espree.at1 3 7) (JS.lit "a") in
  exists x' element,
    (Parser.StartTag_ Espree.backend open ;; Parser.EndTag_ Espree.toLowerCase close)%monad x
    = Ok tt x'
    /\ doc_children (Parser.document x') = [CElement element]
    /\ el_name element = JS.lit "a"
    /\ el_range element = (0, 7)
    /\ Parser.elementStack x' = []
    /\ Tokenizer.errors (Parser.rawTokenizer x') = [].
Proof.
  intros x open close.
  destruct (X16_element_of_a_start_tag_and_its_end_tag Espree.backend Espree.toLowerCase
              open close x eq_refl eq_refl eq_refl eq_refl eq_refl)
    as (x' & element & E & C & N & _ & _ & R & S & Er).
  exists x', element.
  split; [exact E|].
  cbn [Parser.elementStack x Parser.new] in S.
  split; [unfold childrenOfCurrentNode in C; rewrite S in C; exact C|].
  split; [exact N|]. split; [exact R|]. split; [exact S|exact Er].
Defined.

(* ================================================================== *)
(** * What the reading of code points keeps *)
(* ================================================================== *)

Module Reading.
Import Tokenizer.

(** An invariant of the place in the text, which the operations on tokens
    and states cannot touch, and which the reading of a code point, the
    report of an error and the step over the second hyphen of [<!--]
    keep, is kept by the function of every state. *)
Section ReadInvariant.
Variable I : Tokenizer.t -> Prop.
Hypothesis I_frame : forall x y, sameReading x y -> I x -> I y.
Hypothesis I_consume : keeps I consumeNextCodePoint.
Hypothesis I_report : forall c, keeps I (reportParseError c).
Hypothesis I_skip :
  forall x, I x -> I (set_column (column x + 1) (set_offset (offset x + 1) x)).

Lemma reads_framed (f : t -> t) :
  (forall x, sameReading x (f x)) -> keeps I (modify f).
Proof. intros H. apply keeps_modify. intros x Hx. exact (I_frame _ _ (H x) Hx). Qed.

Ltac framed :=
  match goal with
  | |- keeps _ (modify _) => apply reads_framed; intros ?; now repeat split
  end.

Lemma reads_skip :
  keeps I (modify (fun x => set_column (column x + 1) (set_offset (offset x + 1) x))).
Proof. apply keeps_modify. exact I_skip. Qed.

Lemma reads_setStartTokenMark : keeps I setStartTokenMark.
Proof. unfold setStartTokenMark. framed. Qed.

Lemma reads_commitToken k : keeps I (commitToken k).
Proof. unfold commitToken. repeat first [framed | keeps_step]. Qed.

Lemma reads_commitProvisionalToken : keeps I commitProvisionalToken.
Proof.
  unfold commitProvisionalToken.
  repeat first [apply reads_commitToken | framed | keeps_step].
Qed.

Lemma reads_rollbackProvisionalToken : keeps I rollbackProvisionalToken.
Proof. unfold rollbackProvisionalToken. repeat first [framed | keeps_step]. Qed.

Lemma reads_endToken : keeps I endToken.
Proof.
  unfold endToken, isProvisionalState.
  repeat first
    [ apply reads_setStartTokenMark | apply reads_commitToken
    | apply reads_commitProvisionalToken | framed | keeps_step ].
Qed.

Lemma reads_startToken ty : keeps I (startToken ty).
Proof.
  unfold startToken.
  repeat first
    [ apply reads_setStartTokenMark | apply reads_endToken | framed | keeps_step ].
Qed.

Lemma reads_appendTokenValue cp e : keeps I (appendTokenValue cp e).
Proof. unfold appendTokenValue. repeat first [framed | keeps_step]. Qed.

Lemma reads_reconsumeAs s : keeps I (reconsumeAs s).
Proof. unfold reconsumeAs. keeps_step; [framed|keeps_step]. Qed.

Lemma reads_clearStartTokenMark : keeps I clearStartTokenMark.
Proof. unfold clearStartTokenMark. framed. Qed.

Lemma reads_set_buffer (f : t -> list Z) :
  keeps I (modify (fun x => set_buffer (f x) x)).
Proof. framed. Qed.

Lemma reads_set_returnState v : keeps I (modify (set_returnState v)).
Proof. framed. Qed.

Lemma reads_set_tagOpenEnabled v : keeps I (modify (set_tagOpenEnabled v)).
Proof. framed. Qed.

Lemma reads_appendCodePointAt i : keeps I (appendCodePointAt i).
Proof. unfold appendCodePointAt. repeat first [apply reads_appendTokenValue | keeps_step]. Qed.

Lemma reads_isAppropriateEndTagOpen : keeps I isAppropriateEndTagOpen.
Proof. unfold isAppropriateEndTagOpen. repeat keeps_step. Qed.

Lemma reads_appendAll cps ty : keeps I (appendAll cps ty).
Proof.
  induction cps as [|c cps IH]; simpl; [apply keeps_ret|].
  apply keeps_bind; [apply reads_appendTokenValue|intros _; exact IH].
Qed.

Lemma reads_currentTypeIsNot ty : keeps I (currentTypeIsNot ty).
Proof. unfold currentTypeIsNot. repeat keeps_step. Qed.

Lemma reads_startTokenIfNone ty : keeps I (startTokenIfNone ty).
Proof.
  unfold startTokenIfNone.
  apply keeps_bind; [apply keeps_gets|intros c]. apply keeps_when. apply reads_startToken.
Qed.

Lemma reads_retype ty k : keeps I k -> keeps I (retype ty k).
Proof.
  intros Hk. unfold retype.
  apply keeps_bind; [apply reads_currentTypeIsNot|intros other].
  destruct other.
  - repeat first [apply reads_endToken | apply reads_reconsumeAs | keeps_step].
  - apply keeps_bind; [apply reads_startTokenIfNone|intros _; exact Hk].
Qed.

Lemma reads_giveBack ty back : keeps I (giveBack ty back).
Proof.
  unfold giveBack.
  repeat first
    [ apply reads_rollbackProvisionalToken | apply reads_appendTokenValue | apply reads_appendAll
    | apply reads_reconsumeAs | keeps_step ].
Qed.

Lemma reads_skipWhitespace n cp : keeps I (skipWhitespace n cp).
Proof.
  revert cp; induction n as [|n IH]; intros cp; simpl; [apply keeps_throw|].
  destruct (Unicode.isWhitespace cp); [|apply keeps_ret].
  apply keeps_bind; [apply I_consume|intros cp'; apply IH].
Qed.

(** The steps of a proof that the function of a state keeps [I]. *)
Ltac tk :=
  repeat first
    [ apply reads_endToken | apply reads_appendTokenValue | apply reads_rollbackProvisionalToken
    | apply reads_startToken
    | apply I_report | apply I_consume
    | apply reads_reconsumeAs | apply reads_setStartTokenMark
    | apply reads_clearStartTokenMark | apply reads_set_buffer
    | apply reads_set_returnState | apply reads_set_tagOpenEnabled
    | apply reads_appendCodePointAt | apply reads_isAppropriateEndTagOpen
    | apply reads_giveBack | apply reads_skipWhitespace
    | apply reads_skip
    | framed
    | keeps_step ].

Ltac tk_loop IH :=
  let n := fresh "n" in
  let cp := fresh "cp" in
  intros n; induction n as [|n IH]; intros cp; simpl; [apply keeps_throw|].

Lemma reads_DATA_loop : forall n cp, keeps I (DATA_loop n cp).
Proof.
  tk_loop IH. apply reads_retype.
  tk. apply IH.
Qed.

Lemma reads_RCDATA_loop : forall n cp, keeps I (RCDATA_loop n cp).
Proof.
  tk_loop IH. apply reads_retype.
  tk. apply IH.
Qed.

Lemma reads_RAWTEXT_loop : forall n cp, keeps I (RAWTEXT_loop n cp).
Proof.
  tk_loop IH. apply reads_retype.
  tk. apply IH.
Qed.

Lemma reads_TAG_OPEN_state cp : keeps I (TAG_OPEN_state cp).
Proof. unfold TAG_OPEN_state. tk. Qed.

Lemma reads_END_TAG_OPEN_state cp : keeps I (END_TAG_OPEN_state cp).
Proof. unfold END_TAG_OPEN_state. tk. Qed.

Lemma reads_TAG_NAME_loop : forall n cp, keeps I (TAG_NAME_loop n cp).
Proof. tk_loop IH. tk. apply IH. Qed.

Lemma reads_RCDATA_LESS_THAN_SIGN_state cp : keeps I (RCDATA_LESS_THAN_SIGN_state cp).
Proof. unfold RCDATA_LESS_THAN_SIGN_state. tk. Qed.

Lemma reads_RCDATA_END_TAG_OPEN_state cp : keeps I (RCDATA_END_TAG_OPEN_state cp).
Proof. unfold RCDATA_END_TAG_OPEN_state. tk. Qed.

Lemma reads_RCDATA_END_TAG_NAME_loop : forall n cp, keeps I (RCDATA_END_TAG_NAME_loop n cp).
Proof. tk_loop IH. tk. apply IH. Qed.

Lemma reads_RAWTEXT_LESS_THAN_SIGN_state cp : keeps I (RAWTEXT_LESS_THAN_SIGN_state cp).
Proof. unfold RAWTEXT_LESS_THAN_SIGN_state. tk. Qed.

Lemma reads_RAWTEXT_END_TAG_OPEN_state cp : keeps I (RAWTEXT_END_TAG_OPEN_state cp).
Proof. unfold RAWTEXT_END_TAG_OPEN_state. tk. Qed.

Lemma reads_RAWTEXT_END_TAG_NAME_loop : forall n cp, keeps I (RAWTEXT_END_TAG_NAME_loop n cp).
Proof. tk_loop IH. tk. apply IH. Qed.

Lemma reads_BEFORE_ATTRIBUTE_NAME_state n cp : keeps I (BEFORE_ATTRIBUTE_NAME_state n cp).
Proof. unfold BEFORE_ATTRIBUTE_NAME_state. tk. Qed.

Lemma reads_ATTRIBUTE_NAME_loop : forall n cp, keeps I (ATTRIBUTE_NAME_loop n cp).
Proof. tk_loop IH. tk. apply IH. Qed.

Lemma reads_AFTER_ATTRIBUTE_NAME_state n cp : keeps I (AFTER_ATTRIBUTE_NAME_state n cp).
Proof. unfold AFTER_ATTRIBUTE_NAME_state. tk. Qed.

Lemma reads_BEFORE_ATTRIBUTE_VALUE_state n cp : keeps I (BEFORE_ATTRIBUTE_VALUE_state n cp).
Proof. unfold BEFORE_ATTRIBUTE_VALUE_state. tk. Qed.

Lemma reads_ATTRIBUTE_VALUE_QUOTED_loop quote self lineBreakIsError :
  forall n cp, keeps I (ATTRIBUTE_VALUE_QUOTED_loop quote self lineBreakIsError n cp).
Proof. tk_loop IH. apply reads_retype. tk. apply IH. Qed.

Lemma reads_ATTRIBUTE_VALUE_UNQUOTED_loop :
  forall n cp, keeps I (ATTRIBUTE_VALUE_UNQUOTED_loop n cp).
Proof. tk_loop IH. tk. apply IH. Qed.

Lemma reads_AFTER_ATTRIBUTE_VALUE_QUOTED_state cp :
  keeps I (AFTER_ATTRIBUTE_VALUE_QUOTED_state cp).
Proof. unfold AFTER_ATTRIBUTE_VALUE_QUOTED_state. tk. Qed.

Lemma reads_SELF_CLOSING_START_TAG_state cp : keeps I (SELF_CLOSING_START_TAG_state cp).
Proof. unfold SELF_CLOSING_START_TAG_state. tk. Qed.

Lemma reads_BOGUS_COMMENT_loop : forall n cp, keeps I (BOGUS_COMMENT_loop n cp).
Proof. tk_loop IH. tk. apply IH. Qed.

Lemma reads_MARKUP_DECLARATION_OPEN_state cp : keeps I (MARKUP_DECLARATION_OPEN_state cp).
Proof. unfold MARKUP_DECLARATION_OPEN_state. tk. Qed.

Lemma reads_COMMENT_START_state cp : keeps I (COMMENT_START_state cp).
Proof. unfold COMMENT_START_state. tk. Qed.

Lemma reads_COMMENT_START_DASH_state cp : keeps I (COMMENT_START_DASH_state cp).
Proof. unfold COMMENT_START_DASH_state. tk. Qed.

Lemma reads_COMMENT_loop : forall n cp, keeps I (COMMENT_loop n cp).
Proof. tk_loop IH. tk. apply IH. Qed.

Lemma reads_COMMENT_LESS_THAN_SIGN_loop : forall n cp, keeps I (COMMENT_LESS_THAN_SIGN_loop n cp).
Proof. tk_loop IH. tk. apply IH. Qed.

Lemma reads_COMMENT_LESS_THAN_SIGN_BANG_state cp :
  keeps I (COMMENT_LESS_THAN_SIGN_BANG_state cp).
Proof. unfold COMMENT_LESS_THAN_SIGN_BANG_state. tk. Qed.

Lemma reads_COMMENT_LESS_THAN_SIGN_BANG_DASH_state cp :
  keeps I (COMMENT_LESS_THAN_SIGN_BANG_DASH_state cp).
Proof. unfold COMMENT_LESS_THAN_SIGN_BANG_DASH_state. tk. Qed.

Lemma reads_COMMENT_LESS_THAN_SIGN_BANG_DASH_DASH_state cp :
  keeps I (COMMENT_LESS_THAN_SIGN_BANG_DASH_DASH_state cp).
Proof. unfold COMMENT_LESS_THAN_SIGN_BANG_DASH_DASH_state. tk. Qed.

Lemma reads_COMMENT_END_DASH_state cp : keeps I (COMMENT_END_DASH_state cp).
Proof. unfold COMMENT_END_DASH_state. tk. Qed.

Lemma reads_COMMENT_END_loop : forall n cp, keeps I (COMMENT_END_loop n cp).
Proof. tk_loop IH. tk. apply IH. Qed.

Lemma reads_COMMENT_END_BANG_state cp : keeps I (COMMENT_END_BANG_state cp).
Proof. unfold COMMENT_END_BANG_state. tk. Qed.

Lemma reads_X_EXPRESSION_START_state cp : keeps I (X_EXPRESSION_START_state cp).
Proof. unfold X_EXPRESSION_START_state. tk. Qed.

Lemma reads_X_EXPRESSION_END_state cp : keeps I (X_EXPRESSION_END_state cp).
Proof. unfold X_EXPRESSION_END_state. tk. Qed.

Lemma reads_runState s cp : keeps I (runState s cp).
Proof.
  unfold runState.
  apply keeps_bind; [apply keeps_gets|intros n].
  destruct s;
    first
      [ apply keeps_bind; [first [apply reads_clearStartTokenMark
                                 |apply I_report]|intros _] | idtac ];
    first
      [ apply reads_TAG_OPEN_state | apply reads_END_TAG_OPEN_state
      | apply reads_MARKUP_DECLARATION_OPEN_state
      | apply reads_RCDATA_END_TAG_OPEN_state | apply reads_RAWTEXT_END_TAG_OPEN_state
      | apply reads_DATA_loop | apply reads_TAG_NAME_loop | apply reads_RCDATA_loop
      | apply reads_RCDATA_LESS_THAN_SIGN_state | apply reads_RCDATA_END_TAG_NAME_loop
      | apply reads_RAWTEXT_loop | apply reads_RAWTEXT_LESS_THAN_SIGN_state
      | apply reads_RAWTEXT_END_TAG_NAME_loop | apply reads_BEFORE_ATTRIBUTE_NAME_state
      | apply reads_ATTRIBUTE_NAME_loop | apply reads_AFTER_ATTRIBUTE_NAME_state
      | apply reads_BEFORE_ATTRIBUTE_VALUE_state | apply reads_ATTRIBUTE_VALUE_QUOTED_loop
      | apply reads_ATTRIBUTE_VALUE_UNQUOTED_loop
      | apply reads_AFTER_ATTRIBUTE_VALUE_QUOTED_state
      | apply reads_SELF_CLOSING_START_TAG_state | apply reads_BOGUS_COMMENT_loop
      | apply reads_COMMENT_START_state | apply reads_COMMENT_START_DASH_state
      | apply reads_COMMENT_loop | apply reads_COMMENT_LESS_THAN_SIGN_loop
      | apply reads_COMMENT_LESS_THAN_SIGN_BANG_state
      | apply reads_COMMENT_LESS_THAN_SIGN_BANG_DASH_state
      | apply reads_COMMENT_LESS_THAN_SIGN_BANG_DASH_DASH_state
      | apply reads_COMMENT_END_DASH_state | apply reads_COMMENT_END_loop
      | apply reads_COMMENT_END_BANG_state | apply reads_X_EXPRESSION_START_state
      | apply reads_X_EXPRESSION_END_state ].
Qed.

(** The loop of [nextToken] and [nextToken] keep it too. *)
Lemma reads_nextToken_loop : forall n cp, keeps I (nextToken_loop n cp).
Proof.
  induction n as [|n IH]; intros cp; simpl; [apply keeps_throw|].
  unfold isProvisionalState.
  repeat first
    [ apply IH | apply reads_runState | apply reads_commitProvisionalToken
    | apply I_consume | framed | keeps_step ].
Qed.

Lemma reads_nextToken : keeps I nextToken.
Proof.
  unfold nextToken, nextToken_fuel, consumeCommittedToken.
  repeat first
    [ apply reads_nextToken_loop | apply reads_endToken | framed | keeps_step ].
Qed.

End ReadInvariant.
End Reading.

(* ================================================================== *)
(** * The reading of a code point *)
(* ================================================================== *)

Lemma withErrors_nil (x : Tokenizer.t) : withErrors [] x = x.
Proof. destruct x. unfold withErrors. cbn. now rewrite app_nil_r. Qed.

Lemma withErrors_app (a b : list ParseError) (x : Tokenizer.t) :
  withErrors b (withErrors a x) = withErrors (a ++ b) x.
Proof. destruct x. unfold withErrors. cbn. now rewrite app_assoc. Qed.

(** The ways of [consumeNextCodePoint]: at the end of the text already;
    at the end after the step; a place with no code point; the LINE FEED
    after a CARRIAGE RETURN, which is skipped; any other code point. *)
Lemma consume_cases (n : nat) (x : Tokenizer.t) :
  let txt := Tokenizer.text x in
  let x1 := stepped x in
  (JS.len txt <= Tokenizer.offset x
   /\ Tokenizer.consumeNextCodePoint_rec (S n) x
      = Ok Unicode.EOF (Tokenizer.set_lastCodePoint Unicode.EOF x))
  \/ (Tokenizer.offset x < JS.len txt /\ JS.len txt <= Tokenizer.offset x1
      /\ Tokenizer.consumeNextCodePoint_rec (S n) x
         = Ok Unicode.EOF (Tokenizer.set_lastCodePoint Unicode.EOF (advanced x1)))
  \/ (Tokenizer.offset x < JS.len txt /\ Tokenizer.offset x1 < JS.len txt
      /\ Unicode.codePointAt txt (Tokenizer.offset x1) = None
      /\ Tokenizer.consumeNextCodePoint_rec (S n) x
         = Throw (TypeErrorExn "codePointAt") x1)
  \/ (exists cp more,
        Tokenizer.offset x < JS.len txt /\ Tokenizer.offset x1 < JS.len txt
        /\ Unicode.codePointAt txt (Tokenizer.offset x1) = Some cp
        /\ let x2 := withErrors more x1 in
           (Tokenizer.lastCodePoint x = Unicode.CARRIAGE_RETURN
            /\ cp = Unicode.LINE_FEED
            /\ Tokenizer.consumeNextCodePoint_rec (S n) x
               = Tokenizer.consumeNextCodePoint_rec n
                   (Tokenizer.set_gaps (Tokenizer.gaps x2 ++ [Tokenizer.offset x2])
                      (Tokenizer.set_lastCodePoint Unicode.LINE_FEED x2)))
           \/ ((Tokenizer.lastCodePoint x <> Unicode.CARRIAGE_RETURN
                \/ cp <> Unicode.LINE_FEED)
               /\ Tokenizer.consumeNextCodePoint_rec (S n) x
                  = Ok (if cp =? Unicode.CARRIAGE_RETURN then Unicode.LINE_FEED else cp)
                       (Tokenizer.set_lastCodePoint cp (advanced x2)))).
Proof.
  intros txt x1. subst txt.
  cbn [Tokenizer.consumeNextCodePoint_rec].
  unfold Tokenizer.reportParseError, Tokenizer.advanceLocation, when.
  unfold bind, gets, modify, ret, throw.
  destruct (JS.len (Tokenizer.text x) <=? Tokenizer.offset x) eqn:E1.
  { left. split; [lia|reflexivity]. }
  right. cbn [Tokenizer.text Tokenizer.offset Tokenizer.set_offset].
  change (Tokenizer.offset x + (if 65536 <=? Tokenizer.lastCodePoint x then 2 else 1))
    with (Tokenizer.offset x1).
  destruct (JS.len (Tokenizer.text x) <=? Tokenizer.offset x1) eqn:E2.
  { left. split; [lia|split; [lia|reflexivity]]. }
  right.
  destruct (Unicode.codePointAt (Tokenizer.text x) (Tokenizer.offset x1)) as [cp|] eqn:E3.
  2:{ left. split; [lia|split; [lia|split; reflexivity]]. }
  right.
  set (b1 := Tokenizer.optTest Unicode.isSurrogate _ && _).
  set (b2 := Unicode.isNonCharacter cp).
  set (b3 := Unicode.isControl cp && _ && _).
  set (E := fun c : ErrorCode =>
              ParseErrors.fromCode c (Tokenizer.offset x1) (Tokenizer.line x1)
                (Tokenizer.column x1)).
  exists cp,
    ((if b1 then [E "surrogate-in-input-stream"%string] else [])
     ++ (if b2 then [E "noncharacter-in-input-stream"%string] else [])
     ++ (if b3 then [E "control-character-in-input-stream"%string] else [])).
  split; [lia|]. split; [lia|]. split; [reflexivity|].
  cbv zeta.
  assert (L : forall more,
             Tokenizer.lastCodePoint (withErrors more x1) = Tokenizer.lastCodePoint x)
    by reflexivity.
  destruct ((Tokenizer.lastCodePoint x =? Unicode.CARRIAGE_RETURN)
            && (cp =? Unicode.LINE_FEED)) eqn:E4.
  - left. apply andb_prop in E4. destruct E4 as [A B].
    split; [lia|]. split; [lia|].
    destruct b1, b2, b3; cbn;
      change (Tokenizer.lastCodePoint x1) with (Tokenizer.lastCodePoint x);
      rewrite A, B; cbn; unfold withErrors; cbn; rewrite <- ?app_assoc;
      first [reflexivity | subst E x1; destruct x; cbn; rewrite ?app_nil_r; reflexivity].
  - right. split.
    { apply andb_false_iff in E4. destruct E4; [left|right]; lia. }
    apply andb_false_iff in E4.
    assert (E5 : (Tokenizer.lastCodePoint x =? Unicode.CARRIAGE_RETURN)
                 && (cp =? Unicode.LINE_FEED) = false)
      by (apply andb_false_iff; exact E4).
    destruct b1, b2, b3; cbn;
      change (Tokenizer.lastCodePoint x1) with (Tokenizer.lastCodePoint x);
      rewrite E5; cbn; unfold withErrors; cbn; rewrite <- ?app_assoc;
      first [reflexivity | subst E x1; destruct x; cbn; rewrite ?app_nil_r; reflexivity].
Qed.

Lemma advanced_same (x : Tokenizer.t) :
  Tokenizer.text (advanced x) = Tokenizer.text x
  /\ Tokenizer.offset (advanced x) = Tokenizer.offset x
  /\ Tokenizer.gaps (advanced x) = Tokenizer.gaps x
  /\ Tokenizer.errors (advanced x) = Tokenizer.errors x
  /\ Tokenizer.lastCodePoint (advanced x) = Tokenizer.lastCodePoint x.
Proof.
  unfold advanced. destruct (Tokenizer.lastCodePoint x =? Unicode.LINE_FEED);
    repeat split.
Qed.

Lemma stepped_offset (x : Tokenizer.t) :
  Tokenizer.offset x + 1 <= Tokenizer.offset (stepped x) <= Tokenizer.offset x + 2.
Proof.
  unfold stepped. cbn. destruct (65536 <=? Tokenizer.lastCodePoint x); lia.
Qed.

Lemma codePointAt_some (s : JS.str) (i : Z) :
  0 <= i < JS.len s -> exists cp, Unicode.codePointAt s i = Some cp.
Proof.
  intros H. unfold Unicode.codePointAt, Unicode.charCodeAt at 1.
  destruct (i <? 0) eqn:E; [lia|].
  destruct (nth_error s (Z.to_nat i)) as [hi|] eqn:N.
  - destruct ((55296 <=? hi) && (hi <=? 56319)); [|eauto].
    destruct (Unicode.charCodeAt s (i + 1)) as [lo|]; [|eauto].
    destruct (Unicode.isSurrogatePair lo); eauto.
  - apply nth_error_None in N. unfold JS.len in H. lia.
Qed.

Lemma codePointAt_nonneg (s : JS.str) (i cp : Z) :
  codeUnits s -> Unicode.codePointAt s i = Some cp -> 0 <= cp.
Proof.
  intros U. unfold Unicode.codePointAt.
  assert (C : forall j c, Unicode.charCodeAt s j = Some c -> 0 <= c < 65536).
  { intros j c. unfold Unicode.charCodeAt. destruct (j <? 0); [discriminate|].
    intros N. apply nth_error_In in N.
    unfold codeUnits in U. rewrite Forall_forall in U. exact (U c N). }
  destruct (Unicode.charCodeAt s i) as [hi|] eqn:Ehi; [|discriminate].
  pose proof (C _ _ Ehi).
  destruct ((55296 <=? hi) && (hi <=? 56319)) eqn:Eh; [|intros [= <-]; lia].
  destruct (Unicode.charCodeAt s (i + 1)) as [lo|] eqn:Elo; [|intros [= <-]; lia].
  unfold Unicode.isSurrogatePair.
  destruct ((56320 <=? lo) && (lo <=? 57343)) eqn:El; [|intros [= <-]; lia].
  intros [= <-]. lia.
Qed.

Lemma advanced_offset (x : Tokenizer.t) :
  Tokenizer.offset (advanced x) = Tokenizer.offset x.
Proof. apply advanced_same. Qed.

Lemma advanced_text (x : Tokenizer.t) : Tokenizer.text (advanced x) = Tokenizer.text x.
Proof. apply advanced_same. Qed.

Lemma advanced_gaps (x : Tokenizer.t) : Tokenizer.gaps (advanced x) = Tokenizer.gaps x.
Proof. apply advanced_same. Qed.

Lemma advanced_errors (x : Tokenizer.t) :
  Tokenizer.errors (advanced x) = Tokenizer.errors x.
Proof. apply advanced_same. Qed.

Lemma advanced_lastCodePoint (x : Tokenizer.t) :
  Tokenizer.lastCodePoint (advanced x) = Tokenizer.lastCodePoint x.
Proof. apply advanced_same. Qed.

(** After a LINE FEED, [advanceLocation] starts a line. *)
Lemma advanced_line (x : Tokenizer.t) :
  Tokenizer.lastCodePoint x = Unicode.LINE_FEED ->
  Tokenizer.lineTerminators (advanced x)
  = Tokenizer.lineTerminators x ++ [Tokenizer.offset x]
  /\ Tokenizer.line (advanced x) = Tokenizer.line x + 1
  /\ Tokenizer.column (advanced x) = 0.
Proof. intros H. unfold advanced. rewrite H. cbn. repeat split. Qed.

(** Elsewhere it stays on the line. *)
Lemma advanced_column (x : Tokenizer.t) :
  Tokenizer.lastCodePoint x <> Unicode.LINE_FEED ->
  Tokenizer.lineTerminators (advanced x) = Tokenizer.lineTerminators x
  /\ Tokenizer.line (advanced x) = Tokenizer.line x.
Proof.
  intros H. unfold advanced.
  destruct (Tokenizer.lastCodePoint x =? Unicode.LINE_FEED) eqn:E; [|repeat split].
  apply Z.eqb_eq in E. contradiction.
Qed.

(** The fields of a tokenizer under the steps of [consumeNextCodePoint]. *)
Ltac fields :=
  repeat first
    [ rewrite advanced_offset | rewrite advanced_text | rewrite advanced_gaps
    | rewrite advanced_errors | rewrite advanced_lastCodePoint
    | progress change (Tokenizer.text (Tokenizer.set_lastCodePoint ?v ?s)) with (Tokenizer.text s)
    | progress change (Tokenizer.offset (Tokenizer.set_lastCodePoint ?v ?s)) with (Tokenizer.offset s)
    | progress change (Tokenizer.gaps (Tokenizer.set_lastCodePoint ?v ?s)) with (Tokenizer.gaps s)
    | progress change (Tokenizer.lineTerminators (Tokenizer.set_lastCodePoint ?v ?s)) with (Tokenizer.lineTerminators s)
    | progress change (Tokenizer.line (Tokenizer.set_lastCodePoint ?v ?s)) with (Tokenizer.line s)
    | progress change (Tokenizer.column (Tokenizer.set_lastCodePoint ?v ?s)) with (Tokenizer.column s)
    | progress change (Tokenizer.errors (Tokenizer.set_lastCodePoint ?v ?s)) with (Tokenizer.errors s)
    | progress change (Tokenizer.text (Tokenizer.set_gaps ?v ?s)) with (Tokenizer.text s)
    | progress change (Tokenizer.offset (Tokenizer.set_gaps ?v ?s)) with (Tokenizer.offset s)
    | progress change (Tokenizer.lineTerminators (Tokenizer.set_gaps ?v ?s)) with (Tokenizer.lineTerminators s)
    | progress change (Tokenizer.line (Tokenizer.set_gaps ?v ?s)) with (Tokenizer.line s)
    | progress change (Tokenizer.column (Tokenizer.set_gaps ?v ?s)) with (Tokenizer.column s)
    | progress change (Tokenizer.lastCodePoint (Tokenizer.set_gaps ?v ?s)) with (Tokenizer.lastCodePoint s)
    | progress change (Tokenizer.errors (Tokenizer.set_gaps ?v ?s)) with (Tokenizer.errors s)
    | progress change (Tokenizer.text (withErrors ?v ?s)) with (Tokenizer.text s)
    | progress change (Tokenizer.offset (withErrors ?v ?s)) with (Tokenizer.offset s)
    | progress change (Tokenizer.gaps (withErrors ?v ?s)) with (Tokenizer.gaps s)
    | progress change (Tokenizer.lineTerminators (withErrors ?v ?s)) with (Tokenizer.lineTerminators s)
    | progress change (Tokenizer.line (withErrors ?v ?s)) with (Tokenizer.line s)
    | progress change (Tokenizer.column (withErrors ?v ?s)) with (Tokenizer.column s)
    | progress change (Tokenizer.lastCodePoint (withErrors ?v ?s)) with (Tokenizer.lastCodePoint s)
    | progress change (Tokenizer.text (stepped ?s)) with (Tokenizer.text s)
    | progress change (Tokenizer.gaps (stepped ?s)) with (Tokenizer.gaps s)
    | progress change (Tokenizer.lineTerminators (stepped ?s)) with (Tokenizer.lineTerminators s)
    | progress change (Tokenizer.line (stepped ?s)) with (Tokenizer.line s)
    | progress change (Tokenizer.column (stepped ?s)) with (Tokenizer.column s)
    | progress change (Tokenizer.lastCodePoint (stepped ?s)) with (Tokenizer.lastCodePoint s)
    | progress change (Tokenizer.errors (stepped ?s)) with (Tokenizer.errors s)
    | progress change (Tokenizer.lastCodePoint (Tokenizer.set_lastCodePoint ?v ?s)) with v
    | progress change (Tokenizer.gaps (Tokenizer.set_gaps ?v ?s)) with v ].

(** X17.  From a place at or after the start of the text (the offset of a
    new tokenizer is -1), [consumeNextCodePoint] returns and throws
    nothing; what it returns is never a CARRIAGE RETURN; and the offset
    does not go back. *)
Theorem X17_no_carriage_return_is_read (x : Tokenizer.t) :
  -1 <= Tokenizer.offset x ->
  exists cp y,
    Tokenizer.consumeNextCodePoint x = Ok cp y
    /\ cp <> Unicode.CARRIAGE_RETURN
    /\ Tokenizer.offset x <= Tokenizer.offset y.
Proof.
  intros H. unfold Tokenizer.consumeNextCodePoint.
  pose proof (stepped_offset x) as S1.
  destruct (consume_cases 1 x) as [(A & E)|[(A & B & E)|[(A & B & N & E)|
    (cp & more & A & B & C & [(L & F & E)|(L & E)])]]]; rewrite E; clear E.
  - eexists _, _. split; [reflexivity|]. split; [discriminate|]. fields. lia.
  - eexists _, _. split; [reflexivity|]. split; [discriminate|]. fields. lia.
  - destruct (codePointAt_some (Tokenizer.text x) (Tokenizer.offset (stepped x)))
      as [c Ec]; [lia|]. rewrite Ec in N. discriminate N.
  - match goal with
    | |- context [Tokenizer.consumeNextCodePoint_rec 1 ?s] => set (x3 := s)
    end.
    assert (O3 : Tokenizer.offset x3 = Tokenizer.offset (stepped x)) by reflexivity.
    assert (T3 : Tokenizer.text x3 = Tokenizer.text x) by reflexivity.
    assert (L3 : Tokenizer.lastCodePoint x3 = Unicode.LINE_FEED) by reflexivity.
    pose proof (stepped_offset x3) as S3.
    destruct (consume_cases 0 x3) as [(A' & E)|[(A' & B' & E)|[(A' & B' & N & E)|
      (cp' & more' & A' & B' & C' & [(L' & F' & E)|(L' & E)])]]]; rewrite E; clear E.
    + eexists _, _. split; [reflexivity|]. split; [discriminate|]. fields. lia.
    + eexists _, _. split; [reflexivity|]. split; [discriminate|]. fields. lia.
    + destruct (codePointAt_some (Tokenizer.text x3) (Tokenizer.offset (stepped x3)))
        as [c Ec]; [lia|]. rewrite Ec in N. discriminate N.
    + rewrite L3 in L'. discriminate L'.
    + eexists _, _. split; [reflexivity|]. split.
      * destruct (cp' =? Unicode.CARRIAGE_RETURN) eqn:Q; [discriminate|].
        apply Z.eqb_neq. exact Q.
      * fields. lia.
  - eexists _, _. split; [reflexivity|]. split.
    + destruct (cp =? Unicode.CARRIAGE_RETURN) eqn:Q; [discriminate|].
      apply Z.eqb_neq. exact Q.
    + fields. lia.
Qed.

(** The first code point of a new tokenizer on the text of a CARRIAGE
    RETURN alone is read as a LINE FEED. *)
Lemma X17_witness :
  exists cp y,
    Tokenizer.consumeNextCodePoint (Tokenizer.new [13]) = Ok cp y
    /\ cp <> Unicode.CARRIAGE_RETURN
    /\ Tokenizer.offset (Tokenizer.new [13]) <= Tokenizer.offset y.
Proof. apply (X17_no_carriage_return_is_read (Tokenizer.new [13])). simpl. lia. Defined.

Lemma charCodeAt_bound (s : JS.str) (i c : Z) :
  Unicode.charCodeAt s i = Some c -> 0 <= i < JS.len s.
Proof.
  unfold Unicode.charCodeAt. destruct (i <? 0) eqn:E; [discriminate|].
  intros N. assert (nth_error s (Z.to_nat i) <> None) as L by congruence.
  apply nth_error_Some in L. unfold JS.len. lia.
Qed.

Lemma codePointAt_unit (s : JS.str) (i c : Z) :
  Unicode.charCodeAt s i = Some c -> c < 55296 -> Unicode.codePointAt s i = Some c.
Proof.
  intros H L. unfold Unicode.codePointAt. rewrite H.
  destruct (55296 <=? c) eqn:E; [lia|reflexivity].
Qed.

Lemma codePointAt_none (s : JS.str) (i : Z) :
  JS.len s <= i -> Unicode.codePointAt s i = None.
Proof.
  intros H. unfold Unicode.codePointAt, Unicode.charCodeAt.
  destruct (i <? 0); [reflexivity|].
  destruct (nth_error s (Z.to_nat i)) eqn:N; [|reflexivity].
  assert (nth_error s (Z.to_nat i) <> None) as L by congruence.
  apply nth_error_Some in L. unfold JS.len in H. lia.
Qed.

Lemma stepped_unit (x : Tokenizer.t) :
  Tokenizer.lastCodePoint x < 65536 ->
  Tokenizer.offset (stepped x) = Tokenizer.offset x + 1.
Proof.
  intros H. unfold stepped. cbn.
  destruct (65536 <=? Tokenizer.lastCodePoint x) eqn:E; [lia|reflexivity].
Qed.

(** The code point read after a LINE FEED starts a line. *)
Lemma consume_after_line_feed (n : nat) (x : Tokenizer.t) :
  Tokenizer.lastCodePoint x = Unicode.LINE_FEED ->
  -1 <= Tokenizer.offset x < JS.len (Tokenizer.text x) ->
  exists z,
    Tokenizer.consumeNextCodePoint_rec (S n) x
    = Ok match Unicode.codePointAt (Tokenizer.text x) (Tokenizer.offset x + 1) with
         | Some c => if c =? Unicode.CARRIAGE_RETURN then Unicode.LINE_FEED else c
         | None => Unicode.EOF
         end z
    /\ Tokenizer.offset z = Tokenizer.offset x + 1
    /\ Tokenizer.gaps z = Tokenizer.gaps x
    /\ Tokenizer.lineTerminators z
       = Tokenizer.lineTerminators x ++ [Tokenizer.offset x + 1]
    /\ Tokenizer.line z = Tokenizer.line x + 1
    /\ Tokenizer.column z = 0.
Proof.
  intros L H.
  assert (S1 : Tokenizer.offset (stepped x) = Tokenizer.offset x + 1)
    by (apply stepped_unit; rewrite L; reflexivity).
  assert (W : forall more v,
    let z := Tokenizer.set_lastCodePoint v (advanced (withErrors more (stepped x))) in
    Tokenizer.offset z = Tokenizer.offset x + 1
    /\ Tokenizer.gaps z = Tokenizer.gaps x
    /\ Tokenizer.lineTerminators z
       = Tokenizer.lineTerminators x ++ [Tokenizer.offset x + 1]
    /\ Tokenizer.line z = Tokenizer.line x + 1
    /\ Tokenizer.column z = 0).
  { intros more v z. subst z.
    destruct (advanced_line (withErrors more (stepped x))) as (A1 & A2 & A3);
      [exact L|].
    split; [fields; exact S1|]. split; [fields; reflexivity|].
    split; [|split].
    - change (Tokenizer.lineTerminators (Tokenizer.set_lastCodePoint v ?s))
        with (Tokenizer.lineTerminators s).
      rewrite A1. fields. rewrite S1. reflexivity.
    - change (Tokenizer.line (Tokenizer.set_lastCodePoint v ?s)) with (Tokenizer.line s).
      rewrite A2. reflexivity.
    - change (Tokenizer.column (Tokenizer.set_lastCodePoint v ?s))
        with (Tokenizer.column s).
      exact A3. }
  destruct (consume_cases n x) as [(A & E)|[(A & B & E)|[(A & B & N & E)|
    (cp & more & A & B & C & [(L' & F & E)|(L' & E)])]]]; rewrite E; clear E.
  - lia.
  - rewrite S1 in B. rewrite (codePointAt_none _ _ B).
    rewrite <- (withErrors_nil (stepped x)).
    eexists. split; [reflexivity|]. apply W.
  - destruct (codePointAt_some (Tokenizer.text x) (Tokenizer.offset (stepped x)))
      as [c Ec]; [lia|]. rewrite Ec in N. discriminate N.
  - rewrite L in L'. discriminate L'.
  - rewrite S1 in C. rewrite C.
    eexists. split; [reflexivity|]. apply W.
Qed.

(** X18.  A CARRIAGE RETURN and the LINE FEED after it are read as one
    LINE FEED: the first call of [consumeNextCodePoint] returns LINE FEED
    at the CARRIAGE RETURN; the second call skips the LINE FEED, records
    its offset in [gaps], and returns the code point after it (or EOF),
    which starts a line: its offset is added to [lineTerminators], the
    line goes up by one and the column is 0. *)
Theorem X18_crlf_is_one_line_feed (x : Tokenizer.t) (o : Z) :
  Tokenizer.offset (stepped x) = o ->
  Unicode.charCodeAt (Tokenizer.text x) o = Some Unicode.CARRIAGE_RETURN ->
  Unicode.charCodeAt (Tokenizer.text x) (o + 1) = Some Unicode.LINE_FEED ->
  exists y z,
    Tokenizer.consumeNextCodePoint x = Ok Unicode.LINE_FEED y
    /\ Tokenizer.offset y = o
    /\ Tokenizer.consumeNextCodePoint y
       = Ok match Unicode.codePointAt (Tokenizer.text x) (o + 2) with
            | Some c => if c =? Unicode.CARRIAGE_RETURN then Unicode.LINE_FEED else c
            | None => Unicode.EOF
            end z
    /\ Tokenizer.offset z = o + 2
    /\ Tokenizer.gaps z = Tokenizer.gaps x ++ [o + 1]
    /\ Tokenizer.lineTerminators z = Tokenizer.lineTerminators y ++ [o + 2]
    /\ Tokenizer.line z = Tokenizer.line y + 1
    /\ Tokenizer.column z = 0.
Proof.
  intros Ho Hr Hn. unfold Tokenizer.consumeNextCodePoint.
  pose proof (charCodeAt_bound _ _ _ Hr) as Br.
  pose proof (charCodeAt_bound _ _ _ Hn) as Bn.
  pose proof (stepped_offset x) as S1. rewrite Ho in S1.
  assert (Cr : Unicode.codePointAt (Tokenizer.text x) o = Some Unicode.CARRIAGE_RETURN)
    by (apply codePointAt_unit; [exact Hr|reflexivity]).
  assert (Cn : Unicode.codePointAt (Tokenizer.text x) (o + 1) = Some Unicode.LINE_FEED)
    by (apply codePointAt_unit; [exact Hn|reflexivity]).
  destruct (consume_cases 1 x) as [(A & E)|[(A & B & E)|[(A & B & N & E)|
    (cp & more & A & B & C & [(L & F & E)|(L & E)])]]];
    rewrite ?Ho in *; try lia; try congruence;
    rewrite Cr in C; injection C as <-; [discriminate F|].
  rewrite E. clear E.
  match goal with |- context [Ok _ ?s] => set (y := s) end.
  exists y.
  assert (Ty : Tokenizer.text y = Tokenizer.text x) by (subst y; fields; reflexivity).
  assert (Oy : Tokenizer.offset y = o) by (subst y; fields; exact Ho).
  assert (Ly : Tokenizer.lastCodePoint y = Unicode.CARRIAGE_RETURN) by reflexivity.
  assert (Gy : Tokenizer.gaps y = Tokenizer.gaps x) by (subst y; fields; reflexivity).
  assert (Sy : Tokenizer.offset (stepped y) = o + 1)
    by (rewrite stepped_unit; [lia|rewrite Ly; reflexivity]).
  destruct (consume_cases 1 y) as [(A' & E)|[(A' & B' & E)|[(A' & B' & N & E)|
    (cp & more' & A' & B' & C' & [(L' & F & E)|([L'|L'] & E)])]]];
    rewrite ?Ty, ?Sy in *; try lia; try congruence;
    rewrite Cn in C'; injection C' as <-; try contradiction.
  match type of E with _ = Tokenizer.consumeNextCodePoint_rec 1 ?s => set (x3 := s) in E end.
  destruct (consume_after_line_feed 0 x3) as (z & Ez & Z1 & Z2 & Z3 & Z4 & Z5).
  { reflexivity. }
  { subst x3. fields. rewrite Ty, Sy. lia. }
  assert (O3 : Tokenizer.offset x3 = o + 1) by (subst x3; fields; exact Sy).
  assert (T3 : Tokenizer.text x3 = Tokenizer.text x) by (subst x3; fields; exact Ty).
  rewrite O3, T3 in *.
  replace (o + 1 + 1) with (o + 2) in * by lia.
  exists z. split; [reflexivity|]. split; [exact Oy|].
  split; [rewrite E; exact Ez|]. split; [exact Z1|].
  split; [rewrite Z2; subst x3; fields; rewrite Sy, Gy; reflexivity|].
  split; [rewrite Z3; subst x3; fields; reflexivity|].
  split; [rewrite Z4; subst x3; fields; reflexivity|exact Z5].
Qed.

(** On the text of a CARRIAGE RETURN, a LINE FEED and [b]: the two calls
    give LINE FEED and [b]; [b] is at offset 2, on line 2. *)
Lemma X18_witness :
  exists y z,
    Tokenizer.consumeNextCodePoint (Tokenizer.new [13; 10; 98]) = Ok 10 y
    /\ Tokenizer.offset y = 0
    /\ Tokenizer.consumeNextCodePoint y = Ok 98 z
    /\ Tokenizer.offset z = 2
    /\ Tokenizer.gaps z = [1]
    /\ Tokenizer.lineTerminators z = Tokenizer.lineTerminators y ++ [2]
    /\ Tokenizer.line z = Tokenizer.line y + 1
    /\ Tokenizer.column z = 0.
Proof.
  exact (X18_crlf_is_one_line_feed (Tokenizer.new [13; 10; 98]) 0
           eq_refl eq_refl eq_refl).
Defined.

(** At the end of the text, with EOF as the last code point, a call
    changes nothing. *)
Lemma consume_at_end (n : nat) (y : Tokenizer.t) :
  JS.len (Tokenizer.text y) <= Tokenizer.offset y ->
  Tokenizer.lastCodePoint y = Unicode.EOF ->
  Tokenizer.consumeNextCodePoint_rec (S n) y = Ok Unicode.EOF y.
Proof.
  intros H L. cbn [Tokenizer.consumeNextCodePoint_rec].
  unfold bind, gets, modify, ret.
  destruct (JS.len (Tokenizer.text y) <=? Tokenizer.offset y) eqn:E; [|lia].
  destruct y. cbn in *. subst. reflexivity.
Qed.

(** EOF is returned at the end of the text only. *)
Lemma consume_returns_EOF (n : nat) :
  forall x y,
    codeUnits (Tokenizer.text x) ->
    Tokenizer.consumeNextCodePoint_rec n x = Ok Unicode.EOF y ->
    JS.len (Tokenizer.text y) <= Tokenizer.offset y
    /\ Tokenizer.lastCodePoint y = Unicode.EOF.
Proof.
  induction n as [|n IH]; intros x y U H; [discriminate H|].
  destruct (consume_cases n x) as [(A & E)|[(A & B & E)|[(A & B & N & E)|
    (cp & more & A & B & C & [(L & F & E)|(L & E)])]]]; rewrite E in H; clear E.
  - injection H as <-. split; [fields; exact A|reflexivity].
  - injection H as <-. split; [fields; exact B|reflexivity].
  - discriminate H.
  - apply IH in H; [exact H|exact U].
  - pose proof (codePointAt_nonneg _ _ _ U C) as P.
    injection H as H _. exfalso.
    destruct (cp =? Unicode.CARRIAGE_RETURN); [discriminate H|].
    unfold Unicode.EOF in H. lia.
Qed.

(** X19.  On a text of code units, once [consumeNextCodePoint] has
    returned EOF, the tokenizer is at the end of the text, and
    every further call returns EOF and leaves the tokenizer as it is. *)
Theorem X19_end_of_text_stays (x y : Tokenizer.t) :
  codeUnits (Tokenizer.text x) ->
  Tokenizer.consumeNextCodePoint x = Ok Unicode.EOF y ->
  JS.len (Tokenizer.text y) <= Tokenizer.offset y
  /\ Tokenizer.consumeNextCodePoint y = Ok Unicode.EOF y.
Proof.
  intros U H. unfold Tokenizer.consumeNextCodePoint in *.
  destruct (consume_returns_EOF 2 x y U H) as [A L].
  split; [exact A|]. apply consume_at_end; assumption.
Qed.

(** On the text [a], read up to [a]: the next call returns EOF, and so
    does the call after it, at offset 1. *)
Lemma X19_witness :
  let x := Tokenizer.set_lastCodePoint 97 (Tokenizer.set_offset 0 (Tokenizer.new [97])) in
  let y := Tokenizer.set_column 0 (Tokenizer.set_lastCodePoint Unicode.EOF
             (Tokenizer.set_offset 1 x)) in
  JS.len (Tokenizer.text y) <= Tokenizer.offset y
  /\ Tokenizer.consumeNextCodePoint y = Ok Unicode.EOF y.
Proof.
  intros x y. apply (X19_end_of_text_stays x y).
  - repeat constructor; simpl; lia.
  - reflexivity.
Defined.

(* ================================================================== *)
(** * The places of the text that the tokenizer records *)
(* ================================================================== *)

Lemma risingTo_mono (top top' : Z) (l : list Z) :
  top <= top' -> risingTo top l -> risingTo top' l.
Proof.
  intros H. induction l as [|a l IH]; simpl; [trivial|].
  intros (A & B & C). split; [lia|]. split; [exact B|exact (IH C)].
Qed.

Lemma risingTo_snoc (v : Z) (l : list Z) :
  risingTo (v - 1) l -> risingTo v (l ++ [v]).
Proof.
  induction l as [|a l IH]; simpl.
  - intros _. split; [lia|]. split; [constructor|trivial].
  - intros (A & B & C). split; [lia|]. split; [|exact (IH C)].
    apply Forall_app. split; [exact B|]. constructor; [lia|constructor].
Qed.

Lemma located_frame (x y : Tokenizer.t) : sameReading x y -> located x -> located y.
Proof.
  intros (_ & G & T & _ & O & _ & L & _) (A & B & C). unfold located.
  rewrite <- G, <- T, <- O, <- L. repeat split; assumption.
Qed.

(** One step further, with [advanceLocation] done, the books are right
    again. *)
Lemma located_advanced (more : list ParseError) (x : Tokenizer.t) :
  located x -> located (advanced (withErrors more (stepped x))).
Proof.
  intros (A & B & C). pose proof (stepped_offset x) as S1.
  set (s := withErrors more (stepped x)).
  assert (Os : Tokenizer.offset s = Tokenizer.offset (stepped x)) by reflexivity.
  unfold located. rewrite advanced_offset, advanced_gaps, Os.
  destruct (Tokenizer.lastCodePoint s =? Unicode.LINE_FEED) eqn:E.
  - apply Z.eqb_eq in E. destruct (advanced_line s E) as (L1 & L2 & _).
    rewrite L1, L2, Os. subst s. fields.
    split; [rewrite length_app; cbn [length]; lia|]. split.
    + apply risingTo_snoc. apply risingTo_mono with (2 := B). lia.
    + apply risingTo_mono with (2 := C). lia.
  - apply Z.eqb_neq in E. destruct (advanced_column s E) as (L1 & L2).
    rewrite L1, L2. subst s. fields.
    split; [exact A|]. split.
    + apply risingTo_mono with (2 := B). lia.
    + apply risingTo_mono with (2 := C). lia.
Qed.

Lemma located_consumeNextCodePoint_rec (n : nat) :
  keeps located (Tokenizer.consumeNextCodePoint_rec n).
Proof.
  induction n as [|n IH]; [apply keeps_throw|].
  intros x Hx.
  destruct (consume_cases n x) as [(A & E)|[(A & B & E)|[(A & B & N & E)|
    (cp & more & A & B & C & [(L & F & E)|(L & E)])]]]; rewrite E; clear E.
  - exact Hx.
  - rewrite <- (withErrors_nil (stepped x)).
    exact (located_advanced [] x Hx).
  - destruct Hx as (H1 & H2 & H3). pose proof (stepped_offset x) as S1.
    split; [exact H1|]. split.
    + apply risingTo_mono with (2 := H2). fields. lia.
    + apply risingTo_mono with (2 := H3). fields. lia.
  - apply IH. destruct Hx as (H1 & H2 & H3). pose proof (stepped_offset x) as S1.
    unfold located. fields.
    split; [exact H1|]. split.
    + apply risingTo_mono with (2 := H2). lia.
    + apply risingTo_snoc. apply risingTo_mono with (2 := H3). lia.
  - exact (located_advanced more x Hx).
Qed.

Lemma located_serve (cs : list Client) :
  forall x tokens y, located x -> serve cs x = Some (tokens, y) -> located y.
Proof.
  induction cs as [|c cs IH]; intros x tokens y Hx Hs; simpl in Hs.
  - inversion Hs; subst. exact Hx.
  - destruct c.
    + assert (Hn : keeps located Tokenizer.nextToken).
      { apply Reading.reads_nextToken.
        - exact located_frame.
        - apply located_consumeNextCodePoint_rec.
        - intros c. apply keeps_modify. intros s Hl. exact Hl.
        - intros s (H1 & H2 & H3). unfold located. cbn.
          split; [exact H1|]. split.
          + apply risingTo_mono with (2 := H2). lia.
          + apply risingTo_mono with (2 := H3). lia. }
      specialize (Hn x Hx).
      destruct (Tokenizer.nextToken x) as [token x'|e x']; [|discriminate].
      destruct (serve cs x') as [[tokens' y']|] eqn:Es; [|discriminate].
      inversion Hs; subst. exact (IH _ _ _ Hn Es).
    + apply (IH (Tokenizer.set_state s x) tokens y); [|exact Hs].
      apply (located_frame x); [repeat split|exact Hx].
    + apply (IH (Tokenizer.set_expressionEnabled b x) tokens y); [|exact Hs].
      apply (located_frame x); [repeat split|exact Hx].
    + apply (IH (Tokenizer.set_errors (Tokenizer.errors x ++ [e]) x) tokens y);
        [|exact Hs].
      destruct Hx as (H1 & H2 & H3). repeat split; assumption.
Qed.

(** X20.  A tokenizer serves any client: whatever the text and whatever
    the client does between two calls of [nextToken], the line of the
    tokenizer is one more than the number of the line terminators it has
    recorded, and the line terminators and the gaps it has recorded go up
    strictly and are at most its offset. *)
Theorem X20_lines_and_gaps_recorded (text : JS.str) (cs : list Client)
    (tokens : list Token) (y : Tokenizer.t) :
  serve cs (Tokenizer.new text) = Some (tokens, y) ->
  Tokenizer.line y = 1 + Z.of_nat (length (Tokenizer.lineTerminators y))
  /\ risingTo (Tokenizer.offset y) (Tokenizer.lineTerminators y)
  /\ risingTo (Tokenizer.offset y) (Tokenizer.gaps y).
Proof.
  intros H. apply (located_serve cs (Tokenizer.new text) tokens y); [|exact H].
  repeat split.
Qed.

(** The text of [a], a CARRIAGE RETURN, a LINE FEED, [b], a LINE FEED and
    [c]: at the end the tokenizer is on line 3, with the line terminators
    3 and 5 and the gap 2. *)
Lemma X20_witness :
  let cs := [Next; Next; Next; Next; Next; Next] in
  let text := [97; 13; 10; 98; 10; 99] in
  exists tokens y,
    serve cs (Tokenizer.new text) = Some (tokens, y)
    /\ Tokenizer.lineTerminators y = [3; 5]
    /\ Tokenizer.gaps y = [2]
    /\ Tokenizer.line y = 1 + Z.of_nat (length (Tokenizer.lineTerminators y))
    /\ risingTo (Tokenizer.offset y) (Tokenizer.lineTerminators y)
    /\ risingTo (Tokenizer.offset y) (Tokenizer.gaps y).
Proof.
  intros cs text.
  destruct (serve cs (Tokenizer.new text)) as [[tokens y]|] eqn:E;
    [|vm_compute in E; discriminate E].
  exists tokens, y. split; [reflexivity|].
  pose proof (X20_lines_and_gaps_recorded text cs tokens y E) as H.
  vm_compute in E. injection E as <- <-.
  split; [reflexivity|]. split; [reflexivity|]. exact H.
Defined.

(* ================================================================== *)
(** * The errors of the tokenizer *)
(* ================================================================== *)

Lemma errorsFrom_frame (base : list ParseError) (x y : Tokenizer.t) :
  sameReading x y -> errorsFrom base x -> errorsFrom base y.
Proof.
  intros (_ & _ & _ & _ & _ & _ & _ & E) [more H]. exists more. now rewrite <- E.
Qed.

Lemma errorsFrom_consumeNextCodePoint_rec (base : list ParseError) (n : nat) :
  keeps (errorsFrom base) (Tokenizer.consumeNextCodePoint_rec n).
Proof.
  induction n as [|n IH]; [apply keeps_throw|].
  intros x [m Hx].
  destruct (consume_cases n x) as [(A & E)|[(A & B & E)|[(A & B & N & E)|
    (cp & more & A & B & C & [(L & F & E)|(L & E)])]]]; rewrite E; clear E.
  - exists m. exact Hx.
  - exists m. unfold errorsFrom. fields. exact Hx.
  - exists m. exact Hx.
  - apply IH. exists (m ++ more). cbn. rewrite Hx. now rewrite app_assoc.
  - exists (m ++ more). fields. cbn. rewrite Hx. now rewrite app_assoc.
Qed.

(** X21.  [nextToken] only adds to the errors of the tokenizer: however
    the call ends, with a token, with [null] or with an exception, the
    errors that were there are there still, in their order, at the front
    of the list. *)
Theorem X21_errors_only_grow (x : Tokenizer.t) :
  match Tokenizer.nextToken x with
  | Ok _ y | Throw _ y =>
      exists more, Tokenizer.errors y = Tokenizer.errors x ++ more
  end.
Proof.
  assert (H : keeps (errorsFrom (Tokenizer.errors x)) Tokenizer.nextToken).
  { apply Reading.reads_nextToken.
    - apply errorsFrom_frame.
    - apply errorsFrom_consumeNextCodePoint_rec.
    - intros c. apply keeps_modify. intros s [m Hs].
      eexists (m ++ [_]). cbn. rewrite Hs. now rewrite app_assoc.
    - intros s [m Hs]. exists m. exact Hs. }
  specialize (H x). unfold errorsFrom in H.
  destruct (Tokenizer.nextToken x); apply H; exists []; now rewrite app_nil_r.
Qed.
